(** * pyunicorn: the network-measure kernels of [core/_ext/numerics.pyx]

    A shallow embedding of the Cython kernels of
    [src/pyunicorn/core/_ext/numerics.pyx] and the properties of the
    specification that concern them.

    Conventions of the embedding.
    - A typed buffer [ndarray[T, ndim=1]] is a [list]; a two-dimensional
      buffer is a list of rows.  Indices are natural numbers; an access
      outside the buffer raises [IndexError].
    - The elements of integer buffers ([ADJ_t], [DEGREE_t], [MASK_t]) and
      counters are embedded as [Z].  Their ctypedefs live in
      [core/_ext/types], which is not part of the sources at hand; the
      kernels themselves pass [NODE_t] buffers to C as [int*], so [NODE_t]
      is a C [int] of 32 bits, and a product formed in [NODE_t] wraps
      around ([node_mul]).  Node identifiers ([NODE_t]) used as indices
      are [nat].
    - Floating point element types ([DWEIGHT_t], [DFIELD_t], [FIELD_t],
      [double]) are embedded as exact rationals [Q]; rounding is not
      modelled.  Division follows Cython's default ([cdivision=False]): a
      zero divisor raises [ZeroDivisionError].
    - Calls to the random generator are replaced by an explicit list of the
      values drawn, in the order in which the kernel draws them. *)

From Stdlib Require Import ZArith QArith Qabs Qround Lia.
From stdpp Require Import base list.

Local Close Scope Q_scope.
Local Open Scope nat_scope.

(** ** Run-time model: exceptions, buffers, loops *)

Module Py.

(** The Python exceptions the kernels can raise.  [OutOfFuel] is not one
    of them: it marks a [while] loop of the embedding that was given too
    small an iteration bound. *)
Inductive exn : Type :=
| IndexError
| ZeroDivisionError
| ValueError
| OutOfFuel.

Inductive result (T : Type) : Type :=
| Ok (v : T)
| Raise (e : exn).

Arguments Ok {T} v.
Arguments Raise {T} e.

Definition bind {T U : Type} (m : result T) (f : T -> result U) : result U :=
  match m with
  | Ok v => f v
  | Raise e => Raise e
  end.

Definition is_ok {T : Type} (m : result T) : Prop :=
  exists v, m = Ok v.

(** [a[i]] *)
Definition aget {T : Type} (a : list T) (i : nat) : result T :=
  match a !! i with
  | Some v => Ok v
  | None => Raise IndexError
  end.

(** [a[i] = v] *)
Definition aset {T : Type} (a : list T) (i : nat) (v : T) : result (list T) :=
  if decide (i < length a) then Ok (<[i := v]> a) else Raise IndexError.

(** A two-dimensional buffer, row by row. *)
Abbreviation matrix T := (list (list T)) (only parsing).

(** [A[i, j]] *)
Definition mget {T : Type} (A : matrix T) (i j : nat) : result T :=
  bind (aget A i) (fun row => aget row j).

(** [A[i, j] = v] *)
Definition mset {T : Type} (A : matrix T) (i j : nat) (v : T)
  : result (matrix T) :=
  bind (aget A i) (fun row =>
  bind (aset row j v) (fun row' => aset A i row')).

(** [for x in xs: body], threading the loop state [s]. *)
Fixpoint for_each {St I : Type} (xs : list I) (body : I -> St -> result St)
  (s : St) : result St :=
  match xs with
  | [] => Ok s
  | x :: xs' => bind (body x s) (for_each xs' body)
  end.

(** [for i in range(lo, hi): body] *)
Definition for_range {St : Type} (lo hi : nat) (body : nat -> St -> result St)
  (s : St) : result St :=
  for_each (seq lo (hi - lo)) body s.

(** Python truth value of an integer. *)
Definition truthy (z : Z) : bool := negb (z =? 0)%Z.

(** [a and b], [a or b]: the right operand is evaluated only when the left
    one does not decide the result. *)
Definition and_then (a b : result bool) : result bool :=
  bind a (fun x => if x then b else Ok false).

Definition or_else (a b : result bool) : result bool :=
  bind a (fun x => if x then Ok true else b).

(** [x < y] on rationals. *)
Definition Qltb (x y : Q) : bool := negb (Qle_bool y x).

(** [x / y] with a zero check. *)
Definition divide (x y : Q) : result Q :=
  if Qeq_bool y 0 then Raise ZeroDivisionError else Ok (x / y)%Q.

(** The number of bits of [NODE_t].  [_do_nsi_hamming_clustering] hands the
    data of an [ndarray[NODE_t]] to C as [<int*>], so [NODE_t] is a C
    [int]. *)
Definition NODE_bits : Z := 32.

(** The value that a signed integer of [bits] bits holds when the exact
    result of an operation is [z]: [z] itself inside the range, and [z]
    shifted by a multiple of [2 ^ bits] outside of it. *)
Definition wrap (bits z : Z) : Z :=
  ((z + 2 ^ (bits - 1)) mod 2 ^ bits - 2 ^ (bits - 1))%Z.

(** [x * y] on two [NODE_t] values. *)
Definition node_mul (x y : Z) : Z := wrap NODE_bits (x * y).

End Py.

Import Py.

Notation "x <- m ;; f" := (bind m (fun x => f))
  (at level 20, m at level 99, f at level 200, only parsing).
Notation "' pat <- m ;; f" := (bind m (fun x => match x with pat => f end))
  (at level 20, pat pattern, m at level 99, f at level 200, only parsing).

(** ** interacting_networks: writing the cross-adjacency block back *)

(** [overwriteAdjacency(A, cross_A, nodes1, nodes2, m, n)]. The chained
    assignment [A[n1, n2] = A[n2, n1] = cross_A[i, j]] evaluates the right
    hand side once and stores it left to right. *)
Definition overwriteAdjacency (A cross_A : matrix Z) (nodes1 nodes2 : list nat)
  (m n : nat) : result (matrix Z) :=
  for_range 0 m (fun i A =>
    for_range 0 n (fun j A =>
      n1 <- aget nodes1 i ;;
      n2 <- aget nodes2 j ;;
      c <- mget cross_A i j ;;
      A <- mset A n1 n2 c ;;
      mset A n2 n1 c) A) A.

(** ** geo_network: constrained double-edge swaps *)

(** condition C1 *)
Definition cond_len_c1 (D : matrix Q) (eps : Q) (s t k l : nat) : result bool :=
  or_else
    (and_then
       (x <- mget D s t ;; y <- mget D k t ;; Ok (Qltb (Qabs (x - y)) eps))
       (x <- mget D k l ;; y <- mget D s l ;; Ok (Qltb (Qabs (x - y)) eps)))
    (and_then
       (x <- mget D s t ;; y <- mget D s l ;; Ok (Qltb (Qabs (x - y)) eps))
       (x <- mget D k l ;; y <- mget D k t ;; Ok (Qltb (Qabs (x - y)) eps))).

(** condition C2 *)
Definition cond_len_c2 (D : matrix Q) (eps : Q) (s t k l : nat) : result bool :=
  and_then
    (x <- mget D s t ;; y <- mget D s l ;; Ok (Qltb (Qabs (x - y)) eps))
    (and_then
       (x <- mget D t s ;; y <- mget D t k ;; Ok (Qltb (Qabs (x - y)) eps))
       (and_then
          (x <- mget D k l ;; y <- mget D k t ;; Ok (Qltb (Qabs (x - y)) eps))
          (x <- mget D l k ;; y <- mget D l s ;; Ok (Qltb (Qabs (x - y)) eps)))).

(** invariance of degree-degree correlations *)
Definition cond_deg_corr (degree : list Z) (s t k l : nat) : result bool :=
  and_then
    (x <- aget degree s ;; y <- aget degree k ;; Ok (x =? y)%Z)
    (x <- aget degree t ;; y <- aget degree l ;; Ok (x =? y)%Z).

Definition rewire_cond_len : Type :=
  matrix Q -> Q -> nat -> nat -> nat -> nat -> result bool.

(** A [rewire_cond_deg] function pointer; [None] is [NULL]. *)
Definition rewire_cond_deg : Type :=
  option (list Z -> nat -> nat -> nat -> nat -> result bool).

(** tautology *)
Definition cond_deg_true : rewire_cond_deg := None.

(** The loop variables of [_randomly_rewire_geomodel] that change: the
    counter [i] and the two buffers mutated in place.  The edge list is an
    [E x 2] buffer, embedded as a list of rows [(source, target)]. *)
Record geo_state : Type := GeoState {
  geo_i : Z;
  geo_A : matrix Z;
  geo_edges : list (nat * nat)
}.

(** [np.floor(rd.random() * E)] stored into a C [int], for the value [r]
    returned by [rd.random()]. *)
Definition random_edge (r : Q) (E : nat) : nat :=
  Z.to_nat (Qfloor (r * inject_Z (Z.of_nat E))).

(** One pass through the body of the [while] loop, for the two values
    that [rd.random()] returns in it. *)
Definition rewire_attempt (eps : Q) (D : matrix Q) (E : nat) (degree : list Z)
  (cond_len : rewire_cond_len) (cond_deg : rewire_cond_deg)
  (draw : Q * Q) (st : geo_state) : result geo_state :=
  let A := geo_A st in
  let edges := geo_edges st in
  let edge1 := random_edge (fst draw) E in
  let edge2 := random_edge (snd draw) E in
  '(s, t) <- aget edges edge1 ;;
  '(k, l) <- aget edges edge2 ;;
  go <- and_then
          (Ok (negb (s =? k) && negb (s =? l) && negb (t =? k) && negb (t =? l)))
          (and_then
             (and_then (x <- mget A s l ;; Ok (x =? 0)%Z)
                       (x <- mget A t k ;; Ok (x =? 0)%Z))
             (and_then
                match cond_deg with
                | None => Ok true
                | Some c => c degree s t k l
                end
                (cond_len D eps s t k l))) ;;
  if go : bool then
    A <- mset A s t 0%Z ;;
    A <- mset A t s 0%Z ;;
    A <- mset A k l 0%Z ;;
    A <- mset A l k 0%Z ;;
    A <- mset A s l 1%Z ;;
    A <- mset A l s 1%Z ;;
    A <- mset A t k 1%Z ;;
    A <- mset A k t 1%Z ;;
    edges <- aset edges edge1 (s, l) ;;
    edges <- aset edges edge2 (k, t) ;;
    Ok (GeoState (geo_i st + 1) A edges)
  else Ok st.

(** [while (i < iterations): ...] run on the finite list [draws] of random
    values.  The loop has left through its test exactly when
    [iterations <= geo_i] in the state returned; otherwise the state is the
    one reached when [draws] is used up and the loop is still running. *)
Fixpoint rewire_loop (iterations : Z) (eps : Q) (D : matrix Q) (E : nat)
  (degree : list Z) (cond_len : rewire_cond_len) (cond_deg : rewire_cond_deg)
  (draws : list (Q * Q)) (st : geo_state) : result geo_state :=
  if (geo_i st <? iterations)%Z then
    match draws with
    | [] => Ok st
    | d :: draws' =>
        st' <- rewire_attempt eps D E degree cond_len cond_deg d st ;;
        rewire_loop iterations eps D E degree cond_len cond_deg draws' st'
    end
  else Ok st.

Definition _randomly_rewire_geomodel (iterations : Z) (eps : Q)
  (A : matrix Z) (D : matrix Q) (E : nat) (edges : list (nat * nat))
  (degree : list Z) (cond_len : rewire_cond_len) (cond_deg : rewire_cond_deg)
  (draws : list (Q * Q)) : result geo_state :=
  rewire_loop iterations eps D E degree cond_len cond_deg draws
    (GeoState 0 A edges).

Definition _randomly_rewire_geomodel_I (iterations : Z) (eps : Q)
  (A : matrix Z) (D : matrix Q) (E : nat) (edges : list (nat * nat))
  (draws : list (Q * Q)) : result geo_state :=
  _randomly_rewire_geomodel iterations eps A D E edges []
    cond_len_c1 cond_deg_true draws.

Definition _randomly_rewire_geomodel_II (iterations : Z) (eps : Q)
  (A : matrix Z) (D : matrix Q) (E : nat) (edges : list (nat * nat))
  (draws : list (Q * Q)) : result geo_state :=
  _randomly_rewire_geomodel iterations eps A D E edges []
    cond_len_c2 cond_deg_true draws.

Definition _randomly_rewire_geomodel_III (iterations : Z) (eps : Q)
  (A : matrix Z) (D : matrix Q) (E : nat) (edges : list (nat * nat))
  (degree : list Z) (draws : list (Q * Q)) : result geo_state :=
  _randomly_rewire_geomodel iterations eps A D E edges degree
    cond_len_c2 (Some cond_deg_corr) draws.

(** ** interacting_networks: cross links *)

(** The state of the loops of [_randomlySetCrossLinks]: how many links have
    been set so far, and the buffer mutated in place. *)
Fixpoint set_cross_links_loop (number_cross_links : nat)
  (draws : list (nat * nat)) (done : nat) (cross_A : matrix Z)
  : result (nat * matrix Z) :=
  if done <? number_cross_links then
    match draws with
    | [] => Ok (done, cross_A)
    | (i, j) :: draws' =>
        x <- mget cross_A i j ;;
        if truthy x then
          set_cross_links_loop number_cross_links draws' done cross_A
        else
          cross_A <- mset cross_A i j 1%Z ;;
          set_cross_links_loop number_cross_links draws' (S done) cross_A
    end
  else Ok (done, cross_A).

(** [_randomlySetCrossLinks]; [draws] lists the pairs
    [randint(m), randint(n)] in the order drawn.  The result is [None] when
    [draws] is used up before the requested number of links is set (the
    kernel is still drawing), and the final [(A, cross_A)] otherwise. *)
Definition _randomlySetCrossLinks (A cross_A : matrix Z)
  (number_cross_links : nat) (nodes1 nodes2 : list nat) (m n : nat)
  (draws : list (nat * nat)) : result (option (matrix Z * matrix Z)) :=
  '(done, cross_A) <- set_cross_links_loop number_cross_links draws 0 cross_A ;;
  if done <? number_cross_links then Ok None
  else
    A <- overwriteAdjacency A cross_A nodes1 nodes2 m n ;;
    Ok (Some (A, cross_A)).

(** The buffers that [_randomlyRewireCrossLinks] mutates, with the number
    of swaps executed so far.  [cross_links] has one row [(a, b)] per cross
    link. *)
Record cross_state : Type := CrossState {
  cr_done : nat;
  cr_cross_A : matrix Z;
  cr_cross_links : list (nat * nat)
}.

(** [cross_links[e, 1] = v] *)
Definition set_target (cross_links : list (nat * nat)) (e v : nat)
  : result (list (nat * nat)) :=
  '(a, _) <- aget cross_links e ;;
  aset cross_links e (a, v).

(** One pass through the [while True] loop for the pair
    [randint(number_cross_links), randint(number_cross_links)] drawn in it,
    followed, when the loop is left, by the swap below it. *)
Definition cross_swap_attempt (draw : nat * nat) (st : cross_state)
  : result cross_state :=
  let cross_A := cr_cross_A st in
  let cross_links := cr_cross_links st in
  let e1 := fst draw in
  let e2 := snd draw in
  '(a, b) <- aget cross_links e1 ;;
  '(c, d) <- aget cross_links e2 ;;
  again <- or_else (x <- mget cross_A a d ;; Ok (truthy x))
                   (x <- mget cross_A c b ;; Ok (truthy x)) ;;
  if again : bool then Ok st
  else
    cross_A <- mset cross_A a b 0%Z ;;
    cross_A <- mset cross_A c d 0%Z ;;
    cross_A <- mset cross_A a d 1%Z ;;
    cross_A <- mset cross_A c b 1%Z ;;
    '(_, b) <- aget cross_links e1 ;;
    '(_, d') <- aget cross_links e2 ;;
    cross_links <- set_target cross_links e1 d' ;;
    cross_links <- set_target cross_links e2 b ;;
    Ok (CrossState (S (cr_done st)) cross_A cross_links).

(** [for _ in range(number_swaps): while True: ...] on the finite list
    [draws]; it stops early, with [cr_done < number_swaps], when [draws]
    is used up. *)
Fixpoint cross_swap_loop (number_swaps : nat) (draws : list (nat * nat))
  (st : cross_state) : result cross_state :=
  if cr_done st <? number_swaps then
    match draws with
    | [] => Ok st
    | d :: draws' =>
        st' <- cross_swap_attempt d st ;;
        cross_swap_loop number_swaps draws' st'
    end
  else Ok st.

(** [_randomlyRewireCrossLinks]; the result is [None] while the kernel is
    still drawing, and the final [(A, cross_A, cross_links)] otherwise.
    [number_cross_links] only bounds the values drawn. *)
Definition _randomlyRewireCrossLinks (A cross_A : matrix Z)
  (cross_links : list (nat * nat)) (nodes1 nodes2 : list nat)
  (number_cross_links number_swaps : nat) (draws : list (nat * nat))
  : result (option (matrix Z * matrix Z * list (nat * nat))) :=
  let m := length nodes1 in
  let n := length nodes2 in
  st <- cross_swap_loop number_swaps draws (CrossState 0 cross_A cross_links) ;;
  if cr_done st <? number_swaps then Ok None
  else
    A <- overwriteAdjacency A (cr_cross_A st) nodes1 nodes2 m n ;;
    Ok (Some (A, cr_cross_A st, cr_cross_links st)).

(** ** interacting_networks: cross transitivity *)

(** The two counters of [_cross_transitivity] after its loops. *)
Definition cross_transitivity_counts (A : matrix Z) (nodes1 nodes2 : list nat)
  : result (Z * Z) :=
  let m := length nodes1 in
  let n := length nodes2 in
  for_range 0 m (fun i acc =>
    n1 <- aget nodes1 i ;;
    for_range 0 n (fun j acc =>
      n2 <- aget nodes2 j ;;
      a12 <- mget A n1 n2 ;;
      if truthy a12 then
        for_range 0 j (fun k '(triangles, triples) =>
          n3 <- aget nodes2 k ;;
          a13 <- mget A n1 n3 ;;
          let triples := if truthy a13 then (triples + 1)%Z else triples in
          closed <- and_then (a23 <- mget A n2 n3 ;; Ok (truthy a23))
                             (a31 <- mget A n3 n1 ;; Ok (truthy a31)) ;;
          let triangles :=
            if closed : bool then (triangles + 1)%Z else triangles in
          Ok (triangles, triples)) acc
      else Ok acc) acc) (0%Z, 0%Z).

Definition _cross_transitivity (A : matrix Z) (nodes1 nodes2 : list nat)
  : result Q :=
  '(triangles, triples) <- cross_transitivity_counts A nodes1 nodes2 ;;
  if truthy triples then Ok (inject_Z triangles / inject_Z triples)%Q
  else Ok 0%Q.

(** The two sums [(T1, T2)] of [_nsi_cross_transitivity] after its loops. *)
Definition nsi_cross_transitivity_sums (A : matrix Z)
  (nodes1 nodes2 : list nat) (node_weights : list Q) : result (Q * Q) :=
  let m := length nodes1 in
  let n := length nodes2 in
  for_range 0 m (fun v acc =>
    node_v <- aget nodes1 v ;;
    weight_v <- aget node_weights node_v ;;
    for_range 0 n (fun p '(T1, T2) =>
      node_p <- aget nodes2 p ;;
      avp <- mget A node_v node_p ;;
      if truthy avp then
        weight_p <- aget node_weights node_p ;;
        let ppv := (weight_p * weight_p * weight_v)%Q in
        let T1 := (T1 + ppv)%Q in
        let T2 := (T2 + ppv)%Q in
        for_range (p + 1) n (fun q '(T1, T2) =>
          node_q <- aget nodes2 q ;;
          avq <- mget A node_v node_q ;;
          if truthy avq then
            weight_q <- aget node_weights node_q ;;
            let pqv := (2 * weight_p * weight_q * weight_v)%Q in
            let T2 := (T2 + pqv)%Q in
            apq <- mget A node_p node_q ;;
            if truthy apq then Ok ((T1 + pqv)%Q, T2) else Ok (T1, T2)
          else Ok (T1, T2)) (T1, T2)
      else Ok (T1, T2)) acc) (0%Q, 0%Q).

Definition _nsi_cross_transitivity (A : matrix Z) (nodes1 nodes2 : list nat)
  (node_weights : list Q) : result Q :=
  '(T1, T2) <- nsi_cross_transitivity_sums A nodes1 nodes2 node_weights ;;
  divide T1 T2.

(** ** interacting_networks: cross local clustering *)

(** [_cross_local_clustering(A, norm, nodes1, nodes2, cross_clustering)]:
    the buffer [cross_clustering] as the kernel leaves it.  [norm] holds
    floating point numbers; [if norm[i]:] tests for a non-zero value. *)
Definition _cross_local_clustering (A : matrix Z) (norm : list Q)
  (nodes1 nodes2 : list nat) (cross_clustering : list Q) : result (list Q) :=
  let m := length nodes1 in
  let n := length nodes2 in
  for_range 0 m (fun i cross_clustering =>
    n1 <- aget nodes1 i ;;
    norm_i <- aget norm i ;;
    if negb (Qeq_bool norm_i 0) then
      counter <- for_range 0 n (fun j counter =>
        n2 <- aget nodes2 j ;;
        a12 <- mget A n1 n2 ;;
        if truthy a12 then
          for_range 0 j (fun k counter =>
            n3 <- aget nodes2 k ;;
            closed <- and_then (a23 <- mget A n2 n3 ;; Ok (truthy a23))
                               (a31 <- mget A n3 n1 ;; Ok (truthy a31)) ;;
            Ok (if closed : bool then (counter + 1)%Z else counter)) counter
        else Ok counter) 0%Z ;;
      norm_i <- aget norm i ;;
      c <- divide (inject_Z counter) norm_i ;;
      aset cross_clustering i c
    else Ok cross_clustering) cross_clustering.

(** [_nsi_cross_local_clustering(A, nsi_cc, nodes1, nodes2, node_weights)]:
    the buffer [nsi_cc] as the kernel leaves it.  [nsi_cc[v] += x] reads the
    entry, adds and stores. *)
Definition _nsi_cross_local_clustering (A : matrix Z) (nsi_cc : list Q)
  (nodes1 nodes2 : list nat) (node_weights : list Q) : result (list Q) :=
  let m := length nodes1 in
  let n := length nodes2 in
  for_range 0 m (fun v nsi_cc =>
    node_v <- aget nodes1 v ;;
    for_range 0 n (fun p nsi_cc =>
      node_p <- aget nodes2 p ;;
      avp <- mget A node_v node_p ;;
      if truthy avp then
        weight_p <- aget node_weights node_p ;;
        old <- aget nsi_cc v ;;
        nsi_cc <- aset nsi_cc v (old + weight_p * weight_p)%Q ;;
        for_range (p + 1) n (fun q nsi_cc =>
          node_q <- aget nodes2 q ;;
          hit <- and_then (apq <- mget A node_p node_q ;; Ok (truthy apq))
                          (aqv <- mget A node_q node_v ;; Ok (truthy aqv)) ;;
          if hit : bool then
            old <- aget nsi_cc v ;;
            weight_q <- aget node_weights node_q ;;
            aset nsi_cc v (old + 2 * weight_p * weight_q)%Q
          else Ok nsi_cc) nsi_cc
      else Ok nsi_cc) nsi_cc) nsi_cc.

(** ** network: local cliquishness of order 4 *)

(** The neighbour scan of node [i]: [neighbors[index] = j; index += 1] for
    every [j] with [A[i, j] == 1]. *)
Definition collect_neighbors (N : nat) (A : matrix Z) (i : nat)
  (neighbors : list nat) : result (list nat * nat) :=
  for_range 0 N (fun j '(neighbors, index) =>
    a <- mget A i j ;;
    if (a =? 1)%Z then
      neighbors <- aset neighbors index j ;;
      Ok (neighbors, S index)
    else Ok (neighbors, index)) (neighbors, 0).

(** The triple loop over the first [degree_i] entries of [neighbors]. *)
Definition count_neighbor_triangles (A : matrix Z) (neighbors : list nat)
  (degree_i : Z) : result Z :=
  let d := Z.to_nat degree_i in
  for_range 0 d (fun j counter =>
    node1 <- aget neighbors j ;;
    for_range 0 d (fun k counter =>
      node2 <- aget neighbors k ;;
      a12 <- mget A node1 node2 ;;
      if (a12 =? 1)%Z then
        for_range 0 d (fun l counter =>
          node3 <- aget neighbors l ;;
          hit <- and_then (a23 <- mget A node2 node3 ;; Ok (a23 =? 1)%Z)
                          (a31 <- mget A node3 node1 ;; Ok (a31 =? 1)%Z) ;;
          Ok (if hit : bool then (counter + 1)%Z else counter)) counter
      else Ok counter) counter) 0%Z.

(** [_local_cliquishness_4thorder(N, A, degree)].  The buffer [neighbors]
    is allocated once and reused for every node.  [degree_i] is a
    [NODE_t], so the normaliser
    [degree_i * (degree_i - 1) * (degree_i - 2)] is formed in [NODE_t],
    one multiplication after the other; [counter] is a [long], and the
    quotient of the two is a true division. *)
Definition _local_cliquishness_4thorder (N : nat) (A : matrix Z)
  (degree : list Z) : result (list Q) :=
  let order := 4%Z in
  '(_, local_cliquishness) <-
    for_range 0 N (fun i '(neighbors, local_cliquishness) =>
      degree_i <- aget degree i ;;
      if (order - 1 <=? degree_i)%Z then
        '(neighbors, _) <- collect_neighbors N A i neighbors ;;
        counter <- count_neighbor_triangles A neighbors degree_i ;;
        c <- divide (inject_Z counter)
               (inject_Z (node_mul (node_mul degree_i (degree_i - 1))
                                   (degree_i - 2))) ;;
        local_cliquishness <- aset local_cliquishness i c ;;
        Ok (neighbors, local_cliquishness)
      else Ok (neighbors, local_cliquishness))
      (replicate N 0, replicate N 0%Q) ;;
  Ok local_cliquishness.

(** ** network: local cliquishness of order 5 *)

(** The quadruple loop over the first [degree_i] entries of [neighbors]. *)
Definition count_neighbor_cliques (A : matrix Z) (neighbors : list nat)
  (degree_i : Z) : result Z :=
  let d := Z.to_nat degree_i in
  for_range 0 d (fun j counter =>
    node1 <- aget neighbors j ;;
    for_range 0 d (fun k counter =>
      node2 <- aget neighbors k ;;
      a12 <- mget A node1 node2 ;;
      if (a12 =? 1)%Z then
        for_range 0 d (fun l counter =>
          node3 <- aget neighbors l ;;
          go <- and_then (a13 <- mget A node1 node3 ;; Ok (a13 =? 1)%Z)
                         (a23 <- mget A node2 node3 ;; Ok (a23 =? 1)%Z) ;;
          if go : bool then
            for_range 0 d (fun m counter =>
              node4 <- aget neighbors m ;;
              hit <- and_then (a14 <- mget A node1 node4 ;; Ok (a14 =? 1)%Z)
                       (and_then (a24 <- mget A node2 node4 ;; Ok (a24 =? 1)%Z)
                                 (a34 <- mget A node3 node4 ;; Ok (a34 =? 1)%Z)) ;;
              Ok (if hit : bool then (counter + 1)%Z else counter)) counter
          else Ok counter) counter
      else Ok counter) counter) 0%Z.

(** [_local_cliquishness_5thorder(N, A, degree)], with its normaliser
    formed in [NODE_t] as well. *)
Definition _local_cliquishness_5thorder (N : nat) (A : matrix Z)
  (degree : list Z) : result (list Q) :=
  let order := 5%Z in
  '(_, local_cliquishness) <-
    for_range 0 N (fun i '(neighbors, local_cliquishness) =>
      degree_i <- aget degree i ;;
      if (order - 1 <=? degree_i)%Z then
        '(neighbors, _) <- collect_neighbors N A i neighbors ;;
        counter <- count_neighbor_cliques A neighbors degree_i ;;
        c <- divide (inject_Z counter)
               (inject_Z (node_mul (node_mul (node_mul degree_i (degree_i - 1))
                                             (degree_i - 2))
                                   (degree_i - 3))) ;;
        local_cliquishness <- aset local_cliquishness i c ;;
        Ok (neighbors, local_cliquishness)
      else Ok (neighbors, local_cliquishness))
      (replicate N 0, replicate N 0%Q) ;;
  Ok local_cliquishness.

(** ** network: Newman's random-walk betweenness, one row range *)

(** The buffers that [_mpi_newman_betweenness] can reach. *)
Record newman_mem : Type := NewmanMem {
  nm_this_A : matrix Z;
  nm_V : matrix Q;
  nm_this_betweenness : list Q
}.

(** The body of [if this_A[i_rel, j]:], that is the sum [sum_j] for the
    edge [(i_abs, j)]. *)
Definition newman_sum_j (V : matrix Q) (N i_abs j : nat) : result Q :=
  for_range 0 N (fun s sum_j =>
    if negb (i_abs =? s) then
      vis <- mget V i_abs s ;;
      vjs <- mget V j s ;;
      let Vis_minus_Vjs := (vis - vjs)%Q in
      sum_s <- for_range 0 s (fun t sum_s =>
        if negb (i_abs =? t) then
          vit <- mget V i_abs t ;;
          vjt <- mget V j t ;;
          Ok (sum_s + Qabs (Vis_minus_Vjs - vit + vjt))%Q
        else Ok sum_s) 0%Q ;;
      Ok (sum_j + sum_s)%Q
    else Ok sum_j) 0%Q.

(** [_mpi_newman_betweenness(this_A, V, N, start_i, end_i)]: the returned
    tuple, together with the buffers as the kernel leaves them.
    [np.zeros] of a negative length raises [ValueError]. *)
Definition _mpi_newman_betweenness (this_A : matrix Z) (V : matrix Q)
  (N start_i end_i : nat) : result (newman_mem * (list Q * nat * nat)) :=
  if end_i <? start_i then Raise ValueError
  else
    let this_N := end_i - start_i in
    mem <- for_range 0 this_N (fun i_rel mem =>
      let i_abs := i_rel + start_i in
      for_range 0 N (fun j mem =>
        a <- mget (nm_this_A mem) i_rel j ;;
        if truthy a then
          sum_j <- newman_sum_j (nm_V mem) N i_abs j ;;
          old <- aget (nm_this_betweenness mem) i_rel ;;
          tb <- aset (nm_this_betweenness mem) i_rel (old + sum_j)%Q ;;
          Ok (NewmanMem (nm_this_A mem) (nm_V mem) tb)
        else Ok mem) mem)
      (NewmanMem this_A V (replicate this_N 0%Q)) ;;
    Ok (mem, (nm_this_betweenness mem, start_i, end_i)).

(** The body of [if this_A[i_rel, j]:] in [_mpi_nsi_newman_betweenness],
    that is the weighted sum [sum_j] for the edge [(i_abs, j)]. *)
Definition nsi_newman_sum_j (V : matrix Q) (w : list Q)
  (this_not_adj_or_equal : matrix Z) (N i_rel i_abs j : nat) : result Q :=
  for_range 0 N (fun s sum_j =>
    ms <- mget this_not_adj_or_equal i_rel s ;;
    if truthy ms then
      vis <- mget V i_abs s ;;
      vjs <- mget V j s ;;
      let Vis_minus_Vjs := (vis - vjs)%Q in
      sum_s <- for_range 0 s (fun t sum_s =>
        mt <- mget this_not_adj_or_equal i_rel t ;;
        if truthy mt then
          wt <- aget w t ;;
          vit <- mget V i_abs t ;;
          vjt <- mget V j t ;;
          Ok (sum_s + wt * Qabs (Vis_minus_Vjs - vit + vjt))%Q
        else Ok sum_s) 0%Q ;;
      ws <- aget w s ;;
      Ok (sum_j + ws * sum_s)%Q
    else Ok sum_j) 0%Q.

(** [_mpi_nsi_newman_betweenness(this_A, V, N, w, this_not_adj_or_equal,
    start_i, end_i)]: the returned tuple.  The kernel writes to no buffer
    of the caller. *)
Definition _mpi_nsi_newman_betweenness (this_A : matrix Z) (V : matrix Q)
  (N : nat) (w : list Q) (this_not_adj_or_equal : matrix Z)
  (start_i end_i : nat) : result (list Q * nat * nat) :=
  if end_i <? start_i then Raise ValueError
  else
    let this_N := end_i - start_i in
    this_betweenness <- for_range 0 this_N (fun i_rel this_betweenness =>
      let i_abs := i_rel + start_i in
      for_range 0 N (fun j this_betweenness =>
        a <- mget this_A i_rel j ;;
        if truthy a then
          sum_j <- nsi_newman_sum_j V w this_not_adj_or_equal N i_rel i_abs j ;;
          old <- aget this_betweenness i_rel ;;
          wj <- aget w j ;;
          aset this_betweenness i_rel (old + wj * sum_j)%Q
        else Ok this_betweenness) this_betweenness)
      (replicate this_N 0%Q) ;;
    Ok (this_betweenness, start_i, end_i).

(** ** network: node-weighted betweenness, single target [j] *)

(** The buffers of [_nsi_betweenness]: those allocated by the kernel and
    those of the caller that it writes to. *)
Record bfs_state : Type := BfsState {
  distances_to_j : list nat;
  n_predecessors : list nat;
  queue : list nat;
  queue_len : nat;
  multiplicity_to_j : list Q;
  flat_predecessors : list nat;
  betweenness_to_j : list Q;
  excess_to_j : list Q
}.

Section NsiBetweenness.

Variable N : nat.
Variable w : list Q.
Variable k : list Z.
Variable j : nat.
Variable offsets : list nat.
Variable flat_neighbors : list nat.
Variable is_source : list Z.

(** The body of [for l_index in range(oi, oi+k[i])], for the node [i] being
    dequeued and [next_d = distances_to_j[i] + 1]. *)
Definition relax_neighbor (i next_d l_index : nat) (st : bfs_state)
  : result bfs_state :=
  l <- aget flat_neighbors l_index ;;
  dl <- aget (distances_to_j st) l ;;
  if next_d <=? dl then
    ol <- aget offsets l ;;
    np <- aget (n_predecessors st) l ;;
    let fi := ol + np in
    n_pred <- aset (n_predecessors st) l (np + 1) ;;
    flat_pred <- aset (flat_predecessors st) fi i ;;
    ml <- aget (multiplicity_to_j st) l ;;
    wl <- aget w l ;;
    mi <- aget (multiplicity_to_j st) i ;;
    mult <- aset (multiplicity_to_j st) l (ml + wl * mi)%Q ;;
    if next_d <? dl then
      dist <- aset (distances_to_j st) l next_d ;;
      q <- aset (queue st) (queue_len st) l ;;
      Ok (BfsState dist n_pred q (queue_len st + 1) mult flat_pred
            (betweenness_to_j st) (excess_to_j st))
    else
      Ok (BfsState (distances_to_j st) n_pred (queue st) (queue_len st) mult
            flat_pred (betweenness_to_j st) (excess_to_j st))
  else Ok st.

(** The body of [while qi < queue_len] up to [qi += 1].  Node identifiers
    are natural numbers here, so the guard [if i == -1] of the source can
    never fire and has no counterpart. *)
Definition visit (qi : nat) (st : bfs_state) : result bfs_state :=
  i <- aget (queue st) qi ;;
  di <- aget (distances_to_j st) i ;;
  let next_d := di + 1 in
  oi <- aget offsets i ;;
  ki <- aget k i ;;
  for_range oi (oi + Z.to_nat ki) (relax_neighbor i next_d) st.

(** [while qi < queue_len: ...; qi += 1], bounded by [fuel] passes. *)
Fixpoint forward_loop (fuel qi : nat) (st : bfs_state) : result bfs_state :=
  if qi <? queue_len st then
    match fuel with
    | 0 => Raise OutOfFuel
    | S fuel' =>
        st' <- visit qi st ;;
        forward_loop fuel' (S qi) st'
    end
  else Ok st.

(** The state in which the first [while] loop is entered, from the
    caller's buffers [betweenness_to_j], [excess_to_j] and
    [flat_predecessors]. *)
Definition forward_init (betweenness excess : list Q) (flat_pred : list nat)
  : result bfs_state :=
  let distances := replicate N (2 * N) in
  let n_pred := replicate N 0 in
  let queue := replicate N 0 in
  let mult := replicate N 0%Q in
  '(betweenness, excess) <-
    for_range 0 N (fun l '(betweenness, excess) =>
      src <- aget is_source l ;;
      wl <- aget w l ;;
      let v := (inject_Z src * wl)%Q in
      excess <- aset excess l v ;;
      betweenness <- aset betweenness l v ;;
      Ok (betweenness, excess)) (betweenness, excess) ;;
  distances <- aset distances j 0 ;;
  queue <- aset queue 0 j ;;
  wj <- aget w j ;;
  mult <- aset mult j wj ;;
  Ok (BfsState distances n_pred queue 1 mult flat_pred betweenness excess).

(** The forward phase: initialisation and breadth-first search.  The
    queue holds [N] entries, so [N] passes of the loop are all it can
    make. *)
Definition nsi_betweenness_forward (betweenness excess : list Q)
  (flat_pred : list nat) : result bfs_state :=
  st <- forward_init betweenness excess flat_pred ;;
  forward_loop N 0 st.

(** The body of [for ql in range(queue_len-1, -1, -1)]. *)
Definition backward_visit (ql : nat) (st : bfs_state) : result bfs_state :=
  l <- aget (queue st) ql ;;
  if l =? j then
    betweenness <- aset (betweenness_to_j st) l 0%Q ;;
    excess <- aset (excess_to_j st) l 0%Q ;;
    Ok (BfsState (distances_to_j st) (n_predecessors st) (queue st)
          (queue_len st) (multiplicity_to_j st) (flat_predecessors st)
          betweenness excess)
  else
    wl <- aget w l ;;
    ml <- aget (multiplicity_to_j st) l ;;
    base_factor <- divide wl ml ;;
    ol <- aget offsets l ;;
    np <- aget (n_predecessors st) l ;;
    betweenness <-
      for_range ol (ol + np) (fun fi betweenness =>
        i <- aget (flat_predecessors st) fi ;;
        bi <- aget betweenness i ;;
        bl <- aget betweenness l ;;
        mi <- aget (multiplicity_to_j st) i ;;
        aset betweenness i (bi + bl * base_factor * mi)%Q)
        (betweenness_to_j st) ;;
    Ok (BfsState (distances_to_j st) (n_predecessors st) (queue st)
          (queue_len st) (multiplicity_to_j st) (flat_predecessors st)
          betweenness (excess_to_j st)).

(** [_nsi_betweenness(N, w, k, j, betweenness_to_j, excess_to_j, offsets,
    flat_neighbors, is_source, flat_predecessors)]: the buffers as the
    kernel leaves them. *)
Definition _nsi_betweenness (betweenness excess : list Q)
  (flat_pred : list nat) : result bfs_state :=
  st <- nsi_betweenness_forward betweenness excess flat_pred ;;
  for_each (rev (seq 0 (queue_len st))) backward_visit st.

End NsiBetweenness.

(** ** grid: distance matrices *)

(** [if expr > 1: expr = 1 elif expr < -1: expr = -1] *)
Definition clamp_cosine (expr : Q) : Q :=
  if Qltb 1 expr then 1%Q
  else if Qltb expr (-1) then (-1)%Q
  else expr.

(** [_calculate_angular_distance(cos_lat, sin_lat, cos_lon, sin_lon,
    cosangdist, N)]: the buffer [cosangdist] as the kernel leaves it. *)
Definition _calculate_angular_distance (cos_lat sin_lat cos_lon sin_lon : list Q)
  (cosangdist : matrix Q) (N : nat) : result (matrix Q) :=
  for_range 0 N (fun i cosangdist =>
    for_range 0 (i + 1) (fun j cosangdist =>
      sin_lat_i <- aget sin_lat i ;;
      sin_lat_j <- aget sin_lat j ;;
      cos_lat_i <- aget cos_lat i ;;
      cos_lat_j <- aget cos_lat j ;;
      sin_lon_i <- aget sin_lon i ;;
      sin_lon_j <- aget sin_lon j ;;
      cos_lon_i <- aget cos_lon i ;;
      cos_lon_j <- aget cos_lon j ;;
      let expr := (sin_lat_i * sin_lat_j + cos_lat_i * cos_lat_j *
                   (sin_lon_i * sin_lon_j + cos_lon_i * cos_lon_j))%Q in
      let expr := clamp_cosine expr in
      cosangdist <- mset cosangdist i j expr ;;
      mset cosangdist j i expr) cosangdist) cosangdist.

Section EuclideanDistance.

(** The square root [expr**0.5] of the floating point unit; it has no
    exact counterpart on the rationals and is left open. *)
Variable sqrt : Q -> Q.

(** The loop over the dimensions [k] for the pair of nodes [(i, j)]. *)
Definition squared_distance (x : matrix Q) (N_dim i j : nat) : result Q :=
  for_range 0 N_dim (fun k expr =>
    xki <- mget x k i ;;
    xkj <- mget x k j ;;
    Ok (expr + (xki - xkj) ^ 2)%Q) 0%Q.

(** [_calculate_euclidean_distance(x, distance, N_dim, N_nodes)]: the
    buffer [distance] as the kernel leaves it. *)
Definition _calculate_euclidean_distance (x distance : matrix Q)
  (N_dim N_nodes : nat) : result (matrix Q) :=
  for_range 0 N_nodes (fun i distance =>
    for_range 0 (i + 1) (fun j distance =>
      expr <- squared_distance x N_dim i j ;;
      let d := sqrt expr in
      distance <- mset distance i j d ;;
      mset distance j i d) distance) distance.

End EuclideanDistance.

(** * Specification vocabulary *)

(** [A] is an [r x c] buffer. *)
Definition dims {T : Type} (r c : nat) (A : matrix T) : Prop :=
  length A = r /\ Forall (fun row => length row = c) A.

Definition symmetric (A : matrix Z) : Prop :=
  forall i j, mget A i j = mget A j i.

Definition binary (A : matrix Z) : Prop :=
  forall i j v, mget A i j = Ok v -> v = 0%Z \/ v = 1%Z.

Definition zero_diagonal (A : matrix Z) : Prop :=
  forall i v, mget A i i = Ok v -> v = 0%Z.

(** The data-model invariant of an adjacency matrix on [N] nodes. *)
Definition adjacency (N : nat) (A : matrix Z) : Prop :=
  dims N N A /\ symmetric A /\ binary A /\ zero_diagonal A.

Definition sumZ (l : list Z) : Z := foldr Z.add 0%Z l.

(** [degree[i] = sum_j A[i, j]] *)
Definition row_sum (A : matrix Z) (i : nat) : Z :=
  match A !! i with
  | Some row => sumZ row
  | None => 0%Z
  end.

Definition col_sum (A : matrix Z) (j : nat) : Z :=
  sumZ (map (fun row => default 0%Z (row !! j)) A).

(** The sum of all entries: for a 0/1 matrix, the number of 1-entries. *)
Definition total (A : matrix Z) : Z := sumZ (map sumZ A).

(** The number of undirected edges of an adjacency matrix: every edge
    occupies two entries. *)
Definition n_links (A : matrix Z) : Z := (total A / 2)%Z.

(** * Lemmas on the run-time model *)

Lemma bind_Ok {T U : Type} (m : result T) (f : T -> result U) (u : U) :
  bind m f = Ok u <-> exists v, m = Ok v /\ f v = Ok u.
Proof.
  destruct m as [v|e]; simpl; split.
  - intros H. exists v. auto.
  - intros (v' & [= ->] & H). exact H.
  - discriminate.
  - intros (v' & [=] & _).
Qed.

Lemma aget_Ok {T : Type} (a : list T) (i : nat) (v : T) :
  aget a i = Ok v <-> a !! i = Some v.
Proof.
  unfold aget. destruct (a !! i); split; intros H; congruence.
Qed.

Lemma aget_lt {T : Type} (a : list T) (i : nat) :
  i < length a -> exists v, aget a i = Ok v /\ a !! i = Some v.
Proof.
  intros H. destruct (lookup_lt_is_Some_2 a i H) as [v Hv].
  exists v. split; [by apply aget_Ok | done].
Qed.

Lemma aset_Ok {T : Type} (a a' : list T) (i : nat) (v : T) :
  aset a i v = Ok a' <-> i < length a /\ a' = <[i := v]> a.
Proof.
  unfold aset. destruct (decide (i < length a)); split.
  - intros [= <-]. auto.
  - intros [_ ->]. done.
  - discriminate.
  - intros [? _]. lia.
Qed.

Lemma aset_lt {T : Type} (a : list T) (i : nat) (v : T) :
  i < length a -> aset a i v = Ok (<[i := v]> a).
Proof. intros H. by apply aset_Ok. Qed.

Lemma mget_Ok {T : Type} (A : matrix T) (i j : nat) (v : T) :
  mget A i j = Ok v <-> exists row, A !! i = Some row /\ row !! j = Some v.
Proof.
  unfold mget. rewrite bind_Ok. split.
  - intros (row & H1 & H2). exists row. by rewrite <- !aget_Ok.
  - intros (row & H1 & H2). exists row. by rewrite !aget_Ok.
Qed.

Lemma mset_Ok {T : Type} (A A' : matrix T) (i j : nat) (v : T) :
  mset A i j v = Ok A' <->
  exists row, A !! i = Some row /\ j < length row /\
              A' = <[i := <[j := v]> row]> A.
Proof.
  unfold mset. rewrite bind_Ok. split.
  - intros (row & H1 & H2). apply bind_Ok in H2 as (row' & H2 & H3).
    apply aget_Ok in H1. apply aset_Ok in H2 as [H2 ->].
    apply aset_Ok in H3 as [_ ->]. eauto.
  - intros (row & H1 & H2 & ->). exists row. split; [by apply aget_Ok|].
    rewrite (aset_lt row j v H2). simpl. apply aset_lt.
    by eapply lookup_lt_Some.
Qed.

Lemma mget_mset {T : Type} (A A' : matrix T) (i j i' j' : nat) (v : T) :
  mset A i j v = Ok A' ->
  mget A' i' j' = if decide (i' = i /\ j' = j) then Ok v else mget A i' j'.
Proof.
  intros (row & Hrow & Hj & ->)%mset_Ok.
  pose proof (lookup_lt_Some _ _ _ Hrow) as Hi.
  unfold mget, aget. destruct (decide (i' = i)) as [->|Hne].
  - rewrite list_lookup_insert_eq by done. rewrite Hrow. simpl.
    destruct (decide (j' = j)) as [->|Hnj].
    + rewrite list_lookup_insert_eq by done.
      destruct (decide (i = i /\ j = j)) as [_|[]]; done.
    + rewrite list_lookup_insert_ne by done.
      destruct (decide (i = i /\ j' = j)) as [[_ ?]|_]; done.
  - rewrite list_lookup_insert_ne by done.
    destruct (decide (i' = i /\ j' = j)) as [[? _]|_]; done.
Qed.

Lemma mget_mset_eq {T : Type} (A A' : matrix T) (i j : nat) (v : T) :
  mset A i j v = Ok A' -> mget A' i j = Ok v.
Proof.
  intros H. rewrite (mget_mset _ _ _ _ i j _ H).
  destruct (decide (i = i /\ j = j)) as [_|[]]; done.
Qed.

Lemma mget_mset_ne {T : Type} (A A' : matrix T) (i j i' j' : nat) (v : T) :
  mset A i j v = Ok A' -> i' <> i \/ j' <> j -> mget A' i' j' = mget A i' j'.
Proof.
  intros H Hne. rewrite (mget_mset _ _ _ _ i' j' _ H).
  destruct (decide (i' = i /\ j' = j)) as [[? ?]|_]; [lia | done].
Qed.

Lemma dims_lookup {T : Type} (r c : nat) (A : matrix T) (i : nat) :
  dims r c A -> i < r -> exists row, A !! i = Some row /\ length row = c.
Proof.
  intros [Hlen Hrows] Hi.
  destruct (lookup_lt_is_Some_2 A i) as [row Hrow]; [lia|].
  exists row. split; [done|].
  rewrite Forall_forall in Hrows. apply Hrows.
  by eapply list_elem_of_lookup_2.
Qed.

Lemma dims_row {T : Type} (r c : nat) (A : matrix T) (i : nat) (row : list T) :
  dims r c A -> A !! i = Some row -> i < r /\ length row = c.
Proof.
  intros [Hlen Hrows] Hrow. split.
  - rewrite <- Hlen. by eapply lookup_lt_Some.
  - rewrite Forall_forall in Hrows. apply Hrows.
    by eapply list_elem_of_lookup_2.
Qed.

Lemma mget_dims {T : Type} (r c : nat) (A : matrix T) (i j : nat) :
  dims r c A -> i < r -> j < c -> exists v, mget A i j = Ok v.
Proof.
  intros HA Hi Hj. destruct (dims_lookup r c A i HA Hi) as (row & Hrow & Hlen).
  destruct (lookup_lt_is_Some_2 row j) as [v Hv]; [lia|].
  exists v. apply mget_Ok. eauto.
Qed.

Lemma mget_dims_inv {T : Type} (r c : nat) (A : matrix T) (i j : nat) (v : T) :
  dims r c A -> mget A i j = Ok v -> i < r /\ j < c.
Proof.
  intros HA (row & Hrow & Hv)%mget_Ok.
  destruct (dims_row r c A i row HA Hrow) as [Hi Hlen].
  split; [done|]. rewrite <- Hlen. by eapply lookup_lt_Some.
Qed.

Lemma mset_dims {T : Type} (r c : nat) (A : matrix T) (i j : nat) (v : T) :
  dims r c A -> i < r -> j < c ->
  exists A', mset A i j v = Ok A' /\ dims r c A'.
Proof.
  intros HA Hi Hj. destruct (dims_lookup r c A i HA Hi) as (row & Hrow & Hlen).
  exists (<[i := <[j := v]> row]> A). split.
  - apply mset_Ok. exists row. repeat split; [done | lia].
  - destruct HA as [HlenA Hrows]. split; [by rewrite length_insert|].
    apply Forall_insert; [done|]. by rewrite length_insert.
Qed.

Lemma mset_dims_inv {T : Type} (r c : nat) (A A' : matrix T) (i j : nat) (v : T) :
  dims r c A -> mset A i j v = Ok A' -> dims r c A' /\ i < r /\ j < c.
Proof.
  intros HA H. pose proof H as (row & Hrow & Hj & ->)%mset_Ok.
  destruct (dims_row r c A i row HA Hrow) as [Hi Hlen].
  destruct (mset_dims r c A i j v HA Hi) as (A' & HA' & Hd); [lia|].
  rewrite H in HA'. injection HA' as <-. repeat split; [apply Hd.. | done | lia].
Qed.

(** Loop invariants: a loop whose body never raises while the invariant
    holds runs to its end and establishes the invariant there. *)
Lemma for_each_total {St I : Type} (Inv : nat -> St -> Prop) (xs : list I)
  (body : I -> St -> result St) (s : St) :
  Inv 0 s ->
  (forall n x s, xs !! n = Some x -> Inv n s ->
     exists s', body x s = Ok s' /\ Inv (S n) s') ->
  exists s', for_each xs body s = Ok s' /\ Inv (length xs) s'.
Proof.
  revert Inv s. induction xs as [|x xs IH]; intros Inv s H0 Hstep; simpl.
  - eauto.
  - destruct (Hstep 0 x s eq_refl H0) as (s1 & -> & H1). simpl.
    apply (IH (fun n => Inv (S n))); [done|].
    intros n y s2 Hy. apply (Hstep (S n)). done.
Qed.

(** The same for a loop that is only known to have returned. *)
Lemma for_each_partial {St I : Type} (Inv : nat -> St -> Prop) (xs : list I)
  (body : I -> St -> result St) (s s' : St) :
  Inv 0 s ->
  (forall n x s s', xs !! n = Some x -> Inv n s -> body x s = Ok s' ->
     Inv (S n) s') ->
  for_each xs body s = Ok s' -> Inv (length xs) s'.
Proof.
  revert Inv s. induction xs as [|x xs IH]; intros Inv s H0 Hstep; simpl.
  - intros [= <-]. done.
  - intros (s1 & H1 & H2)%bind_Ok.
    apply (IH (fun n => Inv (S n)) s1); [|  |done].
    + by apply (Hstep 0 x s s1).
    + intros n y s2 s3 Hy. apply (Hstep (S n)). done.
Qed.

Lemma for_range_total {St : Type} (Inv : nat -> St -> Prop) (lo hi : nat)
  (body : nat -> St -> result St) (s : St) :
  lo <= hi -> Inv lo s ->
  (forall i s, lo <= i < hi -> Inv i s ->
     exists s', body i s = Ok s' /\ Inv (S i) s') ->
  exists s', for_range lo hi body s = Ok s' /\ Inv hi s'.
Proof.
  intros Hle H0 Hstep. unfold for_range.
  destruct (for_each_total (fun n => Inv (lo + n)) (seq lo (hi - lo)) body s)
    as (s' & Hs' & Hinv).
  - by rewrite Nat.add_0_r.
  - intros n x s1 [-> Hn]%lookup_seq Hs1.
    destruct (Hstep (lo + n) s1) as (s2 & ? & ?); [lia | done |].
    exists s2. by rewrite Nat.add_succ_r.
  - exists s'. split; [done|].
    rewrite length_seq in Hinv. by replace (lo + (hi - lo)) with hi in Hinv by lia.
Qed.

Lemma for_range_partial {St : Type} (Inv : nat -> St -> Prop) (lo hi : nat)
  (body : nat -> St -> result St) (s s' : St) :
  lo <= hi -> Inv lo s ->
  (forall i s s', lo <= i < hi -> Inv i s -> body i s = Ok s' -> Inv (S i) s') ->
  for_range lo hi body s = Ok s' -> Inv hi s'.
Proof.
  intros Hle H0 Hstep Hrun. unfold for_range in Hrun.
  pose proof (for_each_partial (fun n => Inv (lo + n)) (seq lo (hi - lo))
                body s s') as Hinv.
  rewrite length_seq in Hinv. replace (lo + (hi - lo)) with hi in Hinv by lia.
  apply Hinv; [by rewrite Nat.add_0_r | | done].
  intros n x s1 s2 [-> Hn]%lookup_seq Hs1 Hb.
  replace (lo + S n) with (S (lo + n)) by lia.
  apply (Hstep (lo + n) s1); [lia | done | done].
Qed.

(** * The adjacency-overwrite routine *)

Section OverwriteAdjacency.

Variables (N m n : nat).
Variables (cross_A : matrix Z) (nodes1 nodes2 : list nat).
Hypothesis cross_dims : dims m n cross_A.
Hypothesis nodes1_len : length nodes1 = m.
Hypothesis nodes2_len : length nodes2 = n.
Hypothesis nodes1_range : Forall (fun v => v < N) nodes1.
Hypothesis nodes2_range : Forall (fun v => v < N) nodes2.
Hypothesis nodes_distinct : NoDup (nodes1 ++ nodes2).

(** The block entry for the pair [(i, j)] has been written. *)
Definition block_entry_set (A : matrix Z) (i j : nat) : Prop :=
  forall a b, nodes1 !! i = Some a -> nodes2 !! j = Some b ->
    exists c, mget cross_A i j = Ok c /\ mget A a b = Ok c /\ mget A b a = Ok c.

Lemma nodes1_inj i i' a :
  nodes1 !! i = Some a -> nodes1 !! i' = Some a -> i = i'.
Proof.
  apply NoDup_lookup. by apply NoDup_app in nodes_distinct as (? & _ & _).
Qed.

Lemma nodes2_inj j j' b :
  nodes2 !! j = Some b -> nodes2 !! j' = Some b -> j = j'.
Proof.
  apply NoDup_lookup. by apply NoDup_app in nodes_distinct as (_ & _ & ?).
Qed.

Lemma nodes_disjoint i j a b :
  nodes1 !! i = Some a -> nodes2 !! j = Some b -> a <> b.
Proof.
  intros Ha Hb ->. apply NoDup_app in nodes_distinct as (_ & Hd & _).
  apply (Hd b); by eapply list_elem_of_lookup_2.
Qed.

Lemma overwrite_pair (A : matrix Z) (i j : nat) :
  dims N N A -> i < m -> j < n ->
  (forall i' j', i' < i \/ (i' = i /\ j' < j) -> block_entry_set A i' j') ->
  exists A',
    (n1 <- aget nodes1 i ;;
     n2 <- aget nodes2 j ;;
     c <- mget cross_A i j ;;
     A <- mset A n1 n2 c ;;
     mset A n2 n1 c) = Ok A' /\
    dims N N A' /\
    (forall i' j', i' < i \/ (i' = i /\ j' < S j) -> block_entry_set A' i' j').
Proof.
  intros HA Hi Hj Hdone.
  destruct (aget_lt nodes1 i) as (n1 & -> & Hn1); [lia|].
  destruct (aget_lt nodes2 j) as (n2 & -> & Hn2); [lia|].
  destruct (mget_dims m n cross_A i j cross_dims Hi Hj) as (c & Hc).
  simpl. rewrite Hc. simpl.
  assert (n1 < N) as Hr1.
  { rewrite Forall_forall in nodes1_range. apply nodes1_range.
    by eapply list_elem_of_lookup_2. }
  assert (n2 < N) as Hr2.
  { rewrite Forall_forall in nodes2_range. apply nodes2_range.
    by eapply list_elem_of_lookup_2. }
  destruct (mset_dims N N A n1 n2 c HA Hr1 Hr2) as (A1 & HA1 & Hd1).
  destruct (mset_dims N N A1 n2 n1 c Hd1 Hr2 Hr1) as (A2 & HA2 & Hd2).
  rewrite HA1. simpl. exists A2. repeat split; [done | apply Hd2.. |].
  pose proof (nodes_disjoint i j n1 n2 Hn1 Hn2) as Hne.
  intros i' j' Hij a b Ha Hb.
  destruct (decide (i' = i /\ j' = j)) as [[-> ->]|Hnew].
  - assert (a = n1) as -> by congruence. assert (b = n2) as -> by congruence.
    exists c. split; [done|]. split.
    + rewrite (mget_mset_ne _ _ _ _ n1 n2 _ HA2) by lia.
      by apply (mget_mset_eq _ _ _ _ _ HA1).
    + by apply (mget_mset_eq _ _ _ _ _ HA2).
  - destruct (Hdone i' j' ltac:(lia) a b Ha Hb) as (c' & Hc' & Hab & Hba).
    exists c'. split; [done|].
    pose proof (nodes_disjoint i' j a n2 Ha Hn2) as Hd_a.
    pose proof (nodes_disjoint i j' n1 b Hn1 Hb) as Hd_b.
    assert (a <> n1 \/ b <> n2) as Hfresh.
    { destruct (decide (a = n1)) as [->|]; [|by left].
      destruct (decide (b = n2)) as [->|]; [|by right].
      exfalso. apply Hnew. split.
      - by eapply nodes1_inj.
      - by eapply nodes2_inj. }
    split.
    + rewrite (mget_mset_ne _ _ _ _ a b _ HA2) by lia.
      rewrite (mget_mset_ne _ _ _ _ a b _ HA1) by lia. done.
    + rewrite (mget_mset_ne _ _ _ _ b a _ HA2) by lia.
      rewrite (mget_mset_ne _ _ _ _ b a _ HA1) by lia. done.
Qed.

Lemma overwriteAdjacency_correct (A : matrix Z) :
  dims N N A ->
  exists A', overwriteAdjacency A cross_A nodes1 nodes2 m n = Ok A' /\
    dims N N A' /\
    forall i j, i < m -> j < n -> block_entry_set A' i j.
Proof.
  intros HA. unfold overwriteAdjacency.
  destruct (for_range_total
    (fun i A' => dims N N A' /\
       forall i' j', i' < i -> j' < n -> block_entry_set A' i' j')
    0 m (fun i A =>
      for_range 0 n (fun j A =>
        n1 <- aget nodes1 i ;;
        n2 <- aget nodes2 j ;;
        c <- mget cross_A i j ;;
        A <- mset A n1 n2 c ;;
        mset A n2 n1 c) A) A) as (A' & HA' & Hd & Hblock).
  - lia.
  - split; [done|]. intros; lia.
  - intros i A0 Hi [Hd0 Hrows].
    destruct (for_range_total
      (fun j A' => dims N N A' /\
         forall i' j', i' < i \/ (i' = i /\ j' < j) ->
           j' < n -> block_entry_set A' i' j')
      0 n (fun j A =>
        n1 <- aget nodes1 i ;;
        n2 <- aget nodes2 j ;;
        c <- mget cross_A i j ;;
        A <- mset A n1 n2 c ;;
        mset A n2 n1 c) A0) as (A1 & HA1 & Hd1 & Hrow).
    + lia.
    + split; [done|]. intros i' j' [?|[_ ?]] ?; [by apply Hrows | lia].
    + intros j A1 Hj [Hd1 Hpairs].
      destruct (overwrite_pair A1 i j Hd1) as (A2 & HA2 & Hd2 & Hnew);
        [lia | lia | |].
      * intros i' j' Hij a b Ha Hb. apply Hpairs; [done | | done | done].
        rewrite <- nodes2_len. by eapply lookup_lt_Some.
      * exists A2. split; [done|]. split; [done|]. intros. by apply Hnew.
    + exists A1. split; [done|]. split; [done|].
      intros i' j' Hi' Hj'. apply Hrow; [lia | done].
  - exists A'. eauto.
Qed.

End OverwriteAdjacency.

(** C5. After [overwriteAdjacency(A, cross_A, nodes1, nodes2, m, n)], for
    two index sets of distinct nodes that do not overlap, the call returns
    and every block entry of the full matrix equals the entry of the
    cross-adjacency matrix in both directions:
    [A[nodes1[i], nodes2[j]] == cross_A[i, j] == A[nodes2[j], nodes1[i]]]
    for all [i < m] and [j < n]. *)
Theorem overwriteAdjacency_restriction (N m n : nat) (A cross_A : matrix Z)
  (nodes1 nodes2 : list nat) :
  dims N N A ->
  dims m n cross_A ->
  length nodes1 = m ->
  length nodes2 = n ->
  Forall (fun v => v < N) nodes1 ->
  Forall (fun v => v < N) nodes2 ->
  NoDup (nodes1 ++ nodes2) ->
  exists A',
    overwriteAdjacency A cross_A nodes1 nodes2 m n = Ok A' /\
    forall i j, i < m -> j < n ->
      exists n1 n2 c,
        nodes1 !! i = Some n1 /\ nodes2 !! j = Some n2 /\
        mget cross_A i j = Ok c /\
        mget A' n1 n2 = Ok c /\ mget A' n2 n1 = Ok c.
Proof.
  intros HA Hc H1 H2 Hr1 Hr2 Hnd.
  destruct (overwriteAdjacency_correct N m n cross_A nodes1 nodes2
              Hc H1 H2 Hr1 Hr2 Hnd A HA) as (A' & HA' & _ & Hblock).
  exists A'. split; [done|]. intros i j Hi Hj.
  destruct (lookup_lt_is_Some_2 nodes1 i) as [n1 Hn1]; [lia|].
  destruct (lookup_lt_is_Some_2 nodes2 j) as [n2 Hn2]; [lia|].
  destruct (Hblock i j Hi Hj n1 n2 Hn1 Hn2) as (c & ? & ? & ?).
  exists n1, n2, c. done.
Qed.

Lemma overwriteAdjacency_restriction_witness :
  exists A',
    overwriteAdjacency
      [[0; 0; 0]; [0; 0; 0]; [0; 0; 0]]%Z [[1]; [0]]%Z [0; 2] [1] 2 1 = Ok A' /\
    forall i j, i < 2 -> j < 1 ->
      exists n1 n2 c,
        [0; 2] !! i = Some n1 /\ [1] !! j = Some n2 /\
        mget [[1]; [0]]%Z i j = Ok c /\
        mget A' n1 n2 = Ok c /\ mget A' n2 n1 = Ok c.
Proof.
  apply (overwriteAdjacency_restriction 3 2 1).
  - split; [reflexivity | repeat constructor].
  - split; [reflexivity | repeat constructor].
  - reflexivity.
  - reflexivity.
  - repeat constructor.
  - repeat constructor.
  - compute_done.
Defined.

(** * Cross transitivity *)

(** Sums over an index range, as the loops accumulate them. *)
Definition sum_range (lo hi : nat) (f : nat -> Z) : Z :=
  sumZ (map f (seq lo (hi - lo))).

Definition indicator (b : bool) : Z := if b then 1%Z else 0%Z.

(** Reading a buffer that is known to hold the entry. *)
Definition entry (A : matrix Z) (a b : nat) : Z :=
  match mget A a b with
  | Ok v => v
  | Raise _ => 0%Z
  end.

Definition linked (A : matrix Z) (a b : nat) : bool := truthy (entry A a b).

Definition node (nodes : list nat) (i : nat) : nat := default 0 (nodes !! i).

Lemma sumZ_app (l1 l2 : list Z) : sumZ (l1 ++ l2) = (sumZ l1 + sumZ l2)%Z.
Proof. induction l1 as [|x l1 IH]; simpl; lia. Qed.

Lemma sum_range_empty (lo hi : nat) (f : nat -> Z) :
  hi <= lo -> sum_range lo hi f = 0%Z.
Proof. intros H. unfold sum_range. by replace (hi - lo) with 0 by lia. Qed.

Lemma sum_range_snoc (lo hi : nat) (f : nat -> Z) :
  lo <= hi -> sum_range lo (S hi) f = (sum_range lo hi f + f hi)%Z.
Proof.
  intros H. unfold sum_range. replace (S hi - lo) with (S (hi - lo)) by lia.
  rewrite seq_S, map_app, sumZ_app. simpl.
  replace (lo + (hi - lo)) with hi by lia. lia.
Qed.

Lemma sum_range_cons (lo hi : nat) (f : nat -> Z) :
  lo < hi -> sum_range lo hi f = (f lo + sum_range (S lo) hi f)%Z.
Proof.
  intros H. unfold sum_range. replace (hi - lo) with (S (hi - S lo)) by lia.
  done.
Qed.

Lemma sum_range_ext (lo hi : nat) (f g : nat -> Z) :
  (forall i, lo <= i < hi -> f i = g i) -> sum_range lo hi f = sum_range lo hi g.
Proof.
  intros H. unfold sum_range. f_equal. apply map_ext_in.
  intros i Hi%in_seq. apply H. lia.
Qed.

Lemma sum_range_nonneg (lo hi : nat) (f : nat -> Z) :
  (forall i, lo <= i < hi -> (0 <= f i)%Z) -> (0 <= sum_range lo hi f)%Z.
Proof.
  destruct (decide (lo <= hi)) as [Hle|]; [|rewrite sum_range_empty; lia].
  induction hi as [|hi IH]; intros Hf.
  - rewrite sum_range_empty; lia.
  - destruct (decide (lo = S hi)) as [->|]; [rewrite sum_range_empty; lia|].
    rewrite sum_range_snoc by lia.
    specialize (Hf hi) as Hhi. specialize (IH ltac:(lia)).
    assert (0 <= sum_range lo hi f)%Z; [apply IH; intros; apply Hf; lia | lia].
Qed.

Lemma sum_range_zero (lo hi : nat) (f : nat -> Z) :
  (forall i, lo <= i < hi -> f i = 0%Z) -> sum_range lo hi f = 0%Z.
Proof.
  intros H. rewrite (sum_range_ext lo hi f (fun _ => 0%Z)) by done.
  unfold sum_range. induction (seq lo (hi - lo)); simpl; lia.
Qed.

Lemma sum_range_add (lo hi : nat) (f g : nat -> Z) :
  sum_range lo hi (fun i => f i + g i)%Z
  = (sum_range lo hi f + sum_range lo hi g)%Z.
Proof.
  unfold sum_range. induction (seq lo (hi - lo)); simpl; lia.
Qed.

Lemma sum_range_scale (lo hi : nat) (c : Z) (f : nat -> Z) :
  sum_range lo hi (fun i => c * f i)%Z = (c * sum_range lo hi f)%Z.
Proof.
  unfold sum_range. induction (seq lo (hi - lo)); simpl; lia.
Qed.

Lemma sum_range_const (n : nat) (c : Z) :
  sum_range 0 n (fun _ => c) = (Z.of_nat n * c)%Z.
Proof.
  induction n as [|n IH]; [done|]. rewrite sum_range_snoc by lia. lia.
Qed.

Lemma sum_range_eqb (n y : nat) :
  y < n -> sum_range 0 n (fun z => indicator (z =? y)) = 1%Z.
Proof.
  induction n as [|n IH]; [lia|]. intros Hy. rewrite sum_range_snoc by lia.
  destruct (decide (y = n)) as [->|Hne].
  - rewrite Nat.eqb_refl. rewrite sum_range_zero; [done|].
    intros z Hz. by rewrite (proj2 (Nat.eqb_neq z n)) by lia.
  - rewrite IH by lia. by rewrite (proj2 (Nat.eqb_neq n y)) by lia.
Qed.

(** The number of positions [z < n] other than one, two or three given
    distinct positions. *)
Lemma count_others_1 (n x : nat) :
  x < n ->
  sum_range 0 n (fun z => indicator (negb (z =? x))) = (Z.of_nat n - 1)%Z.
Proof.
  intros Hx.
  rewrite (sum_range_ext 0 n _ (fun z => 1 + -1 * indicator (Nat.eqb z x))%Z)
    by (intros z _; by destruct (z =? x)).
  rewrite sum_range_add, sum_range_scale, sum_range_const, sum_range_eqb by done.
  lia.
Qed.

Lemma count_others_2 (n x y : nat) :
  x < n -> y < n -> x <> y ->
  sum_range 0 n (fun z => indicator (negb (z =? x) && negb (z =? y)))
  = (Z.of_nat n - 2)%Z.
Proof.
  intros Hx Hy Hne.
  rewrite (sum_range_ext 0 n _
             (fun z => 1 + -1 * indicator (Nat.eqb z x)
                       + -1 * indicator (Nat.eqb z y))%Z).
  - rewrite !sum_range_add, !sum_range_scale, sum_range_const,
      !sum_range_eqb by done. lia.
  - intros z _. destruct (z =? x) eqn:H1, (z =? y) eqn:H2; try done.
    apply Nat.eqb_eq in H1, H2. lia.
Qed.

Lemma count_others_3 (n x y u : nat) :
  x < n -> y < n -> u < n -> x <> y -> x <> u -> y <> u ->
  sum_range 0 n (fun z => indicator (negb (z =? x) && negb (z =? y)
                                     && negb (z =? u)))
  = (Z.of_nat n - 3)%Z.
Proof.
  intros Hx Hy Hu Hxy Hxu Hyu.
  rewrite (sum_range_ext 0 n _
             (fun z => 1 + -1 * indicator (Nat.eqb z x)
                       + -1 * indicator (Nat.eqb z y)
                       + -1 * indicator (Nat.eqb z u))%Z).
  - rewrite !sum_range_add, !sum_range_scale, sum_range_const,
      !sum_range_eqb by done. lia.
  - intros z _.
    destruct (z =? x) eqn:H1, (z =? y) eqn:H2, (z =? u) eqn:H3; try done;
      try apply Nat.eqb_eq in H1; try apply Nat.eqb_eq in H2;
      try apply Nat.eqb_eq in H3; lia.
Qed.

Lemma sum_range_guard (n : nat) (P : nat -> bool) (c : Z) :
  sum_range 0 n (fun y => if P y then c else 0%Z)
  = (c * sum_range 0 n (fun y => indicator (P y)))%Z.
Proof.
  rewrite <- sum_range_scale. apply sum_range_ext. intros y _.
  destruct (P y); simpl; lia.
Qed.

Lemma indicator_nonneg (b : bool) : (0 <= indicator b)%Z.
Proof. destruct b; simpl; lia. Qed.

(** The sum over the pairs [k < j < n] taken row by row equals the sum
    over the pairs [p < q < n] taken column by column. *)
Lemma sum_range_triangle (n : nat) (f : nat -> nat -> Z) :
  sum_range 0 n (fun j => sum_range 0 j (fun k => f k j))
  = sum_range 0 n (fun p => sum_range (p + 1) n (fun q => f p q)).
Proof.
  induction n as [|n IH].
  - done.
  - rewrite !sum_range_snoc by lia. rewrite IH.
    rewrite (sum_range_empty (n + 1) (S n)) by lia.
    rewrite (sum_range_ext 0 n
               (fun p => sum_range (p + 1) (S n) (fun q => f p q))
               (fun p => sum_range (p + 1) n (fun q => f p q) + f p n)%Z).
    + rewrite sum_range_add. lia.
    + intros p Hp. rewrite sum_range_snoc by lia. done.
Qed.

(** A loop that adds [f i] and [g i] to a pair of accumulators. *)
Lemma for_range_sum2 {St : Type} (emb : Z * Z -> St) (lo hi : nat)
  (body : nat -> St -> result St) (f g : nat -> Z) :
  lo <= hi ->
  (forall i x y, lo <= i < hi ->
     body i (emb (x, y)) = Ok (emb (x + f i, y + g i)%Z)) ->
  forall x y,
    for_range lo hi body (emb (x, y))
    = Ok (emb (x + sum_range lo hi f, y + sum_range lo hi g)%Z).
Proof.
  intros Hle Hbody x y.
  destruct (for_range_total
    (fun i s => s = emb (x + sum_range lo i f, y + sum_range lo i g)%Z)
    lo hi body (emb (x, y))) as (s & Hs & ->); [done | | | done].
  - rewrite !sum_range_empty by lia. by rewrite !Z.add_0_r.
  - intros i s Hi ->. eexists. split; [by apply Hbody|].
    rewrite !sum_range_snoc by lia. by rewrite !Z.add_assoc.
Qed.

Section CrossTransitivity.

Variables (A : matrix Z) (nodes1 nodes2 : list nat).

(** Every entry of [A] that the kernels index exists. *)
Hypothesis entries_exist :
  forall a b, a ∈ nodes1 ++ nodes2 -> b ∈ nodes1 ++ nodes2 ->
    exists v, mget A a b = Ok v.

Let m := length nodes1.
Let n := length nodes2.

(** What the innermost loops of [_cross_transitivity] add for the pair
    [(i, j)]. *)
Definition triangles_at (i j : nat) : Z :=
  if linked A (node nodes1 i) (node nodes2 j) then
    sum_range 0 j (fun k =>
      indicator (linked A (node nodes2 j) (node nodes2 k)
                 && linked A (node nodes2 k) (node nodes1 i)))
  else 0%Z.

Definition triples_at (i j : nat) : Z :=
  if linked A (node nodes1 i) (node nodes2 j) then
    sum_range 0 j (fun k => indicator (linked A (node nodes1 i) (node nodes2 k)))
  else 0%Z.

Definition cross_triangles : Z :=
  sum_range 0 m (fun i => sum_range 0 n (triangles_at i)).

Definition cross_triples : Z :=
  sum_range 0 m (fun i => sum_range 0 n (triples_at i)).

(** The number of cross links between the two node sets. *)
Definition cross_edges : Z :=
  sum_range 0 m (fun i => sum_range 0 n (fun j =>
    indicator (linked A (node nodes1 i) (node nodes2 j)))).

Lemma aget_node (nodes : list nat) (i : nat) :
  i < length nodes -> aget nodes i = Ok (node nodes i).
Proof.
  intros H. destruct (aget_lt nodes i H) as (v & -> & Hv).
  unfold node. by rewrite Hv.
Qed.

Lemma node_elem (nodes : list nat) (i : nat) :
  i < length nodes -> node nodes i ∈ nodes.
Proof.
  intros H. destruct (lookup_lt_is_Some_2 nodes i H) as [v Hv].
  unfold node. rewrite Hv. simpl. by eapply list_elem_of_lookup_2.
Qed.

Lemma node1_elem (i : nat) : i < m -> node nodes1 i ∈ nodes1 ++ nodes2.
Proof. intros H. apply elem_of_app. left. by apply node_elem. Qed.

Lemma node2_elem (j : nat) : j < n -> node nodes2 j ∈ nodes1 ++ nodes2.
Proof. intros H. apply elem_of_app. right. by apply node_elem. Qed.

Lemma mget_entry (a b : nat) :
  a ∈ nodes1 ++ nodes2 -> b ∈ nodes1 ++ nodes2 -> mget A a b = Ok (entry A a b).
Proof.
  intros Ha Hb. destruct (entries_exist a b Ha Hb) as [v Hv].
  unfold entry. by rewrite Hv.
Qed.

Lemma cross_transitivity_counts_eval :
  cross_transitivity_counts A nodes1 nodes2 = Ok (cross_triangles, cross_triples).
Proof.
  unfold cross_transitivity_counts, cross_triangles, cross_triples.
  rewrite (for_range_sum2 (fun p => p) 0 m _
             (fun i => sum_range 0 n (triangles_at i))
             (fun i => sum_range 0 n (triples_at i))); [done | lia |].
  intros i x y Hi. rewrite (aget_node nodes1 i) by lia. simpl.
  apply (for_range_sum2 (fun p => p) 0 n _ (triangles_at i) (triples_at i));
    [lia|].
  intros j x' y' Hj. rewrite (aget_node nodes2 j) by lia. simpl.
  rewrite (mget_entry (node nodes1 i) (node nodes2 j))
    by (apply node1_elem || apply node2_elem; lia).
  simpl. unfold triangles_at, triples_at, linked.
  destruct (truthy (entry A (node nodes1 i) (node nodes2 j))).
  - apply (for_range_sum2 (fun p => p) 0 j _
      (fun k => indicator (truthy (entry A (node nodes2 j) (node nodes2 k))
                 && truthy (entry A (node nodes2 k) (node nodes1 i))))
      (fun k => indicator (truthy (entry A (node nodes1 i) (node nodes2 k)))));
      [lia|].
    intros k0 x'' y'' Hk. rewrite (aget_node nodes2 k0) by lia. simpl.
    rewrite !mget_entry by (apply node1_elem || apply node2_elem; lia).
    simpl.
    destruct (truthy (entry A (node nodes1 i) (node nodes2 k0)));
      destruct (truthy (entry A (node nodes2 j) (node nodes2 k0))); simpl;
      try rewrite !mget_entry by (apply node1_elem || apply node2_elem; lia);
      simpl;
      try destruct (truthy (entry A (node nodes2 k0) (node nodes1 i))); simpl;
      by rewrite ?Z.add_0_r.
  - by rewrite !Z.add_0_r.
Qed.

Lemma cross_triples_nonneg : (0 <= cross_triples)%Z.
Proof.
  unfold cross_triples. apply sum_range_nonneg. intros i _.
  apply sum_range_nonneg. intros j _. unfold triples_at.
  destruct (linked _ _ _); [|lia]. apply sum_range_nonneg. intros k0 _.
  unfold indicator. destruct (linked _ _ _); lia.
Qed.

Lemma cross_triangles_nonneg : (0 <= cross_triangles)%Z.
Proof.
  unfold cross_triangles. apply sum_range_nonneg. intros i _.
  apply sum_range_nonneg. intros j _. unfold triangles_at.
  destruct (linked _ _ _); [|lia]. apply sum_range_nonneg. intros k0 _.
  unfold indicator. destruct (_ && _); lia.
Qed.

(** [_cross_transitivity] always returns a number. *)
Lemma cross_transitivity_eval :
  _cross_transitivity A nodes1 nodes2
  = Ok (if truthy cross_triples
        then (inject_Z cross_triangles / inject_Z cross_triples)%Q
        else 0%Q).
Proof.
  unfold _cross_transitivity. rewrite cross_transitivity_counts_eval. simpl.
  by destruct (truthy cross_triples).
Qed.

(** The loops of [_nsi_cross_transitivity] never raise when the weights
    they index exist, whatever these weights are. *)
Lemma nsi_cross_transitivity_sums_total (node_weights : list Q) :
  (forall a, a ∈ nodes1 ++ nodes2 -> exists x, aget node_weights a = Ok x) ->
  exists T, nsi_cross_transitivity_sums A nodes1 nodes2 node_weights = Ok T.
Proof.
  intros Hw. unfold nsi_cross_transitivity_sums.
  destruct (for_range_total (fun _ _ => True) 0 m
    (fun v acc =>
      node_v <- aget nodes1 v ;;
      weight_v <- aget node_weights node_v ;;
      for_range 0 n (fun p '(T1, T2) =>
        node_p <- aget nodes2 p ;;
        avp <- mget A node_v node_p ;;
        if truthy avp then
          weight_p <- aget node_weights node_p ;;
          let ppv := (weight_p * weight_p * weight_v)%Q in
          let T1 := (T1 + ppv)%Q in
          let T2 := (T2 + ppv)%Q in
          for_range (p + 1) n (fun q '(T1, T2) =>
            node_q <- aget nodes2 q ;;
            avq <- mget A node_v node_q ;;
            if truthy avq then
              weight_q <- aget node_weights node_q ;;
              let pqv := (2 * weight_p * weight_q * weight_v)%Q in
              let T2 := (T2 + pqv)%Q in
              apq <- mget A node_p node_q ;;
              if truthy apq then Ok ((T1 + pqv)%Q, T2) else Ok (T1, T2)
            else Ok (T1, T2)) (T1, T2)
        else Ok (T1, T2)) acc) (0%Q, 0%Q)) as (T & HT & _);
    [lia | done | | by exists T].
  intros v acc Hv _. rewrite (aget_node nodes1 v) by lia. simpl.
  destruct (Hw (node nodes1 v)) as [wv ->]; [apply node1_elem; lia|]. simpl.
  apply (for_range_total (fun _ _ => True)); [lia | done |].
  intros p [T1 T2] Hp _. rewrite (aget_node nodes2 p) by lia. simpl.
  rewrite mget_entry by (apply node1_elem || apply node2_elem; lia). simpl.
  destruct (truthy _); [|eauto].
  destruct (Hw (node nodes2 p)) as [wp ->]; [apply node2_elem; lia|]. simpl.
  apply (for_range_total (fun _ _ => True)); [lia | done |].
  intros q [T1' T2'] Hq _. rewrite (aget_node nodes2 q) by lia. simpl.
  rewrite mget_entry by (apply node1_elem || apply node2_elem; lia). simpl.
  destruct (truthy _); [|eauto].
  destruct (Hw (node nodes2 q)) as [wq ->]; [apply node2_elem; lia|]. simpl.
  rewrite mget_entry by (apply node1_elem || apply node2_elem; lia). simpl.
  destruct (truthy _); eauto.
Qed.

(** What the loops over [p] and [q] add to [T1] and [T2] for the pair
    [(v, p)] when every weight is 1. *)
Definition unit_T1_at (v p : nat) : Z :=
  if linked A (node nodes1 v) (node nodes2 p) then
    (1 + sum_range (p + 1) n (fun q =>
       if linked A (node nodes1 v) (node nodes2 q) then
         if linked A (node nodes2 p) (node nodes2 q) then 2 else 0
       else 0))%Z
  else 0%Z.

Definition unit_T2_at (v p : nat) : Z :=
  if linked A (node nodes1 v) (node nodes2 p) then
    (1 + sum_range (p + 1) n (fun q =>
       if linked A (node nodes1 v) (node nodes2 q) then 2 else 0))%Z
  else 0%Z.

Definition unit_T1 : Z := sum_range 0 m (fun v => sum_range 0 n (unit_T1_at v)).
Definition unit_T2 : Z := sum_range 0 m (fun v => sum_range 0 n (unit_T2_at v)).

Definition inject_pair (p : Z * Z) : Q * Q := (inject_Z (fst p), inject_Z (snd p)).

Lemma Qplus_inject_Z (a b : Z) : (inject_Z a + inject_Z b)%Q = inject_Z (a + b).
Proof. unfold Qplus, inject_Z. simpl. f_equal. lia. Qed.

Lemma nsi_cross_transitivity_sums_unit (node_weights : list Q) :
  (forall a, a ∈ nodes1 ++ nodes2 -> aget node_weights a = Ok 1%Q) ->
  nsi_cross_transitivity_sums A nodes1 nodes2 node_weights
  = Ok (inject_Z unit_T1, inject_Z unit_T2).
Proof.
  intros Hw. unfold nsi_cross_transitivity_sums, unit_T1, unit_T2.
  change (0%Q, 0%Q) with (inject_pair (0%Z, 0%Z)).
  rewrite (for_range_sum2 inject_pair 0 m _
             (fun v => sum_range 0 n (unit_T1_at v))
             (fun v => sum_range 0 n (unit_T2_at v))); [done | lia |].
  intros v x y Hv. rewrite (aget_node nodes1 v) by lia. simpl.
  rewrite Hw by (apply node1_elem; lia). simpl.
  apply (for_range_sum2 inject_pair 0 n _ (unit_T1_at v) (unit_T2_at v)); [lia|].
  intros p x' y' Hp. unfold inject_pair at 1. simpl.
  rewrite (aget_node nodes2 p) by lia. simpl.
  rewrite mget_entry by (apply node1_elem || apply node2_elem; lia). simpl.
  unfold unit_T1_at, unit_T2_at, linked.
  destruct (truthy (entry A (node nodes1 v) (node nodes2 p)));
    [|by rewrite !Z.add_0_r].
  rewrite Hw by (apply node2_elem; lia). simpl.
  change (1 * 1 * 1)%Q with (inject_Z 1). rewrite !Qplus_inject_Z.
  rewrite !Z.add_assoc.
  apply (for_range_sum2 inject_pair (p + 1) n _
    (fun q => if truthy (entry A (node nodes1 v) (node nodes2 q)) then
                if truthy (entry A (node nodes2 p) (node nodes2 q))
                then 2 else 0
              else 0)%Z
    (fun q => if truthy (entry A (node nodes1 v) (node nodes2 q))
              then 2 else 0)%Z); [lia|].
  intros q x'' y'' Hq. unfold inject_pair. simpl.
  rewrite (aget_node nodes2 q) by lia. simpl.
  rewrite mget_entry by (apply node1_elem || apply node2_elem; lia). simpl.
  destruct (truthy (entry A (node nodes1 v) (node nodes2 q)));
    [|by rewrite !Z.add_0_r].
  rewrite Hw by (apply node2_elem; lia). simpl.
  rewrite mget_entry by (apply node1_elem || apply node2_elem; lia). simpl.
  change (2 * 1 * 1 * 1)%Q with (inject_Z 2). rewrite !Qplus_inject_Z.
  destruct (truthy (entry A (node nodes2 p) (node nodes2 q)));
    by rewrite ?Z.add_0_r.
Qed.

End CrossTransitivity.

(** The counting identity behind the two kernels: the pairs [p < q] that
    the weighted kernel visits with weight 2 are the pairs [k < j] that the
    classical kernel counts once. *)
Lemma pair_sums_exchange (n : nat) (a : nat -> bool) (c d : nat -> nat -> bool) :
  (forall p q, p < q < n -> a p && (a q && c p q) = a q && d q p) ->
  sum_range 0 n (fun p =>
    if a p then
      (1 + sum_range (p + 1) n (fun q =>
         if a q then if c p q then 2 else 0 else 0))%Z
    else 0%Z)
  = (sum_range 0 n (fun p => indicator (a p))
     + 2 * sum_range 0 n (fun j =>
         if a j then sum_range 0 j (fun k => indicator (d j k)) else 0))%Z.
Proof.
  intros Hpq.
  rewrite (sum_range_ext 0 n
    (fun j => if a j then sum_range 0 j (fun k => indicator (d j k)) else 0%Z)
    (fun j => sum_range 0 j (fun k => indicator (a j && d j k)))).
  2:{ intros j _. destruct (a j); [done|]. by rewrite sum_range_zero. }
  rewrite (sum_range_triangle n (fun k j => indicator (a j && d j k))).
  rewrite <- sum_range_scale, <- sum_range_add.
  apply sum_range_ext. intros p Hp.
  rewrite <- sum_range_scale.
  destruct (a p) eqn:Hap; simpl.
  - f_equal. apply sum_range_ext. intros q Hq.
    rewrite <- (Hpq p q) by lia. rewrite Hap. simpl.
    by destruct (a q), (c p q).
  - symmetry. apply sum_range_zero. intros q Hq.
    rewrite <- (Hpq p q) by lia. by rewrite Hap.
Qed.

Lemma entry_symmetric (A : matrix Z) (a b : nat) :
  symmetric A -> entry A a b = entry A b a.
Proof. intros H. unfold entry. by rewrite (H a b). Qed.

Lemma linked_symmetric (A : matrix Z) (a b : nat) :
  symmetric A -> linked A a b = linked A b a.
Proof. intros H. unfold linked. by rewrite (entry_symmetric A a b H). Qed.

Lemma unit_T1_triangles (A : matrix Z) (nodes1 nodes2 : list nat) :
  symmetric A ->
  unit_T1 A nodes1 nodes2
  = (cross_edges A nodes1 nodes2 + 2 * cross_triangles A nodes1 nodes2)%Z.
Proof.
  intros Hsym. unfold unit_T1, cross_edges, cross_triangles.
  rewrite <- sum_range_scale, <- sum_range_add.
  apply sum_range_ext. intros v _. unfold unit_T1_at, triangles_at.
  apply (pair_sums_exchange (length nodes2)
    (fun p => linked A (node nodes1 v) (node nodes2 p))
    (fun p q => linked A (node nodes2 p) (node nodes2 q))
    (fun j k => linked A (node nodes2 j) (node nodes2 k)
                && linked A (node nodes2 k) (node nodes1 v))).
  intros p q _.
  rewrite (linked_symmetric A (node nodes2 q) (node nodes2 p) Hsym).
  rewrite (linked_symmetric A (node nodes2 p) (node nodes1 v) Hsym).
  by destruct (linked A (node nodes1 v) (node nodes2 p)),
    (linked A (node nodes1 v) (node nodes2 q)),
    (linked A (node nodes2 p) (node nodes2 q)).
Qed.

Lemma unit_T2_triples (A : matrix Z) (nodes1 nodes2 : list nat) :
  unit_T2 A nodes1 nodes2
  = (cross_edges A nodes1 nodes2 + 2 * cross_triples A nodes1 nodes2)%Z.
Proof.
  unfold unit_T2, cross_edges, cross_triples.
  rewrite <- sum_range_scale, <- sum_range_add.
  apply sum_range_ext. intros v _. unfold unit_T2_at, triples_at.
  rewrite <- (pair_sums_exchange (length nodes2)
    (fun p => linked A (node nodes1 v) (node nodes2 p))
    (fun _ _ => true)
    (fun j k => linked A (node nodes1 v) (node nodes2 k))).
  - done.
  - intros p q _.
    by destruct (linked A (node nodes1 v) (node nodes2 p)),
      (linked A (node nodes1 v) (node nodes2 q)).
Qed.

Lemma cross_edges_nonneg (A : matrix Z) (nodes1 nodes2 : list nat) :
  (0 <= cross_edges A nodes1 nodes2)%Z.
Proof.
  unfold cross_edges. apply sum_range_nonneg. intros i _.
  apply sum_range_nonneg. intros j _. unfold indicator.
  destruct (linked _ _ _); lia.
Qed.

(** A loop whose body leaves the state alone returns that state. *)
Lemma for_range_skip {St : Type} (lo hi : nat) (body : nat -> St -> result St)
  (s : St) :
  (forall i, lo <= i < hi -> body i s = Ok s) -> for_range lo hi body s = Ok s.
Proof.
  intros H. destruct (decide (lo <= hi)) as [Hle|Hgt].
  - destruct (for_range_total (fun _ s' => s' = s) lo hi body s)
      as (s' & Hs' & ->); [done | done | | done].
    intros i s1 Hi ->. exists s. split; [by apply H | done].
  - unfold for_range. by replace (hi - lo) with 0 by lia.
Qed.

Lemma elem_of_lookup_lt {T : Type} (l : list T) (i : nat) :
  i < length l -> exists x, l !! i = Some x /\ x ∈ l.
Proof.
  intros H. destruct (lookup_lt_is_Some_2 l i H) as [x Hx].
  exists x. split; [done|]. by eapply list_elem_of_lookup_2.
Qed.

(** C2. With no cross link between the two node sets, [_cross_transitivity]
    returns 0, whereas [_nsi_cross_transitivity] leaves its loops with
    [T1 = T2 = 0] and raises [ZeroDivisionError] on [T1 / T2]. *)
Theorem cross_transitivity_without_cross_links (A : matrix Z)
  (nodes1 nodes2 : list nat) (node_weights : list Q) :
  (forall a b, a ∈ nodes1 -> b ∈ nodes2 -> mget A a b = Ok 0%Z) ->
  (forall a, a ∈ nodes1 -> exists x, aget node_weights a = Ok x) ->
  _cross_transitivity A nodes1 nodes2 = Ok 0%Q /\
  _nsi_cross_transitivity A nodes1 nodes2 node_weights = Raise ZeroDivisionError.
Proof.
  intros Hzero Hw. split.
  - unfold _cross_transitivity, cross_transitivity_counts.
    rewrite for_range_skip; [done|].
    intros i Hi.
    destruct (elem_of_lookup_lt nodes1 i) as (n1 & Hn1 & Hin1); [lia|].
    apply aget_Ok in Hn1. rewrite Hn1. simpl.
    apply for_range_skip. intros j Hj.
    destruct (elem_of_lookup_lt nodes2 j) as (n2 & Hn2 & Hin2); [lia|].
    apply aget_Ok in Hn2. rewrite Hn2. simpl.
    by rewrite (Hzero n1 n2 Hin1 Hin2).
  - unfold _nsi_cross_transitivity, nsi_cross_transitivity_sums.
    rewrite for_range_skip; [done|].
    intros v Hv.
    destruct (elem_of_lookup_lt nodes1 v) as (n1 & Hn1 & Hin1); [lia|].
    apply aget_Ok in Hn1. rewrite Hn1. simpl.
    destruct (Hw n1 Hin1) as [wv ->]. simpl.
    apply for_range_skip. intros p Hp.
    destruct (elem_of_lookup_lt nodes2 p) as (n2 & Hn2 & Hin2); [lia|].
    apply aget_Ok in Hn2. rewrite Hn2. simpl.
    by rewrite (Hzero n1 n2 Hin1 Hin2).
Qed.

Lemma cross_transitivity_without_cross_links_witness :
  _cross_transitivity [[0; 0]; [0; 0]]%Z [0] [1] = Ok 0%Q /\
  _nsi_cross_transitivity [[0; 0]; [0; 0]]%Z [0] [1] [1%Q; 1%Q]
  = Raise ZeroDivisionError.
Proof.
  apply cross_transitivity_without_cross_links.
  - intros a b ->%list_elem_of_singleton ->%list_elem_of_singleton. reflexivity.
  - intros a ->%list_elem_of_singleton. exists 1%Q. reflexivity.
Defined.

(** The ways in which the input of a cross-transitivity kernel can be
    malformed: a matrix that is not square or not symmetric, a weight vector
    of another length than the matrix, a weight that is not positive. *)
Definition malformed (A : matrix Z) (node_weights : list Q) : Prop :=
  (~ exists N, dims N N A) \/
  ~ symmetric A \/
  length node_weights <> length A \/
  Exists (fun x => x <= 0)%Q node_weights.

(** C9, as stated, fails: on a matrix that is neither square nor
    symmetric, with three weights for two rows, one of them negative and
    one zero, both kernels compute and return a value. *)
Lemma kernels_accept_malformed_input :
  let A := [[0; 1; 1]; [0; 0; 0]]%Z in
  let node_weights := [(-1)%Q; 1%Q; 0%Q] in
  (~ exists N, dims N N A) /\
  ~ symmetric A /\
  length node_weights <> length A /\
  Exists (fun x => x <= 0)%Q node_weights /\
  _cross_transitivity A [0] [1] = Ok 0%Q /\
  _nsi_cross_transitivity A [0] [1] node_weights = Ok ((-1) / (-1))%Q.
Proof.
  simpl. repeat split.
  - intros (N & Hlen & Hrows). simpl in Hlen. subst N.
    apply Forall_cons in Hrows as [Hrow _]. simpl in Hrow. lia.
  - intros Hsym. specialize (Hsym 0 1). discriminate.
  - simpl. lia.
  - apply Exists_cons_hd. unfold Qle. simpl. lia.
Qed.

(** C9, amended. The kernels carry out no validation of their own:
    whatever the shape and entries of the matrix and whatever the weights,
    as long as every entry they index exists, [_cross_transitivity] returns
    a number and [_nsi_cross_transitivity] returns a number or raises
    [ZeroDivisionError]. *)
Theorem cross_transitivity_kernels_do_not_validate (A : matrix Z)
  (nodes1 nodes2 : list nat) (node_weights : list Q) :
  (forall a b, a ∈ nodes1 ++ nodes2 -> b ∈ nodes1 ++ nodes2 ->
     exists v, mget A a b = Ok v) ->
  (forall a, a ∈ nodes1 ++ nodes2 -> exists x, aget node_weights a = Ok x) ->
  (exists q, _cross_transitivity A nodes1 nodes2 = Ok q) /\
  ((exists q, _nsi_cross_transitivity A nodes1 nodes2 node_weights = Ok q) \/
   _nsi_cross_transitivity A nodes1 nodes2 node_weights
   = Raise ZeroDivisionError).
Proof.
  intros HA Hw. split.
  - rewrite (cross_transitivity_eval A nodes1 nodes2 HA). eauto.
  - unfold _nsi_cross_transitivity.
    destruct (nsi_cross_transitivity_sums_total A nodes1 nodes2 HA
                node_weights Hw) as ([T1 T2] & ->).
    simpl. unfold divide. destruct (Qeq_bool T2 0); eauto.
Qed.

Lemma cross_transitivity_kernels_do_not_validate_witness :
  (exists q, _cross_transitivity [[0; 1; 1]; [0; 0; 0]]%Z [0] [1] = Ok q) /\
  ((exists q, _nsi_cross_transitivity [[0; 1; 1]; [0; 0; 0]]%Z [0] [1]
                [(-1)%Q; 1%Q; 0%Q] = Ok q) \/
   _nsi_cross_transitivity [[0; 1; 1]; [0; 0; 0]]%Z [0] [1] [(-1)%Q; 1%Q; 0%Q]
   = Raise ZeroDivisionError).
Proof.
  apply cross_transitivity_kernels_do_not_validate.
  - intros a b Ha Hb.
    assert (a = 0 \/ a = 1) as [-> | ->]
      by (apply elem_of_cons in Ha as [-> | ->%list_elem_of_singleton]; auto).
    all: assert (b = 0 \/ b = 1) as [-> | ->]
      by (apply elem_of_cons in Hb as [-> | ->%list_elem_of_singleton]; auto).
    all: eexists; reflexivity.
  - intros a Ha.
    assert (a = 0 \/ a = 1) as [-> | ->]
      by (apply elem_of_cons in Ha as [-> | ->%list_elem_of_singleton]; auto).
    all: eexists; reflexivity.
Defined.

Lemma Qdiv_inject_Z_eq (a b c d : Z) :
  (0 < b)%Z -> (0 < d)%Z ->
  (inject_Z a / inject_Z b == inject_Z c / inject_Z d)%Q <-> (a * d = c * b)%Z.
Proof.
  intros Hb Hd. destruct b as [|b|b]; [lia | | lia].
  destruct d as [|d|d]; [lia | | lia].
  unfold Qeq, Qdiv, Qmult, Qinv, inject_Z. simpl. lia.
Qed.

Lemma Qdiv_inject_Z_nonzero (a b : Z) :
  (0 < a)%Z -> (0 < b)%Z -> ~ (0 == inject_Z a / inject_Z b)%Q.
Proof.
  intros Ha Hb. destruct b as [|b|b]; [lia | | lia].
  unfold Qeq, Qdiv, Qmult, Qinv, inject_Z. simpl. lia.
Qed.

(** C3, as stated, fails: node 0 is linked to the unlinked nodes 1 and 2;
    the classical kernel finds one triple and no triangle and returns 0,
    the weighted kernel with unit weights returns 2/4. *)
Lemma unit_weights_do_not_recover_cross_transitivity :
  let A := [[0; 1; 1]; [1; 0; 0]; [1; 0; 0]]%Z in
  adjacency 3 A /\
  NoDup ([0] ++ [1; 2]) /\
  mget A 0 1 = Ok 1%Z /\
  _cross_transitivity A [0] [1; 2] = Ok 0%Q /\
  _nsi_cross_transitivity A [0] [1; 2] [1%Q; 1%Q; 1%Q] = Ok (2 # 4)%Q /\
  ~ (0 == 2 # 4)%Q.
Proof.
  simpl. repeat split.
  - repeat constructor.
  - intros i j. do 4 (try destruct i as [|i]); do 4 (try destruct j as [|j]);
      reflexivity.
  - intros i j v. do 4 (try destruct i as [|i]); do 4 (try destruct j as [|j]);
      intros [= <-] || discriminate; auto.
  - intros i v. do 4 (try destruct i as [|i]);
      intros [= <-] || discriminate; auto.
  - compute_done.
  - discriminate.
Qed.

(** C3, amended. For a symmetric matrix, unit weights and at least one
    cross link, [_nsi_cross_transitivity] returns
    [(c + 2 * triangles) / (c + 2 * triples)], where [triangles] and
    [triples] are the counters of [_cross_transitivity] and [c] is the
    number of cross links; this is the value of [_cross_transitivity]
    exactly when there is a triple and every triple is closed. *)
Theorem nsi_cross_transitivity_unit_weights (A : matrix Z)
  (nodes1 nodes2 : list nat) (node_weights : list Q) :
  symmetric A ->
  (forall a b, a ∈ nodes1 ++ nodes2 -> b ∈ nodes1 ++ nodes2 ->
     exists v, mget A a b = Ok v) ->
  (forall a, a ∈ nodes1 ++ nodes2 -> aget node_weights a = Ok 1%Q) ->
  (0 < cross_edges A nodes1 nodes2)%Z ->
  exists triangles triples classical weighted,
    cross_transitivity_counts A nodes1 nodes2 = Ok (triangles, triples) /\
    _cross_transitivity A nodes1 nodes2 = Ok classical /\
    _nsi_cross_transitivity A nodes1 nodes2 node_weights = Ok weighted /\
    weighted = (inject_Z (cross_edges A nodes1 nodes2 + 2 * triangles)
                / inject_Z (cross_edges A nodes1 nodes2 + 2 * triples))%Q /\
    ((classical == weighted)%Q <-> triangles = triples /\ (0 < triples)%Z).
Proof.
  intros Hsym HA Hw Hc.
  pose proof (cross_triples_nonneg A nodes1 nodes2) as Htrip.
  pose proof (cross_triangles_nonneg A nodes1 nodes2) as Htri.
  set (c := cross_edges A nodes1 nodes2) in *.
  set (tri := cross_triangles A nodes1 nodes2) in *.
  set (trip := cross_triples A nodes1 nodes2) in *.
  exists tri, trip.
  exists (if truthy trip then (inject_Z tri / inject_Z trip)%Q else 0%Q).
  exists (inject_Z (c + 2 * tri) / inject_Z (c + 2 * trip))%Q.
  split; [by apply cross_transitivity_counts_eval|].
  split; [by apply cross_transitivity_eval|].
  split.
  { unfold _nsi_cross_transitivity.
    rewrite (nsi_cross_transitivity_sums_unit A nodes1 nodes2 HA node_weights Hw).
    simpl. rewrite (unit_T1_triangles A nodes1 nodes2 Hsym), unit_T2_triples.
    fold c tri trip. unfold divide.
    destruct (Qeq_bool (inject_Z (c + 2 * trip)) 0) eqn:Hz; [|done].
    apply Qeq_bool_iff in Hz. unfold Qeq in Hz. simpl in Hz. lia. }
  split; [done|].
  unfold truthy. destruct (trip =? 0)%Z eqn:Hz; simpl.
  - apply Z.eqb_eq in Hz. split.
    + intros Heq. exfalso. rewrite Hz in Heq.
      apply (Qdiv_inject_Z_nonzero (c + 2 * tri) (c + 2 * 0)); [lia | lia | done].
    + lia.
  - apply Z.eqb_neq in Hz.
    rewrite Qdiv_inject_Z_eq by lia. split; [|nia].
    intros Heq. split; [nia | lia].
Qed.

Lemma nsi_cross_transitivity_unit_weights_witness :
  let A := [[0; 1; 1]; [1; 0; 0]; [1; 0; 0]]%Z in
  let nodes1 := [0] in
  let nodes2 := [1; 2] in
  exists triangles triples classical weighted,
    cross_transitivity_counts A nodes1 nodes2 = Ok (triangles, triples) /\
    _cross_transitivity A nodes1 nodes2 = Ok classical /\
    _nsi_cross_transitivity A nodes1 nodes2 [1%Q; 1%Q; 1%Q] = Ok weighted /\
    weighted = (inject_Z (cross_edges A nodes1 nodes2 + 2 * triangles)
                / inject_Z (cross_edges A nodes1 nodes2 + 2 * triples))%Q /\
    ((classical == weighted)%Q <-> triangles = triples /\ (0 < triples)%Z).
Proof.
  apply nsi_cross_transitivity_unit_weights.
  - intros i j. do 4 (try destruct i as [|i]); do 4 (try destruct j as [|j]);
      reflexivity.
  - intros a b Ha Hb.
    assert (a < 3) as Ha'.
    { simpl in Ha. repeat (apply elem_of_cons in Ha as [-> | Ha]; [lia|]).
      by apply elem_of_nil in Ha. }
    assert (b < 3) as Hb'.
    { simpl in Hb. repeat (apply elem_of_cons in Hb as [-> | Hb]; [lia|]).
      by apply elem_of_nil in Hb. }
    do 3 (try destruct a as [|a]); do 3 (try destruct b as [|b]);
      try lia; eexists; reflexivity.
  - intros a Ha.
    assert (a < 3) as Ha'.
    { simpl in Ha. repeat (apply elem_of_cons in Ha as [-> | Ha]; [lia|]).
      by apply elem_of_nil in Ha. }
    do 3 (try destruct a as [|a]); try lia; reflexivity.
  - reflexivity.
Defined.

(** * Row sums, column sums and totals under a single store *)

Lemma sumZ_insert (l : list Z) (j : nat) (old v : Z) :
  l !! j = Some old -> sumZ (<[j := v]> l) = (sumZ l - old + v)%Z.
Proof.
  revert j. induction l as [|x l IH]; intros [|j] H; simpl in *; try done.
  - injection H as ->. lia.
  - rewrite (IH j H). lia.
Qed.

Lemma row_sum_mset (A A' : matrix Z) (i j i' : nat) (old v : Z) :
  mget A i j = Ok old -> mset A i j v = Ok A' ->
  row_sum A' i' = if decide (i' = i) then (row_sum A i' - old + v)%Z
                  else row_sum A i'.
Proof.
  intros (row & Hrow & Hold)%mget_Ok (row' & Hrow' & Hj & ->)%mset_Ok.
  assert (row' = row) as -> by congruence.
  unfold row_sum. destruct (decide (i' = i)) as [->|Hne].
  - rewrite list_lookup_insert_eq by (by eapply lookup_lt_Some).
    rewrite Hrow. by apply sumZ_insert.
  - by rewrite list_lookup_insert_ne.
Qed.

Lemma total_mset (A A' : matrix Z) (i j : nat) (old v : Z) :
  mget A i j = Ok old -> mset A i j v = Ok A' ->
  total A' = (total A - old + v)%Z.
Proof.
  intros (row & Hrow & Hold)%mget_Ok (row' & Hrow' & Hj & ->)%mset_Ok.
  assert (row' = row) as -> by congruence.
  unfold total. change (map sumZ) with (fmap (M := list) sumZ).
  rewrite list_fmap_insert.
  rewrite (sumZ_insert _ i (sumZ row)) by (by rewrite list_lookup_fmap, Hrow).
  rewrite (sumZ_insert row j old v Hold). lia.
Qed.

Lemma col_sum_mset (A A' : matrix Z) (i j j' : nat) (old v : Z) :
  mget A i j = Ok old -> mset A i j v = Ok A' ->
  col_sum A' j' = if decide (j' = j) then (col_sum A j' - old + v)%Z
                  else col_sum A j'.
Proof.
  intros (row & Hrow & Hold)%mget_Ok (row' & Hrow' & Hj & ->)%mset_Ok.
  assert (row' = row) as -> by congruence.
  unfold col_sum.
  change (map (fun r : list Z => default 0%Z (r !! j')))
    with (fmap (M := list) (fun r : list Z => default 0%Z (r !! j'))).
  rewrite list_fmap_insert.
  rewrite (sumZ_insert _ i (default 0%Z (row !! j')))
    by (by rewrite list_lookup_fmap, Hrow).
  destruct (decide (j' = j)) as [->|Hne].
  - rewrite list_lookup_insert_eq by done. rewrite Hold. simpl.
    change (fmap (M := list) (fun r : list Z => default 0%Z (r !! j)))
      with (map (fun r : list Z => default 0%Z (r !! j))). lia.
  - rewrite list_lookup_insert_ne by done.
    change (fmap (M := list) (fun r : list Z => default 0%Z (r !! j')))
      with (map (fun r : list Z => default 0%Z (r !! j'))). lia.
Qed.

(** * Geomodel rewiring *)

(** Every row of the edge list names a 1-entry of [A]. *)
Definition edges_consistent (E : nat) (A : matrix Z) (edges : list (nat * nat))
  : Prop :=
  forall e, e < E ->
    exists s t, edges !! e = Some (s, t) /\ mget A s t = Ok 1%Z.

(** No two rows of the edge list name the same undirected edge. *)
Definition edges_distinct (E : nat) (edges : list (nat * nat)) : Prop :=
  forall e1 e2 s t k l, e1 < E -> e2 < E -> e1 <> e2 ->
    edges !! e1 = Some (s, t) -> edges !! e2 = Some (k, l) ->
    (s, t) <> (k, l) /\ (s, t) <> (l, k).

(** A value returned by [rd.random()]: it lies in [[0, 1)]. *)
Definition unit_draw (d : Q * Q) : Prop :=
  (0 <= fst d)%Q /\ (fst d < 1)%Q /\ (0 <= snd d)%Q /\ (snd d < 1)%Q.

Lemma random_edge_lt (r : Q) (E : nat) :
  (0 <= r)%Q -> (r < 1)%Q -> 0 < E -> random_edge r E < E.
Proof.
  intros H0 H1 HE. unfold random_edge.
  assert (0 < inject_Z (Z.of_nat E))%Q as HEq.
  { rewrite <- (Zlt_Qlt 0). lia. }
  assert (0 <= Qfloor (r * inject_Z (Z.of_nat E)))%Z as Hlo.
  { rewrite <- (Qfloor_Z 0). apply Qfloor_resp_le.
    apply Qmult_le_0_compat; [done | by apply Qlt_le_weak]. }
  assert (Qfloor (r * inject_Z (Z.of_nat E)) < Z.of_nat E)%Z as Hhi.
  { rewrite Zlt_Qlt. eapply Qle_lt_trans; [apply Qfloor_le|].
    rewrite <- (Qmult_1_l (inject_Z (Z.of_nat E))) at 2.
    by apply Qmult_lt_compat_r. }
  lia.
Qed.

Lemma and_then_true (a b : result bool) :
  and_then a b = Ok true <-> a = Ok true /\ b = Ok true.
Proof.
  unfold and_then. destruct a as [[|]|e]; simpl; split; try done.
  - by intros [_ ->].
  - by intros [? _].
  - by intros [? _].
Qed.

Lemma and_then_Ok (a b : result bool) (x : bool) :
  a = Ok x -> (x = true -> exists y, b = Ok y) -> exists y, and_then a b = Ok y.
Proof.
  intros -> Hb. unfold and_then. simpl. destruct x; eauto.
Qed.

(** Storing the same 0 or 1 at [(a, b)] and [(b, a)], off the diagonal,
    keeps an adjacency matrix an adjacency matrix. *)
Lemma symmetric_store_adjacency (N : nat) (A A' A'' : matrix Z) (a b : nat)
  (v : Z) :
  adjacency N A -> a <> b -> v = 0%Z \/ v = 1%Z ->
  mset A a b v = Ok A' -> mset A' b a v = Ok A'' ->
  adjacency N A''.
Proof.
  intros (Hd & Hsym & Hbin & Hdiag) Hab Hv H1 H2.
  destruct (mset_dims_inv N N _ _ _ _ _ Hd H1) as (Hd1 & _).
  destruct (mset_dims_inv N N _ _ _ _ _ Hd1 H2) as (Hd2 & _).
  split; [done|]. split; [|split].
  - intros i j.
    rewrite (mget_mset _ _ _ _ i j _ H2), (mget_mset _ _ _ _ i j _ H1),
      (mget_mset _ _ _ _ j i _ H2), (mget_mset _ _ _ _ j i _ H1).
    destruct (decide (i = b /\ j = a)) as [[? ?]|?];
      destruct (decide (i = a /\ j = b)) as [[? ?]|?];
      destruct (decide (j = b /\ i = a)) as [[? ?]|?];
      destruct (decide (j = a /\ i = b)) as [[? ?]|?];
      try reflexivity; try (exfalso; lia); apply Hsym.
  - intros i j x.
    rewrite (mget_mset _ _ _ _ i j _ H2), (mget_mset _ _ _ _ i j _ H1).
    destruct (decide (i = b /\ j = a)); [intros [= <-]; done|].
    destruct (decide (i = a /\ j = b)); [intros [= <-]; done|].
    apply Hbin.
  - intros i x.
    rewrite (mget_mset _ _ _ _ i i _ H2), (mget_mset _ _ _ _ i i _ H1).
    destruct (decide (i = b /\ i = a)); [lia|].
    destruct (decide (i = a /\ i = b)); [lia|].
    apply Hdiag.
Qed.

Section DoubleEdgeSwap.

Variables (N : nat) (A A1 A2 A3 A4 A5 A6 A7 A8 : matrix Z) (s t k l : nat).

Hypothesis A_adjacency : adjacency N A.
Hypothesis old_st : mget A s t = Ok 1%Z.
Hypothesis old_kl : mget A k l = Ok 1%Z.
Hypothesis new_sl : mget A s l = Ok 0%Z.
Hypothesis new_tk : mget A t k = Ok 0%Z.
Hypothesis s_k : s <> k.
Hypothesis s_l : s <> l.
Hypothesis t_k : t <> k.
Hypothesis t_l : t <> l.

Hypothesis write1 : mset A s t 0%Z = Ok A1.
Hypothesis write2 : mset A1 t s 0%Z = Ok A2.
Hypothesis write3 : mset A2 k l 0%Z = Ok A3.
Hypothesis write4 : mset A3 l k 0%Z = Ok A4.
Hypothesis write5 : mset A4 s l 1%Z = Ok A5.
Hypothesis write6 : mset A5 l s 1%Z = Ok A6.
Hypothesis write7 : mset A6 t k 1%Z = Ok A7.
Hypothesis write8 : mset A7 k t 1%Z = Ok A8.

Lemma swap_s_t : s <> t.
Proof.
  intros ->. destruct A_adjacency as (_ & _ & _ & Hdiag).
  specialize (Hdiag t 1%Z old_st). lia.
Qed.

Lemma swap_k_l : k <> l.
Proof.
  intros ->. destruct A_adjacency as (_ & _ & _ & Hdiag).
  specialize (Hdiag l 1%Z old_kl). lia.
Qed.

Lemma swap_adjacency : adjacency N A8.
Proof.
  pose proof swap_s_t as s_t. pose proof swap_k_l as k_l.
  pose proof (symmetric_store_adjacency N A A1 A2 s t 0%Z A_adjacency
                s_t (or_introl eq_refl) write1 write2) as H2.
  pose proof (symmetric_store_adjacency N A2 A3 A4 k l 0%Z H2
                k_l (or_introl eq_refl) write3 write4) as H4.
  pose proof (symmetric_store_adjacency N A4 A5 A6 s l 1%Z H4
                s_l (or_intror eq_refl) write5 write6) as H6.
  exact (symmetric_store_adjacency N A6 A7 A8 t k 1%Z H6
           t_k (or_intror eq_refl) write7 write8).
Qed.

(** The values that the eight stores overwrite. *)
Lemma swap_old_values :
  mget A s t = Ok 1%Z /\ mget A1 t s = Ok 1%Z /\
  mget A2 k l = Ok 1%Z /\ mget A3 l k = Ok 1%Z /\
  mget A4 s l = Ok 0%Z /\ mget A5 l s = Ok 0%Z /\
  mget A6 t k = Ok 0%Z /\ mget A7 k t = Ok 0%Z.
Proof.
  pose proof swap_s_t as s_t. pose proof swap_k_l as k_l.
  destruct A_adjacency as (_ & Hsym & _).
  repeat split.
  - done.
  - rewrite (mget_mset_ne _ _ _ _ _ _ _ write1) by lia.
    by rewrite (Hsym t s).
  - rewrite (mget_mset_ne _ _ _ _ _ _ _ write2) by lia.
    by rewrite (mget_mset_ne _ _ _ _ _ _ _ write1) by lia.
  - rewrite (mget_mset_ne _ _ _ _ _ _ _ write3) by lia.
    rewrite (mget_mset_ne _ _ _ _ _ _ _ write2) by lia.
    rewrite (mget_mset_ne _ _ _ _ _ _ _ write1) by lia.
    by rewrite (Hsym l k).
  - rewrite (mget_mset_ne _ _ _ _ _ _ _ write4) by lia.
    rewrite (mget_mset_ne _ _ _ _ _ _ _ write3) by lia.
    rewrite (mget_mset_ne _ _ _ _ _ _ _ write2) by lia.
    by rewrite (mget_mset_ne _ _ _ _ _ _ _ write1) by lia.
  - rewrite (mget_mset_ne _ _ _ _ _ _ _ write5) by lia.
    rewrite (mget_mset_ne _ _ _ _ _ _ _ write4) by lia.
    rewrite (mget_mset_ne _ _ _ _ _ _ _ write3) by lia.
    rewrite (mget_mset_ne _ _ _ _ _ _ _ write2) by lia.
    rewrite (mget_mset_ne _ _ _ _ _ _ _ write1) by lia.
    by rewrite (Hsym l s).
  - rewrite (mget_mset_ne _ _ _ _ _ _ _ write6) by lia.
    rewrite (mget_mset_ne _ _ _ _ _ _ _ write5) by lia.
    rewrite (mget_mset_ne _ _ _ _ _ _ _ write4) by lia.
    rewrite (mget_mset_ne _ _ _ _ _ _ _ write3) by lia.
    rewrite (mget_mset_ne _ _ _ _ _ _ _ write2) by lia.
    by rewrite (mget_mset_ne _ _ _ _ _ _ _ write1) by lia.
  - rewrite (mget_mset_ne _ _ _ _ _ _ _ write7) by lia.
    rewrite (mget_mset_ne _ _ _ _ _ _ _ write6) by lia.
    rewrite (mget_mset_ne _ _ _ _ _ _ _ write5) by lia.
    rewrite (mget_mset_ne _ _ _ _ _ _ _ write4) by lia.
    rewrite (mget_mset_ne _ _ _ _ _ _ _ write3) by lia.
    rewrite (mget_mset_ne _ _ _ _ _ _ _ write2) by lia.
    rewrite (mget_mset_ne _ _ _ _ _ _ _ write1) by lia.
    by rewrite (Hsym k t).
Qed.

(** Every node keeps its degree. *)
Lemma swap_row_sum (v : nat) : row_sum A8 v = row_sum A v.
Proof.
  pose proof swap_s_t as s_t. pose proof swap_k_l as k_l.
  destruct swap_old_values as (o1 & o2 & o3 & o4 & o5 & o6 & o7 & o8).
  rewrite (row_sum_mset _ _ _ _ v _ _ o8 write8),
    (row_sum_mset _ _ _ _ v _ _ o7 write7),
    (row_sum_mset _ _ _ _ v _ _ o6 write6),
    (row_sum_mset _ _ _ _ v _ _ o5 write5),
    (row_sum_mset _ _ _ _ v _ _ o4 write4),
    (row_sum_mset _ _ _ _ v _ _ o3 write3),
    (row_sum_mset _ _ _ _ v _ _ o2 write2),
    (row_sum_mset _ _ _ _ v _ _ o1 write1).
  repeat case_decide; lia.
Qed.

(** The number of 1-entries stays the same. *)
Lemma swap_total : total A8 = total A.
Proof.
  destruct swap_old_values as (o1 & o2 & o3 & o4 & o5 & o6 & o7 & o8).
  rewrite (total_mset _ _ _ _ _ _ o8 write8), (total_mset _ _ _ _ _ _ o7 write7),
    (total_mset _ _ _ _ _ _ o6 write6), (total_mset _ _ _ _ _ _ o5 write5),
    (total_mset _ _ _ _ _ _ o4 write4), (total_mset _ _ _ _ _ _ o3 write3),
    (total_mset _ _ _ _ _ _ o2 write2), (total_mset _ _ _ _ _ _ o1 write1).
  lia.
Qed.

(** The two new edges are there. *)
Lemma swap_new_sl : mget A8 s l = Ok 1%Z.
Proof.
  pose proof swap_s_t as s_t.
  rewrite (mget_mset_ne _ _ _ _ _ _ _ write8) by lia.
  rewrite (mget_mset_ne _ _ _ _ _ _ _ write7) by lia.
  rewrite (mget_mset_ne _ _ _ _ _ _ _ write6) by lia.
  apply (mget_mset_eq _ _ _ _ _ write5).
Qed.

Lemma swap_new_kt : mget A8 k t = Ok 1%Z.
Proof. apply (mget_mset_eq _ _ _ _ _ write8). Qed.

(** An edge other than the two removed ones is still there. *)
Lemma swap_other_edge (x y : nat) :
  mget A x y = Ok 1%Z ->
  (x, y) <> (s, t) -> (x, y) <> (t, s) ->
  (x, y) <> (k, l) -> (x, y) <> (l, k) ->
  mget A8 x y = Ok 1%Z.
Proof.
  intros Hxy H1 H2 H3 H4.
  assert (forall a b, (x, y) <> (a, b) -> x <> a \/ y <> b) as Hpair.
  { intros a b Hne. destruct (decide (x = a)) as [->|]; [|by left].
    right. intros ->. by apply Hne. }
  apply Hpair in H1, H2, H3, H4.
  rewrite (mget_mset _ _ _ _ x y _ write8).
  destruct (decide (x = k /\ y = t)); [done|].
  rewrite (mget_mset _ _ _ _ x y _ write7).
  destruct (decide (x = t /\ y = k)); [done|].
  rewrite (mget_mset _ _ _ _ x y _ write6).
  destruct (decide (x = l /\ y = s)); [done|].
  rewrite (mget_mset _ _ _ _ x y _ write5).
  destruct (decide (x = s /\ y = l)); [done|].
  rewrite (mget_mset_ne _ _ _ _ _ _ _ write4) by done.
  rewrite (mget_mset_ne _ _ _ _ _ _ _ write3) by done.
  rewrite (mget_mset_ne _ _ _ _ _ _ _ write2) by done.
  by rewrite (mget_mset_ne _ _ _ _ _ _ _ write1) by done.
Qed.

End DoubleEdgeSwap.

(** The invariant of the rewiring loop, relative to the matrix [A0] that
    the kernel was called with. *)
Definition geo_inv (N E : nat) (A0 : matrix Z) (st : geo_state) : Prop :=
  adjacency N (geo_A st) /\
  edges_consistent E (geo_A st) (geo_edges st) /\
  edges_distinct E (geo_edges st) /\
  (forall v, row_sum (geo_A st) v = row_sum A0 v) /\
  total (geo_A st) = total A0.

Section RewireLoop.

Variables (N E : nat) (A0 : matrix Z).
Variables (eps : Q) (D : matrix Q) (degree : list Z).
Variables (cond_len : rewire_cond_len) (cond_deg : rewire_cond_deg).

Lemma edge_list_update (A A8 : matrix Z) (edges edges1 edges2 : list (nat * nat))
  (e1 e2 s t k l : nat) :
  adjacency N A -> edges_consistent E A edges -> edges_distinct E edges ->
  e1 < E -> e2 < E ->
  edges !! e1 = Some (s, t) -> edges !! e2 = Some (k, l) ->
  s <> k -> s <> l -> t <> k -> t <> l ->
  mget A s l = Ok 0%Z -> mget A t k = Ok 0%Z ->
  mget A8 s l = Ok 1%Z -> mget A8 k t = Ok 1%Z ->
  (forall x y, mget A x y = Ok 1%Z ->
     (x, y) <> (s, t) -> (x, y) <> (t, s) ->
     (x, y) <> (k, l) -> (x, y) <> (l, k) -> mget A8 x y = Ok 1%Z) ->
  aset edges e1 (s, l) = Ok edges1 ->
  aset edges1 e2 (k, t) = Ok edges2 ->
  edges_consistent E A8 edges2 /\ edges_distinct E edges2.
Proof.
  intros (Hd & Hsym & Hbin & Hdiag) Hcons Hdist He1 He2 Hr1 Hr2
    s_k s_l t_k t_l Hsl Htk Hsl8 Hkt8 Hother [Hl1 ->]%aset_Ok [Hl2 ->]%aset_Ok.
  rewrite length_insert in Hl2.
  assert (e1 <> e2) as Hne by (intros ->; congruence).
  assert (forall e x y, e < E -> e <> e1 -> e <> e2 ->
            edges !! e = Some (x, y) ->
            mget A x y = Ok 1%Z /\
            (x, y) <> (s, t) /\ (x, y) <> (t, s) /\
            (x, y) <> (k, l) /\ (x, y) <> (l, k) /\
            (x, y) <> (s, l) /\ (x, y) <> (l, s) /\
            (x, y) <> (k, t) /\ (x, y) <> (t, k)) as Hold.
  { intros e x y He Hn1 Hn2 Hr.
    destruct (Hcons e He) as (x' & y' & Hr' & Hxy).
    assert (x' = x /\ y' = y) as [-> ->] by (split; congruence).
    destruct (Hdist e e1 x y s t He He1 Hn1 Hr Hr1) as [? ?].
    destruct (Hdist e e2 x y k l He He2 Hn2 Hr Hr2) as [? ?].
    pose proof (Hsym l s) as Hls. rewrite Hsl in Hls.
    pose proof (Hsym k t) as Hkt. rewrite Htk in Hkt.
    repeat split; try done; intros [= -> ->]; congruence. }
  split.
  - intros e He. destruct (decide (e = e2)) as [->|Hn2].
    + exists k, t. by rewrite list_lookup_insert_eq by (by rewrite length_insert).
    + rewrite list_lookup_insert_ne by done.
      destruct (decide (e = e1)) as [->|Hn1].
      * exists s, l. by rewrite list_lookup_insert_eq.
      * rewrite list_lookup_insert_ne by done.
        destruct (Hcons e He) as (x & y & Hr & Hxy).
        destruct (Hold e x y He Hn1 Hn2 Hr) as (_ & ? & ? & ? & ? & _).
        exists x, y. split; [done|]. by apply Hother.
  - intros e e' x y x' y' He He' Hnee Hr Hr'.
    assert (forall e x y, e < E ->
              <[e2:=(k, t)]> (<[e1:=(s, l)]> edges) !! e = Some (x, y) ->
              (e = e2 /\ (x, y) = (k, t)) \/ (e = e1 /\ (x, y) = (s, l)) \/
              (e <> e1 /\ e <> e2 /\ edges !! e = Some (x, y))) as Hcase.
    { intros e0 x0 y0 He0 Hr0. destruct (decide (e0 = e2)) as [->|Hn2].
      - rewrite list_lookup_insert_eq in Hr0 by (by rewrite length_insert).
        left. split; congruence.
      - rewrite list_lookup_insert_ne in Hr0 by done.
        destruct (decide (e0 = e1)) as [->|Hn1].
        + rewrite list_lookup_insert_eq in Hr0 by done.
          right; left. split; congruence.
        + rewrite list_lookup_insert_ne in Hr0 by done. auto. }
    assert (s <> t) as s_t.
    { intros ->. destruct (Hcons e1 He1) as (x0 & y0 & Hr0 & Hxy0).
      assert (x0 = t /\ y0 = t) as [-> ->] by (split; congruence).
      specialize (Hdiag t 1%Z Hxy0). lia. }
    destruct (Hcase e x y He Hr) as [[-> Hp]|[[-> Hp]|(Hn1 & Hn2 & Hp)]];
      destruct (Hcase e' x' y' He' Hr')
        as [[-> Hp']|[[-> Hp']|(Hn1' & Hn2' & Hp')]]; try done.
    + injection Hp as -> ->. injection Hp' as -> ->.
      split; intros [= ? ?]; lia.
    + injection Hp as -> ->.
      destruct (Hold e' x' y' He' Hn1' Hn2' Hp') as (_&_&_&_&_&_&_&?&?).
      split; intros [= <- <-]; done.
    + injection Hp as -> ->. injection Hp' as -> ->.
      split; intros [= ? ?]; lia.
    + injection Hp as -> ->.
      destruct (Hold e' x' y' He' Hn1' Hn2' Hp') as (_&_&_&_&_&?&?&_&_).
      split; intros [= <- <-]; done.
    + injection Hp' as -> ->.
      destruct (Hold e x y He Hn1 Hn2 Hp) as (_&_&_&_&_&_&_&?&?).
      split; intros [= -> ->]; done.
    + injection Hp' as -> ->.
      destruct (Hold e x y He Hn1 Hn2 Hp) as (_&_&_&_&_&?&?&_&_).
      split; intros [= -> ->]; done.
    + by apply (Hdist e e').
Qed.

Lemma rewire_attempt_inv (d : Q * Q) (st st' : geo_state) :
  geo_inv N E A0 st -> unit_draw d -> 0 < E ->
  rewire_attempt eps D E degree cond_len cond_deg d st = Ok st' ->
  geo_inv N E A0 st'.
Proof.
  intros (Hadj & Hcons & Hdist & Hrows & Htotal) (Hd1 & Hd2 & Hd3 & Hd4) HE.
  unfold rewire_attempt.
  pose proof (random_edge_lt (fst d) E Hd1 Hd2 HE) as He1.
  pose proof (random_edge_lt (snd d) E Hd3 Hd4 HE) as He2.
  set (e1 := random_edge (fst d) E) in *.
  set (e2 := random_edge (snd d) E) in *.
  intros ([s t] & Hr1%aget_Ok & H)%bind_Ok.
  apply bind_Ok in H as ([k l] & Hr2%aget_Ok & H).
  apply bind_Ok in H as (go & Hgo & H).
  destruct go; [|by injection H as <-].
  apply and_then_true in Hgo as [[= Hne] Hgo].
  apply and_then_true in Hgo as [Hfree _].
  apply and_then_true in Hfree as [Hsl Htk].
  apply bind_Ok in Hsl as (x & Hsl & [= Hx]).
  apply bind_Ok in Htk as (y & Htk & [= Hy]).
  apply Z.eqb_eq in Hx, Hy. subst x y.
  apply andb_prop in Hne as [Hne t_l]. apply andb_prop in Hne as [Hne t_k].
  apply andb_prop in Hne as [s_k s_l].
  apply negb_true_iff, Nat.eqb_neq in s_k, s_l, t_k, t_l.
  apply bind_Ok in H as (A1 & W1 & H). apply bind_Ok in H as (A2 & W2 & H).
  apply bind_Ok in H as (A3 & W3 & H). apply bind_Ok in H as (A4 & W4 & H).
  apply bind_Ok in H as (A5 & W5 & H). apply bind_Ok in H as (A6 & W6 & H).
  apply bind_Ok in H as (A7 & W7 & H). apply bind_Ok in H as (A8 & W8 & H).
  apply bind_Ok in H as (edges1 & U1 & H).
  apply bind_Ok in H as (edges2 & U2 & [= <-]).
  destruct (Hcons e1 He1) as (s' & t' & Hr1' & Hst).
  assert (s' = s /\ t' = t) as [-> ->] by (split; congruence).
  destruct (Hcons e2 He2) as (k' & l' & Hr2' & Hkl).
  assert (k' = k /\ l' = l) as [-> ->] by (split; congruence).
  destruct (edge_list_update (geo_A st) A8 (geo_edges st) edges1 edges2
              e1 e2 s t k l) as [Hcons' Hdist']; try done.
  - by apply (swap_new_sl N (geo_A st) A1 A2 A4 A5 A6 A7 A8 s t k l).
  - by apply (swap_new_kt A7 A8 t k).
  - by apply (swap_other_edge (geo_A st) A1 A2 A3 A4 A5 A6 A7 A8 s t k l).
  - split; [|split; [|split; [|split]]]; simpl; try done.
    + by apply (swap_adjacency N (geo_A st) A1 A2 A3 A4 A5 A6 A7 A8 s t k l).
    + intros v. rewrite <- Hrows.
      by apply (swap_row_sum N (geo_A st) A1 A2 A3 A4 A5 A6 A7 A8 s t k l).
    + rewrite <- Htotal.
      by apply (swap_total N (geo_A st) A1 A2 A3 A4 A5 A6 A7 A8 s t k l).
Qed.

Lemma rewire_loop_inv (iterations : Z) (draws : list (Q * Q))
  (st st' : geo_state) :
  geo_inv N E A0 st -> Forall unit_draw draws -> 0 < E ->
  rewire_loop iterations eps D E degree cond_len cond_deg draws st = Ok st' ->
  geo_inv N E A0 st'.
Proof.
  intros Hinv Hdraws HE. revert st Hinv.
  induction Hdraws as [|d draws Hd Hdraws IH]; intros st Hinv; simpl.
  - destruct (geo_i st <? iterations)%Z; by intros [= <-].
  - destruct (geo_i st <? iterations)%Z; [|by intros [= <-]].
    intros (st1 & H1 & H2)%bind_Ok. apply (IH st1); [|done].
    by apply (rewire_attempt_inv d st).
Qed.

(** The two conditions return a truth value on every quadruple of nodes. *)
Definition conds_defined : Prop :=
  (forall s t k l, s < N -> t < N -> k < N -> l < N ->
     exists b, cond_len D eps s t k l = Ok b) /\
  match cond_deg with
  | None => True
  | Some c =>
      forall s t k l, s < N -> t < N -> k < N -> l < N ->
        exists b, c degree s t k l = Ok b
  end.

Lemma rewire_attempt_total (d : Q * Q) (st : geo_state) :
  geo_inv N E A0 st -> unit_draw d -> 0 < E -> conds_defined ->
  exists st', rewire_attempt eps D E degree cond_len cond_deg d st = Ok st'.
Proof.
  intros (Hadj & Hcons & Hdist & Hrows & Htotal) (Hd1 & Hd2 & Hd3 & Hd4) HE
    [Hlen Hdeg].
  unfold rewire_attempt.
  pose proof (random_edge_lt (fst d) E Hd1 Hd2 HE) as He1.
  pose proof (random_edge_lt (snd d) E Hd3 Hd4 HE) as He2.
  set (e1 := random_edge (fst d) E) in *.
  set (e2 := random_edge (snd d) E) in *.
  destruct (Hcons e1 He1) as (s & t & Hr1 & Hst).
  destruct (Hcons e2 He2) as (k & l & Hr2 & Hkl).
  pose proof Hadj as (HdA & _).
  destruct (mget_dims_inv N N _ _ _ _ HdA Hst) as [Hs Ht].
  destruct (mget_dims_inv N N _ _ _ _ HdA Hkl) as [Hk Hl].
  rewrite (proj2 (aget_Ok _ _ _) Hr1), (proj2 (aget_Ok _ _ _) Hr2). simpl.
  destruct (mget_dims N N (geo_A st) s l HdA Hs Hl) as [x Hx].
  destruct (mget_dims N N (geo_A st) t k HdA Ht Hk) as [y Hy].
  destruct (Hlen s t k l Hs Ht Hk Hl) as [bl Hbl].
  assert (exists bd, match cond_deg with
                     | None => Ok true
                     | Some c => c degree s t k l
                     end = Ok bd) as [bd Hbd].
  { destruct cond_deg as [c|]; [by apply Hdeg | eauto]. }
  rewrite Hx, Hy, Hbl, Hbd. simpl.
  destruct (negb (s =? k) && negb (s =? l) && negb (t =? k) && negb (t =? l));
    simpl; [|eauto].
  destruct (x =? 0)%Z; simpl; [|eauto].
  destruct (y =? 0)%Z; simpl; [|eauto].
  destruct bd; simpl; [|eauto].
  destruct bl; simpl; [|eauto].
  destruct (mset_dims N N _ s t 0%Z HdA Hs Ht) as (A1 & -> & H1). simpl.
  destruct (mset_dims N N _ t s 0%Z H1 Ht Hs) as (A2 & -> & H2). simpl.
  destruct (mset_dims N N _ k l 0%Z H2 Hk Hl) as (A3 & -> & H3). simpl.
  destruct (mset_dims N N _ l k 0%Z H3 Hl Hk) as (A4 & -> & H4). simpl.
  destruct (mset_dims N N _ s l 1%Z H4 Hs Hl) as (A5 & -> & H5). simpl.
  destruct (mset_dims N N _ l s 1%Z H5 Hl Hs) as (A6 & -> & H6). simpl.
  destruct (mset_dims N N _ t k 1%Z H6 Ht Hk) as (A7 & -> & H7). simpl.
  destruct (mset_dims N N _ k t 1%Z H7 Hk Ht) as (A8 & -> & H8). simpl.
  rewrite aset_lt by (by eapply lookup_lt_Some). simpl.
  rewrite aset_lt by (rewrite length_insert; by eapply lookup_lt_Some). simpl.
  eauto.
Qed.

Lemma rewire_loop_total (iterations : Z) (draws : list (Q * Q))
  (st : geo_state) :
  geo_inv N E A0 st -> Forall unit_draw draws -> 0 < E -> conds_defined ->
  exists st',
    rewire_loop iterations eps D E degree cond_len cond_deg draws st = Ok st'.
Proof.
  intros Hinv Hdraws HE Hconds. revert st Hinv.
  induction Hdraws as [|d draws Hd Hdraws IH]; intros st Hinv; simpl.
  - destruct (geo_i st <? iterations)%Z; eauto.
  - destruct (geo_i st <? iterations)%Z; [|eauto].
    destruct (rewire_attempt_total d st Hinv Hd HE Hconds) as [st1 H1].
    rewrite H1. simpl. apply IH. by apply (rewire_attempt_inv d st).
Qed.

End RewireLoop.

(** The rewiring kernel keeps the invariant, from a call on an adjacency
    matrix with an edge list of [E] rows that name pairwise different
    edges of it. *)
Lemma geomodel_invariant (N E : nat) (iterations : Z) (eps : Q)
  (A : matrix Z) (D : matrix Q) (edges : list (nat * nat)) (degree : list Z)
  (cond_len : rewire_cond_len) (cond_deg : rewire_cond_deg)
  (draws : list (Q * Q)) :
  adjacency N A -> length edges = E ->
  edges_consistent E A edges -> edges_distinct E edges ->
  Forall unit_draw draws ->
  (forall st,
     _randomly_rewire_geomodel iterations eps A D E edges degree
       cond_len cond_deg draws = Ok st ->
     geo_inv N E A st) /\
  (0 < E -> conds_defined N eps D degree cond_len cond_deg ->
   exists st,
     _randomly_rewire_geomodel iterations eps A D E edges degree
       cond_len cond_deg draws = Ok st).
Proof.
  intros Hadj Hlen Hcons Hdist Hdraws.
  assert (geo_inv N E A (GeoState 0 A edges)) as Hinit
    by (unfold geo_inv; simpl; auto).
  unfold _randomly_rewire_geomodel. split.
  - intros st Hrun. destruct (decide (0 < E)) as [HE|HE].
    + by apply (rewire_loop_inv N E A eps D degree cond_len cond_deg
                  iterations draws (GeoState 0 A edges)).
    + assert (edges = []) as -> by (apply length_zero_iff_nil; lia).
      destruct draws as [|d draws]; simpl in Hrun.
      * destruct (0 <? iterations)%Z; by injection Hrun as <-.
      * destruct (0 <? iterations)%Z; [|by injection Hrun as <-].
        unfold rewire_attempt in Hrun. simpl in Hrun. discriminate.
  - intros HE Hconds.
    by apply (rewire_loop_total N E A eps D degree cond_len cond_deg).
Qed.

(** An adjacency matrix on four nodes with the edges 0-1 and 2-3, and one
    on six nodes with the edges 0-1, 2-3 and 4-5. *)
Definition two_links : matrix Z :=
  [[0; 1; 0; 0]; [1; 0; 0; 0]; [0; 0; 0; 1]; [0; 0; 1; 0]]%Z.

Definition three_links : matrix Z :=
  [[0; 1; 0; 0; 0; 0]; [1; 0; 0; 0; 0; 0]; [0; 0; 0; 1; 0; 0];
   [0; 0; 1; 0; 0; 0]; [0; 0; 0; 0; 0; 1]; [0; 0; 0; 0; 1; 0]]%Z.

Definition zeros (n : nat) : matrix Q := replicate n (replicate n 0%Q).

Lemma two_links_adjacency : adjacency 4 two_links.
Proof.
  split; [split; [reflexivity | repeat constructor]|].
  split; [|split].
  - intros i j. do 5 (try destruct i as [|i]); do 5 (try destruct j as [|j]);
      reflexivity.
  - intros i j v. do 5 (try destruct i as [|i]); do 5 (try destruct j as [|j]);
      intros [= <-] || discriminate; auto.
  - intros i v. do 5 (try destruct i as [|i]);
      intros [= <-] || discriminate; auto.
Qed.

Lemma three_links_adjacency : adjacency 6 three_links.
Proof.
  split; [split; [reflexivity | repeat constructor]|].
  split; [|split].
  - intros i j. do 7 (try destruct i as [|i]); do 7 (try destruct j as [|j]);
      reflexivity.
  - intros i j v. do 7 (try destruct i as [|i]); do 7 (try destruct j as [|j]);
      intros [= <-] || discriminate; auto.
  - intros i v. do 7 (try destruct i as [|i]);
      intros [= <-] || discriminate; auto.
Qed.

Lemma unit_draw_intro (a b : Q) :
  Qle_bool 0 a && Qltb a 1 && Qle_bool 0 b && Qltb b 1 = true ->
  unit_draw (a, b).
Proof.
  intros H. apply andb_prop in H as [H H4]. apply andb_prop in H as [H H3].
  apply andb_prop in H as [H1 H2]. unfold Qltb in *.
  apply negb_true_iff in H2, H4.
  repeat split; simpl.
  - by apply Qle_bool_iff.
  - apply Qnot_le_lt. intros Hle%Qle_bool_iff. congruence.
  - by apply Qle_bool_iff.
  - apply Qnot_le_lt. intros Hle%Qle_bool_iff. congruence.
Qed.

(** C1, as stated, fails: the edge list [(0,1), (2,3), (4,5), (0,1)] is
    consistent with the matrix, every row names a 1-entry.  The first swap
    takes rows 0 and 1, the second the stale row 3 and row 2: it removes one
    edge and adds two.  Node 0 ends with degree 2 and the graph with 4
    edges. *)
Lemma geomodel_duplicate_row_changes_degrees :
  let edges := [(0, 1); (2, 3); (4, 5); (0, 1)] in
  let draws := [(0, 1 # 4); (3 # 4, 1 # 2)]%Q in
  adjacency 6 three_links /\
  edges_consistent 4 three_links edges /\
  Forall unit_draw draws /\
  exists st,
    _randomly_rewire_geomodel_I 2 1 three_links (zeros 6) 4 edges draws
    = Ok st /\
    geo_i st = 2%Z /\
    row_sum three_links 0 = 1%Z /\ row_sum (geo_A st) 0 = 2%Z /\
    n_links three_links = 3%Z /\ n_links (geo_A st) = 4%Z.
Proof.
  simpl. split; [apply three_links_adjacency|]. split; [|split].
  - intros e He. do 4 (try destruct e as [|e]); try lia;
      eexists _, _; split; reflexivity.
  - repeat constructor; by apply unit_draw_intro.
  - eexists. split; [vm_compute; reflexivity|]. by vm_compute.
Qed.

(** C1, amended. For every call of the rewiring kernel, with any iteration
    count, any pair of conditions and any random draws: if [A] is a
    symmetric 0/1 matrix with zero diagonal, every row of the edge list
    names a 1-entry of [A] and no two rows name the same undirected edge,
    then after the call every node has the degree it had before, and the
    number of edges is the same.  The call returns whenever the conditions
    themselves return. *)
Theorem geomodel_preserves_degrees (N E : nat) (iterations : Z) (eps : Q)
  (A : matrix Z) (D : matrix Q) (edges : list (nat * nat)) (degree : list Z)
  (cond_len : rewire_cond_len) (cond_deg : rewire_cond_deg)
  (draws : list (Q * Q)) :
  adjacency N A -> length edges = E ->
  edges_consistent E A edges -> edges_distinct E edges ->
  Forall unit_draw draws ->
  (forall st,
     _randomly_rewire_geomodel iterations eps A D E edges degree
       cond_len cond_deg draws = Ok st ->
     (forall v, row_sum (geo_A st) v = row_sum A v) /\
     total (geo_A st) = total A /\
     n_links (geo_A st) = n_links A) /\
  (0 < E -> conds_defined N eps D degree cond_len cond_deg ->
   exists st,
     _randomly_rewire_geomodel iterations eps A D E edges degree
       cond_len cond_deg draws = Ok st).
Proof.
  intros Hadj Hlen Hcons Hdist Hdraws.
  destruct (geomodel_invariant N E iterations eps A D edges degree
              cond_len cond_deg draws Hadj Hlen Hcons Hdist Hdraws)
    as [Hinv Htotal].
  split; [|done]. intros st Hrun.
  destruct (Hinv st Hrun) as (_ & _ & _ & Hrows & Htot).
  split; [done|]. split; [done|]. unfold n_links. by rewrite Htot.
Qed.

Lemma geomodel_preserves_degrees_witness :
  let edges := [(0, 1); (2, 3)] in
  let draws := [(0, 1 # 2)]%Q in
  (forall st,
     _randomly_rewire_geomodel 1 1 two_links (zeros 4) 2 edges []
       cond_len_c1 cond_deg_true draws = Ok st ->
     (forall v, row_sum (geo_A st) v = row_sum two_links v) /\
     total (geo_A st) = total two_links /\
     n_links (geo_A st) = n_links two_links) /\
  (0 < 2 -> conds_defined 4 1 (zeros 4) [] cond_len_c1 cond_deg_true ->
   exists st,
     _randomly_rewire_geomodel 1 1 two_links (zeros 4) 2 edges []
       cond_len_c1 cond_deg_true draws = Ok st).
Proof.
  apply (geomodel_preserves_degrees 4 2).
  - apply two_links_adjacency.
  - reflexivity.
  - intros e He. do 2 (try destruct e as [|e]); try lia;
      eexists _, _; split; reflexivity.
  - intros e1 e2 s t k l He1 He2 Hne.
    do 2 (try destruct e1 as [|e1]); do 2 (try destruct e2 as [|e2]);
      try lia; intros [= <- <-] [= <- <-]; split; discriminate.
  - repeat constructor; by apply unit_draw_intro.
Defined.

(** C6, as stated, fails: with the edge list [(0,1), (2,3), (0,1)], whose
    rows all name 1-entries, one swap of rows 0 and 1 leaves row 2 naming
    the entry [A[0, 1]], which is now 0. *)
Lemma geomodel_duplicate_row_breaks_consistency :
  let edges := [(0, 1); (2, 3); (0, 1)] in
  let draws := [(0, 1 # 3)]%Q in
  adjacency 4 two_links /\
  edges_consistent 3 two_links edges /\
  Forall unit_draw draws /\
  exists st,
    _randomly_rewire_geomodel_I 1 1 two_links (zeros 4) 3 edges draws
    = Ok st /\
    geo_i st = 1%Z /\
    geo_edges st !! 2 = Some (0, 1) /\
    mget (geo_A st) 0 1 = Ok 0%Z /\
    ~ edges_consistent 3 (geo_A st) (geo_edges st).
Proof.
  simpl. split; [apply two_links_adjacency|]. split; [|split].
  - intros e He. do 3 (try destruct e as [|e]); try lia;
      eexists _, _; split; reflexivity.
  - repeat constructor; by apply unit_draw_intro.
  - eexists. split; [vm_compute; reflexivity|]. simpl.
    split; [reflexivity|]. split; [reflexivity|]. split; [reflexivity|].
    intros Hcons. destruct (Hcons 2) as (s & t & Hrow & Hst); [lia|].
    injection Hrow as <- <-. discriminate.
Qed.

(** C6, amended. If before the call [A] is symmetric 0/1 with zero
    diagonal, every row of the edge list names a 1-entry of [A] and no two
    rows name the same undirected edge, then after the call [A] is still
    symmetric 0/1 with zero diagonal, every row of the edge list names a
    1-entry of [A], and no two rows name the same undirected edge.  The
    call returns whenever the conditions themselves return. *)
Theorem geomodel_preserves_data_model (N E : nat) (iterations : Z) (eps : Q)
  (A : matrix Z) (D : matrix Q) (edges : list (nat * nat)) (degree : list Z)
  (cond_len : rewire_cond_len) (cond_deg : rewire_cond_deg)
  (draws : list (Q * Q)) :
  adjacency N A -> length edges = E ->
  edges_consistent E A edges -> edges_distinct E edges ->
  Forall unit_draw draws ->
  (forall st,
     _randomly_rewire_geomodel iterations eps A D E edges degree
       cond_len cond_deg draws = Ok st ->
     adjacency N (geo_A st) /\
     edges_consistent E (geo_A st) (geo_edges st) /\
     edges_distinct E (geo_edges st)) /\
  (0 < E -> conds_defined N eps D degree cond_len cond_deg ->
   exists st,
     _randomly_rewire_geomodel iterations eps A D E edges degree
       cond_len cond_deg draws = Ok st).
Proof.
  intros Hadj Hlen Hcons Hdist Hdraws.
  destruct (geomodel_invariant N E iterations eps A D edges degree
              cond_len cond_deg draws Hadj Hlen Hcons Hdist Hdraws)
    as [Hinv Htotal].
  split; [|done]. intros st Hrun.
  destruct (Hinv st Hrun) as (? & ? & ? & _). done.
Qed.

Lemma geomodel_preserves_data_model_witness :
  let edges := [(0, 1); (2, 3)] in
  let draws := [(0, 1 # 2); (1 # 2, 0)]%Q in
  (forall st,
     _randomly_rewire_geomodel 2 1 two_links (zeros 4) 2 edges []
       cond_len_c2 cond_deg_true draws = Ok st ->
     adjacency 4 (geo_A st) /\
     edges_consistent 2 (geo_A st) (geo_edges st) /\
     edges_distinct 2 (geo_edges st)) /\
  (0 < 2 -> conds_defined 4 1 (zeros 4) [] cond_len_c2 cond_deg_true ->
   exists st,
     _randomly_rewire_geomodel 2 1 two_links (zeros 4) 2 edges []
       cond_len_c2 cond_deg_true draws = Ok st).
Proof.
  apply (geomodel_preserves_data_model 4 2).
  - apply two_links_adjacency.
  - reflexivity.
  - intros e He. do 2 (try destruct e as [|e]); try lia;
      eexists _, _; split; reflexivity.
  - intros e1 e2 s t k l He1 He2 Hne.
    do 2 (try destruct e1 as [|e1]); do 2 (try destruct e2 as [|e2]);
      try lia; intros [= <- <-] [= <- <-]; split; discriminate.
  - repeat constructor; by apply unit_draw_intro.
Defined.

(** The conditions of the three entry points return a truth value when
    [D] is an [N x N] matrix and [degree] has [N] entries. *)
Lemma cond_len_c1_defined (N : nat) (D : matrix Q) (eps : Q) (s t k l : nat) :
  dims N N D -> s < N -> t < N -> k < N -> l < N ->
  exists b, cond_len_c1 D eps s t k l = Ok b.
Proof.
  intros HD Hs Ht Hk Hl. unfold cond_len_c1.
  destruct (mget_dims N N D s t HD Hs Ht) as [x1 ->].
  destruct (mget_dims N N D k t HD Hk Ht) as [x2 ->].
  destruct (mget_dims N N D k l HD Hk Hl) as [x3 ->].
  destruct (mget_dims N N D s l HD Hs Hl) as [x4 ->].
  simpl. unfold or_else, and_then. simpl.
  repeat (match goal with
          | |- context [Qltb ?a ?b] => destruct (Qltb a b); simpl
          end); eauto.
Qed.

Lemma cond_len_c2_defined (N : nat) (D : matrix Q) (eps : Q) (s t k l : nat) :
  dims N N D -> s < N -> t < N -> k < N -> l < N ->
  exists b, cond_len_c2 D eps s t k l = Ok b.
Proof.
  intros HD Hs Ht Hk Hl. unfold cond_len_c2.
  destruct (mget_dims N N D s t HD Hs Ht) as [x1 ->].
  destruct (mget_dims N N D s l HD Hs Hl) as [x2 ->].
  destruct (mget_dims N N D t s HD Ht Hs) as [x3 ->].
  destruct (mget_dims N N D t k HD Ht Hk) as [x4 ->].
  destruct (mget_dims N N D k l HD Hk Hl) as [x5 ->].
  destruct (mget_dims N N D k t HD Hk Ht) as [x6 ->].
  destruct (mget_dims N N D l k HD Hl Hk) as [x7 ->].
  destruct (mget_dims N N D l s HD Hl Hs) as [x8 ->].
  simpl. unfold and_then. simpl.
  repeat (match goal with
          | |- context [Qltb ?a ?b] => destruct (Qltb a b); simpl
          end); eauto.
Qed.

Lemma cond_deg_corr_defined (N : nat) (degree : list Z) (s t k l : nat) :
  length degree = N -> s < N -> t < N -> k < N -> l < N ->
  exists b, cond_deg_corr degree s t k l = Ok b.
Proof.
  intros HD Hs Ht Hk Hl. unfold cond_deg_corr.
  destruct (aget_lt degree s) as (x1 & -> & _); [lia|].
  destruct (aget_lt degree k) as (x2 & -> & _); [lia|].
  destruct (aget_lt degree t) as (x3 & -> & _); [lia|].
  destruct (aget_lt degree l) as (x4 & -> & _); [lia|].
  simpl. unfold and_then. simpl. destruct (x1 =? x2)%Z; simpl; eauto.
Qed.

(** The three entry points [_randomly_rewire_geomodel_I], [_II] and [_III]
    return and keep the invariant. *)
Lemma geomodel_entry_points (N E : nat) (iterations : Z) (eps : Q)
  (A : matrix Z) (D : matrix Q) (edges : list (nat * nat)) (degree : list Z)
  (draws : list (Q * Q)) :
  adjacency N A -> length edges = E -> 0 < E ->
  edges_consistent E A edges -> edges_distinct E edges ->
  Forall unit_draw draws -> dims N N D -> length degree = N ->
  (exists st, _randomly_rewire_geomodel_I iterations eps A D E edges draws
              = Ok st /\ geo_inv N E A st) /\
  (exists st, _randomly_rewire_geomodel_II iterations eps A D E edges draws
              = Ok st /\ geo_inv N E A st) /\
  (exists st, _randomly_rewire_geomodel_III iterations eps A D E edges degree
                draws = Ok st /\ geo_inv N E A st).
Proof.
  intros Hadj Hlen HE Hcons Hdist Hdraws HD Hdeg.
  unfold _randomly_rewire_geomodel_I, _randomly_rewire_geomodel_II,
    _randomly_rewire_geomodel_III.
  split; [|split].
  - destruct (geomodel_invariant N E iterations eps A D edges []
                cond_len_c1 cond_deg_true draws Hadj Hlen Hcons Hdist Hdraws)
      as [Hinv Htotal].
    destruct (Htotal HE) as [st Hst].
    + split; [|done]. intros. by apply (cond_len_c1_defined N).
    + eauto.
  - destruct (geomodel_invariant N E iterations eps A D edges []
                cond_len_c2 cond_deg_true draws Hadj Hlen Hcons Hdist Hdraws)
      as [Hinv Htotal].
    destruct (Htotal HE) as [st Hst].
    + split; [|done]. intros. by apply (cond_len_c2_defined N).
    + eauto.
  - destruct (geomodel_invariant N E iterations eps A D edges degree
                cond_len_c2 (Some cond_deg_corr) draws Hadj Hlen Hcons Hdist
                Hdraws) as [Hinv Htotal].
    destruct (Htotal HE) as [st Hst].
    + split.
      * intros. by apply (cond_len_c2_defined N).
      * intros. by apply (cond_deg_corr_defined N).
    + eauto.
Qed.

(** * Rewiring of cross links *)

(** Every row of [cross_links] names a 1-entry of [cross_A]. *)
Definition links_consistent (L : nat) (cross_A : matrix Z)
  (cross_links : list (nat * nat)) : Prop :=
  forall e, e < L ->
    exists a b, cross_links !! e = Some (a, b) /\ mget cross_A a b = Ok 1%Z.

(** No two rows of [cross_links] name the same entry. *)
Definition links_distinct (L : nat) (cross_links : list (nat * nat)) : Prop :=
  forall e1 e2 p q, e1 < L -> e2 < L -> e1 <> e2 ->
    cross_links !! e1 = Some p -> cross_links !! e2 = Some q -> p <> q.

(** A pair [randint(L), randint(L)]. *)
Definition link_draw (L : nat) (d : nat * nat) : Prop := fst d < L /\ snd d < L.

(** The invariant of the swap loop, relative to the matrix [C0] that the
    kernel was called with. *)
Definition cross_inv (R C L : nat) (C0 : matrix Z) (st : cross_state) : Prop :=
  dims R C (cr_cross_A st) /\
  binary (cr_cross_A st) /\
  links_consistent L (cr_cross_A st) (cr_cross_links st) /\
  links_distinct L (cr_cross_links st) /\
  (forall i, row_sum (cr_cross_A st) i = row_sum C0 i) /\
  (forall j, col_sum (cr_cross_A st) j = col_sum C0 j) /\
  total (cr_cross_A st) = total C0.

Lemma truthy_false (z : Z) : truthy z = false <-> z = 0%Z.
Proof.
  unfold truthy. rewrite negb_false_iff. apply Z.eqb_eq.
Qed.

Lemma or_else_false (a b : result bool) :
  or_else a b = Ok false <-> a = Ok false /\ b = Ok false.
Proof.
  unfold or_else. destruct a as [[|]|e]; simpl; split; try done.
  - by intros [? _].
  - by intros [_ ->].
  - by intros [? _].
Qed.

Section CrossSwap.

Variables (R C L : nat) (C0 : matrix Z).

Lemma cross_swap_attempt_inv (d : nat * nat) (st st' : cross_state) :
  cross_inv R C L C0 st -> link_draw L d ->
  cross_swap_attempt d st = Ok st' ->
  cross_inv R C L C0 st'.
Proof.
  intros (Hd & Hbin & Hcons & Hdist & Hrows & Hcols & Htotal) [He1 He2].
  unfold cross_swap_attempt.
  set (e1 := fst d) in *. set (e2 := snd d) in *.
  intros ([a b] & Hr1%aget_Ok & H)%bind_Ok.
  apply bind_Ok in H as ([c d0] & Hr2%aget_Ok & H).
  apply bind_Ok in H as (again & Hagain & H).
  destruct again; [by injection H as <-|].
  apply or_else_false in Hagain as [Had Hcb].
  apply bind_Ok in Had as (x & Had & [= Hx%truthy_false]).
  apply bind_Ok in Hcb as (y & Hcb & [= Hy%truthy_false]). subst x y.
  apply bind_Ok in H as (C1 & W1 & H). apply bind_Ok in H as (C2 & W2 & H).
  apply bind_Ok in H as (C3 & W3 & H). apply bind_Ok in H as (C4 & W4 & H).
  apply bind_Ok in H as ([a' b'] & Hr1'%aget_Ok & H).
  apply bind_Ok in H as ([c' d'] & Hr2'%aget_Ok & H).
  assert (a' = a /\ b' = b) as [-> ->] by (split; congruence).
  assert (c' = c /\ d' = d0) as [-> ->] by (split; congruence).
  apply bind_Ok in H as (links1 & U1 & H).
  apply bind_Ok in H as (links2 & U2 & [= <-]).
  destruct (Hcons e1 He1) as (a' & b' & Hr1'' & Hab).
  assert (a' = a /\ b' = b) as [-> ->] by (split; congruence).
  destruct (Hcons e2 He2) as (c' & d' & Hr2'' & Hcd).
  assert (c' = c /\ d' = d0) as [-> ->] by (split; congruence).
  assert (a <> c) as a_c by (intros ->; congruence).
  assert (b <> d0) as b_d by (intros ->; congruence).
  assert (e1 <> e2) as e_ne by (intros Heq; rewrite Heq in Hr1; congruence).
  (* the values overwritten *)
  assert (mget C1 c d0 = Ok 1%Z) as O2
    by (by rewrite (mget_mset_ne _ _ _ _ _ _ _ W1) by lia).
  assert (mget C2 a d0 = Ok 0%Z) as O3.
  { rewrite (mget_mset_ne _ _ _ _ _ _ _ W2) by lia.
    by rewrite (mget_mset_ne _ _ _ _ _ _ _ W1) by lia. }
  assert (mget C3 c b = Ok 0%Z) as O4.
  { rewrite (mget_mset_ne _ _ _ _ _ _ _ W3) by lia.
    rewrite (mget_mset_ne _ _ _ _ _ _ _ W2) by lia.
    by rewrite (mget_mset_ne _ _ _ _ _ _ _ W1) by lia. }
  (* the rows of cross_links after the exchange *)
  unfold set_target in U1, U2.
  rewrite (proj2 (aget_Ok _ _ _) Hr1) in U1. simpl in U1.
  apply aset_Ok in U1 as [Hl1 ->].
  rewrite (proj2 (aget_Ok _ e2 (c, d0))) in U2
    by (by rewrite list_lookup_insert_ne).
  simpl in U2. apply aset_Ok in U2 as [Hl2 ->].
  assert (forall e p, e < L ->
            <[e2:=(c, b)]> (<[e1:=(a, d0)]> (cr_cross_links st)) !! e = Some p ->
            (e = e2 /\ p = (c, b)) \/ (e = e1 /\ p = (a, d0)) \/
            (e <> e1 /\ e <> e2 /\ cr_cross_links st !! e = Some p /\
             mget (cr_cross_A st) p.1 p.2 = Ok 1%Z /\
             p <> (a, b) /\ p <> (c, d0))) as Hcase.
  { intros e p He Hp. destruct (decide (e = e2)) as [->|Hn2].
    - rewrite list_lookup_insert_eq in Hp by done. left. split; congruence.
    - rewrite list_lookup_insert_ne in Hp by done.
      destruct (decide (e = e1)) as [->|Hn1].
      + rewrite list_lookup_insert_eq in Hp by done.
        right; left. split; congruence.
      + rewrite list_lookup_insert_ne in Hp by done. right; right.
        destruct (Hcons e He) as (x & y & Hxy & Hv).
        assert (p = (x, y)) as -> by congruence.
        repeat split; try done.
        * by apply (Hdist e e1).
        * by apply (Hdist e e2). }
  assert (forall x y, mget (cr_cross_A st) x y = Ok 1%Z ->
            (x, y) <> (a, b) -> (x, y) <> (c, d0) -> mget C4 x y = Ok 1%Z)
    as Hother.
  { intros x y Hxy Hn1 Hn2.
    rewrite (mget_mset _ _ _ _ x y _ W4).
    destruct (decide (x = c /\ y = b)); [done|].
    rewrite (mget_mset _ _ _ _ x y _ W3).
    destruct (decide (x = a /\ y = d0)); [done|].
    rewrite (mget_mset_ne _ _ _ _ _ _ _ W2), (mget_mset_ne _ _ _ _ _ _ _ W1);
      [done | |].
    - destruct (decide (x = a)) as [->|]; [|by left].
      right. intros ->. by apply Hn1.
    - destruct (decide (x = c)) as [->|]; [|by left].
      right. intros ->. by apply Hn2. }
  split; [|split; [|split; [|split; [|split; [|split]]]]]; simpl.
  - apply (mset_dims_inv R C _ _ _ _ _ Hd) in W1 as (Hd1 & _).
    apply (mset_dims_inv R C _ _ _ _ _ Hd1) in W2 as (Hd2 & _).
    apply (mset_dims_inv R C _ _ _ _ _ Hd2) in W3 as (Hd3 & _).
    by apply (mset_dims_inv R C _ _ _ _ _ Hd3) in W4 as (Hd4 & _).
  - intros i j v.
    rewrite (mget_mset _ _ _ _ i j _ W4), (mget_mset _ _ _ _ i j _ W3),
      (mget_mset _ _ _ _ i j _ W2), (mget_mset _ _ _ _ i j _ W1).
    repeat case_decide; try (intros [= <-]; auto). apply Hbin.
  - intros e He.
    destruct (lookup_lt_is_Some_2
                (<[e2:=(c, b)]> (<[e1:=(a, d0)]> (cr_cross_links st))) e)
      as [[x y] Hp].
    { rewrite !length_insert. destruct (Hcons e He) as (? & ? & Hq & _).
      by eapply lookup_lt_Some. }
    exists x, y. split; [done|].
    destruct (Hcase e (x, y) He Hp)
      as [[_ [= -> ->]]|[[_ [= -> ->]]|(_ & _ & _ & Hv & Hn1 & Hn2)]].
    + apply (mget_mset_eq _ _ _ _ _ W4).
    + rewrite (mget_mset_ne _ _ _ _ _ _ _ W4) by lia.
      apply (mget_mset_eq _ _ _ _ _ W3).
    + by apply Hother.
  - intros e e' p q He He' Hnee Hp Hq.
    destruct (Hcase e p He Hp)
      as [[-> ->]|[[-> ->]|(Hn1 & Hn2 & Hp0 & Hv & Hpa & Hpc)]];
      destruct (Hcase e' q He' Hq)
        as [[-> ->]|[[-> ->]|(Hn1' & Hn2' & Hq0 & Hv' & Hqa & Hqc)]];
      try done; try (intros [= ? ?]; lia).
    + intros <-. simpl in Hv'. congruence.
    + intros <-. simpl in Hv'. congruence.
    + intros ->. simpl in Hv. congruence.
    + intros ->. simpl in Hv. congruence.
    + by apply (Hdist e e').
  - intros i. rewrite <- Hrows.
    rewrite (row_sum_mset _ _ _ _ i _ _ O4 W4), (row_sum_mset _ _ _ _ i _ _ O3 W3),
      (row_sum_mset _ _ _ _ i _ _ O2 W2), (row_sum_mset _ _ _ _ i _ _ Hab W1).
    repeat case_decide; lia.
  - intros j. rewrite <- Hcols.
    rewrite (col_sum_mset _ _ _ _ j _ _ O4 W4), (col_sum_mset _ _ _ _ j _ _ O3 W3),
      (col_sum_mset _ _ _ _ j _ _ O2 W2), (col_sum_mset _ _ _ _ j _ _ Hab W1).
    repeat case_decide; lia.
  - rewrite <- Htotal.
    rewrite (total_mset _ _ _ _ _ _ O4 W4), (total_mset _ _ _ _ _ _ O3 W3),
      (total_mset _ _ _ _ _ _ O2 W2), (total_mset _ _ _ _ _ _ Hab W1).
    lia.
Qed.

End CrossSwap.

Lemma cross_swap_attempt_total (R C L : nat) (C0 : matrix Z) (d : nat * nat)
  (st : cross_state) :
  cross_inv R C L C0 st -> link_draw L d ->
  exists st', cross_swap_attempt d st = Ok st'.
Proof.
  intros (Hd & Hbin & Hcons & _) [He1 He2]. unfold cross_swap_attempt.
  destruct (Hcons _ He1) as (a & b & Hr1 & Hab).
  destruct (Hcons _ He2) as (c & d0 & Hr2 & Hcd).
  destruct (mget_dims_inv R C _ _ _ _ Hd Hab) as [Ha Hb].
  destruct (mget_dims_inv R C _ _ _ _ Hd Hcd) as [Hc Hd0].
  rewrite (proj2 (aget_Ok _ _ _) Hr1), (proj2 (aget_Ok _ _ _) Hr2). simpl.
  destruct (mget_dims R C (cr_cross_A st) a d0 Hd Ha Hd0) as [x ->].
  destruct (mget_dims R C (cr_cross_A st) c b Hd Hc Hb) as [y ->].
  unfold or_else. simpl.
  destruct (truthy x); simpl; [eauto|]. destruct (truthy y); simpl; [eauto|].
  destruct (mset_dims R C _ a b 0%Z Hd Ha Hb) as (C1 & -> & H1). simpl.
  destruct (mset_dims R C _ c d0 0%Z H1 Hc Hd0) as (C2 & -> & H2). simpl.
  destruct (mset_dims R C _ a d0 1%Z H2 Ha Hd0) as (C3 & -> & H3). simpl.
  destruct (mset_dims R C _ c b 1%Z H3 Hc Hb) as (C4 & -> & H4). simpl.
  unfold set_target.
  rewrite (proj2 (aget_Ok _ _ _) Hr1). simpl.
  rewrite aset_lt by (by eapply lookup_lt_Some). simpl.
  destruct (aget_lt (<[d.1:=(a, d0)]> (cr_cross_links st)) (snd d))
    as ([c' b'] & -> & _).
  { rewrite length_insert. by eapply lookup_lt_Some. }
  simpl. rewrite aset_lt; [eauto|].
  rewrite length_insert. by eapply lookup_lt_Some.
Qed.

Lemma cross_swap_loop_inv (R C L : nat) (C0 : matrix Z) (number_swaps : nat)
  (draws : list (nat * nat)) (st : cross_state) :
  cross_inv R C L C0 st -> Forall (link_draw L) draws ->
  exists st', cross_swap_loop number_swaps draws st = Ok st' /\
              cross_inv R C L C0 st'.
Proof.
  intros Hinv Hdraws. revert st Hinv.
  induction Hdraws as [|d draws Hd Hdraws IH]; intros st Hinv; simpl.
  - destruct (cr_done st <? number_swaps); eauto.
  - destruct (cr_done st <? number_swaps); [|eauto].
    destruct (cross_swap_attempt_total R C L C0 d st Hinv Hd) as [st1 H1].
    rewrite H1. simpl. apply IH.
    by apply (cross_swap_attempt_inv R C L C0 d st).
Qed.

(** C10, as stated, fails: all three rows of
    [cross_links = [(0,0), (1,1), (0,0)]] name 1-entries of the 0/1 matrix
    [cross_A]; the swap of rows 0 and 1 is executed and leaves row 2 naming
    [cross_A[0, 0]], which is now 0. *)
Lemma cross_links_duplicate_row_goes_stale :
  let cross_A := [[1; 0]; [0; 1]]%Z in
  let cross_links := [(0, 0); (1, 1); (0, 0)] in
  binary cross_A /\
  links_consistent 3 cross_A cross_links /\
  exists st,
    cross_swap_loop 1 [(0, 1)] (CrossState 0 cross_A cross_links) = Ok st /\
    cr_done st = 1 /\
    cr_cross_links st !! 2 = Some (0, 0) /\
    mget (cr_cross_A st) 0 0 = Ok 0%Z /\
    ~ links_consistent 3 (cr_cross_A st) (cr_cross_links st).
Proof.
  simpl. split; [|split].
  - intros i j v. do 3 (try destruct i as [|i]); do 3 (try destruct j as [|j]);
      intros [= <-] || discriminate; auto.
  - intros e He. do 3 (try destruct e as [|e]); try lia;
      eexists _, _; split; reflexivity.
  - eexists. split; [reflexivity|]. simpl.
    split; [reflexivity|]. split; [reflexivity|]. split; [reflexivity|].
    intros Hcons. destruct (Hcons 2) as (a & b & Hrow & Hab); [lia|].
    injection Hrow as <- <-. discriminate.
Qed.

(** C10, amended. In [_randomlyRewireCrossLinks], if [cross_A] is 0/1,
    every row [(a, b)] of [cross_links] satisfies [cross_A[a, b] == 1] and
    no two rows are equal before the call, then the swap loop returns, and
    the executed swaps preserve the number of 1-entries of [cross_A], every
    row sum and every column sum, and keep every row of [cross_links]
    naming a 1-entry of [cross_A]. *)
Theorem cross_links_rewiring_preserves_degrees (R C : nat)
  (cross_A : matrix Z) (cross_links : list (nat * nat))
  (number_cross_links number_swaps : nat) (draws : list (nat * nat)) :
  dims R C cross_A -> binary cross_A ->
  links_consistent number_cross_links cross_A cross_links ->
  links_distinct number_cross_links cross_links ->
  Forall (link_draw number_cross_links) draws ->
  exists st,
    cross_swap_loop number_swaps draws (CrossState 0 cross_A cross_links)
    = Ok st /\
    total (cr_cross_A st) = total cross_A /\
    (forall i, row_sum (cr_cross_A st) i = row_sum cross_A i) /\
    (forall j, col_sum (cr_cross_A st) j = col_sum cross_A j) /\
    binary (cr_cross_A st) /\
    links_consistent number_cross_links (cr_cross_A st) (cr_cross_links st).
Proof.
  intros Hd Hbin Hcons Hdist Hdraws.
  destruct (cross_swap_loop_inv R C number_cross_links cross_A number_swaps
              draws (CrossState 0 cross_A cross_links))
    as (st & Hst & _ & Hbin' & Hcons' & _ & Hrows & Hcols & Htotal);
    [by unfold cross_inv | done |].
  exists st. done.
Qed.

Lemma cross_links_rewiring_preserves_degrees_witness :
  let cross_A := [[1; 0]; [0; 1]]%Z in
  let cross_links := [(0, 0); (1, 1)] in
  exists st,
    cross_swap_loop 1 [(0, 0); (0, 1)] (CrossState 0 cross_A cross_links)
    = Ok st /\
    total (cr_cross_A st) = total cross_A /\
    (forall i, row_sum (cr_cross_A st) i = row_sum cross_A i) /\
    (forall j, col_sum (cr_cross_A st) j = col_sum cross_A j) /\
    binary (cr_cross_A st) /\
    links_consistent 2 (cr_cross_A st) (cr_cross_links st).
Proof.
  apply (cross_links_rewiring_preserves_degrees 2 2).
  - split; [reflexivity | repeat constructor].
  - intros i j v. do 3 (try destruct i as [|i]); do 3 (try destruct j as [|j]);
      intros [= <-] || discriminate; auto.
  - intros e He. do 2 (try destruct e as [|e]); try lia;
      eexists _, _; split; reflexivity.
  - intros e1 e2 p q He1 He2 Hne.
    do 2 (try destruct e1 as [|e1]); do 2 (try destruct e2 as [|e2]);
      try lia; intros [= <-] [= <-]; discriminate.
  - repeat constructor; simpl; lia.
Defined.

(** * C integers *)

Lemma wrap_node (z : Z) :
  wrap NODE_bits z = ((z + 2147483648) mod 4294967296 - 2147483648)%Z.
Proof. reflexivity. Qed.

(** A value of the range is not changed. *)
Lemma wrap_in_range (z : Z) :
  (- 2147483648 <= z <= 2147483647)%Z -> wrap NODE_bits z = z.
Proof.
  intros Hz. rewrite wrap_node. rewrite Z.mod_small by lia. lia.
Qed.

Lemma wrap_congruent (z : Z) :
  (wrap NODE_bits z mod 4294967296 = z mod 4294967296)%Z.
Proof.
  rewrite wrap_node.
  pose proof (Z.mod_pos_bound (z + 2147483648) 4294967296 ltac:(lia)) as Hb.
  pose proof (Z.div_mod (z + 2147483648) 4294967296 ltac:(lia)) as Hd.
  replace ((z + 2147483648) mod 4294967296 - 2147483648)%Z
    with (z + - ((z + 2147483648) / 4294967296) * 4294967296)%Z by lia.
  apply Z.mod_add. lia.
Qed.

(** Wrapping after every multiplication is wrapping the product once. *)
Lemma node_mul_wrap (x y : Z) :
  node_mul (wrap NODE_bits x) y = wrap NODE_bits (x * y).
Proof.
  unfold node_mul. rewrite !wrap_node. f_equal.
  rewrite <- (Z.add_mod_idemp_l (_ * y)), <- (Z.add_mod_idemp_l (x * y))
    by lia.
  f_equal. f_equal.
  rewrite <- Z.mul_mod_idemp_l by lia.
  rewrite <- wrap_node, wrap_congruent.
  by rewrite Z.mul_mod_idemp_l by lia.
Qed.

Lemma wrap_zero (z : Z) :
  wrap NODE_bits z = 0%Z -> (4294967296 | z)%Z.
Proof.
  intros H. apply Z.mod_divide; [lia|].
  rewrite <- wrap_congruent, H. done.
Qed.

(** An odd factor does not help a power of two to divide a product. *)
Lemma pow2_divide_odd (k a m : Z) :
  (0 <= k)%Z -> Z.Odd m -> (2 ^ k | a * m)%Z -> (2 ^ k | a)%Z.
Proof.
  intros Hk [e He] Hdiv. rewrite Z.mul_comm in Hdiv.
  apply (Z.gauss _ m); [done|].
  apply Z.coprime_pow_l; [done|]. unfold Z.coprime.
  pose proof (Z.gcd_divide_l 2 m) as Hl.
  pose proof (Z.gcd_divide_r 2 m) as Hr.
  pose proof (Z.gcd_nonneg 2 m) as Hn.
  apply Z.divide_pos_le in Hl as Hle; [|lia].
  destruct (Z.eq_dec (Z.gcd 2 m) 0%Z) as [E0|N0].
  { rewrite E0 in Hl. destruct Hl as [q Hq]. lia. }
  destruct (Z.eq_dec (Z.gcd 2 m) 2%Z) as [E2|N2]; [|lia].
  rewrite E2 in Hr. destruct Hr as [q Hq]. lia.
Qed.

(** Of two consecutive numbers one is odd, so a power of two that divides
    their product divides one of them. *)
Lemma pow2_divide_consecutive (e : Z) :
  (2 <= e)%Z -> (1073741824 | e * (e - 1))%Z -> (1073741824 <= e)%Z.
Proof.
  intros He Hdiv. change 1073741824%Z with (2 ^ 30)%Z in Hdiv.
  destruct (Z.Even_or_Odd e) as [[h Hh] | Hodd].
  - apply pow2_divide_odd in Hdiv; [|lia | exists (h - 1)%Z; lia].
    apply Z.divide_pos_le in Hdiv; [|lia].
    change (2 ^ 30)%Z with 1073741824%Z in Hdiv. lia.
  - rewrite Z.mul_comm in Hdiv.
    apply pow2_divide_odd in Hdiv; [|lia | done].
    apply Z.divide_pos_le in Hdiv; [|lia].
    change (2 ^ 30)%Z with 1073741824%Z in Hdiv. lia.
Qed.

Lemma divide_four (a : Z) :
  (4294967296 | 4 * a)%Z -> (1073741824 | a)%Z.
Proof.
  change 4294967296%Z with (4 * 1073741824)%Z.
  intros H. by apply Z.mul_divide_cancel_l in H.
Qed.

(** The normaliser of order 4 is not zero for any degree of the range of
    [NODE_t]. *)
Lemma normaliser_4_nonzero (d : Z) :
  (3 <= d <= 2147483647)%Z ->
  node_mul (node_mul d (d - 1)) (d - 2) <> 0%Z.
Proof.
  intros Hd. unfold node_mul at 2. rewrite node_mul_wrap.
  intros Hz%wrap_zero.
  destruct (Z.Even_or_Odd d) as [[e He] | [e He]].
  - replace (d * (d - 1) * (d - 2))%Z
      with (4 * (e * (e - 1) * (2 * e - 1)))%Z in Hz by lia.
    apply divide_four in Hz. change 1073741824%Z with (2 ^ 30)%Z in Hz.
    apply pow2_divide_odd in Hz; [|lia | exists (e - 1)%Z; lia].
    apply pow2_divide_consecutive in Hz; lia.
  - replace (d * (d - 1) * (d - 2))%Z
      with ((d - 1) * (d * (d - 2)))%Z in Hz by lia.
    change 4294967296%Z with (2 ^ 32)%Z in Hz.
    apply pow2_divide_odd in Hz;
      [|lia | exists (2 * e * e - 1)%Z; lia].
    apply Z.divide_pos_le in Hz; [|lia].
    change (2 ^ 32)%Z with 4294967296%Z in Hz. lia.
Qed.

(** The same for the normaliser of order 5. *)
Lemma normaliser_5_nonzero (d : Z) :
  (4 <= d <= 2147483647)%Z ->
  node_mul (node_mul (node_mul d (d - 1)) (d - 2)) (d - 3) <> 0%Z.
Proof.
  intros Hd. unfold node_mul at 3. rewrite !node_mul_wrap.
  intros Hz%wrap_zero.
  destruct (Z.Even_or_Odd d) as [[e He] | [e He]].
  - replace (d * (d - 1) * (d - 2) * (d - 3))%Z
      with (4 * (e * (e - 1) * ((d - 1) * (d - 3))))%Z in Hz by lia.
    apply divide_four in Hz. change 1073741824%Z with (2 ^ 30)%Z in Hz.
    apply pow2_divide_odd in Hz;
      [|lia | exists (2 * e * e - 4 * e + 1)%Z; lia].
    apply pow2_divide_consecutive in Hz; lia.
  - replace (d * (d - 1) * (d - 2) * (d - 3))%Z
      with (4 * (e * (e - 1) * (d * (d - 2))))%Z in Hz by lia.
    apply divide_four in Hz. change 1073741824%Z with (2 ^ 30)%Z in Hz.
    apply pow2_divide_odd in Hz;
      [|lia | exists (2 * e * e - 1)%Z; lia].
    apply pow2_divide_consecutive in Hz; lia.
Qed.

(** * Local cliquishness of order 4 *)

(** [A[a, b] == 1] *)
Definition is_edge (A : matrix Z) (a b : nat) : bool := (entry A a b =? 1)%Z.

(** The neighbours of [i], in increasing order. *)
Definition neighbors_of (N : nat) (A : matrix Z) (i : nat) : list nat :=
  filter (fun j => is_edge A i j = true) (seq 0 N).

(** The number of ordered triples [(j, k, l)] of pairwise distinct
    neighbours of [i] with the edges [(j, k)], [(k, l)] and [(l, j)]. *)
Definition clique_triples (N : nat) (A : matrix Z) (i : nat) : Z :=
  sum_range 0 N (fun j => sum_range 0 N (fun k => sum_range 0 N (fun l =>
    indicator (is_edge A i j && is_edge A i k && is_edge A i l
               && negb (j =? k) && negb (k =? l) && negb (l =? j)
               && is_edge A j k && is_edge A k l && is_edge A l j)))).

(** What the specification asks of entry [i] of the result. *)
Definition cliquishness_4 (N : nat) (A : matrix Z) (degree_i : Z) (i : nat) : Q :=
  if (3 <=? degree_i)%Z then
    (inject_Z (clique_triples N A i)
     / inject_Z (degree_i * (degree_i - 1) * (degree_i - 2)))%Q
  else 0%Q.

(** The complete graph on five nodes. *)
Definition K5 : matrix Z :=
  [[0; 1; 1; 1; 1]; [1; 0; 1; 1; 1]; [1; 1; 0; 1; 1];
   [1; 1; 1; 0; 1]; [1; 1; 1; 1; 0]]%Z.

(** A loop that adds [f i] to its accumulator. *)
Lemma for_range_sum1 (lo hi : nat) (body : nat -> Z -> result Z)
  (f : nat -> Z) :
  lo <= hi ->
  (forall i x, lo <= i < hi -> body i x = Ok (x + f i)%Z) ->
  forall x, for_range lo hi body x = Ok (x + sum_range lo hi f)%Z.
Proof.
  intros Hle Hbody x.
  destruct (for_range_total (fun i s => s = (x + sum_range lo i f)%Z)
              lo hi body x) as (s & Hs & ->); [done | | | done].
  - rewrite sum_range_empty by lia. lia.
  - intros i s Hi ->. eexists. split; [by apply Hbody|].
    rewrite sum_range_snoc by lia. lia.
Qed.

(** Sums over the positions of a list and sums over its elements. *)
Lemma sum_range_lookup (l : list nat) (f : nat -> Z) :
  sum_range 0 (length l) (fun x => f (default 0 (l !! x))) = sumZ (map f l).
Proof.
  induction l as [|y l IH] using rev_ind; [done|].
  rewrite length_app. simpl. rewrite Nat.add_1_r.
  rewrite sum_range_snoc by lia. rewrite map_app, sumZ_app. simpl.
  rewrite lookup_app_r by lia. rewrite Nat.sub_diag. simpl.
  rewrite <- IH. rewrite Z.add_0_r. f_equal.
  apply sum_range_ext. intros x Hx. by rewrite lookup_app_l by lia.
Qed.

Lemma sumZ_map_filter (P : nat -> bool) (f : nat -> Z) (l : list nat) :
  sumZ (map f (filter (fun j => P j = true) l))
  = sumZ (map (fun j => if P j then f j else 0%Z) l).
Proof.
  induction l as [|y l IH]; [done|].
  rewrite filter_cons. simpl. destruct (P y) eqn:Hy.
  - rewrite decide_True by done. simpl. by rewrite IH.
  - rewrite decide_False by congruence. by rewrite IH.
Qed.

Lemma sum_range_filter (N : nat) (P : nat -> bool) (f : nat -> Z) :
  let l := filter (fun j => P j = true) (seq 0 N) in
  sum_range 0 (length l) (fun x => f (default 0 (l !! x)))
  = sum_range 0 N (fun j => if P j then f j else 0%Z).
Proof.
  simpl. rewrite sum_range_lookup, sumZ_map_filter. unfold sum_range.
  by rewrite Nat.sub_0_r.
Qed.

Lemma filter_seq_S (P : nat -> bool) (n : nat) :
  filter (fun j => P j = true) (seq 0 (S n))
  = filter (fun j => P j = true) (seq 0 n) ++ (if P n then [n] else []).
Proof.
  rewrite seq_S, filter_app. simpl. f_equal.
  rewrite filter_cons, filter_nil. destruct (P n) eqn:Hn.
  - by rewrite decide_True.
  - by rewrite decide_False by congruence.
Qed.

Lemma length_filter_seq (P : nat -> bool) (n : nat) :
  Z.of_nat (length (filter (fun j => P j = true) (seq 0 n)))
  = sum_range 0 n (fun j => indicator (P j)).
Proof.
  induction n as [|n IH]; [done|].
  rewrite filter_seq_S, length_app, sum_range_snoc by lia.
  rewrite Nat2Z.inj_add, IH. by destruct (P n).
Qed.

Lemma length_filter_seq_le (P : nat -> bool) (n : nat) :
  length (filter (fun j => P j = true) (seq 0 n)) <= n.
Proof.
  induction n as [|n IH]; [done|].
  rewrite filter_seq_S, length_app. destruct (P n); simpl; lia.
Qed.

Lemma sumZ_sum_range (l : list Z) :
  sumZ l = sum_range 0 (length l) (fun j => default 0%Z (l !! j)).
Proof.
  induction l as [|y l IH] using rev_ind; [done|].
  rewrite sumZ_app, length_app. simpl. rewrite Nat.add_1_r.
  rewrite sum_range_snoc by lia.
  rewrite lookup_app_r by lia. rewrite Nat.sub_diag. simpl.
  rewrite IH, Z.add_0_r. f_equal.
  apply sum_range_ext. intros x Hx. by rewrite lookup_app_l by lia.
Qed.

Section Cliquishness.

Variables (N : nat) (A : matrix Z).
Hypothesis A_adjacency : adjacency N A.

Lemma entry_Ok (a b : nat) : a < N -> b < N -> mget A a b = Ok (entry A a b).
Proof.
  intros Ha Hb. destruct A_adjacency as (Hd & _).
  destruct (mget_dims N N A a b Hd Ha Hb) as [v Hv].
  unfold entry. by rewrite Hv.
Qed.

Lemma entry_binary (a b : nat) : entry A a b = indicator (is_edge A a b).
Proof.
  destruct A_adjacency as (_ & _ & Hbin & _). unfold is_edge, entry.
  destruct (mget A a b) as [v|e] eqn:Hv; [|done].
  by destruct (Hbin a b v Hv) as [-> | ->].
Qed.

Lemma is_edge_irrefl (a b : nat) : is_edge A a b = true -> (a =? b) = false.
Proof.
  intros He. apply Nat.eqb_neq. intros ->.
  destruct A_adjacency as (_ & _ & _ & Hdiag). unfold is_edge, entry in He.
  destruct (mget A b b) as [v|e] eqn:Hv; [|done].
  rewrite (Hdiag b v Hv) in He. done.
Qed.

Lemma row_sum_neighbors (i : nat) :
  i < N -> row_sum A i = Z.of_nat (length (neighbors_of N A i)).
Proof.
  intros Hi. destruct A_adjacency as (Hd & _).
  destruct (dims_lookup N N A i Hd Hi) as (row & Hrow & Hlen).
  unfold row_sum, neighbors_of. rewrite Hrow, sumZ_sum_range, Hlen.
  rewrite length_filter_seq. apply sum_range_ext. intros j Hj.
  rewrite <- entry_binary. unfold entry, mget, aget. rewrite Hrow. simpl.
  by destruct (row !! j).
Qed.

Lemma neighbors_of_lt (i x : nat) :
  x < length (neighbors_of N A i) ->
  default 0 (neighbors_of N A i !! x) < N.
Proof.
  intros Hx. destruct (lookup_lt_is_Some_2 _ _ Hx) as [v Hv]. rewrite Hv.
  apply list_elem_of_lookup_2, list_elem_of_filter in Hv as [_ Hv].
  apply elem_of_seq in Hv. simpl. lia.
Qed.

Lemma collect_neighbors_spec (i : nat) (buf : list nat) :
  i < N -> length buf = N ->
  exists buf',
    collect_neighbors N A i buf = Ok (buf', length (neighbors_of N A i)) /\
    length buf' = N /\
    take (length (neighbors_of N A i)) buf' = neighbors_of N A i.
Proof.
  intros Hi Hbuf. unfold collect_neighbors, neighbors_of.
  set (P := fun j => is_edge A i j).
  destruct (for_range_total
    (fun j (s : list nat * nat) =>
       length s.1 = N /\
       s.2 = length (filter (fun x => P x = true) (seq 0 j)) /\
       take s.2 s.1 = filter (fun x => P x = true) (seq 0 j))
    0 N
    (fun j '(neighbors, index) =>
       a <- mget A i j ;;
       if (a =? 1)%Z then
         neighbors <- aset neighbors index j ;;
         Ok (neighbors, S index)
       else Ok (neighbors, index)) (buf, 0))
    as ([buf' idx] & Hrun & Hlen & Hidx & Htake); [lia | done | |].
  - intros j [b idx] Hj (Hlen & Hidx & Htake). cbn [fst snd] in *.
    rewrite (entry_Ok i j) by lia. cbn [bind].
    rewrite filter_seq_S. fold (is_edge A i j). fold (P j).
    pose proof (length_filter_seq_le P j) as Hle.
    destruct (P j).
    + rewrite aset_lt by lia. cbn [bind]. eexists. split; [done|].
      cbn [fst snd]. rewrite length_insert, length_app. cbn [length].
      split; [done|]. split; [lia|].
      assert (<[idx:=j]> b !! idx = Some j) as Hl
        by (apply list_lookup_insert_eq; lia).
      rewrite (take_S_r _ _ j Hl).
      rewrite take_insert_ge by lia. by rewrite Htake.
    + eexists. split; [done|]. cbn [fst snd].
      by rewrite app_nil_r.
  - cbn [fst snd] in *. exists buf'. subst idx. done.
Qed.

Section Node.

Variable i : nat.
Hypothesis i_lt : i < N.

Let nbrs := neighbors_of N A i.
Let cnt := length nbrs.
Let nb (x : nat) : nat := default 0 (nbrs !! x).

(** The counter after the three loops over the positions of the
    neighbour list. *)
Definition triples_by_position : Z :=
  sum_range 0 cnt (fun x => sum_range 0 cnt (fun y =>
    if is_edge A (nb x) (nb y) then
      sum_range 0 cnt (fun z =>
        indicator (is_edge A (nb y) (nb z) && is_edge A (nb z) (nb x)))
    else 0%Z)).

Lemma count_neighbor_triangles_eval (buf : list nat) :
  take cnt buf = nbrs ->
  count_neighbor_triangles A buf (Z.of_nat cnt) = Ok triples_by_position.
Proof.
  intros Htake. unfold count_neighbor_triangles, triples_by_position.
  rewrite Nat2Z.id.
  assert (forall x, x < cnt -> aget buf x = Ok (nb x)) as Hget.
  { intros x Hx. unfold aget, nb. rewrite <- Htake.
    rewrite lookup_take_lt by done.
    destruct (lookup_lt_is_Some_2 buf x) as [v ->]; [|done].
    apply (f_equal length) in Htake. rewrite length_take in Htake.
    fold cnt in Htake. lia. }
  assert (forall x, x < cnt -> nb x < N) as Hlt
    by (intros x Hx; by apply neighbors_of_lt).
  rewrite (for_range_sum1 0 cnt _ (fun x => sum_range 0 cnt (fun y =>
    if is_edge A (nb x) (nb y) then
      sum_range 0 cnt (fun z =>
        indicator (is_edge A (nb y) (nb z) && is_edge A (nb z) (nb x)))
    else 0%Z))); [done | lia |].
  intros x c Hx. rewrite Hget by lia. simpl.
  apply (for_range_sum1 0 cnt _ (fun y =>
    if is_edge A (nb x) (nb y) then
      sum_range 0 cnt (fun z =>
        indicator (is_edge A (nb y) (nb z) && is_edge A (nb z) (nb x)))
    else 0%Z)); [lia|].
  intros y c' Hy. rewrite Hget by lia. simpl.
  rewrite entry_Ok by (apply Hlt; lia). simpl.
  fold (is_edge A (nb x) (nb y)).
  destruct (is_edge A (nb x) (nb y)); [|by rewrite Z.add_0_r].
  apply (for_range_sum1 0 cnt _ (fun z =>
    indicator (is_edge A (nb y) (nb z) && is_edge A (nb z) (nb x)))); [lia|].
  intros z c'' Hz. rewrite Hget by lia. simpl.
  rewrite entry_Ok by (apply Hlt; lia). simpl.
  fold (is_edge A (nb y) (nb z)).
  destruct (is_edge A (nb y) (nb z)); simpl; [|by rewrite Z.add_0_r].
  rewrite entry_Ok by (apply Hlt; lia). simpl.
  fold (is_edge A (nb z) (nb x)).
  by destruct (is_edge A (nb z) (nb x)); rewrite ?Z.add_0_r.
Qed.

End Node.

End Cliquishness.

Lemma sum_range_if (c : bool) (lo hi : nat) (f : nat -> Z) :
  (if c then sum_range lo hi f else 0%Z)
  = sum_range lo hi (fun x => if c then f x else 0%Z).
Proof. destruct c; [done|]. symmetry. by apply sum_range_zero. Qed.

(** The count over positions of the neighbour list is the count over
    triples of distinct neighbours. *)
Lemma triples_by_position_spec (N : nat) (A : matrix Z) (i : nat) :
  adjacency N A -> triples_by_position N A i = clique_triples N A i.
Proof.
  intros Hadj. unfold triples_by_position, clique_triples.
  pose proof (sum_range_filter N (is_edge A i)) as Hf. simpl in Hf.
  fold (neighbors_of N A i) in Hf.
  rewrite (Hf (fun j => sum_range 0 (length (neighbors_of N A i)) (fun y =>
    if is_edge A j (default 0 (neighbors_of N A i !! y)) then
      sum_range 0 (length (neighbors_of N A i)) (fun z =>
        indicator (is_edge A (default 0 (neighbors_of N A i !! y))
                     (default 0 (neighbors_of N A i !! z))
                   && is_edge A (default 0 (neighbors_of N A i !! z)) j))
    else 0%Z))).
  apply sum_range_ext. intros j _.
  rewrite (Hf (fun k =>
    if is_edge A j k then
      sum_range 0 (length (neighbors_of N A i)) (fun z =>
        indicator (is_edge A k (default 0 (neighbors_of N A i !! z))
                   && is_edge A (default 0 (neighbors_of N A i !! z)) j))
    else 0%Z)).
  rewrite sum_range_if. apply sum_range_ext. intros k _.
  rewrite (Hf (fun l => indicator (is_edge A k l && is_edge A l j))).
  rewrite !sum_range_if. apply sum_range_ext. intros l _.
  pose proof (is_edge_irrefl N A Hadj j k) as Hjk.
  pose proof (is_edge_irrefl N A Hadj k l) as Hkl.
  pose proof (is_edge_irrefl N A Hadj l j) as Hlj.
  destruct (is_edge A i j), (is_edge A i k), (is_edge A i l); simpl; try done.
  all: destruct (is_edge A j k); simpl; try done;
    try (by rewrite ?andb_false_r).
  rewrite (Hjk eq_refl).
  destruct (is_edge A k l);
    [rewrite (Hkl eq_refl) | by rewrite ?andb_false_r].
  destruct (is_edge A l j);
    [rewrite (Hlj eq_refl) | by rewrite ?andb_false_r].
  done.
Qed.

(** Entry [i] of the result of [_local_cliquishness_4thorder]: the count
    of the triples over the normaliser as [NODE_t] holds it. *)
Definition cliquishness_4_node (N : nat) (A : matrix Z) (degree_i : Z)
  (i : nat) : Q :=
  if (3 <=? degree_i)%Z then
    (inject_Z (clique_triples N A i)
     / inject_Z (wrap NODE_bits (degree_i * (degree_i - 1) * (degree_i - 2))))%Q
  else 0%Q.

Lemma normaliser_4_wrap (d : Z) :
  node_mul (node_mul d (d - 1)) (d - 2)
  = wrap NODE_bits (d * (d - 1) * (d - 2)).
Proof. unfold node_mul at 2. apply node_mul_wrap. Qed.

(** Up to the degree 1291 the normaliser of order 4 fits [NODE_t];
    [1292 * 1291 * 1290] does not. *)
Lemma normaliser_4_fits (d : Z) :
  (3 <= d <= 1291)%Z ->
  wrap NODE_bits (d * (d - 1) * (d - 2)) = (d * (d - 1) * (d - 2))%Z /\
  (0 < d * (d - 1) * (d - 2))%Z.
Proof.
  intros Hd.
  assert (0 < d * (d - 1) <= 1291 * 1290)%Z as H2.
  { split; [apply Z.mul_pos_pos; lia|].
    apply Z.mul_le_mono_nonneg; lia. }
  assert (0 < d * (d - 1) * (d - 2) <= 1291 * 1290 * 1289)%Z as H3.
  { split; [apply Z.mul_pos_pos; lia|].
    apply Z.mul_le_mono_nonneg; lia. }
  split; [|lia]. apply wrap_in_range. lia.
Qed.

Lemma cliquishness_4_fits (N : nat) (A : matrix Z) (d : Z) (i : nat) :
  (d <= 1291)%Z -> cliquishness_4_node N A d i = cliquishness_4 N A d i.
Proof.
  intros Hd. unfold cliquishness_4_node, cliquishness_4.
  destruct (3 <=? d)%Z eqn:Hge; [|done]. apply Z.leb_le in Hge.
  by rewrite (proj1 (normaliser_4_fits d ltac:(lia))).
Qed.

(** The degrees of a graph on [N] nodes are at most [N]. *)
Lemma degree_le_nodes (N : nat) (A : matrix Z) (degree : list Z) :
  adjacency N A -> length degree = N ->
  (forall i d, degree !! i = Some d -> d = row_sum A i) ->
  forall i d, degree !! i = Some d -> (0 <= d <= Z.of_nat N)%Z.
Proof.
  intros Hadj Hlen Hdeg i d Hd.
  assert (i < N) as Hi by (rewrite <- Hlen; by eapply lookup_lt_Some).
  rewrite (Hdeg i d Hd), (row_sum_neighbors N A Hadj i Hi).
  pose proof (length_filter_seq_le (is_edge A i) N) as Hle.
  unfold neighbors_of. lia.
Qed.

Lemma local_cliquishness_4thorder_correct (N : nat) (A : matrix Z)
  (degree : list Z) :
  adjacency N A -> length degree = N ->
  (forall i d, degree !! i = Some d -> d = row_sum A i) ->
  (forall i d, degree !! i = Some d -> (3 <= d)%Z ->
     wrap NODE_bits (d * (d - 1) * (d - 2)) <> 0%Z) ->
  exists lc,
    _local_cliquishness_4thorder N A degree = Ok lc /\
    length lc = N /\
    forall i d, degree !! i = Some d ->
      lc !! i = Some (cliquishness_4_node N A d i).
Proof.
  intros Hadj Hlen Hdeg Hnz. unfold _local_cliquishness_4thorder.
  destruct (for_range_total
    (fun i (s : list nat * list Q) =>
       length s.1 = N /\ length s.2 = N /\
       forall i' d, degree !! i' = Some d ->
         s.2 !! i' = Some (if i' <? i then cliquishness_4_node N A d i'
                           else 0%Q))
    0 N
    (fun i '(neighbors, local_cliquishness) =>
      degree_i <- aget degree i ;;
      if (4 - 1 <=? degree_i)%Z then
        '(neighbors, _) <- collect_neighbors N A i neighbors ;;
        counter <- count_neighbor_triangles A neighbors degree_i ;;
        c <- divide (inject_Z counter)
               (inject_Z (node_mul (node_mul degree_i (degree_i - 1))
                                   (degree_i - 2))) ;;
        local_cliquishness <- aset local_cliquishness i c ;;
        Ok (neighbors, local_cliquishness)
      else Ok (neighbors, local_cliquishness))
    (replicate N 0, replicate N 0%Q))
    as ([buf lc] & Hrun & _ & Hlc & Hval); [lia | | |].
  - cbn [fst snd]. rewrite !length_replicate. repeat split.
    intros i' d Hd. apply lookup_replicate_2.
    rewrite <- Hlen. by eapply lookup_lt_Some.
  - intros i [buf lc] Hi (Hbuf & Hlc & Hval). cbn [fst snd] in *.
    destruct (aget_lt degree i) as (d & -> & Hd); [lia|]. cbn [bind].
    change (4 - 1)%Z with 3%Z.
    destruct (3 <=? d)%Z eqn:Hge.
    + destruct (collect_neighbors_spec N A Hadj i buf) as (buf' & -> & Hbuf' & Htake);
        [lia | done |].
      cbn [bind]. apply Z.leb_le in Hge.
      rewrite normaliser_4_wrap.
      pose proof (Hnz i d Hd Hge) as Hnz_d.
      set (norm := wrap NODE_bits (d * (d - 1) * (d - 2))) in *.
      rewrite (Hdeg i d Hd), (row_sum_neighbors N A Hadj i) by lia.
      rewrite (count_neighbor_triangles_eval N A Hadj i ltac:(lia) buf' Htake).
      cbn [bind]. rewrite (triples_by_position_spec N A i Hadj).
      unfold divide.
      destruct (Qeq_bool (inject_Z norm) 0) eqn:Hz.
      { apply Qeq_bool_iff in Hz. unfold Qeq in Hz. simpl in Hz. lia. }
      cbn [bind]. rewrite aset_lt by lia. cbn [bind].
      eexists. split; [done|]. cbn [fst snd].
      rewrite length_insert. repeat split; try done.
      intros i' d' Hd'. destruct (decide (i' = i)) as [->|Hne].
      * rewrite list_lookup_insert_eq by lia.
        assert (d' = d) as -> by congruence.
        rewrite (proj2 (Nat.ltb_lt i (S i))) by lia.
        unfold cliquishness_4_node. by rewrite (proj2 (Z.leb_le 3 d) Hge).
      * rewrite list_lookup_insert_ne by done. rewrite (Hval i' d' Hd').
        destruct (i' <? i) eqn:H1; destruct (i' <? S i) eqn:H2; try done.
        -- apply Nat.ltb_lt in H1. apply Nat.ltb_ge in H2. lia.
        -- apply Nat.ltb_ge in H1. apply Nat.ltb_lt in H2. lia.
    + eexists. split; [done|]. cbn [fst snd]. repeat split; try done.
      intros i' d' Hd'. rewrite (Hval i' d' Hd').
      destruct (decide (i' = i)) as [->|Hne].
      * assert (d' = d) as -> by congruence.
        rewrite (proj2 (Nat.ltb_ge i i)) by lia.
        rewrite (proj2 (Nat.ltb_lt i (S i))) by lia.
        unfold cliquishness_4_node. by rewrite Hge.
      * destruct (i' <? i) eqn:H1; destruct (i' <? S i) eqn:H2; try done.
        -- apply Nat.ltb_lt in H1. apply Nat.ltb_ge in H2. lia.
        -- apply Nat.ltb_ge in H1. apply Nat.ltb_lt in H2. lia.
  - cbn [fst snd] in *. cbv zeta. rewrite Hrun. cbn [bind].
    exists lc. split; [done|]. split; [done|].
    intros i d Hd. rewrite (Hval i d Hd).
    rewrite (proj2 (Nat.ltb_lt i N)); [done|].
    rewrite <- Hlen. by eapply lookup_lt_Some.
Qed.

(** The complete graph on [N] nodes. *)
Definition complete_graph (N : nat) : matrix Z :=
  map (fun i => map (fun j => if i =? j then 0%Z else 1%Z) (seq 0 N))
      (seq 0 N).

Lemma complete_graph_mget (N i j : nat) :
  mget (complete_graph N) i j
  = if (i <? N) && (j <? N) then Ok (if i =? j then 0%Z else 1%Z)
    else Raise IndexError.
Proof.
  unfold mget, aget, complete_graph. rewrite list_lookup_fmap.
  destruct (i <? N) eqn:Hi.
  - apply Nat.ltb_lt in Hi. rewrite lookup_seq_lt by done. cbn [fmap option_fmap option_map bind].
    rewrite list_lookup_fmap.
    destruct (j <? N) eqn:Hj.
    + apply Nat.ltb_lt in Hj. by rewrite lookup_seq_lt by done.
    + apply Nat.ltb_ge in Hj. by rewrite lookup_seq_ge by done.
  - apply Nat.ltb_ge in Hi. by rewrite lookup_seq_ge by done.
Qed.

Lemma complete_graph_adjacency (N : nat) : adjacency N (complete_graph N).
Proof.
  split; [|split; [|split]].
  - split; [unfold complete_graph; by rewrite length_map, length_seq|].
    apply Forall_forall. intros row (i & -> & _)%list_elem_of_fmap.
    by rewrite length_map, length_seq.
  - intros i j. rewrite !complete_graph_mget, (Nat.eqb_sym j i).
    by destruct (i <? N), (j <? N).
  - intros i j v. rewrite complete_graph_mget.
    destruct (_ && _); [|done]. destruct (i =? j); intros [= <-]; auto.
  - intros i v. rewrite complete_graph_mget, Nat.eqb_refl.
    destruct (_ && _); [|done]. by intros [= <-].
Qed.

Lemma complete_graph_is_edge (N a b : nat) :
  a < N -> b < N -> is_edge (complete_graph N) a b = negb (a =? b).
Proof.
  intros Ha Hb. unfold is_edge, entry. rewrite complete_graph_mget.
  rewrite (proj2 (Nat.ltb_lt a N)), (proj2 (Nat.ltb_lt b N)) by done.
  simpl. by destruct (a =? b).
Qed.

Lemma complete_graph_degree (N i : nat) :
  i < N -> row_sum (complete_graph N) i = (Z.of_nat N - 1)%Z.
Proof.
  intros Hi.
  rewrite (row_sum_neighbors N _ (complete_graph_adjacency N) i Hi).
  unfold neighbors_of. rewrite length_filter_seq.
  rewrite <- (count_others_1 N i Hi). apply sum_range_ext. intros j Hj.
  rewrite complete_graph_is_edge by lia. by rewrite (Nat.eqb_sym i j).
Qed.

(** In the complete graph every triple of distinct neighbours of a node
    is linked. *)
Lemma complete_graph_triples (N i : nat) :
  i < N ->
  clique_triples N (complete_graph N) i
  = ((Z.of_nat N - 1) * (Z.of_nat N - 2) * (Z.of_nat N - 3))%Z.
Proof.
  intros Hi. unfold clique_triples.
  rewrite (sum_range_ext 0 N _
    (fun j => if negb (j =? i)
              then ((Z.of_nat N - 2) * (Z.of_nat N - 3))%Z else 0%Z)).
  { rewrite sum_range_guard, count_others_1 by done. ring. }
  intros j Hj. rewrite !complete_graph_is_edge by lia.
  destruct (decide (j = i)) as [->|Hji].
  { rewrite Nat.eqb_refl. simpl. apply sum_range_zero. intros k _.
    by apply sum_range_zero. }
  rewrite (proj2 (Nat.eqb_neq i j)), (proj2 (Nat.eqb_neq j i)) by lia.
  cbn [negb andb].
  rewrite (sum_range_ext 0 N _
    (fun k => if negb (k =? i) && negb (k =? j)
              then (Z.of_nat N - 3)%Z else 0%Z)).
  { rewrite sum_range_guard, count_others_2 by (done || lia). ring. }
  intros k Hk.
  destruct (decide (k = i)) as [->|Hki].
  { rewrite Nat.eqb_refl. cbn [negb andb]. apply sum_range_zero. intros l Hl.
    rewrite !complete_graph_is_edge by lia. rewrite Nat.eqb_refl. done. }
  destruct (decide (k = j)) as [->|Hkj].
  { rewrite Nat.eqb_refl, andb_false_r. apply sum_range_zero. intros l Hl.
    rewrite !complete_graph_is_edge by lia. rewrite Nat.eqb_refl.
    by rewrite ?andb_false_r. }
  rewrite (proj2 (Nat.eqb_neq k i)), (proj2 (Nat.eqb_neq k j)) by lia.
  cbn [negb andb].
  rewrite <- (count_others_3 N i j k) by (done || lia).
  apply sum_range_ext. intros l Hl.
  rewrite !complete_graph_is_edge by lia.
  rewrite (proj2 (Nat.eqb_neq i k)), (proj2 (Nat.eqb_neq j k)) by lia.
  cbn [negb andb].
  rewrite (Nat.eqb_sym i l), (Nat.eqb_sym k l).
  by destruct (l =? i), (l =? j), (l =? k).
Qed.

(** C4. On an adjacency matrix on fewer than [2 ^ 31] nodes with its degree
    sequence, [_local_cliquishness_4thorder] returns, for every node [i]
    with [degree[i] >= 3], the number of ordered triples of pairwise
    distinct neighbours [(j, k, l)] of [i] with the edges [(j, k)],
    [(k, l)], [(l, j)], divided by the value that [NODE_t] holds for
    [degree_i * (degree_i - 1) * (degree_i - 2)].  Up to the degree 1291
    that value is the product itself; from the degree 1292 on it is not.
    For every node with [degree[i] < 3], in particular of degree 2, the
    result is 0; on the complete graph on five nodes every entry of the
    result equals 1. *)
Theorem local_cliquishness_4thorder_spec :
  (forall (N : nat) (A : matrix Z) (degree : list Z),
     adjacency N A -> (Z.of_nat N <= 2147483647)%Z -> length degree = N ->
     (forall i d, degree !! i = Some d -> d = row_sum A i) ->
     exists lc,
       _local_cliquishness_4thorder N A degree = Ok lc /\
       length lc = N /\
       forall i d, degree !! i = Some d ->
         ((3 <= d)%Z ->
          lc !! i = Some (inject_Z (clique_triples N A i)
                          / inject_Z (wrap NODE_bits
                                        (d * (d - 1) * (d - 2))))%Q) /\
         ((3 <= d <= 1291)%Z ->
          lc !! i = Some (inject_Z (clique_triples N A i)
                          / inject_Z (d * (d - 1) * (d - 2)))%Q) /\
         ((d < 3)%Z -> lc !! i = Some 0%Q) /\
         (d = 2%Z -> lc !! i = Some 0%Q)) /\
  (exists lc,
     _local_cliquishness_4thorder 5 K5 [4; 4; 4; 4; 4]%Z = Ok lc /\
     length lc = 5 /\
     Forall (fun c => c == 1)%Q lc).
Proof.
  split.
  - intros N A degree Hadj HN Hlen Hdeg.
    pose proof (degree_le_nodes N A degree Hadj Hlen Hdeg) as Hle.
    destruct (local_cliquishness_4thorder_correct N A degree Hadj Hlen Hdeg)
      as (lc & Hrun & Hlc & Hval).
    { intros i d Hd Hge. rewrite <- normaliser_4_wrap.
      apply normaliser_4_nonzero. specialize (Hle i d Hd). lia. }
    exists lc. split; [done|]. split; [done|]. intros i d Hd.
    specialize (Hval i d Hd).
    split; [|split; [|split]].
    + intros Hge. unfold cliquishness_4_node in Hval.
      by rewrite (proj2 (Z.leb_le 3 d) Hge) in Hval.
    + intros [Hge Hfit]. rewrite cliquishness_4_fits in Hval by done.
      unfold cliquishness_4 in Hval.
      by rewrite (proj2 (Z.leb_le 3 d) Hge) in Hval.
    + intros Hlt. unfold cliquishness_4_node in Hval.
      by rewrite (proj2 (Z.leb_gt 3 d) Hlt) in Hval.
    + intros ->. done.
  - eexists. split; [vm_compute; reflexivity|]. split; [reflexivity|].
    repeat constructor.
Qed.

Lemma K5_adjacency : adjacency 5 K5.
Proof.
  split; [split; [reflexivity | repeat constructor]|].
  split; [|split].
  - intros i j. do 6 (try destruct i as [|i]); do 6 (try destruct j as [|j]);
      reflexivity.
  - intros i j v. do 6 (try destruct i as [|i]); do 6 (try destruct j as [|j]);
      intros [= <-] || discriminate; auto.
  - intros i v. do 6 (try destruct i as [|i]);
      intros [= <-] || discriminate; auto.
Qed.

(** The complete graph on 1293 nodes: every node has the degree 1292 and
    [1292 * 1291 * 1290 = 2151683880] linked triples of neighbours.  The
    normaliser is the same number, which [NODE_t] holds as
    [2151683880 - 2 ^ 32 = -2143283416]: the entry of node 0 is negative,
    where the exact normaliser gives 1. *)
Lemma local_cliquishness_4thorder_spec_witness :
  let N := 1293 in
  exists lc,
    _local_cliquishness_4thorder N (complete_graph N) (replicate N 1292%Z)
    = Ok lc /\
    lc !! 0 = Some (inject_Z 2151683880 / inject_Z (-2143283416))%Q /\
    (inject_Z 2151683880 / inject_Z (-2143283416) < 0)%Q /\
    (inject_Z (clique_triples N (complete_graph N) 0)
     / inject_Z (1292 * 1291 * 1290) == 1)%Q.
Proof.
  intros N. assert (Z.of_nat N = 1293%Z) as HN by reflexivity.
  assert (0 < N) as Hpos by (apply Nat2Z.inj_lt; rewrite HN; done).
  clearbody N.
  destruct (proj1 local_cliquishness_4thorder_spec N (complete_graph N)
              (replicate N 1292%Z)) as (lc & Hrun & _ & Hval).
  - apply complete_graph_adjacency.
  - lia.
  - apply length_replicate.
  - intros i d [-> Hi]%lookup_replicate.
    rewrite complete_graph_degree by done. lia.
  - destruct (Hval 0 1292%Z) as (Hwrapped & _).
    { by apply lookup_replicate_2. }
    exists lc. split; [done|].
    rewrite Hwrapped by done.
    rewrite (complete_graph_triples N 0 Hpos), HN.
    split; [reflexivity|]. split; reflexivity.
Defined.

(** * Newman's random-walk betweenness *)

Definition sumQ_range (lo hi : nat) (f : nat -> Q) : Q :=
  foldr Qplus 0%Q (map f (seq lo (hi - lo))).

(** Reading [V], a buffer that is known to hold the entry. *)
Definition potential (V : matrix Q) (a b : nat) : Q :=
  match mget V a b with
  | Ok v => v
  | Raise _ => 0%Q
  end.

(** [|V[i,s] - V[j,s] - V[i,t] + V[j,t]|] *)
Definition newman_term (V : matrix Q) (i j s t : nat) : Q :=
  Qabs (potential V i s - potential V j s - potential V i t + potential V j t).

(** The sum over all [j] with [this_A[i - start_i, j] == 1] and all pairs
    [(s, t)] with [t < s], [s != i], [t != i]. *)
Definition newman_betweenness_of (this_A : matrix Z) (V : matrix Q)
  (N start_i i : nat) : Q :=
  sumQ_range 0 N (fun j =>
    if is_edge this_A (i - start_i) j then
      sumQ_range 0 N (fun s => sumQ_range 0 N (fun t =>
        if (t <? s) && negb (s =? i) && negb (t =? i)
        then newman_term V i j s t else 0%Q))
    else 0%Q).

Lemma sumQ_app (l1 l2 : list Q) :
  (foldr Qplus 0 (l1 ++ l2) == foldr Qplus 0 l1 + foldr Qplus 0 l2)%Q.
Proof.
  induction l1 as [|x l1 IH]; simpl.
  - ring.
  - rewrite IH. ring.
Qed.

Lemma sumQ_range_empty (lo hi : nat) (f : nat -> Q) :
  hi <= lo -> sumQ_range lo hi f = 0%Q.
Proof. intros H. unfold sumQ_range. by replace (hi - lo) with 0 by lia. Qed.

Lemma sumQ_range_snoc (lo hi : nat) (f : nat -> Q) :
  lo <= hi -> (sumQ_range lo (S hi) f == sumQ_range lo hi f + f hi)%Q.
Proof.
  intros H. unfold sumQ_range. replace (S hi - lo) with (S (hi - lo)) by lia.
  rewrite seq_S, map_app, sumQ_app. simpl.
  replace (lo + (hi - lo)) with hi by lia. ring.
Qed.

Lemma sumQ_range_ext (lo hi : nat) (f g : nat -> Q) :
  (forall i, lo <= i < hi -> (f i == g i)%Q) ->
  (sumQ_range lo hi f == sumQ_range lo hi g)%Q.
Proof.
  destruct (decide (lo <= hi)) as [Hle|];
    [|rewrite !sumQ_range_empty by lia; reflexivity].
  induction hi as [|hi IH]; intros Hfg.
  - rewrite !sumQ_range_empty by lia. reflexivity.
  - destruct (decide (lo = S hi)) as [->|];
      [rewrite !sumQ_range_empty by lia; reflexivity|].
    rewrite !sumQ_range_snoc by lia.
    rewrite IH, (Hfg hi) by (try intros; try apply Hfg; lia). reflexivity.
Qed.

Lemma sumQ_range_zero (lo hi : nat) (f : nat -> Q) :
  (forall i, lo <= i < hi -> (f i == 0)%Q) -> (sumQ_range lo hi f == 0)%Q.
Proof.
  intros H. rewrite (sumQ_range_ext lo hi f (fun _ => 0%Q)) by done.
  unfold sumQ_range. induction (seq lo (hi - lo)); simpl; [reflexivity|].
  rewrite IHl. ring.
Qed.

Lemma sumQ_range_if (c : bool) (lo hi : nat) (f : nat -> Q) :
  ((if c then sumQ_range lo hi f else 0)
   == sumQ_range lo hi (fun x => if c then f x else 0))%Q.
Proof.
  destruct c; [reflexivity|]. symmetry. apply sumQ_range_zero. reflexivity.
Qed.

(** Restricting the summation range or masking the summand is the same. *)
Lemma sumQ_range_below (s N : nat) (f : nat -> Q) :
  s <= N ->
  (sumQ_range 0 N (fun t => if t <? s then f t else 0) == sumQ_range 0 s f)%Q.
Proof.
  intros Hs. induction N as [|N IH].
  - replace s with 0 by lia. reflexivity.
  - destruct (decide (s = S N)) as [->|Hne].
    + apply sumQ_range_ext. intros t Ht.
      rewrite (proj2 (Nat.ltb_lt t (S N))) by lia. reflexivity.
    + rewrite sumQ_range_snoc by lia. rewrite IH by lia.
      rewrite (proj2 (Nat.ltb_ge N s)) by lia. ring.
Qed.

(** A loop that adds a value equal to [f i] to its accumulator. *)
Lemma for_range_sumQ (lo hi : nat) (body : nat -> Q -> result Q)
  (f : nat -> Q) :
  lo <= hi ->
  (forall i x, lo <= i < hi ->
     exists y, body i x = Ok y /\ (y == x + f i)%Q) ->
  forall x, exists y,
    for_range lo hi body x = Ok y /\ (y == x + sumQ_range lo hi f)%Q.
Proof.
  intros Hle Hbody x.
  apply (for_range_total (fun i y => (y == x + sumQ_range lo i f)%Q));
    [done | |].
  - rewrite sumQ_range_empty by lia. ring.
  - intros i y Hi Hy. destruct (Hbody i y Hi) as (y' & Hy' & Heq).
    exists y'. split; [done|].
    rewrite Heq, Hy, sumQ_range_snoc by lia. ring.
Qed.

Section Newman.

Variables (this_A : matrix Z) (V : matrix Q) (N start_i end_i : nat).
Hypothesis range_ordered : start_i <= end_i.
Hypothesis range_in_V : end_i <= N.
Hypothesis this_A_dims : dims (end_i - start_i) N this_A.
Hypothesis this_A_binary : binary this_A.
Hypothesis V_dims : dims N N V.

Lemma potential_Ok (a b : nat) :
  a < N -> b < N -> mget V a b = Ok (potential V a b).
Proof.
  intros Ha Hb. destruct (mget_dims N N V a b V_dims Ha Hb) as [v Hv].
  unfold potential. by rewrite Hv.
Qed.

Lemma this_A_entry_Ok (i_rel j : nat) :
  i_rel < end_i - start_i -> j < N ->
  mget this_A i_rel j = Ok (entry this_A i_rel j).
Proof.
  intros Ha Hb. destruct (mget_dims _ _ this_A i_rel j this_A_dims Ha Hb) as [v Hv].
  unfold entry. by rewrite Hv.
Qed.

Lemma this_A_truthy (i_rel j : nat) :
  truthy (entry this_A i_rel j) = is_edge this_A i_rel j.
Proof.
  unfold is_edge, entry. destruct (mget this_A i_rel j) as [v|e] eqn:Hv; [|done].
  by destruct (this_A_binary i_rel j v Hv) as [-> | ->].
Qed.

(** The double sum over the pairs [(s, t)] for the edge [(i, j)]. *)
Definition pair_sum (i j : nat) : Q :=
  sumQ_range 0 N (fun s => sumQ_range 0 N (fun t =>
    if (t <? s) && negb (s =? i) && negb (t =? i)
    then newman_term V i j s t else 0%Q)).

Lemma newman_sum_j_spec (i_abs j : nat) :
  i_abs < N -> j < N ->
  exists q, newman_sum_j V N i_abs j = Ok q /\ (q == pair_sum i_abs j)%Q.
Proof.
  intros Hi Hj. unfold newman_sum_j.
  destruct (for_range_sumQ 0 N
    (fun s sum_j =>
      if negb (i_abs =? s) then
        vis <- mget V i_abs s ;;
        vjs <- mget V j s ;;
        let Vis_minus_Vjs := (vis - vjs)%Q in
        sum_s <- for_range 0 s (fun t sum_s =>
          if negb (i_abs =? t) then
            vit <- mget V i_abs t ;;
            vjt <- mget V j t ;;
            Ok (sum_s + Qabs (Vis_minus_Vjs - vit + vjt))%Q
          else Ok sum_s) 0%Q ;;
        Ok (sum_j + sum_s)%Q
      else Ok sum_j)
    (fun s => if negb (i_abs =? s) then
                sumQ_range 0 s (fun t =>
                  if negb (i_abs =? t) then newman_term V i_abs j s t else 0%Q)
              else 0%Q) ltac:(lia)) with (x := 0%Q) as (q & Hq & Heq).
  - intros s x Hs. destruct (negb (i_abs =? s));
      [|exists x; split; [done | ring]].
    rewrite !potential_Ok by lia. cbn [bind]. cbv zeta.
    destruct (for_range_sumQ 0 s
      (fun t sum_s =>
        if negb (i_abs =? t) then
          vit <- mget V i_abs t ;;
          vjt <- mget V j t ;;
          Ok (sum_s + Qabs (potential V i_abs s - potential V j s - vit + vjt))%Q
        else Ok sum_s)
      (fun t => if negb (i_abs =? t) then newman_term V i_abs j s t else 0%Q)
      ltac:(lia)) with (x := 0%Q) as (r & -> & Hr).
    + intros t y Ht. destruct (negb (i_abs =? t));
        [|exists y; split; [done | ring]].
      rewrite !potential_Ok by lia. cbn [bind].
      eexists. split; [done|]. reflexivity.
    + cbn [bind]. eexists. split; [done|]. rewrite Hr. ring.
  - exists q. split; [done|]. rewrite Heq, Qplus_0_l. unfold pair_sum.
    apply sumQ_range_ext. intros s Hs.
    rewrite (Nat.eqb_sym i_abs s).
    destruct (s =? i_abs) eqn:Hsi; simpl.
    + symmetry. apply sumQ_range_zero. intros t _.
      by rewrite andb_false_r.
    + rewrite <- (sumQ_range_below s N) by lia.
      apply sumQ_range_ext. intros t Ht.
      rewrite (Nat.eqb_sym i_abs t), andb_true_r.
      destruct (t <? s), (t =? i_abs); reflexivity.
Qed.

(** The loop over [j] for the row [i_rel]: it adds the pair sums of the
    edges of [i_rel] to [this_betweenness[i_rel]] and leaves everything
    else alone. *)
Lemma newman_row_spec (i_rel : nat) (tb : list Q) (q0 : Q) :
  i_rel < end_i - start_i -> length tb = end_i - start_i ->
  tb !! i_rel = Some q0 ->
  exists tb' q,
    for_range 0 N (fun j mem =>
      a <- mget (nm_this_A mem) i_rel j ;;
      if truthy a then
        sum_j <- newman_sum_j (nm_V mem) N (i_rel + start_i) j ;;
        old <- aget (nm_this_betweenness mem) i_rel ;;
        tb <- aset (nm_this_betweenness mem) i_rel (old + sum_j)%Q ;;
        Ok (NewmanMem (nm_this_A mem) (nm_V mem) tb)
      else Ok mem) (NewmanMem this_A V tb)
    = Ok (NewmanMem this_A V tb') /\
    length tb' = end_i - start_i /\
    (forall i', i' <> i_rel -> tb' !! i' = tb !! i') /\
    tb' !! i_rel = Some q /\
    (q == q0 + sumQ_range 0 N (fun j =>
            if is_edge this_A i_rel j then pair_sum (i_rel + start_i) j
            else 0))%Q.
Proof.
  intros Hi Hlen Hq0.
  destruct (for_range_total
    (fun j mem =>
       nm_this_A mem = this_A /\ nm_V mem = V /\
       length (nm_this_betweenness mem) = end_i - start_i /\
       (forall i', i' <> i_rel -> nm_this_betweenness mem !! i' = tb !! i') /\
       exists q, nm_this_betweenness mem !! i_rel = Some q /\
         (q == q0 + sumQ_range 0 j (fun j =>
                 if is_edge this_A i_rel j then pair_sum (i_rel + start_i) j
                 else 0))%Q)
    0 N
    (fun j mem =>
      a <- mget (nm_this_A mem) i_rel j ;;
      if truthy a then
        sum_j <- newman_sum_j (nm_V mem) N (i_rel + start_i) j ;;
        old <- aget (nm_this_betweenness mem) i_rel ;;
        tb <- aset (nm_this_betweenness mem) i_rel (old + sum_j)%Q ;;
        Ok (NewmanMem (nm_this_A mem) (nm_V mem) tb)
      else Ok mem) (NewmanMem this_A V tb))
    as ([A' V' tb'] & Hrun & HA & HV & Hlen' & Hframe & q & Hq & Heq);
    [lia | | |].
  - cbn [nm_this_A nm_V nm_this_betweenness]. repeat split; try done. exists q0. split; [done|].
    rewrite ?sumQ_range_empty by lia. ring.
  - intros j [A' V' tb'] Hj (HA & HV & Hlen' & Hframe & q & Hq & Heq).
    cbn [nm_this_A nm_V nm_this_betweenness] in HA, HV, Hlen', Hframe, Hq. subst A' V'. cbn [nm_this_A nm_V
      nm_this_betweenness].
    rewrite this_A_entry_Ok by lia. cbn [bind]. rewrite this_A_truthy.
    destruct (is_edge this_A i_rel j) eqn:He.
    + destruct (newman_sum_j_spec (i_rel + start_i) j) as (r & -> & Hr);
        [lia | lia |].
      cbn [bind]. rewrite (proj2 (aget_Ok _ _ _) Hq). cbn [bind].
      rewrite aset_lt by lia. cbn [bind]. eexists. split; [done|].
      cbn [nm_this_A nm_V nm_this_betweenness]. rewrite length_insert. repeat split; try done.
      * intros i' Hne. rewrite list_lookup_insert_ne by done. by apply Hframe.
      * eexists. split; [apply list_lookup_insert_eq; lia|].
        rewrite sumQ_range_snoc by lia. rewrite He, Heq, Hr. ring.
    + eexists. split; [done|]. cbn [nm_this_A nm_V nm_this_betweenness]. repeat split; try done.
      exists q. split; [done|].
      rewrite sumQ_range_snoc by lia. rewrite He, Heq. ring.
  - cbn [nm_this_A nm_V nm_this_betweenness] in HA, HV, Hlen', Hframe, Hq. subst A' V'.
    exists tb', q. done.
Qed.

Lemma mpi_newman_betweenness_correct :
  exists tb,
    _mpi_newman_betweenness this_A V N start_i end_i
    = Ok (NewmanMem this_A V tb, (tb, start_i, end_i)) /\
    length tb = end_i - start_i /\
    forall i, start_i <= i < end_i ->
      exists q, tb !! (i - start_i) = Some q /\
                (q == newman_betweenness_of this_A V N start_i i)%Q.
Proof.
  unfold _mpi_newman_betweenness.
  rewrite (proj2 (Nat.ltb_ge end_i start_i)) by lia. cbv zeta.
  destruct (for_range_total
    (fun i_rel mem =>
       nm_this_A mem = this_A /\ nm_V mem = V /\
       length (nm_this_betweenness mem) = end_i - start_i /\
       (forall i', i' < i_rel ->
          exists q, nm_this_betweenness mem !! i' = Some q /\
            (q == newman_betweenness_of this_A V N start_i (i' + start_i))%Q) /\
       (forall i', i_rel <= i' < end_i - start_i ->
          nm_this_betweenness mem !! i' = Some 0%Q))
    0 (end_i - start_i)
    (fun i_rel mem =>
      for_range 0 N (fun j mem =>
        a <- mget (nm_this_A mem) i_rel j ;;
        if truthy a then
          sum_j <- newman_sum_j (nm_V mem) N (i_rel + start_i) j ;;
          old <- aget (nm_this_betweenness mem) i_rel ;;
          tb <- aset (nm_this_betweenness mem) i_rel (old + sum_j)%Q ;;
          Ok (NewmanMem (nm_this_A mem) (nm_V mem) tb)
        else Ok mem) mem)
    (NewmanMem this_A V (replicate (end_i - start_i) 0%Q)))
    as ([A' V' tb] & Hrun & HA & HV & Hlen & Hdone & _); [lia | | |].
  - cbn [nm_this_A nm_V nm_this_betweenness]. rewrite length_replicate. repeat split; try done; [lia|].
    intros i' Hi'. apply lookup_replicate_2. lia.
  - intros i_rel [A' V' tb] Hi (HA & HV & Hlen & Hdone & Hrest).
    cbn [nm_this_A nm_V nm_this_betweenness] in HA, HV, Hlen, Hdone, Hrest. subst A' V'.
    destruct (newman_row_spec i_rel tb 0%Q)
      as (tb' & q & -> & Hlen' & Hframe & Hq & Heq);
      [lia | done | apply Hrest; lia |].
    eexists. split; [done|]. cbn [nm_this_A nm_V nm_this_betweenness]. repeat split; try done.
    + intros i' Hi'. destruct (decide (i' = i_rel)) as [->|Hne].
      * exists q. split; [done|]. rewrite Heq, Qplus_0_l.
        unfold newman_betweenness_of.
        replace (i_rel + start_i - start_i) with i_rel by lia. reflexivity.
      * rewrite (Hframe i' Hne). apply Hdone. lia.
    + intros i' Hi'. rewrite Hframe by lia. apply Hrest. lia.
  - cbn [nm_this_A nm_V nm_this_betweenness] in HA, HV, Hlen, Hdone. subst A' V'. rewrite Hrun. cbn [bind nm_this_betweenness].
    exists tb. split; [done|]. split; [done|]. intros i Hi.
    destruct (Hdone (i - start_i)) as (q & Hq & Heq); [lia|].
    exists q. split; [done|].
    by replace (i - start_i + start_i) with i in Heq by lia.
Qed.

End Newman.

(** C8. [_mpi_newman_betweenness(this_A, V, N, start_i, end_i)] returns a
    vector of length [end_i - start_i] whose entry for each node [i] of
    [start_i <= i < end_i] is the sum, over all [j] with
    [this_A[i - start_i, j] == 1] and all pairs [(s, t)] with [t < s],
    [s != i], [t != i], of [|V[i,s] - V[j,s] - V[i,t] + V[j,t]|], together
    with [start_i] and [end_i]; it leaves [this_A] and [V] as they were. *)
Theorem mpi_newman_betweenness_spec (this_A : matrix Z) (V : matrix Q)
  (N start_i end_i : nat) :
  start_i <= end_i -> end_i <= N ->
  dims (end_i - start_i) N this_A -> binary this_A -> dims N N V ->
  exists mem this_betweenness,
    _mpi_newman_betweenness this_A V N start_i end_i
    = Ok (mem, (this_betweenness, start_i, end_i)) /\
    length this_betweenness = end_i - start_i /\
    (forall i, start_i <= i < end_i ->
       exists q, this_betweenness !! (i - start_i) = Some q /\
                 (q == newman_betweenness_of this_A V N start_i i)%Q) /\
    nm_this_A mem = this_A /\ nm_V mem = V.
Proof.
  intros H1 H2 H3 H4 H5.
  destruct (mpi_newman_betweenness_correct this_A V N start_i end_i
              H1 H2 H3 H4 H5) as (tb & Hrun & Hlen & Hval).
  exists (NewmanMem this_A V tb), tb. done.
Qed.

Lemma mpi_newman_betweenness_spec_witness :
  let this_A := [[0; 1; 0]; [1; 0; 1]; [0; 1; 0]]%Z in
  let V := [[1; 0; 0]; [0; 1 # 2; 0]; [0; 0; 1]]%Q in
  exists mem this_betweenness,
    _mpi_newman_betweenness this_A V 3 0 3
    = Ok (mem, (this_betweenness, 0, 3)) /\
    length this_betweenness = 3 - 0 /\
    (forall i, 0 <= i < 3 ->
       exists q, this_betweenness !! (i - 0) = Some q /\
                 (q == newman_betweenness_of this_A V 3 0 i)%Q) /\
    nm_this_A mem = this_A /\ nm_V mem = V.
Proof.
  apply mpi_newman_betweenness_spec.
  - lia.
  - lia.
  - split; [reflexivity | repeat constructor].
  - intros i j v. do 4 (try destruct i as [|i]); do 4 (try destruct j as [|j]);
      intros [= <-] || discriminate; auto.
  - split; [reflexivity | repeat constructor].
Defined.

(** * The forward phase of [_nsi_betweenness] *)

Section BreadthFirstSearch.

Variables (N : nat) (w : list Q) (k : list Z) (j : nat).
Variables (offsets flat_neighbors : list nat) (is_source : list Z).

(** [l] is listed among the neighbours of [i] in the flattened neighbour
    structure. *)
Definition csr_edge (i l : nat) : Prop :=
  exists oi ki idx,
    offsets !! i = Some oi /\ k !! i = Some ki /\
    oi <= idx < oi + Z.to_nat ki /\ flat_neighbors !! idx = Some l.

(** The nodes that can be reached from the source [j]. *)
Inductive reachable : nat -> Prop :=
| reachable_source : reachable j
| reachable_step (i l : nat) : reachable i -> csr_edge i l -> reachable l.

Definition dist_of (dist : list nat) (v : nat) : nat := default 0 (dist !! v).
Definition node_at (queue : list nat) (p : nat) : nat := default 0 (queue !! p).

(** The recorded distance of the node at position [p] of the queue. *)
Definition depth (dist queue : list nat) (p : nat) : nat :=
  dist_of dist (node_at queue p).

(** The invariant of the search, on the distances, the queue and its
    length. *)
Definition bfs_inv (dist queue : list nat) (qlen : nat) : Prop :=
  length dist = N /\ length queue = N /\ qlen <= N /\
  NoDup (take qlen queue) /\
  (forall v, v ∈ take qlen queue -> v < N /\ reachable v) /\
  (forall v, v < N -> v ∉ take qlen queue -> dist !! v = Some (2 * N)) /\
  (forall p q, p <= q -> q < qlen -> depth dist queue p <= depth dist queue q) /\
  (forall p, p < qlen -> depth dist queue p <= p).

(** No queued node is further than [bound] from the source. *)
Definition bfs_span (dist queue : list nat) (qlen bound : nat) : Prop :=
  forall q, q < qlen -> depth dist queue q <= bound.

Lemma node_at_queued (queue : list nat) (qlen p : nat) :
  p < qlen -> qlen <= length queue ->
  queue !! p = Some (node_at queue p) /\ node_at queue p ∈ take qlen queue.
Proof.
  intros Hp Hq. destruct (lookup_lt_is_Some_2 queue p) as [v Hv]; [lia|].
  unfold node_at. rewrite Hv. simpl. split; [done|].
  apply list_elem_of_lookup. exists p. by rewrite lookup_take_lt.
Qed.

Lemma queued_position (queue : list nat) (qlen v : nat) :
  v ∈ take qlen queue -> exists p, p < qlen /\ queue !! p = Some v.
Proof.
  intros (p & Hp)%list_elem_of_lookup.
  apply lookup_take_Some in Hp as [Hp Hlt]. eauto.
Qed.

Lemma take_snoc_insert (queue : list nat) (qlen l : nat) :
  qlen < length queue ->
  take (qlen + 1) (<[qlen := l]> queue) = take qlen queue ++ [l].
Proof.
  intros H. rewrite Nat.add_1_r.
  rewrite (take_S_r _ _ l) by (by apply list_lookup_insert_eq).
  by rewrite take_insert_ge by lia.
Qed.

(** Discovering a new node [l] at distance [next_d] keeps the invariant. *)
Lemma enqueue_inv (dist queue : list nat) (qlen qi next_d l : nat) :
  bfs_inv dist queue qlen -> bfs_span dist queue qlen next_d ->
  qi < qlen -> next_d = depth dist queue qi + 1 ->
  l < N -> l ∉ take qlen queue -> qlen < N -> reachable l ->
  bfs_inv (<[l := next_d]> dist) (<[qlen := l]> queue) (qlen + 1) /\
  bfs_span (<[l := next_d]> dist) (<[qlen := l]> queue) (qlen + 1) next_d /\
  depth (<[l := next_d]> dist) (<[qlen := l]> queue) qi = depth dist queue qi /\
  node_at (<[qlen := l]> queue) qi = node_at queue qi.
Proof.
  intros (Hdl & Hql & Hle & Hnd & Hrange & Hundisc & Hsorted & Hpos)
    Hspan Hqi Hnext Hl Hfresh Hroom Hreach.
  assert (forall p, p < qlen ->
            node_at (<[qlen := l]> queue) p = node_at queue p) as Hnode.
  { intros p Hp. unfold node_at. by rewrite list_lookup_insert_ne by lia. }
  assert (node_at (<[qlen := l]> queue) qlen = l) as Hnew.
  { unfold node_at. by rewrite list_lookup_insert_eq by lia. }
  assert (forall p, p < qlen ->
            depth (<[l := next_d]> dist) (<[qlen := l]> queue) p
            = depth dist queue p) as Hdepth.
  { intros p Hp. unfold depth. rewrite Hnode by done. unfold dist_of.
    rewrite list_lookup_insert_ne; [done|].
    intros Heq. apply Hfresh. rewrite Heq. apply node_at_queued; lia. }
  assert (depth (<[l := next_d]> dist) (<[qlen := l]> queue) qlen = next_d)
    as Hdnew.
  { unfold depth, dist_of. rewrite Hnew.
    by rewrite list_lookup_insert_eq by lia. }
  split; [|split; [|split]].
  - unfold bfs_inv. rewrite take_snoc_insert by lia.
    split; [by rewrite length_insert|]. split; [by rewrite length_insert|].
    split; [lia|]. split; [|split; [|split; [|split]]].
    + apply NoDup_app. split; [done|]. split; [|apply NoDup_singleton].
      intros v Hv ->%list_elem_of_singleton. done.
    + intros v [Hv | ->%list_elem_of_singleton]%elem_of_app; [by apply Hrange|done].
    + intros v Hv Hnot. rewrite list_lookup_insert_ne.
      * apply Hundisc; [done|]. intros Hin. apply Hnot, elem_of_app. by left.
      * intros <-. apply Hnot, elem_of_app. right. by apply list_elem_of_singleton.
    + intros p q Hpq Hq. destruct (decide (q = qlen)) as [->|Hne].
      * rewrite Hdnew. destruct (decide (p = qlen)) as [->|Hnp].
        -- by rewrite Hdnew.
        -- rewrite Hdepth by lia. apply Hspan. lia.
      * rewrite !Hdepth by lia. apply Hsorted; lia.
    + intros p Hp. destruct (decide (p = qlen)) as [->|Hne].
      * rewrite Hdnew. specialize (Hpos qi Hqi). lia.
      * rewrite Hdepth by lia. apply Hpos. lia.
  - intros q Hq. destruct (decide (q = qlen)) as [->|Hne].
    + by rewrite Hdnew.
    + rewrite Hdepth by lia. apply Hspan. lia.
  - by apply Hdepth.
  - by apply Hnode.
Qed.

Definition state_inv (st : bfs_state) : Prop :=
  bfs_inv (distances_to_j st) (queue st) (queue_len st).

Definition state_span (st : bfs_state) (bound : nat) : Prop :=
  bfs_span (distances_to_j st) (queue st) (queue_len st) bound.

Definition state_depth (st : bfs_state) (p : nat) : nat :=
  depth (distances_to_j st) (queue st) p.

(** What one pass over a neighbour keeps, for the node [i] at position [qi]
    of the queue. *)
Definition visit_inv (qi i next_d : nat) (st : bfs_state) : Prop :=
  state_inv st /\ state_span st next_d /\ qi < queue_len st /\
  node_at (queue st) qi = i /\ next_d = state_depth st qi + 1.

Lemma relax_neighbor_inv (qi i next_d l_index : nat) (st st' : bfs_state) :
  visit_inv qi i next_d st -> reachable i ->
  (exists oi ki, offsets !! i = Some oi /\ k !! i = Some ki /\
                 oi <= l_index < oi + Z.to_nat ki) ->
  relax_neighbor w offsets flat_neighbors i next_d l_index st = Ok st' ->
  visit_inv qi i next_d st' /\ queue_len st <= queue_len st'.
Proof.
  intros Hvisit Hreach (oi & ki & Hoi & Hki & Hidx).
  pose proof Hvisit as (Hinv & Hspan & Hqi & Hnode & Hnext).
  unfold relax_neighbor.
  intros (l & Hl%aget_Ok & H)%bind_Ok.
  apply bind_Ok in H as (dl & Hdl%aget_Ok & H).
  destruct (next_d <=? dl) eqn:Hge;
    [|injection H as <-; split; [done | lia]].
  apply bind_Ok in H as (ol & _ & H). apply bind_Ok in H as (np & _ & H).
  apply bind_Ok in H as (n_pred & _ & H).
  apply bind_Ok in H as (flat_pred & _ & H).
  apply bind_Ok in H as (ml & _ & H). apply bind_Ok in H as (wl & _ & H).
  apply bind_Ok in H as (mi & _ & H). apply bind_Ok in H as (mult & _ & H).
  destruct (next_d <? dl) eqn:Hgt;
    [|injection H as <-; split; [done | cbn; lia]].
  apply bind_Ok in H as (dist & [Hl_lt ->]%aset_Ok & H).
  apply bind_Ok in H as (q & [Hroom ->]%aset_Ok & [= <-]).
  apply Nat.ltb_lt in Hgt.
  pose proof Hinv as (Hdlen & Hqlen & Hle & _).
  assert (l ∉ take (queue_len st) (queue st)) as Hfresh.
  { intros (p & Hp & Hqp)%queued_position.
    specialize (Hspan p Hp). unfold depth, node_at, dist_of in Hspan.
    rewrite Hqp in Hspan. simpl in Hspan. rewrite Hdl in Hspan.
    simpl in Hspan. lia. }
  destruct (enqueue_inv (distances_to_j st) (queue st) (queue_len st) qi
              next_d l) as (Hinv' & Hspan' & Hdepth' & Hnode');
    try done; try lia.
  { apply (reachable_step i l Hreach). exists oi, ki, l_index. done. }
  unfold visit_inv, state_inv, state_span, state_depth in *.
  cbn [distances_to_j queue queue_len].
  rewrite Hdepth', Hnode'.
  split; [|lia]. split; [exact Hinv'|]. split; [exact Hspan'|].
  split; [lia|]. split; [done | lia].
Qed.

Lemma visit_keeps_inv (qi : nat) (st st' : bfs_state) :
  state_inv st -> qi < queue_len st ->
  state_span st (state_depth st qi + 1) ->
  visit w k offsets flat_neighbors qi st = Ok st' ->
  state_inv st' /\ state_span st' (state_depth st qi + 1) /\
  queue_len st <= queue_len st' /\
  state_depth st' qi = state_depth st qi.
Proof.
  intros Hinv Hqi Hspan. unfold visit.
  intros (i & Hi%aget_Ok & H)%bind_Ok.
  apply bind_Ok in H as (di & Hdi%aget_Ok & H).
  apply bind_Ok in H as (oi & Hoi%aget_Ok & H).
  apply bind_Ok in H as (ki & Hki%aget_Ok & H).
  assert (node_at (queue st) qi = i) as Hnode
    by (unfold node_at; by rewrite Hi).
  assert (state_depth st qi = di) as Hdepth.
  { unfold state_depth, depth, dist_of. by rewrite Hnode, Hdi. }
  rewrite Hdepth in *.
  assert (reachable i) as Hreach.
  { destruct Hinv as (_ & Hql & Hle & _ & Hrange & _).
    apply Hrange. rewrite <- Hnode. apply node_at_queued; lia. }
  pose proof (for_range_partial
    (fun _ s => visit_inv qi i (di + 1) s /\ queue_len st <= queue_len s)
    oi (oi + Z.to_nat ki)
    (relax_neighbor w offsets flat_neighbors i (di + 1)) st st') as Hloop.
  destruct Hloop as ((Hinv' & Hspan' & _ & _ & Hd') & Hlen'); [lia | | | done |].
  - split; [|lia]. unfold visit_inv. rewrite Hdepth.
    split; [exact Hinv|]. split; [exact Hspan|]. by split.
  - intros x s s' Hx [Hs Hlen] Hrun.
    destruct (relax_neighbor_inv qi i (di + 1) x s s' Hs Hreach) as [? ?];
      [by exists oi, ki | done |].
    split; [done | lia].
  - split; [exact Hinv'|]. split; [exact Hspan'|]. split; [exact Hlen'|]. lia.
Qed.

Lemma forward_loop_inv (fuel qi : nat) (st st' : bfs_state) :
  state_inv st -> qi <= queue_len st ->
  (qi < queue_len st -> state_span st (state_depth st qi + 1)) ->
  forward_loop w k offsets flat_neighbors fuel qi st = Ok st' ->
  state_inv st'.
Proof.
  revert qi st. induction fuel as [|fuel IH]; intros qi st Hinv Hqi Hspan; simpl.
  - destruct (qi <? queue_len st); [discriminate | by intros [= <-]].
  - destruct (qi <? queue_len st) eqn:Hlt; [|by intros [= <-]].
    apply Nat.ltb_lt in Hlt.
    intros (st1 & Hvisit & Hrest)%bind_Ok.
    destruct (visit_keeps_inv qi st st1 Hinv Hlt (Hspan Hlt) Hvisit)
      as (Hinv1 & Hspan1 & Hlen1 & Hdepth1).
    apply (IH (S qi) st1); [done | lia | | done].
    intros Hnext q Hq. specialize (Hspan1 q Hq).
    destruct Hinv1 as (_ & _ & _ & _ & _ & _ & Hsorted & _).
    specialize (Hsorted qi (S qi) ltac:(lia) Hnext).
    unfold state_depth in *. lia.
Qed.

Lemma forward_init_inv (betweenness excess : list Q) (flat_pred : list nat)
  (st : bfs_state) :
  forward_init N w j is_source betweenness excess flat_pred = Ok st ->
  state_inv st /\ queue_len st = 1 /\ state_span st (state_depth st 0 + 1).
Proof.
  unfold forward_init.
  intros ([b e] & _ & H)%bind_Ok.
  apply bind_Ok in H as (dist & [Hj ->]%aset_Ok & H).
  apply bind_Ok in H as (q & [H0 ->]%aset_Ok & H).
  apply bind_Ok in H as (wj & _ & H).
  apply bind_Ok in H as (mult & _ & [= <-]).
  rewrite length_replicate in Hj, H0.
  unfold state_inv, state_span, state_depth, bfs_inv, bfs_span.
  cbn [distances_to_j queue queue_len].
  assert (take 1 (<[0:=j]> (replicate N 0)) = [j]) as Htake.
  { destruct N as [|n]; [lia|]. done. }
  assert (depth (<[j:=0]> (replicate N (2 * N))) (<[0:=j]> (replicate N 0)) 0
          = 0) as Hdepth.
  { unfold depth, node_at, dist_of.
    rewrite list_lookup_insert_eq by (rewrite length_replicate; lia). simpl.
    by rewrite list_lookup_insert_eq by (rewrite length_replicate; lia). }
  rewrite Htake, !length_insert, !length_replicate.
  split; [|split; [done|]].
  - split; [done|]. split; [done|]. split; [lia|].
    split; [apply NoDup_singleton|]. split; [|split; [|split]].
    + intros v ->%list_elem_of_singleton. split; [done | constructor].
    + intros v Hv Hnot. rewrite list_lookup_insert_ne.
      * by apply lookup_replicate_2.
      * intros ->. apply Hnot. by apply list_elem_of_singleton.
    + intros p q0 Hpq Hq. replace q0 with 0 by lia. by replace p with 0 by lia.
    + intros p Hp. replace p with 0 by lia.
      change (N + (N + 0)) with (2 * N). by rewrite Hdepth.
  - intros q0 Hq. replace q0 with 0 by lia. lia.
Qed.

(** The forward phase, when it returns, has kept the invariant. *)
Lemma nsi_betweenness_forward_inv (betweenness excess : list Q)
  (flat_pred : list nat) (st : bfs_state) :
  nsi_betweenness_forward N w k j offsets flat_neighbors is_source
    betweenness excess flat_pred = Ok st ->
  state_inv st.
Proof.
  unfold nsi_betweenness_forward.
  intros (st0 & Hinit & Hloop)%bind_Ok.
  destruct (forward_init_inv betweenness excess flat_pred st0 Hinit)
    as (Hinv & Hlen & Hspan).
  apply (forward_loop_inv N 0 st0 st); [done | lia | done | done].
Qed.

(** The passes of the loop raise nothing but [IndexError]. *)
Lemma aget_Raise {T : Type} (a : list T) (i : nat) (e : exn) :
  aget a i = Raise e -> e = IndexError.
Proof. unfold aget. destruct (a !! i); congruence. Qed.

Lemma aset_Raise {T : Type} (a : list T) (i : nat) (v : T) (e : exn) :
  aset a i v = Raise e -> e = IndexError.
Proof. unfold aset. destruct (decide (i < length a)); congruence. Qed.

Lemma bind_Raise {T U : Type} (m : result T) (f : T -> result U) (e : exn) :
  bind m f = Raise e ->
  m = Raise e \/ exists v, m = Ok v /\ f v = Raise e.
Proof. destruct m as [v|e']; simpl; [eauto | intros [= ->]; auto]. Qed.

Lemma for_each_Raise {St I : Type} (P : exn -> Prop) (xs : list I)
  (body : I -> St -> result St) (s : St) (e : exn) :
  (forall x s e, body x s = Raise e -> P e) ->
  for_each xs body s = Raise e -> P e.
Proof.
  intros Hbody. revert s. induction xs as [|x xs IH]; intros s; simpl.
  - discriminate.
  - intros [H | (s' & _ & H)]%bind_Raise; [by eapply Hbody | by eapply IH].
Qed.

Lemma relax_neighbor_Raise (i next_d l_index : nat) (st : bfs_state) (e : exn) :
  relax_neighbor w offsets flat_neighbors i next_d l_index st = Raise e ->
  e = IndexError.
Proof.
  unfold relax_neighbor. intros H.
  repeat match type of H with
  | bind _ _ = Raise _ =>
      apply bind_Raise in H as [H | (? & _ & H)];
      [(apply aget_Raise in H || apply aset_Raise in H); exact H|]
  | (if ?c then _ else _) = Raise _ => destruct c
  end; discriminate.
Qed.

Lemma visit_Raise (qi : nat) (st : bfs_state) (e : exn) :
  visit w k offsets flat_neighbors qi st = Raise e -> e = IndexError.
Proof.
  unfold visit. intros H.
  repeat match type of H with
  | bind _ _ = Raise _ =>
      apply bind_Raise in H as [H | (? & _ & H)];
      [(apply aget_Raise in H || apply aset_Raise in H); exact H|]
  end.
  apply (for_each_Raise (fun e => e = IndexError)) in H; [done|].
  intros l_index s e'. apply relax_neighbor_Raise.
Qed.

Lemma forward_init_Raise (betweenness excess : list Q) (flat_pred : list nat)
  (e : exn) :
  forward_init N w j is_source betweenness excess flat_pred = Raise e ->
  e = IndexError.
Proof.
  unfold forward_init. intros H.
  apply bind_Raise in H as [H | ([b0 e0] & _ & H)].
  - apply (for_each_Raise (fun e => e = IndexError)) in H; [done|].
    intros l [b1 e1] e' H'.
    repeat match type of H' with
    | bind _ _ = Raise _ =>
        apply bind_Raise in H' as [H' | (? & _ & H')];
        [(apply aget_Raise in H' || apply aset_Raise in H'); exact H'|]
    end; discriminate.
  - repeat match type of H with
    | bind _ _ = Raise _ =>
        apply bind_Raise in H as [H | (? & _ & H)];
        [(apply aget_Raise in H || apply aset_Raise in H); exact H|]
    end; discriminate.
Qed.

(** The queue holds at most [N] nodes, so [N] passes are enough. *)
Lemma forward_loop_fuel (fuel qi : nat) (st : bfs_state) :
  state_inv st -> qi <= queue_len st ->
  (qi < queue_len st -> state_span st (state_depth st qi + 1)) ->
  N <= fuel + qi ->
  forward_loop w k offsets flat_neighbors fuel qi st <> Raise OutOfFuel.
Proof.
  revert qi st. induction fuel as [|fuel IH];
    intros qi st Hinv Hqi Hspan Hfuel; simpl.
  - destruct (qi <? queue_len st) eqn:Hlt; [|done].
    apply Nat.ltb_lt in Hlt. destruct Hinv as (_ & _ & Hle & _). lia.
  - destruct (qi <? queue_len st) eqn:Hlt; [|done].
    apply Nat.ltb_lt in Hlt.
    destruct (visit w k offsets flat_neighbors qi st) as [st1|e] eqn:Hvisit;
      simpl.
    + destruct (visit_keeps_inv qi st st1 Hinv Hlt (Hspan Hlt) Hvisit)
        as (Hinv1 & Hspan1 & Hlen1 & Hdepth1).
      apply IH; [done | lia | | lia].
      intros Hnext q Hq. specialize (Hspan1 q Hq).
      destruct Hinv1 as (_ & _ & _ & _ & _ & _ & Hsorted & _).
      specialize (Hsorted qi (S qi) ltac:(lia) Hnext).
      unfold state_depth in *. lia.
    + apply visit_Raise in Hvisit as ->. done.
Qed.

End BreadthFirstSearch.

(** ** The forward phase returns on a well-formed neighbour structure *)

Section SearchReturns.

Variables (N : nat) (w : list Q) (k : list Z) (j : nat).
Variables (offsets flat_neighbors : list nat) (is_source : list Z).

(** The positions of [flat_neighbors] that hold the neighbours of [i]. *)
Definition block (i : nat) : list nat :=
  seq (default 0 (offsets !! i)) (Z.to_nat (default 0%Z (k !! i))).

(** How often [l] is listed as a neighbour at the positions [slots]. *)
Definition hits (l : nat) (slots : list nat) : nat :=
  length (filter (fun idx => flat_neighbors !! idx = Some l) slots).

(** The flattened neighbour structure of a graph on [N] nodes: the blocks
    of different nodes do not overlap, they hold nodes, and no node is
    listed as a neighbour more often than it has neighbours itself (in a
    symmetric graph, exactly as often). *)
Definition neighbor_structure : Prop :=
  length k = N /\ length offsets = N /\
  (forall i idx, i < N -> idx ∈ block i ->
     exists l, flat_neighbors !! idx = Some l /\ l < N) /\
  (forall i i' idx, i < N -> i' < N ->
     idx ∈ block i -> idx ∈ block i' -> i = i') /\
  (forall l, l < N ->
     hits l (seq 0 (length flat_neighbors)) <= length (block l)).

(** The buffers of the caller have the sizes the kernel relies on. *)
Definition buffers_sized (betweenness excess : list Q) (flat_pred : list nat)
  : Prop :=
  j < N /\ length w = N /\ length is_source = N /\
  length betweenness = N /\ length excess = N /\
  forall l, l < N ->
    default 0 (offsets !! l) + length (block l) <= length flat_pred.

(** The part of the state that the search does not depend on, after the
    neighbour positions [slots] have been passed. *)
Definition aux_inv (flat_pred_len : nat) (slots : list nat) (st : bfs_state)
  : Prop :=
  length (n_predecessors st) = N /\
  length (multiplicity_to_j st) = N /\
  length (flat_predecessors st) = flat_pred_len /\
  forall l c, n_predecessors st !! l = Some c -> c <= hits l slots.

Lemma hits_app (l : nat) (s1 s2 : list nat) :
  hits l (s1 ++ s2) = hits l s1 + hits l s2.
Proof. unfold hits. by rewrite filter_app, length_app. Qed.

Lemma hits_singleton (l idx : nat) :
  flat_neighbors !! idx = Some l -> hits l [idx] = 1.
Proof.
  intros H. unfold hits. rewrite filter_cons, filter_nil.
  by rewrite decide_True.
Qed.

Lemma hits_bound (l : nat) (slots : list nat) :
  NoDup slots -> (forall idx, idx ∈ slots -> idx < length flat_neighbors) ->
  hits l slots <= hits l (seq 0 (length flat_neighbors)).
Proof.
  intros Hnd Hlt. unfold hits. apply submseteq_length, NoDup_submseteq.
  - by apply NoDup_filter.
  - intros idx [Hl Hin]%list_elem_of_filter. apply list_elem_of_filter.
    split; [done|]. apply elem_of_seq. specialize (Hlt idx Hin). lia.
Qed.

Lemma NoDup_length_lt (l : list nat) (n : nat) :
  NoDup l -> (forall x, x ∈ l -> x < n) -> length l <= n.
Proof.
  intros Hnd Hlt. transitivity (length (seq 0 n)); [|by rewrite length_seq].
  apply submseteq_length, NoDup_submseteq; [done|].
  intros x Hx. apply elem_of_seq. specialize (Hlt x Hx). lia.
Qed.

Variable flat_pred_len : nat.
Hypothesis structure : neighbor_structure.
Hypothesis w_length : length w = N.
Hypothesis flat_pred_room :
  forall l, l < N ->
    default 0 (offsets !! l) + length (block l) <= flat_pred_len.

Lemma aux_inv_more (slots more : list nat) (st : bfs_state) :
  aux_inv flat_pred_len slots st -> aux_inv flat_pred_len (slots ++ more) st.
Proof.
  intros (H1 & H2 & H3 & H4). repeat split; try done.
  intros l c Hc. specialize (H4 l c Hc). rewrite hits_app. lia.
Qed.

Lemma relax_neighbor_total (slots : list nat) (qi i next_d x : nat)
  (st : bfs_state) :
  visit_inv N k j offsets flat_neighbors qi i next_d st -> i < N ->
  aux_inv flat_pred_len slots st ->
  NoDup slots -> (forall idx, idx ∈ slots -> idx < length flat_neighbors) ->
  x ∉ slots -> x ∈ block i ->
  exists st',
    relax_neighbor w offsets flat_neighbors i next_d x st = Ok st' /\
    aux_inv flat_pred_len (slots ++ [x]) st' /\
    take (queue_len st) (queue st') = take (queue_len st) (queue st).
Proof.
  intros (Hinv & Hspan & Hqi & Hnode & Hnext) Hi Haux Hnd Hslots Hx Hblock.
  pose proof Haux as (Hnp & Hmult & Hfp & Hhits).
  destruct structure as (Hk & Hoff & Hnodes & Hdisj & Hindeg).
  destruct Hinv as (Hdl & Hql & Hle & Hndq & Hrange & Hundisc & Hsorted & Hpos).
  destruct (Hnodes i x Hi Hblock) as (l & Hl & Hl_lt).
  unfold relax_neighbor. rewrite (proj2 (aget_Ok _ _ _) Hl). cbn [bind].
  destruct (aget_lt (distances_to_j st) l) as (dl & -> & Hdl'); [lia|].
  cbn [bind].
  destruct (next_d <=? dl) eqn:Hge.
  2:{ exists st. split; [done|]. split; [by apply aux_inv_more | done]. }
  destruct (aget_lt offsets l) as (ol & -> & Hol); [lia|]. cbn [bind].
  destruct (aget_lt (n_predecessors st) l) as (np & -> & Hnp'); [lia|].
  cbn [bind]. rewrite aset_lt by lia. cbn [bind].
  assert (x < length flat_neighbors) as Hx_lt by (by eapply lookup_lt_Some).
  assert (np + 1 <= length (block l)) as Hroom.
  { specialize (Hhits l np Hnp'). specialize (Hindeg l Hl_lt).
    pose proof (hits_bound l (slots ++ [x])) as Hb.
    rewrite hits_app, (hits_singleton l x Hl) in Hb.
    assert (hits l slots + 1 <= hits l (seq 0 (length flat_neighbors)));
      [apply Hb | lia].
    - apply NoDup_app. split; [done|]. split; [|apply NoDup_singleton].
      intros y Hy ->%list_elem_of_singleton. done.
    - intros idx [Hin | ->%list_elem_of_singleton]%elem_of_app; auto. }
  rewrite aset_lt.
  2:{ specialize (flat_pred_room l Hl_lt). rewrite Hol in flat_pred_room.
      simpl in flat_pred_room. lia. }
  cbn [bind].
  destruct (aget_lt (multiplicity_to_j st) l) as (ml & -> & _); [lia|].
  destruct (aget_lt w l) as (wl & -> & _); [lia|].
  destruct (aget_lt (multiplicity_to_j st) i) as (mi & -> & _); [lia|].
  cbn [bind]. rewrite aset_lt by lia. cbn [bind].
  assert (forall l' c, <[l:=np + 1]> (n_predecessors st) !! l' = Some c ->
            c <= hits l' (slots ++ [x])) as Hhits'.
  { intros l' c Hc. rewrite hits_app.
    destruct (decide (l' = l)) as [->|Hne].
    - rewrite list_lookup_insert_eq in Hc by lia. injection Hc as <-.
      rewrite (hits_singleton l x Hl). specialize (Hhits l np Hnp'). lia.
    - rewrite list_lookup_insert_ne in Hc by done.
      specialize (Hhits l' c Hc). lia. }
  destruct (next_d <? dl) eqn:Hgt.
  - apply Nat.ltb_lt in Hgt. rewrite aset_lt by lia. cbn [bind].
    assert (l ∉ take (queue_len st) (queue st)) as Hfresh.
    { intros (p & Hp & Hqp)%queued_position.
      specialize (Hspan p Hp). unfold depth, node_at, dist_of in Hspan.
      rewrite Hqp in Hspan. simpl in Hspan. rewrite Hdl' in Hspan.
      simpl in Hspan. lia. }
    assert (queue_len st < N) as Hfree.
    { pose proof (NoDup_length_lt (l :: take (queue_len st) (queue st)) N)
        as Hpigeon.
      simpl in Hpigeon. rewrite length_take in Hpigeon.
      assert (S (queue_len st `min` length (queue st)) <= N); [|lia].
      apply Hpigeon.
      - by apply NoDup_cons.
      - intros y [-> | Hy]%elem_of_cons; [done | by apply Hrange]. }
    rewrite aset_lt by lia. cbn [bind]. eexists. split; [done|].
    split.
    + unfold aux_inv. cbn [n_predecessors multiplicity_to_j flat_predecessors].
      rewrite !length_insert. done.
    + cbn [queue]. by rewrite take_insert_ge.
  - eexists. split; [done|]. split; [|done].
    unfold aux_inv. cbn [n_predecessors multiplicity_to_j flat_predecessors].
    rewrite !length_insert. done.
Qed.

Lemma block_lt (i idx : nat) :
  i < N -> idx ∈ block i -> idx < length flat_neighbors.
Proof.
  intros Hi Hidx. destruct structure as (_ & _ & Hnodes & _).
  destruct (Hnodes i idx Hi Hidx) as (l & Hl & _). by eapply lookup_lt_Some.
Qed.

Lemma visit_total (slots : list nat) (qi : nat) (st : bfs_state) :
  state_inv N k j offsets flat_neighbors st -> qi < queue_len st ->
  state_span st (state_depth st qi + 1) ->
  aux_inv flat_pred_len slots st ->
  NoDup slots -> (forall idx, idx ∈ slots -> idx < length flat_neighbors) ->
  (forall idx, idx ∈ block (node_at (queue st) qi) -> idx ∉ slots) ->
  exists st',
    visit w k offsets flat_neighbors qi st = Ok st' /\
    aux_inv flat_pred_len (slots ++ block (node_at (queue st) qi)) st' /\
    take (queue_len st) (queue st') = take (queue_len st) (queue st).
Proof.
  intros Hinv Hqi Hspan Haux Hnd Hslots Hfresh.
  pose proof Hinv as (Hdl & Hql & Hle & Hndq & Hrange & _).
  destruct structure as (Hk & Hoff & _).
  set (i := node_at (queue st) qi) in *.
  destruct (node_at_queued (queue st) (queue_len st) qi) as [Hi Hin];
    [done | lia |].
  fold i in Hi, Hin. destruct (Hrange i Hin) as [Hi_lt Hreach].
  unfold visit. rewrite (proj2 (aget_Ok _ _ _) Hi). cbn [bind].
  destruct (aget_lt (distances_to_j st) i) as (di & -> & Hdi); [lia|].
  destruct (aget_lt offsets i) as (oi & -> & Hoi); [lia|].
  destruct (aget_lt k i) as (ki & -> & Hki); [lia|].
  cbn [bind].
  assert (block i = seq oi (Z.to_nat ki)) as Hblock
    by (unfold block; by rewrite Hoi, Hki).
  assert (state_depth st qi = di) as Hdepth.
  { unfold state_depth, depth, dist_of. fold i. by rewrite Hdi. }
  rewrite Hdepth in Hspan.
  destruct (for_range_total
    (fun x s =>
       visit_inv N k j offsets flat_neighbors qi i (di + 1) s /\
       aux_inv flat_pred_len (slots ++ seq oi (x - oi)) s /\
       take (queue_len st) (queue s) = take (queue_len st) (queue st) /\
       queue_len st <= queue_len s)
    oi (oi + Z.to_nat ki)
    (relax_neighbor w offsets flat_neighbors i (di + 1)) st)
    as (st' & Hrun & _ & Haux' & Hprefix & _); [lia | | |].
  - rewrite Nat.sub_diag. simpl. rewrite app_nil_r.
    split; [|split; [exact Haux | split; [done | lia]]].
    unfold visit_inv. rewrite Hdepth. split; [exact Hinv|].
    split; [exact Hspan|]. by split.
  - intros x s Hx (Hvisit & Haux_s & Hprefix & Hlen).
    assert (x ∈ block i) as Hx_block.
    { rewrite Hblock. apply elem_of_seq. lia. }
    destruct (relax_neighbor_total (slots ++ seq oi (x - oi)) qi i (di + 1) x s)
      as (s' & Hs' & Haux_s' & Hprefix'); try done.
    + apply NoDup_app. split; [done|]. split; [|apply NoDup_seq].
      intros idx Hidx Hseq%elem_of_seq. apply (Hfresh idx); [|done].
      rewrite Hblock. apply elem_of_seq. lia.
    + intros idx [Hidx | Hidx%elem_of_seq]%elem_of_app; [by apply Hslots|].
      apply (block_lt i); [done|]. rewrite Hblock. apply elem_of_seq. lia.
    + intros [Hidx | Hidx%elem_of_seq]%elem_of_app; [by apply (Hfresh x) | lia].
    + exists s'. split; [done|].
      destruct (relax_neighbor_inv N w k j offsets flat_neighbors qi i (di + 1)
                  x s s' Hvisit Hreach) as [Hvisit' Hlen'];
        [by exists oi, ki | done |].
      split; [done|]. split; [|split; [|lia]].
      * replace (S x - oi) with (S (x - oi)) by lia.
        rewrite seq_S, app_assoc. by replace (oi + (x - oi)) with x by lia.
      * rewrite <- Hprefix.
        assert (forall q : list nat,
                  take (queue_len st) q
                  = take (queue_len st) (take (queue_len s) q)) as Htt.
        { intros q. rewrite take_take. f_equal. lia. }
        by rewrite (Htt (queue s')), Hprefix', <- Htt.
  - exists st'. split; [done|]. split; [|done].
    rewrite Hblock. by replace (oi + Z.to_nat ki - oi) with (Z.to_nat ki) in Haux'
      by lia.
Qed.

Lemma forward_loop_total (fuel qi : nat) (st : bfs_state) :
  state_inv N k j offsets flat_neighbors st -> qi <= queue_len st ->
  (qi < queue_len st -> state_span st (state_depth st qi + 1)) ->
  aux_inv flat_pred_len (take qi (queue st) ≫= block) st ->
  N <= fuel + qi ->
  exists st', forward_loop w k offsets flat_neighbors fuel qi st = Ok st'.
Proof.
  revert qi st. induction fuel as [|fuel IH];
    intros qi st Hinv Hqi Hspan Haux Hfuel; simpl.
  - destruct (qi <? queue_len st) eqn:Hlt; [|eauto].
    apply Nat.ltb_lt in Hlt. destruct Hinv as (_ & _ & Hle & _). lia.
  - destruct (qi <? queue_len st) eqn:Hlt; [|eauto].
    apply Nat.ltb_lt in Hlt.
    pose proof Hinv as (Hdl & Hql & Hle & Hndq & Hrange & _).
    destruct structure as (_ & _ & _ & Hdisj & _).
    destruct (node_at_queued (queue st) (queue_len st) qi) as [Hi Hin];
      [done | lia |].
    assert (forall y, y ∈ take qi (queue st) ->
              y ∈ take (queue_len st) (queue st)) as Hsub.
    { intros y (p & Hp & Hlt')%elem_of_take. apply elem_of_take.
      exists p. split; [done | lia]. }
    destruct (visit_total (take qi (queue st) ≫= block) qi st
                Hinv Hlt (Hspan Hlt) Haux)
      as (st1 & Hvisit & Haux1 & Hprefix).
    + apply NoDup_bind.
      * intros x1 x2 y Hx1 Hx2 Hy1 Hy2.
        apply (Hdisj x1 x2 y);
          [by apply Hrange, Hsub | by apply Hrange, Hsub | done | done].
      * intros x _. apply NoDup_seq.
      * apply (sublist_NoDup _ (take (queue_len st) (queue st))); [done|].
        replace (take qi (queue st))
          with (take qi (take (queue_len st) (queue st)))
          by (rewrite take_take; f_equal; lia).
        apply sublist_take.
    + intros idx (y & Hidx & Hy)%list_elem_of_bind.
      apply (block_lt y); [|done]. by apply Hrange, Hsub.
    + intros idx Hidx (y & Hidx' & Hy)%list_elem_of_bind.
      assert (node_at (queue st) qi = y) as Heq.
      { apply (Hdisj _ y idx);
          [by apply Hrange | by apply Hrange, Hsub | done | done]. }
      apply elem_of_take in Hy as (p & Hp & Hlt').
      rewrite <- Heq in Hp.
      assert (p = qi); [|lia].
      apply (NoDup_lookup (take (queue_len st) (queue st)) p qi
               (node_at (queue st) qi)); [done | |];
        by rewrite lookup_take_lt by lia.
    + rewrite Hvisit. cbn [bind].
      destruct (visit_keeps_inv N w k j offsets flat_neighbors qi st st1
                  Hinv Hlt (Hspan Hlt) Hvisit)
        as (Hinv1 & Hspan1 & Hlen1 & Hdepth1).
      apply IH; [done | lia | | | lia].
      * intros Hnext q Hq. specialize (Hspan1 q Hq).
        destruct Hinv1 as (_ & _ & _ & _ & _ & _ & Hsorted & _).
        specialize (Hsorted qi (S qi) ltac:(lia) Hnext).
        unfold state_depth in *. lia.
      * assert (queue st1 !! qi = Some (node_at (queue st) qi)) as Hqi1.
        { rewrite <- (lookup_take_lt (queue st1) (queue_len st)) by lia.
          rewrite Hprefix. by rewrite lookup_take_lt by lia. }
        rewrite (take_S_r _ _ _ Hqi1), bind_app.
        replace (take qi (queue st1)) with (take qi (queue st)).
        -- replace ([node_at (queue st) qi] ≫= block)
             with (block (node_at (queue st) qi)); [done|].
           simpl. by rewrite app_nil_r.
        -- replace (take qi (queue st))
             with (take qi (take (queue_len st) (queue st)))
             by (rewrite take_take; f_equal; lia).
           rewrite <- Hprefix. rewrite take_take. f_equal. lia.
Qed.

Lemma forward_init_total (betweenness excess : list Q) (flat_pred : list nat) :
  buffers_sized betweenness excess flat_pred ->
  length flat_pred = flat_pred_len ->
  exists st,
    forward_init N w j is_source betweenness excess flat_pred = Ok st /\
    aux_inv flat_pred_len [] st.
Proof.
  intros (Hj & Hw & Hsrc & Hb & He & _) Hfp. unfold forward_init. cbv zeta.
  destruct (for_range_total
    (fun _ (s : list Q * list Q) => length s.1 = N /\ length s.2 = N)
    0 N
    (fun l '(betweenness, excess) =>
      src <- aget is_source l ;;
      wl <- aget w l ;;
      excess <- aset excess l (inject_Z src * wl)%Q ;;
      betweenness <- aset betweenness l (inject_Z src * wl)%Q ;;
      Ok (betweenness, excess)) (betweenness, excess))
    as ([b e] & -> & _); [lia | done | |].
  - intros l [b e] Hl [Hb' He']. cbn [fst snd] in *.
    destruct (aget_lt is_source l) as (src & -> & _); [lia|].
    destruct (aget_lt w l) as (wl & -> & _); [lia|].
    cbn [bind]. rewrite !aset_lt by lia. cbn [bind].
    eexists. split; [done|]. cbn [fst snd]. by rewrite !length_insert.
  - cbn [bind]. rewrite !aset_lt by (rewrite length_replicate; lia).
    cbn [bind].
    destruct (aget_lt w j) as (wj & -> & _); [lia|]. cbn [bind].
    rewrite aset_lt by (rewrite length_replicate; lia). cbn [bind].
    eexists. split; [done|]. unfold aux_inv.
    cbn [n_predecessors multiplicity_to_j flat_predecessors].
    rewrite length_insert, !length_replicate. repeat split; try done.
    intros l c [-> _]%lookup_replicate. lia.
Qed.

(** On a well-formed neighbour structure and with buffers of the right
    sizes the forward phase returns. *)
Lemma nsi_betweenness_forward_total (betweenness excess : list Q)
  (flat_pred : list nat) :
  buffers_sized betweenness excess flat_pred ->
  length flat_pred = flat_pred_len ->
  exists st,
    nsi_betweenness_forward N w k j offsets flat_neighbors is_source
      betweenness excess flat_pred = Ok st.
Proof.
  intros Hbuf Hfp. unfold nsi_betweenness_forward.
  destruct (forward_init_total betweenness excess flat_pred Hbuf Hfp)
    as (st0 & Hinit & Haux).
  rewrite Hinit. cbn [bind].
  destruct (forward_init_inv N w k j offsets flat_neighbors is_source
              betweenness excess flat_pred st0 Hinit) as (Hinv & Hlen & Hspan).
  apply forward_loop_total; [done | lia | done | done | lia].
Qed.

End SearchReturns.

(** Case analysis on membership in an explicit list. *)
Ltac list_cases H :=
  repeat (let E := fresh "E" in
          apply elem_of_cons in H as [E | H];
          [try (discriminate E || subst) |]);
  try (by apply elem_of_nil in H).

(** C7. In the forward phase of [_nsi_betweenness], the distances of the
    nodes in the order in which they are appended to the queue are
    non-decreasing, every node is enqueued at most once, and every node
    that cannot be reached from the source [j] keeps the distance [2 * N]
    and is never enqueued.  The loop needs no more than the [N] passes that
    the queue has room for, and the phase returns on every well-formed
    neighbour structure. *)
Theorem nsi_betweenness_forward_search (N : nat) (w : list Q) (k : list Z)
  (j : nat) (offsets flat_neighbors : list nat) (is_source : list Z)
  (betweenness excess : list Q) (flat_pred : list nat) :
  nsi_betweenness_forward N w k j offsets flat_neighbors is_source
    betweenness excess flat_pred <> Raise OutOfFuel /\
  (forall st,
     nsi_betweenness_forward N w k j offsets flat_neighbors is_source
       betweenness excess flat_pred = Ok st ->
     (forall p q vp vq,
        p <= q -> q < queue_len st ->
        queue st !! p = Some vp -> queue st !! q = Some vq ->
        exists dp dq,
          distances_to_j st !! vp = Some dp /\
          distances_to_j st !! vq = Some dq /\ dp <= dq) /\
     NoDup (take (queue_len st) (queue st)) /\
     (forall v, v < N -> ~ reachable k j offsets flat_neighbors v ->
        distances_to_j st !! v = Some (2 * N) /\
        v ∉ take (queue_len st) (queue st))) /\
  (neighbor_structure N k offsets flat_neighbors ->
   buffers_sized N w k j offsets is_source betweenness excess flat_pred ->
   exists st,
     nsi_betweenness_forward N w k j offsets flat_neighbors is_source
       betweenness excess flat_pred = Ok st).
Proof.
  split; [|split].
  - unfold nsi_betweenness_forward.
    destruct (forward_init N w j is_source betweenness excess flat_pred)
      as [st0|e] eqn:Hinit; simpl.
    + destruct (forward_init_inv N w k j offsets flat_neighbors is_source
                  betweenness excess flat_pred st0 Hinit)
        as (Hinv & Hlen & Hspan).
      apply (forward_loop_fuel N w k j offsets flat_neighbors);
        [done | lia | done | lia].
    + by apply forward_init_Raise in Hinit as ->.
  - intros st Hrun.
    pose proof (nsi_betweenness_forward_inv N w k j offsets flat_neighbors
                  is_source betweenness excess flat_pred st Hrun)
      as (Hdl & Hql & Hle & Hnd & Hrange & Hundisc & Hsorted & Hpos).
    split; [|split; [done|]].
    + intros p q vp vq Hpq Hq Hvp Hvq.
      assert (vp < N /\ vq < N) as [Hp Hq'].
      { split; apply Hrange, list_elem_of_lookup.
        - exists p. rewrite lookup_take_lt by lia. done.
        - exists q. rewrite lookup_take_lt by lia. done. }
      destruct (lookup_lt_is_Some_2 (distances_to_j st) vp) as [dp Hdp]; [lia|].
      destruct (lookup_lt_is_Some_2 (distances_to_j st) vq) as [dq Hdq]; [lia|].
      exists dp, dq. split; [done|]. split; [done|].
      specialize (Hsorted p q Hpq Hq). unfold depth, node_at, dist_of in Hsorted.
      rewrite Hvp, Hvq in Hsorted. simpl in Hsorted.
      by rewrite Hdp, Hdq in Hsorted.
    + intros v Hv Hunreach.
      assert (v ∉ take (queue_len st) (queue st)) as Hnot.
      { intros Hin. apply Hunreach. by apply Hrange. }
      split; [by apply Hundisc | done].
  - intros Hstruct Hbuf.
    apply (nsi_betweenness_forward_total N w k j offsets flat_neighbors
             is_source (length flat_pred)); try done.
    + by destruct Hbuf as (_ & ? & _).
    + by destruct Hbuf as (_ & _ & _ & _ & _ & ?).
Qed.

Lemma nsi_betweenness_forward_search_witness :
  let w := [1; 1; 1; 1]%Q in
  let k := [1; 2; 1; 0]%Z in
  let offsets := [0; 1; 3; 4] in
  let flat_neighbors := [1; 0; 2; 1] in
  let is_source := [1; 1; 1; 1]%Z in
  exists st,
    nsi_betweenness_forward 4 w k 0 offsets flat_neighbors is_source
      w w [0; 0; 0; 0] = Ok st /\
    (forall p q vp vq,
       p <= q -> q < queue_len st ->
       queue st !! p = Some vp -> queue st !! q = Some vq ->
       exists dp dq,
         distances_to_j st !! vp = Some dp /\
         distances_to_j st !! vq = Some dq /\ dp <= dq) /\
    NoDup (take (queue_len st) (queue st)) /\
    (forall v, v < 4 -> ~ reachable k 0 offsets flat_neighbors v ->
       distances_to_j st !! v = Some (2 * 4) /\
       v ∉ take (queue_len st) (queue st)).
Proof.
  intros w k offsets flat_neighbors is_source.
  destruct (nsi_betweenness_forward_search 4 w k 0 offsets flat_neighbors
              is_source w w [0; 0; 0; 0]) as (_ & Hspec & Hreturns).
  destruct Hreturns as [st Hst].
  - split; [reflexivity|]. split; [reflexivity|]. split; [|split].
    + intros i idx Hi Hidx.
      do 4 (try destruct i as [|i]); try lia; vm_compute in Hidx;
        list_cases Hidx; eexists; (split; [reflexivity | lia]).
    + intros i i' idx Hi Hi' Hidx Hidx'.
      do 4 (try destruct i as [|i]); try lia;
        do 4 (try destruct i' as [|i']); try lia; try reflexivity;
        vm_compute in Hidx; vm_compute in Hidx';
        list_cases Hidx; list_cases Hidx'.
    + intros l Hl. do 4 (try destruct l as [|l]); try lia; vm_compute; lia.
  - split; [lia|]. do 4 (split; [reflexivity|]).
    intros l Hl. do 4 (try destruct l as [|l]); try lia; vm_compute; lia.
  - exists st. split; [done|]. by apply Hspec.
Defined.

(** * Further properties of the kernels *)

(** ** What [overwriteAdjacency] leaves alone *)

(** [overwriteAdjacency] writes to the two blocks only: an entry [(a, b)]
    with neither [a] in [nodes1] and [b] in [nodes2] nor the other way
    round holds after the call what it held before, whatever the shapes of
    the buffers. *)
Theorem overwriteAdjacency_frame (A cross_A : matrix Z)
  (nodes1 nodes2 : list nat) (m n : nat) (A' : matrix Z) :
  overwriteAdjacency A cross_A nodes1 nodes2 m n = Ok A' ->
  forall a b,
    ~ (a ∈ nodes1 /\ b ∈ nodes2) -> ~ (a ∈ nodes2 /\ b ∈ nodes1) ->
    mget A' a b = mget A a b.
Proof.
  intros Hrun a b H12 H21. revert Hrun. unfold overwriteAdjacency.
  apply (for_range_partial (fun _ s => mget s a b = mget A a b));
    [lia | done |].
  intros i A0 A1 _ HA0.
  apply (for_range_partial (fun _ s => mget s a b = mget A a b));
    [lia | done |].
  intros j A2 A3 _ HA2 Hbody.
  apply bind_Ok in Hbody as (n1 & Hn1%aget_Ok & Hbody).
  apply bind_Ok in Hbody as (n2 & Hn2%aget_Ok & Hbody).
  apply bind_Ok in Hbody as (c & _ & Hbody).
  apply bind_Ok in Hbody as (A4 & Hw1 & Hw2).
  apply list_elem_of_lookup_2 in Hn1, Hn2.
  rewrite (mget_mset_ne _ _ _ _ a b _ Hw2).
  - rewrite (mget_mset_ne _ _ _ _ a b _ Hw1); [done|].
    destruct (decide (a = n1)) as [->|]; [|by left].
    destruct (decide (b = n2)) as [->|]; [|by right]. by destruct H12.
  - destruct (decide (a = n2)) as [->|]; [|by left].
    destruct (decide (b = n1)) as [->|]; [|by right]. by destruct H21.
Qed.

Lemma overwriteAdjacency_frame_witness :
  exists A',
    overwriteAdjacency [[7; 0; 8]; [0; 7; 1]; [8; 1; 7]]%Z [[1]; [0]]%Z
      [0; 2] [1] 2 1 = Ok A' /\
    mget A' 0 2 = mget [[7; 0; 8]; [0; 7; 1]; [8; 1; 7]]%Z 0 2.
Proof.
  eexists. split; [reflexivity|].
  apply (overwriteAdjacency_frame [[7; 0; 8]; [0; 7; 1]; [8; 1; 7]]%Z
           [[1]; [0]]%Z [0; 2] [1] 2 1).
  - reflexivity.
  - intros [_ H]. list_cases H.
  - intros [H _]. list_cases H.
Defined.

(** Writing a 0/1 cross-adjacency matrix back keeps the data model of the
    full matrix: for two node sets of distinct nodes that do not overlap,
    [overwriteAdjacency] returns, and a symmetric 0/1 matrix with zero
    diagonal is one afterwards. *)
Theorem overwriteAdjacency_keeps_adjacency (N m n : nat) (A cross_A : matrix Z)
  (nodes1 nodes2 : list nat) :
  adjacency N A ->
  dims m n cross_A -> binary cross_A ->
  length nodes1 = m -> length nodes2 = n ->
  Forall (fun v => v < N) nodes1 -> Forall (fun v => v < N) nodes2 ->
  NoDup (nodes1 ++ nodes2) ->
  exists A', overwriteAdjacency A cross_A nodes1 nodes2 m n = Ok A' /\
             adjacency N A'.
Proof.
  intros HA Hc Hbin H1 H2 Hr1 Hr2 Hnd.
  destruct (overwriteAdjacency_correct N m n cross_A nodes1 nodes2
              Hc H1 H2 Hr1 Hr2 Hnd A (proj1 HA)) as (A' & HA' & _).
  exists A'. split; [done|]. revert HA'. unfold overwriteAdjacency.
  apply (for_range_partial (fun _ s => adjacency N s)); [lia | done |].
  intros i A0 A1 _ HA0.
  apply (for_range_partial (fun _ s => adjacency N s)); [lia | done |].
  intros j A2 A3 _ HA2 Hbody.
  apply bind_Ok in Hbody as (n1 & Hn1%aget_Ok & Hbody).
  apply bind_Ok in Hbody as (n2 & Hn2%aget_Ok & Hbody).
  apply bind_Ok in Hbody as (c & Hcv & Hbody).
  apply bind_Ok in Hbody as (A4 & Hw1 & Hw2).
  apply (symmetric_store_adjacency N A2 A4 A3 n1 n2 c); try done.
  - by apply (nodes_disjoint nodes1 nodes2 Hnd i j).
  - by apply (Hbin i j).
Qed.

Lemma overwriteAdjacency_keeps_adjacency_witness :
  exists A',
    overwriteAdjacency [[0; 0; 1]; [0; 0; 1]; [1; 1; 0]]%Z [[1]; [0]]%Z
      [0; 2] [1] 2 1 = Ok A' /\
    adjacency 3 A'.
Proof.
  apply (overwriteAdjacency_keeps_adjacency 3 2 1).
  - split; [split; [reflexivity | repeat constructor]|].
    split; [|split].
    + intros i j. do 4 (try destruct i as [|i]); do 4 (try destruct j as [|j]);
        reflexivity.
    + intros i j v. do 4 (try destruct i as [|i]);
        do 4 (try destruct j as [|j]); intros [= <-] || discriminate; auto.
    + intros i v. do 4 (try destruct i as [|i]);
        intros [= <-] || discriminate; auto.
  - split; [reflexivity | repeat constructor].
  - intros i j v. do 3 (try destruct i as [|i]); do 2 (try destruct j as [|j]);
      intros [= <-] || discriminate; auto.
  - reflexivity.
  - reflexivity.
  - repeat constructor.
  - repeat constructor.
  - compute_done.
Defined.

(** ** geo_network: what a double-edge swap does to the edge list *)

(** The outcome of one pass of [rewire_attempt]: either nothing changes,
    or the two rows drawn name four distinct nodes, both conditions hold,
    and the rows are rewritten to [(s, l)] and [(k, t)]. *)
Lemma rewire_attempt_cases (eps : Q) (D : matrix Q) (E : nat) (degree : list Z)
  (cond_len : rewire_cond_len) (cond_deg : rewire_cond_deg) (d : Q * Q)
  (st st' : geo_state) :
  rewire_attempt eps D E degree cond_len cond_deg d st = Ok st' ->
  st' = st \/
  exists s t k l A',
    geo_edges st !! random_edge (fst d) E = Some (s, t) /\
    geo_edges st !! random_edge (snd d) E = Some (k, l) /\
    match cond_deg with
    | None => True
    | Some c => c degree s t k l = Ok true
    end /\
    cond_len D eps s t k l = Ok true /\
    st' = GeoState (geo_i st + 1) A'
            (<[random_edge (snd d) E := (k, t)]>
               (<[random_edge (fst d) E := (s, l)]> (geo_edges st))).
Proof.
  unfold rewire_attempt. intros H.
  apply bind_Ok in H as ([s t] & Hst%aget_Ok & H).
  apply bind_Ok in H as ([k l] & Hkl%aget_Ok & H).
  apply bind_Ok in H as ([|] & Hgo & H); [|left; congruence].
  right.
  apply and_then_true in Hgo as (_ & Hgo).
  apply and_then_true in Hgo as (_ & Hgo).
  apply and_then_true in Hgo as (Hdeg & Hlen).
  do 8 (apply bind_Ok in H as (? & _ & H)).
  apply bind_Ok in H as (edges1 & [_ ->]%aset_Ok & H).
  apply bind_Ok in H as (edges2 & [_ ->]%aset_Ok & H).
  injection H as <-.
  eexists s, t, k, l, _. repeat split; try done.
  by destruct cond_deg.
Qed.

(** Whatever holds before the loop and is kept by every pass holds in the
    state the loop returns. *)
Lemma rewire_loop_preserves (P : geo_state -> Prop) (iterations : Z) (eps : Q)
  (D : matrix Q) (E : nat) (degree : list Z) (cond_len : rewire_cond_len)
  (cond_deg : rewire_cond_deg) :
  (forall d st st', P st ->
     rewire_attempt eps D E degree cond_len cond_deg d st = Ok st' -> P st') ->
  forall draws st st', P st ->
    rewire_loop iterations eps D E degree cond_len cond_deg draws st = Ok st' ->
    P st'.
Proof.
  intros Hstep draws. induction draws as [|d draws IH]; intros st st' HP; simpl.
  - destruct (geo_i st <? iterations)%Z; by intros [= <-].
  - destruct (geo_i st <? iterations)%Z; [|by intros [= <-]].
    intros (st1 & H1 & H2)%bind_Ok. apply (IH st1 st'); [|done].
    by apply (Hstep d st st1).
Qed.

(** In every state that [_randomly_rewire_geomodel] returns, with either
    length condition and with or without the degree condition, the first
    column of the edge list is the one passed in and the second column is
    a rearrangement of the one passed in: a swap exchanges the targets of
    two rows and nothing else. *)
Theorem geomodel_edge_list_columns (iterations : Z) (eps : Q) (A : matrix Z)
  (D : matrix Q) (E : nat) (edges : list (nat * nat)) (degree : list Z)
  (cond_len : rewire_cond_len) (cond_deg : rewire_cond_deg)
  (draws : list (Q * Q)) (st : geo_state) :
  _randomly_rewire_geomodel iterations eps A D E edges degree cond_len cond_deg
    draws = Ok st ->
  (geo_edges st).*1 = edges.*1 /\ (geo_edges st).*2 ≡ₚ edges.*2.
Proof.
  unfold _randomly_rewire_geomodel.
  apply (rewire_loop_preserves
           (fun st => (geo_edges st).*1 = edges.*1 /\
                      (geo_edges st).*2 ≡ₚ edges.*2)); [|done].
  intros d st0 st1 [Hfst Hsnd] Hstep.
  apply rewire_attempt_cases in Hstep
    as [-> | (s & t & k & l & A' & H1 & H2 & _ & _ & ->)]; [done|].
  simpl. split.
  - rewrite !list_fmap_insert. simpl. rewrite <- Hfst.
    rewrite (list_insert_id _ (random_edge d.1 E) s)
      by (by rewrite list_lookup_fmap, H1).
    apply list_insert_id. by rewrite list_lookup_fmap, H2.
  - rewrite <- Hsnd, !list_fmap_insert. simpl.
    apply Permutation_insert_swap; by rewrite list_lookup_fmap, ?H1, ?H2.
Qed.

Lemma geomodel_edge_list_columns_witness :
  exists st,
    _randomly_rewire_geomodel_I 1 1 two_links (zeros 4) 2 [(0, 1); (2, 3)]
      [(0, 1 # 2)]%Q = Ok st /\
    geo_edges st = [(0, 3); (2, 1)] /\
    (geo_edges st).*1 = [(0, 1); (2, 3)].*1 /\
    (geo_edges st).*2 ≡ₚ [(0, 1); (2, 3)].*2.
Proof.
  eexists. split; [reflexivity|]. split; [reflexivity|].
  apply (geomodel_edge_list_columns 1 1 two_links (zeros 4) 2 [(0, 1); (2, 3)]
           [] cond_len_c1 cond_deg_true [(0, 1 # 2)]%Q).
  reflexivity.
Defined.

(** The pair of degrees that a row of the edge list joins. *)
Definition degree_pair (degree : list Z) (e : nat * nat) : option Z * option Z :=
  (degree !! e.1, degree !! e.2).

Lemma cond_deg_corr_true (degree : list Z) (s t k l : nat) :
  cond_deg_corr degree s t k l = Ok true ->
  degree !! s = degree !! k /\ degree !! t = degree !! l.
Proof.
  unfold cond_deg_corr. intros [H1 H2]%and_then_true.
  apply bind_Ok in H1 as (x & Hx%aget_Ok & H1).
  apply bind_Ok in H1 as (y & Hy%aget_Ok & [= H1%Z.eqb_eq]).
  apply bind_Ok in H2 as (x' & Hx'%aget_Ok & H2).
  apply bind_Ok in H2 as (y' & Hy'%aget_Ok & [= H2%Z.eqb_eq]).
  split; congruence.
Qed.

(** [_randomly_rewire_geomodel_III] keeps the degree-degree correlations:
    the pairs (degree of the source, degree of the target), taken over the
    rows of the edge list and read from the vector [degree] passed in, are
    the same collection after the call as before. *)
Theorem geomodel_III_keeps_degree_pairs (iterations : Z) (eps : Q)
  (A : matrix Z) (D : matrix Q) (E : nat) (edges : list (nat * nat))
  (degree : list Z) (draws : list (Q * Q)) (st : geo_state) :
  _randomly_rewire_geomodel_III iterations eps A D E edges degree draws = Ok st ->
  degree_pair degree <$> geo_edges st ≡ₚ degree_pair degree <$> edges.
Proof.
  unfold _randomly_rewire_geomodel_III, _randomly_rewire_geomodel.
  apply (rewire_loop_preserves
           (fun st => degree_pair degree <$> geo_edges st
                      ≡ₚ degree_pair degree <$> edges)); [|done].
  intros d st0 st1 Hpairs Hstep.
  apply rewire_attempt_cases in Hstep
    as [-> | (s & t & k & l & A' & H1 & H2 & Hdeg & _ & ->)]; [done|].
  apply cond_deg_corr_true in Hdeg as [Hsk Htl].
  simpl. rewrite <- Hpairs, !list_fmap_insert.
  apply Permutation_insert_swap; rewrite list_lookup_fmap, ?H1, ?H2; simpl;
    unfold degree_pair; simpl; congruence.
Qed.

Lemma geomodel_III_keeps_degree_pairs_witness :
  exists st,
    _randomly_rewire_geomodel_III 1 1 two_links (zeros 4) 2 [(0, 1); (2, 3)]
      [1; 1; 1; 1]%Z [(0, 1 # 2)]%Q = Ok st /\
    geo_edges st = [(0, 3); (2, 1)] /\
    degree_pair [1; 1; 1; 1]%Z <$> geo_edges st
    ≡ₚ degree_pair [1; 1; 1; 1]%Z <$> [(0, 1); (2, 3)].
Proof.
  eexists. split; [reflexivity|]. split; [reflexivity|].
  apply (geomodel_III_keeps_degree_pairs 1 1 two_links (zeros 4) 2
           [(0, 1); (2, 3)] [1; 1; 1; 1]%Z [(0, 1 # 2)]%Q).
  reflexivity.
Defined.

(** ** geo_network: the length conditions *)

Lemma Qltb_abs_nonpos (x eps : Q) : (eps <= 0)%Q -> Qltb (Qabs x) eps = false.
Proof.
  intros H. unfold Qltb. apply negb_false_iff. apply Qle_bool_iff.
  eapply Qle_trans; [exact H | apply Qabs_nonneg].
Qed.

Lemma cond_len_c1_nonpos (D : matrix Q) (eps : Q) (s t k l : nat) :
  (eps <= 0)%Q -> cond_len_c1 D eps s t k l <> Ok true.
Proof.
  intros Heps. unfold cond_len_c1, or_else, and_then.
  repeat (destruct (mget D _ _); cbn [bind]; try done;
          rewrite ?Qltb_abs_nonpos by done; cbn [bind]; try done).
Qed.

Lemma cond_len_c2_nonpos (D : matrix Q) (eps : Q) (s t k l : nat) :
  (eps <= 0)%Q -> cond_len_c2 D eps s t k l <> Ok true.
Proof.
  intros Heps. unfold cond_len_c2, and_then.
  repeat (destruct (mget D _ _); cbn [bind]; try done;
          rewrite ?Qltb_abs_nonpos by done; cbn [bind]; try done).
Qed.

(** With a tolerance [eps <= 0] no swap is ever accepted: in every state
    that one of the three entry points returns, whatever values the random
    generator delivers, the counter is still 0 and [A] and the edge list
    are the ones passed in.  For [iterations > 0] the loop therefore never
    leaves through its test. *)
Theorem geomodel_nonpositive_eps_never_swaps (iterations : Z) (eps : Q)
  (A : matrix Z) (D : matrix Q) (E : nat) (edges : list (nat * nat))
  (degree : list Z) (draws : list (Q * Q)) (st : geo_state) :
  (eps <= 0)%Q ->
  _randomly_rewire_geomodel_I iterations eps A D E edges draws = Ok st \/
  _randomly_rewire_geomodel_II iterations eps A D E edges draws = Ok st \/
  _randomly_rewire_geomodel_III iterations eps A D E edges degree draws = Ok st ->
  st = GeoState 0 A edges.
Proof.
  intros Heps.
  assert (forall degree cond_len cond_deg,
            (forall s t k l, cond_len D eps s t k l <> Ok true) ->
            _randomly_rewire_geomodel iterations eps A D E edges degree
              cond_len cond_deg draws = Ok st ->
            st = GeoState 0 A edges) as Hgen.
  { intros degree' cond_len cond_deg Hnever. unfold _randomly_rewire_geomodel.
    apply (rewire_loop_preserves (fun st => st = GeoState 0 A edges)); [|done].
    intros d st0 st1 -> Hstep.
    apply rewire_attempt_cases in Hstep
      as [-> | (s & t & k & l & A' & _ & _ & _ & Hlen & _)]; [done|].
    by apply Hnever in Hlen. }
  intros [H | [H | H]]; revert H; apply Hgen; intros s t k l;
    (by apply cond_len_c1_nonpos) || (by apply cond_len_c2_nonpos).
Qed.

Lemma geomodel_nonpositive_eps_never_swaps_witness :
  exists st,
    _randomly_rewire_geomodel_I 1 0 two_links (zeros 4) 2 [(0, 1); (2, 3)]
      [(0, 1 # 2); (1 # 2, 0)]%Q = Ok st /\
    st = GeoState 0 two_links [(0, 1); (2, 3)].
Proof.
  eexists. split; [reflexivity|].
  apply (geomodel_nonpositive_eps_never_swaps 1 0 two_links (zeros 4) 2
           [(0, 1); (2, 3)] [] [(0, 1 # 2); (1 # 2, 0)]%Q).
  - by vm_compute.
  - left. reflexivity.
Defined.

(** Condition C2 is the stronger one: whenever [cond_len_c2] accepts a
    pair of edges, [cond_len_c1] accepts it too, for the same distance
    matrix and tolerance. *)
Theorem cond_len_c2_implies_c1 (D : matrix Q) (eps : Q) (s t k l : nat) :
  cond_len_c2 D eps s t k l = Ok true -> cond_len_c1 D eps s t k l = Ok true.
Proof.
  unfold cond_len_c2. intros (H1 & H3)%and_then_true.
  apply and_then_true in H3 as (_ & H3).
  apply and_then_true in H3 as (H3 & _).
  pose proof H1 as H1'. pose proof H3 as H3'.
  apply bind_Ok in H1' as (dst & Hst & H1').
  apply bind_Ok in H1' as (dsl & Hsl & _).
  apply bind_Ok in H3' as (dkl & Hkl & H3').
  apply bind_Ok in H3' as (dkt & Hkt & _).
  unfold cond_len_c1, or_else.
  rewrite H1, H3. unfold and_then at 2. cbn [bind].
  unfold and_then. rewrite Hst, Hkt, Hkl, Hsl. cbn [bind].
  destruct (Qltb (Qabs (dst - dkt)) eps); cbn [bind]; [|done].
  by destruct (Qltb (Qabs (dkl - dsl)) eps).
Qed.

Lemma cond_len_c2_implies_c1_witness :
  cond_len_c1 (zeros 4) 1 0 1 2 3 = Ok true.
Proof. apply cond_len_c2_implies_c1. reflexivity. Defined.

(** ** interacting_networks: setting and rewiring cross links *)

(** The loops of [_randomlySetCrossLinks] turn zero entries into ones, one
    per link set, and touch nothing else. *)
Lemma set_cross_links_loop_spec (number_cross_links : nat)
  (draws : list (nat * nat)) (done : nat) (cross_A : matrix Z) (done' : nat)
  (cross_A' : matrix Z) :
  set_cross_links_loop number_cross_links draws done cross_A
  = Ok (done', cross_A') ->
  done <= done' /\ (done' <= number_cross_links \/ done' = done) /\
  total cross_A' = (total cross_A + Z.of_nat (done' - done))%Z /\
  (forall i j v, mget cross_A i j = Ok v -> v <> 0%Z ->
     mget cross_A' i j = Ok v) /\
  (forall i j v, mget cross_A' i j = Ok v ->
     mget cross_A i j = Ok v \/ (mget cross_A i j = Ok 0%Z /\ v = 1%Z)) /\
  (forall r c, dims r c cross_A -> dims r c cross_A').
Proof.
  revert done cross_A.
  induction draws as [|[i j] draws IH]; intros done cross_A; simpl.
  - destruct (done <? number_cross_links); intros [= <- <-];
      (split; [lia|]; split; [by right|]; split; [lia|]; split; [done|];
       split; [by left | done]).
  - destruct (done <? number_cross_links) eqn:Hlt.
    2:{ intros [= <- <-].
        split; [lia|]. split; [by right|]. split; [lia|]. split; [done|].
        split; [by left | done]. }
    apply Nat.ltb_lt in Hlt.
    intros (x & Hx & H)%bind_Ok.
    destruct (truthy x) eqn:Htr; [by apply IH|].
    apply truthy_false in Htr as ->.
    apply bind_Ok in H as (C1 & Hw & H).
    apply IH in H as (Hle & Hbound & Htot & Hkeep & Hnew & Hdims).
    split; [lia|]. split; [lia|]. split; [|split; [|split]].
    + rewrite Htot, (total_mset _ _ _ _ _ _ Hx Hw). lia.
    + intros i' j' v Hv Hne. apply Hkeep; [|done].
      rewrite (mget_mset _ _ _ _ i' j' _ Hw).
      destruct (decide (i' = i /\ j' = j)) as [[-> ->]|]; [congruence | done].
    + intros i' j' v Hv.
      destruct (Hnew i' j' v Hv) as [H1 | [H1 ->]];
        rewrite (mget_mset _ _ _ _ i' j' _ Hw) in H1;
        destruct (decide (i' = i /\ j' = j)) as [[-> ->]|]; try discriminate;
        try injection H1 as <-; auto.
    + intros r c Hd. apply Hdims.
      by destruct (mset_dims_inv r c _ _ _ _ _ Hd Hw).
Qed.

Lemma set_cross_links_result (A cross_A : matrix Z)
  (number_cross_links : nat) (nodes1 nodes2 : list nat) (m n : nat)
  (draws : list (nat * nat)) (A' cross_A' : matrix Z) :
  _randomlySetCrossLinks A cross_A number_cross_links nodes1 nodes2 m n draws
  = Ok (Some (A', cross_A')) ->
  total cross_A' = (total cross_A + Z.of_nat number_cross_links)%Z /\
  (forall i j v, mget cross_A i j = Ok v -> v <> 0%Z ->
     mget cross_A' i j = Ok v) /\
  (forall i j v, mget cross_A' i j = Ok v ->
     mget cross_A i j = Ok v \/ (mget cross_A i j = Ok 0%Z /\ v = 1%Z)) /\
  overwriteAdjacency A cross_A' nodes1 nodes2 m n = Ok A'.
Proof.
  unfold _randomlySetCrossLinks.
  intros ([done C1] & Hloop & H)%bind_Ok.
  destruct (done <? number_cross_links) eqn:Hlt; [discriminate|].
  apply Nat.ltb_ge in Hlt.
  apply bind_Ok in H as (A1 & HA1 & [= <- <-]).
  apply set_cross_links_loop_spec in Hloop
    as (_ & Hbound & Htot & Hkeep & Hnew & _).
  assert (done = number_cross_links) as -> by lia.
  rewrite Nat.sub_0_r in Htot. done.
Qed.

(** When [_randomlySetCrossLinks] returns, exactly [number_cross_links]
    entries of [cross_A] that were 0 have become 1 and every other entry is
    as before, so the sum of the entries has grown by [number_cross_links];
    the full matrix is the one [overwriteAdjacency] produces from the new
    [cross_A]. *)
Theorem randomlySetCrossLinks_sets_new_links (A cross_A : matrix Z)
  (number_cross_links : nat) (nodes1 nodes2 : list nat) (m n : nat)
  (draws : list (nat * nat)) (A' cross_A' : matrix Z) :
  _randomlySetCrossLinks A cross_A number_cross_links nodes1 nodes2 m n draws
  = Ok (Some (A', cross_A')) ->
  total cross_A' = (total cross_A + Z.of_nat number_cross_links)%Z /\
  (forall i j v, mget cross_A i j = Ok v -> v <> 0%Z ->
     mget cross_A' i j = Ok v) /\
  (forall i j v, mget cross_A' i j = Ok v ->
     mget cross_A i j = Ok v \/ (mget cross_A i j = Ok 0%Z /\ v = 1%Z)) /\
  overwriteAdjacency A cross_A' nodes1 nodes2 m n = Ok A'.
Proof. apply set_cross_links_result. Qed.

(** The example of the kernel's doctest: one link between node 0 and
    node 1 of the 2 x 2 identity matrix. *)
Lemma randomlySetCrossLinks_sets_new_links_witness :
  let A := [[1; 0]; [0; 1]]%Z in
  let cross_A := [[0]]%Z in
  exists cross_A',
    _randomlySetCrossLinks A cross_A 1 [0] [1] 1 1 [(0, 0)]
    = Ok (Some ([[1; 1]; [1; 1]]%Z, cross_A')) /\
    total cross_A' = (total cross_A + Z.of_nat 1)%Z.
Proof.
  intros A cross_A. eexists. split; [reflexivity|].
  apply (randomlySetCrossLinks_sets_new_links A cross_A 1 [0] [1] 1 1
           [(0, 0)] [[1; 1]; [1; 1]]%Z).
  reflexivity.
Defined.

Lemma sumZ_binary_le (l : list Z) :
  Forall (fun v => v = 0%Z \/ v = 1%Z) l -> (sumZ l <= Z.of_nat (length l))%Z.
Proof.
  induction 1 as [|v l Hv _ IH]; simpl; [lia|]. destruct Hv; lia.
Qed.

Lemma total_binary_le (r c : nat) (A : matrix Z) :
  dims r c A -> binary A -> (total A <= Z.of_nat (r * c))%Z.
Proof.
  intros [Hlen Hrows] Hbin. unfold total.
  assert (Forall (fun row => (sumZ row <= Z.of_nat c)%Z) A) as Hle.
  { apply Forall_lookup. intros i row Hrow.
    rewrite Forall_lookup in Hrows. rewrite <- (Hrows i row Hrow).
    apply sumZ_binary_le. apply Forall_lookup. intros j v Hv.
    apply (Hbin i j). apply mget_Ok. eauto. }
  subst r. clear Hrows Hbin.
  induction Hle as [|row A Hrow _ IH]; simpl; lia.
Qed.

(** [_randomlySetCrossLinks] cannot set more links than [cross_A] has
    room for: if it returns for an [m x n] 0/1 matrix, the links already
    there and the links requested fit into the [m * n] entries.  With more
    links requested the kernel keeps drawing for ever. *)
Theorem randomlySetCrossLinks_needs_room (A cross_A : matrix Z)
  (number_cross_links : nat) (nodes1 nodes2 : list nat) (m n : nat)
  (draws : list (nat * nat)) (A' cross_A' : matrix Z) :
  dims m n cross_A -> binary cross_A ->
  _randomlySetCrossLinks A cross_A number_cross_links nodes1 nodes2 m n draws
  = Ok (Some (A', cross_A')) ->
  (total cross_A + Z.of_nat number_cross_links <= Z.of_nat (m * n))%Z.
Proof.
  intros Hd Hbin Hrun.
  pose proof Hrun as (Htot & _ & Hnew & _)%set_cross_links_result.
  rewrite <- Htot. apply total_binary_le.
  - unfold _randomlySetCrossLinks in Hrun.
    apply bind_Ok in Hrun as ([done C1] & Hloop & H).
    destruct (done <? number_cross_links); [discriminate|].
    apply bind_Ok in H as (A1 & _ & [= _ <-]).
    apply set_cross_links_loop_spec in Hloop as (_ & _ & _ & _ & _ & Hdims).
    by apply Hdims.
  - intros i j v Hv. destruct (Hnew i j v Hv) as [H | [_ ->]]; [|by right].
    by apply (Hbin i j).
Qed.

Lemma randomlySetCrossLinks_needs_room_witness :
  (total [[0]]%Z + Z.of_nat 1 <= Z.of_nat (1 * 1))%Z.
Proof.
  apply (randomlySetCrossLinks_needs_room [[1; 0]; [0; 1]]%Z [[0]]%Z 1 [0] [1]
           1 1 [(0, 0)] [[1; 1]; [1; 1]]%Z [[1]]%Z).
  - split; [reflexivity | repeat constructor].
  - intros i j v. do 2 (try destruct i as [|i]); do 2 (try destruct j as [|j]);
      intros [= <-] || discriminate; auto.
  - reflexivity.
Defined.

(** One pass of [cross_swap_attempt] keeps the first column of
    [cross_links] and rearranges the second. *)
Lemma cross_swap_attempt_columns (d : nat * nat) (st st' : cross_state) :
  cross_swap_attempt d st = Ok st' ->
  (cr_cross_links st').*1 = (cr_cross_links st).*1 /\
  (cr_cross_links st').*2 ≡ₚ (cr_cross_links st).*2.
Proof.
  unfold cross_swap_attempt. intros H.
  apply bind_Ok in H as ([a b] & Hab%aget_Ok & H).
  apply bind_Ok in H as ([c d'] & Hcd%aget_Ok & H).
  apply bind_Ok in H as ([|] & _ & H); [by injection H as <-|].
  do 4 (apply bind_Ok in H as (? & _ & H)).
  apply bind_Ok in H as ([a0 b0] & Hab0%aget_Ok & H).
  apply bind_Ok in H as ([c0 d0] & Hcd0%aget_Ok & H).
  rewrite Hab in Hab0. injection Hab0 as <- <-.
  rewrite Hcd in Hcd0. injection Hcd0 as <- <-.
  apply bind_Ok in H as (l1 & H1 & H).
  apply bind_Ok in H as (l2 & H2 & [= <-]).
  unfold set_target in H1, H2.
  apply bind_Ok in H1 as ([a1 b1] & Ha1%aget_Ok & [_ ->]%aset_Ok).
  apply bind_Ok in H2 as ([c1 d1] & Hc1%aget_Ok & [_ ->]%aset_Ok).
  rewrite Hab in Ha1. injection Ha1 as <- <-.
  simpl. rewrite !list_fmap_insert. simpl. split.
  - rewrite (list_insert_id _ d.2 c1).
    + apply list_insert_id. by rewrite list_lookup_fmap, Hab.
    + change a with (fst (a, d')) at 1.
      rewrite <- (list_fmap_insert fst), list_lookup_fmap, Hc1. done.
  - apply Permutation_insert_swap; by rewrite list_lookup_fmap, ?Hab, ?Hcd.
Qed.

(** [_randomlyRewireCrossLinks] never moves the starting point of a cross
    link: when it returns, the first column of [cross_links] is the one
    passed in and the second column is a rearrangement of the one passed
    in, whatever the buffers hold. *)
Theorem randomlyRewireCrossLinks_columns (A cross_A : matrix Z)
  (cross_links : list (nat * nat)) (nodes1 nodes2 : list nat)
  (number_cross_links number_swaps : nat) (draws : list (nat * nat))
  (A' cross_A' : matrix Z) (cross_links' : list (nat * nat)) :
  _randomlyRewireCrossLinks A cross_A cross_links nodes1 nodes2
    number_cross_links number_swaps draws
  = Ok (Some (A', cross_A', cross_links')) ->
  cross_links'.*1 = cross_links.*1 /\ cross_links'.*2 ≡ₚ cross_links.*2.
Proof.
  unfold _randomlyRewireCrossLinks. intros (st & Hloop & H)%bind_Ok.
  destruct (cr_done st <? number_swaps); [discriminate|].
  apply bind_Ok in H as (A1 & _ & [= _ _ <-]).
  clear A1 A' cross_A'.
  assert (forall st0, cross_swap_loop number_swaps draws st0 = Ok st ->
            (cr_cross_links st).*1 = (cr_cross_links st0).*1 /\
            (cr_cross_links st).*2 ≡ₚ (cr_cross_links st0).*2) as Hgen.
  { clear Hloop. induction draws as [|d draws IH]; intros st0; simpl.
    - destruct (cr_done st0 <? number_swaps); by intros [= <-].
    - destruct (cr_done st0 <? number_swaps); [|by intros [= <-]].
      intros (st1 & H1 & H2)%bind_Ok.
      apply cross_swap_attempt_columns in H1 as [Hfst Hsnd].
      apply IH in H2 as [Hfst' Hsnd'].
      split; [congruence | by rewrite Hsnd']. }
  apply (Hgen _ Hloop).
Qed.

Lemma randomlyRewireCrossLinks_columns_witness :
  let A := [[0; 0; 1; 0]; [0; 0; 0; 1]; [1; 0; 0; 0]; [0; 1; 0; 0]]%Z in
  let cross_A := [[1; 0]; [0; 1]]%Z in
  exists A' cross_A' cross_links',
    _randomlyRewireCrossLinks A cross_A [(0, 0); (1, 1)] [0; 1] [2; 3] 2 1
      [(0, 1)] = Ok (Some (A', cross_A', cross_links')) /\
    cross_links' = [(0, 1); (1, 0)] /\
    cross_links'.*1 = [(0, 0); (1, 1)].*1 /\
    cross_links'.*2 ≡ₚ [(0, 0); (1, 1)].*2.
Proof.
  intros A cross_A. eexists _, _, _. split; [reflexivity|].
  split; [reflexivity|].
  apply (randomlyRewireCrossLinks_columns A cross_A [(0, 0); (1, 1)] [0; 1]
           [2; 3] 2 1 [(0, 1)] [[0; 0; 0; 1]; [0; 0; 1; 0]; [0; 1; 0; 0];
                                [1; 0; 0; 0]]%Z [[0; 1]; [1; 0]]%Z).
  reflexivity.
Defined.

(** ** interacting_networks: the range of the cross transitivity *)

Lemma sum_range_le (lo hi : nat) (f g : nat -> Z) :
  (forall i, lo <= i < hi -> (f i <= g i)%Z) ->
  (sum_range lo hi f <= sum_range lo hi g)%Z.
Proof.
  intros H.
  rewrite (sum_range_ext lo hi g (fun i => f i + (g i - f i))%Z)
    by (intros; lia).
  rewrite sum_range_add.
  assert (0 <= sum_range lo hi (fun i => g i - f i))%Z; [|lia].
  apply sum_range_nonneg. intros i Hi. specialize (H i Hi). lia.
Qed.

Lemma Qdiv_unit_interval (a b : Q) :
  (0 <= a)%Q -> (a <= b)%Q -> (0 < b)%Q -> (0 <= a / b)%Q /\ (a / b <= 1)%Q.
Proof.
  intros Ha Hab Hb. split.
  - apply Qle_shift_div_l; [done|]. by rewrite Qmult_0_l.
  - apply Qle_shift_div_r; [done|]. by rewrite Qmult_1_l.
Qed.

(** On a symmetric matrix every triangle that [_cross_transitivity] counts
    closes a triple that it counts, so the value returned lies between 0
    and 1. *)
Theorem cross_transitivity_range (A : matrix Z) (nodes1 nodes2 : list nat) :
  (forall a b, a ∈ nodes1 ++ nodes2 -> b ∈ nodes1 ++ nodes2 ->
     exists v, mget A a b = Ok v) ->
  symmetric A ->
  exists r, _cross_transitivity A nodes1 nodes2 = Ok r /\
            (0 <= r)%Q /\ (r <= 1)%Q.
Proof.
  intros Hex Hsym. rewrite (cross_transitivity_eval A nodes1 nodes2 Hex).
  eexists. split; [done|].
  pose proof (cross_triangles_nonneg A nodes1 nodes2) as H0.
  pose proof (cross_triples_nonneg A nodes1 nodes2) as H1.
  assert (cross_triangles A nodes1 nodes2 <= cross_triples A nodes1 nodes2)%Z
    as Hle.
  { unfold cross_triangles, cross_triples.
    apply sum_range_le. intros i _. apply sum_range_le. intros j _.
    unfold triangles_at, triples_at. destruct (linked _ _ _); [|lia].
    apply sum_range_le. intros k _.
    rewrite (linked_symmetric A (node nodes2 k) (node nodes1 i) Hsym).
    unfold indicator. by destruct (linked A _ _), (linked A _ _). }
  destruct (truthy (cross_triples A nodes1 nodes2)) eqn:Htr.
  - apply Qdiv_unit_interval.
    + rewrite <- (Zle_Qle 0). lia.
    + by rewrite <- Zle_Qle.
    + rewrite <- (Zlt_Qlt 0). unfold truthy in Htr.
      apply negb_true_iff, Z.eqb_neq in Htr. lia.
  - split; [apply Qle_refl | done].
Qed.

Lemma cross_transitivity_range_witness :
  let A := [[0; 0; 1; 1]; [0; 0; 0; 1]; [1; 0; 0; 1]; [1; 1; 1; 0]]%Z in
  exists r, _cross_transitivity A [0; 1] [2; 3] = Ok r /\
            (0 <= r)%Q /\ (r <= 1)%Q.
Proof.
  intros A. apply cross_transitivity_range.
  - intros a b Ha Hb. simpl in Ha, Hb. list_cases Ha; list_cases Hb;
      eexists; reflexivity.
  - intros i j. do 5 (try destruct i as [|i]); do 5 (try destruct j as [|j]);
      reflexivity.
Defined.

(** The two sums of [_nsi_cross_transitivity] are ordered. *)
Definition ordered_sums (acc : Q * Q) : Prop :=
  (0 <= acc.1)%Q /\ (acc.1 <= acc.2)%Q.

(** With non-negative node weights the two sums of
    [_nsi_cross_transitivity] satisfy [0 <= T1 <= T2] after the loops:
    every term added to [T1] is added to [T2] as well. *)
Lemma nsi_cross_transitivity_sums_ordered (A : matrix Z)
  (nodes1 nodes2 : list nat) (node_weights : list Q) (T : Q * Q) :
  (forall a x, node_weights !! a = Some x -> (0 <= x)%Q) ->
  nsi_cross_transitivity_sums A nodes1 nodes2 node_weights = Ok T ->
  ordered_sums T.
Proof.
  intros Hw. unfold nsi_cross_transitivity_sums. cbv zeta.
  apply (for_range_partial (fun _ => ordered_sums));
    [lia | split; apply Qle_refl |].
  intros v acc acc' _ Hacc Hbody.
  apply bind_Ok in Hbody as (node_v & _ & Hbody).
  apply bind_Ok in Hbody as (weight_v & Hwv%aget_Ok%Hw & Hbody).
  revert Hbody. apply (for_range_partial (fun _ => ordered_sums));
    [lia | done |].
  clear acc acc' Hacc. intros p [U1 U2] acc' Hp [H0 Hle] Hbody.
  simpl in H0, Hle.
  apply bind_Ok in Hbody as (node_p & _ & Hbody).
  apply bind_Ok in Hbody as (avp & _ & Hbody).
  destruct (truthy avp); [|by injection Hbody as <-].
  apply bind_Ok in Hbody as (weight_p & Hwp%aget_Ok%Hw & Hbody).
  assert (0 <= weight_p * weight_p * weight_v)%Q as Hppv.
  { repeat apply Qmult_le_0_compat; done. }
  revert Hbody. apply (for_range_partial (fun _ => ordered_sums)); [lia | |].
  { split; simpl.
    - rewrite <- (Qplus_0_l 0). by apply Qplus_le_compat.
    - apply Qplus_le_compat; [done | apply Qle_refl]. }
  clear U1 U2 H0 Hle acc'. intros q [U1 U2] acc' _ [H0 Hle] Hbody.
  simpl in H0, Hle.
  apply bind_Ok in Hbody as (node_q & _ & Hbody).
  apply bind_Ok in Hbody as (avq & _ & Hbody).
  destruct (truthy avq); [|by injection Hbody as <-].
  apply bind_Ok in Hbody as (weight_q & Hwq%aget_Ok%Hw & Hbody).
  assert (0 <= 2 * weight_p * weight_q * weight_v)%Q as Hpqv.
  { repeat apply Qmult_le_0_compat; done. }
  apply bind_Ok in Hbody as (apq & _ & Hbody).
  destruct (truthy apq); injection Hbody as <-; split; simpl.
  - rewrite <- (Qplus_0_l 0). by apply Qplus_le_compat.
  - apply Qplus_le_compat; [done | apply Qle_refl].
  - done.
  - rewrite <- (Qplus_0_r U1). by apply Qplus_le_compat.
Qed.

(** With non-negative node weights, a value that [_nsi_cross_transitivity]
    returns lies between 0 and 1, whatever the matrix and the node sets. *)
Theorem nsi_cross_transitivity_range (A : matrix Z) (nodes1 nodes2 : list nat)
  (node_weights : list Q) (r : Q) :
  (forall a x, node_weights !! a = Some x -> (0 <= x)%Q) ->
  _nsi_cross_transitivity A nodes1 nodes2 node_weights = Ok r ->
  (0 <= r)%Q /\ (r <= 1)%Q.
Proof.
  intros Hw. unfold _nsi_cross_transitivity.
  intros ([T1 T2] & Hsums & Hdiv)%bind_Ok.
  apply (nsi_cross_transitivity_sums_ordered _ _ _ _ _ Hw) in Hsums
    as [H0 Hle]. simpl in H0, Hle.
  unfold divide in Hdiv. destruct (Qeq_bool T2 0) eqn:Hz; [discriminate|].
  injection Hdiv as <-. apply Qdiv_unit_interval; [done | done |].
  apply Qeq_bool_neq in Hz.
  apply Qle_lt_or_eq in H0 as [H0 | H0].
  - eapply Qlt_le_trans; done.
  - apply Qle_lt_or_eq in Hle as [Hle | Hle].
    + by rewrite H0.
    + destruct Hz. by rewrite <- Hle, <- H0.
Qed.

Lemma nsi_cross_transitivity_range_witness :
  let A := [[0; 0; 1; 1]; [0; 0; 0; 1]; [1; 0; 0; 1]; [1; 1; 1; 0]]%Z in
  let node_weights := [1 # 2; 2; 1; 3]%Q in
  exists r, _nsi_cross_transitivity A [0; 1] [2; 3] node_weights = Ok r /\
            (0 <= r)%Q /\ (r <= 1)%Q.
Proof.
  intros A node_weights. eexists. split; [reflexivity|].
  apply (nsi_cross_transitivity_range A [0; 1] [2; 3] node_weights).
  - intros a x Hx. do 5 (try destruct a as [|a]); try discriminate;
      injection Hx as <-; by vm_compute.
  - reflexivity.
Defined.

(** ** interacting_networks: cross local clustering *)

Section CrossLocalClustering.

Variables (A : matrix Z) (nodes1 nodes2 : list nat).

Hypothesis entries_exist :
  forall a b, a ∈ nodes1 ++ nodes2 -> b ∈ nodes1 ++ nodes2 ->
    exists v, mget A a b = Ok v.

(** The number of pairs [k < j] of nodes of the second set that are linked
    to each other and to the node [nodes1[i]]: the triangles that
    [_cross_transitivity] counts for [i]. *)
Definition clustering_triangles (i : nat) : Z :=
  sum_range 0 (length nodes2) (triangles_at A nodes1 nodes2 i).

Lemma clustering_counter_eval (i : nat) :
  i < length nodes1 ->
  for_range 0 (length nodes2) (fun j counter =>
    n2 <- aget nodes2 j ;;
    a12 <- mget A (node nodes1 i) n2 ;;
    if truthy a12 then
      for_range 0 j (fun k counter =>
        n3 <- aget nodes2 k ;;
        closed <- and_then (a23 <- mget A n2 n3 ;; Ok (truthy a23))
                           (a31 <- mget A n3 (node nodes1 i) ;; Ok (truthy a31)) ;;
        Ok (if closed : bool then (counter + 1)%Z else counter)) counter
    else Ok counter) 0%Z
  = Ok (clustering_triangles i).
Proof.
  intros Hi. unfold clustering_triangles.
  rewrite (for_range_sum1 0 (length nodes2) _ (triangles_at A nodes1 nodes2 i));
    [done | lia |].
  intros j x Hj. rewrite (aget_node nodes2 j) by lia. cbn [bind].
  rewrite (mget_entry A nodes1 nodes2 entries_exist)
    by (apply node1_elem || apply node2_elem; lia).
  cbn [bind]. unfold triangles_at, linked.
  destruct (truthy (entry A (node nodes1 i) (node nodes2 j)));
    [|by rewrite Z.add_0_r].
  apply (for_range_sum1 0 j _
    (fun k => indicator (truthy (entry A (node nodes2 j) (node nodes2 k))
                && truthy (entry A (node nodes2 k) (node nodes1 i)))));
    [lia|].
  intros k x' Hk. rewrite (aget_node nodes2 k) by lia. cbn [bind].
  unfold and_then.
  rewrite (mget_entry A nodes1 nodes2 entries_exist)
    by (apply node1_elem || apply node2_elem; lia).
  cbn [bind].
  destruct (truthy (entry A (node nodes2 j) (node nodes2 k))); cbn [bind];
    [|by rewrite Z.add_0_r].
  rewrite (mget_entry A nodes1 nodes2 entries_exist)
    by (apply node1_elem || apply node2_elem; lia).
  cbn [bind].
  destruct (truthy (entry A (node nodes2 k) (node nodes1 i))); simpl;
    by rewrite ?Z.add_0_r.
Qed.

Lemma cross_local_clustering_correct (norm cross_clustering : list Q) :
  length nodes1 <= length norm ->
  length nodes1 <= length cross_clustering ->
  exists cc,
    _cross_local_clustering A norm nodes1 nodes2 cross_clustering = Ok cc /\
    length cc = length cross_clustering /\
    forall i,
      cc !! i =
      match norm !! i with
      | Some x =>
          if (i <? length nodes1) && negb (Qeq_bool x 0)
          then Some (inject_Z (clustering_triangles i) / x)%Q
          else cross_clustering !! i
      | None => cross_clustering !! i
      end.
Proof.
  intros Hnorm Hcc. unfold _cross_local_clustering. cbv zeta.
  apply (for_range_total
    (fun i cc =>
       length cc = length cross_clustering /\
       forall i',
         cc !! i' =
         match norm !! i' with
         | Some x =>
             if (i' <? i) && negb (Qeq_bool x 0)
             then Some (inject_Z (clustering_triangles i') / x)%Q
             else cross_clustering !! i'
         | None => cross_clustering !! i'
         end)); [lia | |].
  - split; [done|]. intros i'. by destruct (norm !! i').
  - intros i cc Hi [Hlen Hval].
    rewrite (aget_node nodes1 i) by lia. cbn [bind].
    destruct (aget_lt norm i) as (x & -> & Hx); [lia|]. cbn [bind].
    destruct (Qeq_bool x 0) eqn:Hz; cbn [negb].
    + exists cc. split; [done|]. split; [done|]. intros i'.
      rewrite (Hval i'). destruct (norm !! i') as [x'|] eqn:Hx'; [|done].
      destruct (decide (i' = i)) as [->|Hne].
      * assert (x' = x) as -> by congruence. rewrite Hz.
        by rewrite !andb_false_r.
      * replace (i' <? S i) with (i' <? i); [done|].
        destruct (i' <? i) eqn:H1; symmetry;
          [apply Nat.ltb_lt in H1; apply Nat.ltb_lt |
           apply Nat.ltb_ge in H1; apply Nat.ltb_ge]; lia.
    + rewrite (clustering_counter_eval i) by lia. cbn [bind].
      unfold divide. rewrite Hz. cbn [bind].
      rewrite aset_lt by lia. eexists. split; [done|].
      rewrite length_insert. split; [done|]. intros i'.
      destruct (decide (i' = i)) as [->|Hne].
      * rewrite list_lookup_insert_eq by lia. rewrite Hx, Hz.
        by rewrite (proj2 (Nat.ltb_lt i (S i))) by lia.
      * rewrite list_lookup_insert_ne by done. rewrite (Hval i').
        replace (i' <? S i) with (i' <? i); [done|].
        destruct (i' <? i) eqn:H1; symmetry;
          [apply Nat.ltb_lt in H1; apply Nat.ltb_lt |
           apply Nat.ltb_ge in H1; apply Nat.ltb_ge]; lia.
Qed.

End CrossLocalClustering.

(** [_cross_local_clustering] never divides by zero.  When the entries of
    [A] between the nodes of the two sets exist and [norm] and
    [cross_clustering] have an entry for every node of [nodes1], the kernel
    returns; [cross_clustering[i]] is then the number of triangles of
    [nodes1[i]] with two nodes of [nodes2] divided by [norm[i]] where
    [norm[i]] is not zero, and it is the value the caller passed in where
    [norm[i]] is zero. *)
Theorem cross_local_clustering_spec (A : matrix Z) (norm : list Q)
  (nodes1 nodes2 : list nat) (cross_clustering : list Q) :
  (forall a b, a ∈ nodes1 ++ nodes2 -> b ∈ nodes1 ++ nodes2 ->
     exists v, mget A a b = Ok v) ->
  length nodes1 <= length norm ->
  length nodes1 <= length cross_clustering ->
  exists cc,
    _cross_local_clustering A norm nodes1 nodes2 cross_clustering = Ok cc /\
    length cc = length cross_clustering /\
    (forall i x, i < length nodes1 -> norm !! i = Some x -> ~ (x == 0)%Q ->
       cc !! i = Some (inject_Z (clustering_triangles A nodes1 nodes2 i) / x)%Q) /\
    (forall i x, norm !! i = Some x -> (x == 0)%Q ->
       cc !! i = cross_clustering !! i) /\
    (forall i, length nodes1 <= i -> cc !! i = cross_clustering !! i).
Proof.
  intros Hex Hnorm Hcc.
  destruct (cross_local_clustering_correct A nodes1 nodes2 Hex norm
              cross_clustering Hnorm Hcc) as (cc & Hrun & Hlen & Hval).
  exists cc. split; [done|]. split; [done|]. split; [|split].
  - intros i x Hi Hx Hnz. rewrite (Hval i), Hx.
    rewrite (proj2 (Nat.ltb_lt _ _) Hi).
    destruct (Qeq_bool x 0) eqn:Hz; [|done].
    by apply Qeq_bool_iff in Hz.
  - intros i x Hx Hz. rewrite (Hval i), Hx.
    apply Qeq_bool_iff in Hz. rewrite Hz. by rewrite andb_false_r.
  - intros i Hi. rewrite (Hval i).
    rewrite (proj2 (Nat.ltb_ge _ _) Hi). by destruct (norm !! i).
Qed.

Lemma cross_local_clustering_spec_witness :
  let A := [[0; 0; 1; 1]; [0; 0; 0; 1]; [1; 0; 0; 1]; [1; 1; 1; 0]]%Z in
  exists cc,
    _cross_local_clustering A [1; 0]%Q [0; 1] [2; 3] [5; 7]%Q = Ok cc /\
    cc = [1 / 1; 7]%Q.
Proof.
  intros A.
  destruct (cross_local_clustering_spec A [1; 0]%Q [0; 1] [2; 3] [5; 7]%Q)
    as (cc & Hrun & _).
  - intros a b Ha Hb. simpl in Ha, Hb. list_cases Ha; list_cases Hb;
      eexists; reflexivity.
  - simpl. lia.
  - simpl. lia.
  - exists cc. split; [done|]. vm_compute in Hrun. by injection Hrun as <-.
Defined.

(** A loop that adds a value equal to [f i] to the entry [v] of a buffer
    and leaves the other entries alone. *)
Lemma for_range_add_cell (v lo hi : nat) (body : nat -> list Q -> result (list Q))
  (f : nat -> Q) (l : list Q) :
  lo <= hi -> v < length l ->
  (forall i x, lo <= i < hi ->
     exists y, body i (<[v := x]> l) = Ok (<[v := y]> l) /\ (y == x + f i)%Q) ->
  forall x,
    exists y, for_range lo hi body (<[v := x]> l) = Ok (<[v := y]> l) /\
              (y == x + sumQ_range lo hi f)%Q.
Proof.
  intros Hle Hv Hbody x.
  destruct (for_range_total
    (fun i s => exists y, s = <[v := y]> l /\ (y == x + sumQ_range lo i f)%Q)
    lo hi body (<[v := x]> l)) as (s & Hs & y & -> & Hy);
    [done | | | by exists y].
  - exists x. split; [done|]. rewrite sumQ_range_empty by lia. ring.
  - intros i s Hi (y & -> & Hy).
    destruct (Hbody i y Hi) as (y' & Hy' & Heq).
    eexists. split; [done|]. exists y'. split; [done|].
    rewrite Heq, Hy, sumQ_range_snoc by lia. ring.
Qed.

Lemma for_range_add_cell_id (v lo hi : nat)
  (body : nat -> list Q -> result (list Q)) (f : nat -> Q) (l : list Q) (x : Q) :
  lo <= hi -> l !! v = Some x ->
  (forall i x, lo <= i < hi ->
     exists y, body i (<[v := x]> l) = Ok (<[v := y]> l) /\ (y == x + f i)%Q) ->
  exists y, for_range lo hi body l = Ok (<[v := y]> l) /\
            (y == x + sumQ_range lo hi f)%Q.
Proof.
  intros Hle Hx Hbody.
  destruct (for_range_add_cell v lo hi body f l Hle
              (lookup_lt_Some _ _ _ Hx) Hbody x) as (y & Hy & Heq).
  rewrite (list_insert_id l v x Hx) in Hy. by exists y.
Qed.

(** Reading a weight that is known to exist. *)
Definition weight (node_weights : list Q) (a : nat) : Q :=
  default 0%Q (node_weights !! a).

Section NsiCrossLocalClustering.

Variables (A : matrix Z) (nodes1 nodes2 : list nat) (node_weights : list Q).

Hypothesis entries_exist :
  forall a b, a ∈ nodes1 ++ nodes2 -> b ∈ nodes1 ++ nodes2 ->
    exists v, mget A a b = Ok v.

Hypothesis weights_exist :
  forall a, a ∈ nodes2 -> a < length node_weights.

(** What the loop over [q] adds for the pair [(v, p)]. *)
Definition nsi_clustering_pairs (v p : nat) : Q :=
  sumQ_range (p + 1) (length nodes2) (fun q =>
    if linked A (node nodes2 p) (node nodes2 q)
       && linked A (node nodes2 q) (node nodes1 v)
    then 2 * weight node_weights (node nodes2 p)
         * weight node_weights (node nodes2 q)
    else 0)%Q.

(** What the kernel adds to [nsi_cc[v]]. *)
Definition nsi_clustering_sum (v : nat) : Q :=
  sumQ_range 0 (length nodes2) (fun p =>
    if linked A (node nodes1 v) (node nodes2 p)
    then weight node_weights (node nodes2 p) * weight node_weights (node nodes2 p)
         + nsi_clustering_pairs v p
    else 0)%Q.

Lemma aget_weight (a : nat) :
  a ∈ nodes2 -> aget node_weights a = Ok (weight node_weights a).
Proof.
  intros Ha. destruct (aget_lt node_weights a (weights_exist a Ha))
    as (x & -> & Hx).
  unfold weight. by rewrite Hx.
Qed.

Lemma nsi_cross_local_clustering_row (v : nat) (nsi_cc : list Q) (x : Q) :
  v < length nodes1 -> nsi_cc !! v = Some x ->
  exists y,
    for_range 0 (length nodes2) (fun p nsi_cc =>
      node_p <- aget nodes2 p ;;
      avp <- mget A (node nodes1 v) node_p ;;
      if truthy avp then
        weight_p <- aget node_weights node_p ;;
        old <- aget nsi_cc v ;;
        nsi_cc <- aset nsi_cc v (old + weight_p * weight_p)%Q ;;
        for_range (p + 1) (length nodes2) (fun q nsi_cc =>
          node_q <- aget nodes2 q ;;
          hit <- and_then (apq <- mget A node_p node_q ;; Ok (truthy apq))
                          (aqv <- mget A node_q (node nodes1 v) ;;
                           Ok (truthy aqv)) ;;
          if hit : bool then
            old <- aget nsi_cc v ;;
            weight_q <- aget node_weights node_q ;;
            aset nsi_cc v (old + 2 * weight_p * weight_q)%Q
          else Ok nsi_cc) nsi_cc
      else Ok nsi_cc) nsi_cc
    = Ok (<[v := y]> nsi_cc) /\
    (y == x + nsi_clustering_sum v)%Q.
Proof.
  intros Hv Hx. unfold nsi_clustering_sum.
  pose proof (lookup_lt_Some _ _ _ Hx) as Hlen.
  apply (for_range_add_cell_id v 0 (length nodes2)); [lia | done |].
  intros p x0 Hp. rewrite (aget_node nodes2 p) by lia. cbn [bind].
  rewrite (mget_entry A nodes1 nodes2 entries_exist)
    by (apply node1_elem || apply node2_elem; lia).
  cbn [bind]. unfold linked at 1.
  destruct (truthy (entry A (node nodes1 v) (node nodes2 p)));
    [|exists x0; split; [done | ring]].
  rewrite aget_weight by (apply node_elem; lia). cbn [bind].
  unfold aget at 1. rewrite list_lookup_insert_eq by done. cbn [bind].
  rewrite aset_lt by (by rewrite length_insert). cbn [bind].
  rewrite list_insert_insert_eq.
  set (wp := weight node_weights (node nodes2 p)).
  destruct (for_range_add_cell v (p + 1) (length nodes2)
    (fun q nsi_cc =>
       node_q <- aget nodes2 q ;;
       hit <- and_then (apq <- mget A (node nodes2 p) node_q ;; Ok (truthy apq))
                       (aqv <- mget A node_q (node nodes1 v) ;;
                        Ok (truthy aqv)) ;;
       if hit : bool then
         old <- aget nsi_cc v ;;
         weight_q <- aget node_weights node_q ;;
         aset nsi_cc v (old + 2 * wp * weight_q)%Q
       else Ok nsi_cc)
    (fun q =>
       if linked A (node nodes2 p) (node nodes2 q)
          && linked A (node nodes2 q) (node nodes1 v)
       then 2 * wp * weight node_weights (node nodes2 q) else 0)%Q
    nsi_cc ltac:(lia) Hlen) with (x := (x0 + wp * wp)%Q)
    as (y & Hy & Heq).
  - intros q x1 Hq.
    rewrite (aget_node nodes2 q) by lia. cbn [bind]. unfold and_then.
    rewrite (mget_entry A nodes1 nodes2 entries_exist)
      by (apply node1_elem || apply node2_elem; lia).
    cbn [bind]. unfold linked.
    destruct (truthy (entry A (node nodes2 p) (node nodes2 q))); cbn [bind].
    2:{ exists x1. split; [done | cbn [andb]; ring]. }
    rewrite (mget_entry A nodes1 nodes2 entries_exist)
      by (apply node1_elem || apply node2_elem; lia).
    cbn [bind].
    destruct (truthy (entry A (node nodes2 q) (node nodes1 v))); cbn [andb].
    2:{ exists x1. split; [done | ring]. }
    unfold aget at 1. rewrite list_lookup_insert_eq by done. cbn [bind].
    rewrite aget_weight by (apply node_elem; lia). cbn [bind].
    rewrite aset_lt by (by rewrite length_insert).
    rewrite list_insert_insert_eq. eexists. split; [done | reflexivity].
  - exists y. split; [done|].
    rewrite Heq. unfold nsi_clustering_pairs. fold wp. ring.
Qed.

Lemma nsi_cross_local_clustering_correct (nsi_cc : list Q) :
  length nodes1 <= length nsi_cc ->
  exists cc,
    _nsi_cross_local_clustering A nsi_cc nodes1 nodes2 node_weights = Ok cc /\
    length cc = length nsi_cc /\
    (forall v x, v < length nodes1 -> nsi_cc !! v = Some x ->
       exists y, cc !! v = Some y /\ (y == x + nsi_clustering_sum v)%Q) /\
    (forall v, length nodes1 <= v -> cc !! v = nsi_cc !! v).
Proof.
  intros Hlen. unfold _nsi_cross_local_clustering. cbv zeta.
  destruct (for_range_total
    (fun i cc =>
       length cc = length nsi_cc /\
       (forall v x, v < i -> nsi_cc !! v = Some x ->
          exists y, cc !! v = Some y /\ (y == x + nsi_clustering_sum v)%Q) /\
       (forall v, i <= v -> cc !! v = nsi_cc !! v))
    0 (length nodes1)
    (fun v nsi_cc =>
      node_v <- aget nodes1 v ;;
      for_range 0 (length nodes2) (fun p nsi_cc =>
        node_p <- aget nodes2 p ;;
        avp <- mget A node_v node_p ;;
        if truthy avp then
          weight_p <- aget node_weights node_p ;;
          old <- aget nsi_cc v ;;
          nsi_cc <- aset nsi_cc v (old + weight_p * weight_p)%Q ;;
          for_range (p + 1) (length nodes2) (fun q nsi_cc =>
            node_q <- aget nodes2 q ;;
            hit <- and_then (apq <- mget A node_p node_q ;; Ok (truthy apq))
                            (aqv <- mget A node_q node_v ;; Ok (truthy aqv)) ;;
            if hit : bool then
              old <- aget nsi_cc v ;;
              weight_q <- aget node_weights node_q ;;
              aset nsi_cc v (old + 2 * weight_p * weight_q)%Q
            else Ok nsi_cc) nsi_cc
        else Ok nsi_cc) nsi_cc) nsi_cc)
    as (cc & Hrun & Hl & Hdone & Hrest); [lia | | | ].
  - split; [done|]. split; [intros; lia | done].
  - intros v cc Hv (Hl & Hdone & Hrest).
    rewrite (aget_node nodes1 v) by lia. cbn [bind].
    destruct (lookup_lt_is_Some_2 nsi_cc v) as [x Hx]; [lia|].
    destruct (nsi_cross_local_clustering_row v cc x)
      as (y & Hy & Heq); [lia | by rewrite Hrest |].
    eexists. split; [exact Hy|]. rewrite length_insert.
    split; [done|]. split.
    + intros v' x' Hv' Hx'. destruct (decide (v' = v)) as [->|Hne].
      * exists y. split; [apply list_lookup_insert_eq; lia|]. congruence.
      * rewrite list_lookup_insert_ne by done. apply Hdone; [lia | done].
    + intros v' Hv'. rewrite list_lookup_insert_ne by lia. apply Hrest. lia.
  - exists cc. split; [done|]. split; [done|]. split; [|done].
    done.
Qed.

End NsiCrossLocalClustering.

(** [_nsi_cross_local_clustering] adds to the buffer it is given: when the
    entries of [A] between the nodes of the two sets and the weights of the
    nodes of [nodes2] exist and [nsi_cc] has an entry for every node of
    [nodes1], the kernel returns, and [nsi_cc[v]] has grown by the sum, over
    the nodes [p] of [nodes2] linked to [nodes1[v]], of [w_p * w_p] and of
    [2 * w_p * w_q] for every later [q] linked to both; entries beyond
    [nodes1] are untouched. *)
Theorem nsi_cross_local_clustering_accumulates (A : matrix Z)
  (nsi_cc : list Q) (nodes1 nodes2 : list nat) (node_weights : list Q) :
  (forall a b, a ∈ nodes1 ++ nodes2 -> b ∈ nodes1 ++ nodes2 ->
     exists v, mget A a b = Ok v) ->
  (forall a, a ∈ nodes2 -> a < length node_weights) ->
  length nodes1 <= length nsi_cc ->
  exists cc,
    _nsi_cross_local_clustering A nsi_cc nodes1 nodes2 node_weights = Ok cc /\
    length cc = length nsi_cc /\
    (forall v x, v < length nodes1 -> nsi_cc !! v = Some x ->
       exists y, cc !! v = Some y /\
         (y == x + nsi_clustering_sum A nodes1 nodes2 node_weights v)%Q) /\
    (forall v, length nodes1 <= v -> cc !! v = nsi_cc !! v).
Proof.
  intros Hex Hw Hlen.
  exact (nsi_cross_local_clustering_correct A nodes1 nodes2 node_weights
           Hex Hw nsi_cc Hlen).
Qed.

Lemma nsi_cross_local_clustering_accumulates_witness :
  let A := [[0; 0; 1; 1]; [0; 0; 0; 1]; [1; 0; 0; 1]; [1; 1; 1; 0]]%Z in
  let w := [1; 1; 2; 3]%Q in
  let nodes1 := [0; 1] in
  let nodes2 := [2; 3] in
  let nsi_cc := [10; 20]%Q in
  exists cc,
    _nsi_cross_local_clustering A nsi_cc nodes1 nodes2 w = Ok cc /\
    length cc = length nsi_cc /\
    (forall v x, v < length nodes1 -> nsi_cc !! v = Some x ->
       exists y, cc !! v = Some y /\
         (y == x + nsi_clustering_sum A nodes1 nodes2 w v)%Q) /\
    (forall v, length nodes1 <= v -> cc !! v = nsi_cc !! v).
Proof.
  intros A w nodes1 nodes2 nsi_cc.
  apply (nsi_cross_local_clustering_accumulates A nsi_cc nodes1 nodes2 w).
  - intros a b Ha Hb. simpl in Ha, Hb. list_cases Ha; list_cases Hb;
      eexists; reflexivity.
  - intros a Ha. list_cases Ha; simpl; lia.
  - simpl. lia.
Defined.

(** The number of nodes of the second set linked to [nodes1[v]]. *)
Definition cross_degree (A : matrix Z) (nodes1 nodes2 : list nat) (v : nat) : Z :=
  sum_range 0 (length nodes2) (fun p =>
    indicator (linked A (node nodes1 v) (node nodes2 p))).

Lemma sumQ_range_inject_Z (lo hi : nat) (f : nat -> Z) :
  (sumQ_range lo hi (fun i => inject_Z (f i)) == inject_Z (sum_range lo hi f))%Q.
Proof.
  destruct (decide (lo <= hi)) as [Hle|];
    [|rewrite sumQ_range_empty, sum_range_empty by lia; reflexivity].
  induction hi as [|hi IH].
  - rewrite sumQ_range_empty, sum_range_empty by lia. reflexivity.
  - destruct (decide (lo = S hi)) as [->|];
      [rewrite sumQ_range_empty, sum_range_empty by lia; reflexivity|].
    rewrite sumQ_range_snoc, sum_range_snoc by lia.
    rewrite IH by lia. by rewrite inject_Z_plus.
Qed.

(** With unit weights, on a symmetric matrix, the sum that
    [_nsi_cross_local_clustering] adds for a node is its cross degree plus
    twice the number of triangles that [_cross_local_clustering] counts
    for it. *)
Lemma nsi_clustering_sum_unit (A : matrix Z) (nodes1 nodes2 : list nat)
  (node_weights : list Q) (v : nat) :
  symmetric A ->
  (forall a, a ∈ nodes2 -> node_weights !! a = Some 1%Q) ->
  (nsi_clustering_sum A nodes1 nodes2 node_weights v
   == inject_Z (cross_degree A nodes1 nodes2 v
                + 2 * clustering_triangles A nodes1 nodes2 v))%Q.
Proof.
  intros Hsym Hw.
  assert ((cross_degree A nodes1 nodes2 v
           + 2 * clustering_triangles A nodes1 nodes2 v)%Z
          = sum_range 0 (length nodes2) (fun p =>
              if linked A (node nodes1 v) (node nodes2 p) then
                (1 + sum_range (p + 1) (length nodes2) (fun q =>
                   if linked A (node nodes1 v) (node nodes2 q) then
                     if linked A (node nodes2 p) (node nodes2 q) then 2 else 0
                   else 0))%Z
              else 0%Z)) as ->.
  { symmetry. unfold cross_degree, clustering_triangles, triangles_at.
    apply (pair_sums_exchange (length nodes2)
      (fun p => linked A (node nodes1 v) (node nodes2 p))
      (fun p q => linked A (node nodes2 p) (node nodes2 q))
      (fun j k => linked A (node nodes2 j) (node nodes2 k)
                  && linked A (node nodes2 k) (node nodes1 v))).
    intros p q _.
    rewrite (linked_symmetric A (node nodes2 q) (node nodes2 p) Hsym).
    rewrite (linked_symmetric A (node nodes2 p) (node nodes1 v) Hsym).
    by destruct (linked A (node nodes1 v) (node nodes2 p)),
      (linked A (node nodes1 v) (node nodes2 q)),
      (linked A (node nodes2 p) (node nodes2 q)). }
  rewrite <- sumQ_range_inject_Z. unfold nsi_clustering_sum.
  assert (forall p, p < length nodes2 ->
            weight node_weights (node nodes2 p) = 1%Q) as Hunit.
  { intros p Hp. unfold weight. by rewrite (Hw _ (node_elem nodes2 p Hp)). }
  apply sumQ_range_ext. intros p Hp.
  destruct (linked A (node nodes1 v) (node nodes2 p)); [|reflexivity].
  rewrite inject_Z_plus, <- sumQ_range_inject_Z, (Hunit p) by lia.
  apply Qplus_comp; [reflexivity|]. unfold nsi_clustering_pairs.
  apply sumQ_range_ext. intros q Hq. rewrite (Hunit p), (Hunit q) by lia.
  rewrite (linked_symmetric A (node nodes2 q) (node nodes1 v) Hsym).
  by destruct (linked A (node nodes1 v) (node nodes2 q)),
    (linked A (node nodes2 p) (node nodes2 q)).
Qed.

(** With unit weights, on a symmetric matrix,
    [_nsi_cross_local_clustering] adds to [nsi_cc[v]] the cross degree of
    [nodes1[v]] plus twice the triangle count that
    [_cross_local_clustering] divides by [norm[v]]. *)
Theorem nsi_cross_local_clustering_unit_weights (A : matrix Z)
  (nsi_cc : list Q) (nodes1 nodes2 : list nat) (node_weights : list Q) :
  (forall a b, a ∈ nodes1 ++ nodes2 -> b ∈ nodes1 ++ nodes2 ->
     exists v, mget A a b = Ok v) ->
  symmetric A ->
  (forall a, a ∈ nodes2 -> node_weights !! a = Some 1%Q) ->
  length nodes1 <= length nsi_cc ->
  exists cc,
    _nsi_cross_local_clustering A nsi_cc nodes1 nodes2 node_weights = Ok cc /\
    forall v x, v < length nodes1 -> nsi_cc !! v = Some x ->
      exists y, cc !! v = Some y /\
        (y == x + inject_Z (cross_degree A nodes1 nodes2 v
                            + 2 * clustering_triangles A nodes1 nodes2 v))%Q.
Proof.
  intros Hex Hsym Hw Hlen.
  destruct (nsi_cross_local_clustering_correct A nodes1 nodes2 node_weights
              Hex) with (nsi_cc := nsi_cc) as (cc & Hrun & _ & Hval & _);
    [|done|].
  { intros a Ha. eapply lookup_lt_Some. by apply Hw. }
  exists cc. split; [done|]. intros v x Hv Hx.
  destruct (Hval v x Hv Hx) as (y & Hy & Heq). exists y. split; [done|].
  by rewrite Heq, (nsi_clustering_sum_unit A nodes1 nodes2 node_weights v Hsym Hw).
Qed.

Lemma nsi_cross_local_clustering_unit_weights_witness :
  let A := [[0; 0; 1; 1]; [0; 0; 0; 1]; [1; 0; 0; 1]; [1; 1; 1; 0]]%Z in
  let nodes1 := [0; 1] in
  let nodes2 := [2; 3] in
  let nsi_cc := [0; 0]%Q in
  exists cc,
    _nsi_cross_local_clustering A nsi_cc nodes1 nodes2 [1; 1; 1; 1]%Q = Ok cc /\
    forall v x, v < length nodes1 -> nsi_cc !! v = Some x ->
      exists y, cc !! v = Some y /\
        (y == x + inject_Z (cross_degree A nodes1 nodes2 v
                            + 2 * clustering_triangles A nodes1 nodes2 v))%Q.
Proof.
  intros A nodes1 nodes2 nsi_cc.
  apply (nsi_cross_local_clustering_unit_weights A nsi_cc nodes1 nodes2
           [1; 1; 1; 1]%Q).
  - intros a b Ha Hb. simpl in Ha, Hb. list_cases Ha; list_cases Hb;
      eexists; reflexivity.
  - intros i j. do 5 (try destruct i as [|i]); do 5 (try destruct j as [|j]);
      reflexivity.
  - intros a Ha. list_cases Ha; reflexivity.
  - simpl. lia.
Defined.

(** ** grid: distance matrices *)

(** The loops of the two distance kernels: for every pair [j <= i < N] a
    value [f i j] is stored at [(i, j)] and at [(j, i)]. *)
Lemma symmetric_fill (R C N : nat) (body : nat -> nat -> matrix Q -> result (matrix Q))
  (f : nat -> nat -> Q) (M0 : matrix Q) :
  dims R C M0 -> N <= R -> N <= C ->
  (forall i j M, j <= i -> i < N ->
     body i j M = (M' <- mset M i j (f i j) ;; mset M' j i (f i j))) ->
  exists M,
    for_range 0 N (fun i M => for_range 0 (i + 1) (fun j M => body i j M) M) M0
    = Ok M /\
    dims R C M /\
    (forall a b, b <= a -> a < N ->
       mget M a b = Ok (f a b) /\ mget M b a = Ok (f a b)) /\
    (forall a b, N <= a \/ N <= b -> mget M a b = mget M0 a b).
Proof.
  intros Hd HR HC Hbody.
  apply (for_range_total
    (fun i M =>
       dims R C M /\
       (forall a b, b <= a -> a < i ->
          mget M a b = Ok (f a b) /\ mget M b a = Ok (f a b)) /\
       (forall a b, i <= a \/ i <= b -> mget M a b = mget M0 a b)));
    [lia | |].
  - split; [done|]. split; [intros; lia | done].
  - intros i M Hi (HdM & Hset & Hframe).
    destruct (for_range_total
      (fun j M' =>
         dims R C M' /\
         (forall a b, b <= a -> a < i \/ (a = i /\ b < j) ->
            mget M' a b = Ok (f a b) /\ mget M' b a = Ok (f a b)) /\
         (forall a b, i < a \/ i < b -> mget M' a b = mget M0 a b))
      0 (i + 1) (fun j M => body i j M) M)
      as (M' & HM' & HdM' & Hset' & Hframe'); [lia | | |].
    + split; [done|]. split.
      * intros a b Hab [Ha|[_ ?]]; [by apply Hset | lia].
      * intros a b Hab. apply Hframe. lia.
    + intros j M1 Hj (Hd1 & Hset1 & Hframe1).
      rewrite Hbody by lia.
      destruct (mset_dims R C M1 i j (f i j) Hd1) as (M2 & HM2 & Hd2);
        [lia | lia |].
      destruct (mset_dims R C M2 j i (f i j) Hd2) as (M3 & HM3 & Hd3);
        [lia | lia |].
      rewrite HM2. cbn [bind]. exists M3. split; [done|]. split; [done|].
      split.
      * intros a b Hab Hcase.
        rewrite (mget_mset _ _ _ _ a b _ HM3), (mget_mset _ _ _ _ a b _ HM2),
          (mget_mset _ _ _ _ b a _ HM3), (mget_mset _ _ _ _ b a _ HM2).
        destruct (decide (a = i /\ b = j)) as [[-> ->]|Hne].
        -- destruct (decide (i = j /\ j = i)); destruct (decide (j = j /\ i = i));
             try done; lia.
        -- destruct (Hset1 a b Hab) as [H1 H2]; [lia|].
           destruct (decide (a = j /\ b = i)); [lia|].
           destruct (decide (b = j /\ a = i)); [lia|].
           destruct (decide (b = i /\ a = j)); [lia|]. done.
      * intros a b Hab.
        rewrite (mget_mset_ne _ _ _ _ a b _ HM3) by lia.
        rewrite (mget_mset_ne _ _ _ _ a b _ HM2) by lia.
        by apply Hframe1.
    + exists M'. split; [done|]. split; [done|]. split.
      * intros a b Hab Ha. apply Hset'; [done | lia].
      * intros a b Hab. apply Hframe'. lia.
Qed.

(** Reading a vector that is known to hold the entry. *)
Definition component (x : list Q) (i : nat) : Q := default 0%Q (x !! i).

Lemma aget_component (x : list Q) (i : nat) :
  i < length x -> aget x i = Ok (component x i).
Proof.
  intros H. destruct (aget_lt x i H) as (v & -> & Hv).
  unfold component. by rewrite Hv.
Qed.

(** The clamped cosine of the angle between the grid points [i] and [j]. *)
Definition cos_angle (cos_lat sin_lat cos_lon sin_lon : list Q) (i j : nat) : Q :=
  clamp_cosine
    (component sin_lat i * component sin_lat j
     + component cos_lat i * component cos_lat j
       * (component sin_lon i * component sin_lon j
          + component cos_lon i * component cos_lon j))%Q.

Lemma clamp_cosine_range (expr : Q) :
  (-1 <= clamp_cosine expr)%Q /\ (clamp_cosine expr <= 1)%Q.
Proof.
  unfold clamp_cosine, Qltb.
  destruct (Qle_bool expr 1) eqn:H1; cbn [negb]; [|done].
  destruct (Qle_bool (-1) expr) eqn:H2; cbn [negb]; [|done].
  by apply Qle_bool_iff in H1, H2.
Qed.

Lemma angular_distance_block (cos_lat sin_lat cos_lon sin_lon : list Q)
  (cosangdist : matrix Q) (R C N : nat) :
  N <= length cos_lat -> N <= length sin_lat ->
  N <= length cos_lon -> N <= length sin_lon ->
  dims R C cosangdist -> N <= R -> N <= C ->
  exists M,
    _calculate_angular_distance cos_lat sin_lat cos_lon sin_lon cosangdist N
    = Ok M /\
    dims R C M /\
    (forall i j, j <= i -> i < N ->
       mget M i j = Ok (cos_angle cos_lat sin_lat cos_lon sin_lon i j) /\
       mget M j i = Ok (cos_angle cos_lat sin_lat cos_lon sin_lon i j)) /\
    (forall a b, N <= a \/ N <= b -> mget M a b = mget cosangdist a b).
Proof.
  intros H1 H2 H3 H4 Hd HR HC. unfold _calculate_angular_distance.
  apply (symmetric_fill R C N
    (fun i j M =>
      sin_lat_i <- aget sin_lat i ;;
      sin_lat_j <- aget sin_lat j ;;
      cos_lat_i <- aget cos_lat i ;;
      cos_lat_j <- aget cos_lat j ;;
      sin_lon_i <- aget sin_lon i ;;
      sin_lon_j <- aget sin_lon j ;;
      cos_lon_i <- aget cos_lon i ;;
      cos_lon_j <- aget cos_lon j ;;
      let expr := (sin_lat_i * sin_lat_j + cos_lat_i * cos_lat_j *
                   (sin_lon_i * sin_lon_j + cos_lon_i * cos_lon_j))%Q in
      let expr := clamp_cosine expr in
      cosangdist <- mset M i j expr ;;
      mset cosangdist j i expr)
    (cos_angle cos_lat sin_lat cos_lon sin_lon)); [done.. |].
  intros i j M Hji Hi. rewrite !aget_component by lia. done.
Qed.

(** [_calculate_angular_distance] fills the leading [N x N] block of
    [cosangdist]: when the four vectors have [N] entries and the buffer has
    at least [N] rows and columns, the kernel returns, the entries [(i, j)]
    and [(j, i)] both hold the clamped expression for the pair [j <= i],
    and the entries outside the block are untouched. *)
Theorem calculate_angular_distance_spec (cos_lat sin_lat cos_lon sin_lon : list Q)
  (cosangdist : matrix Q) (R C N : nat) :
  N <= length cos_lat -> N <= length sin_lat ->
  N <= length cos_lon -> N <= length sin_lon ->
  dims R C cosangdist -> N <= R -> N <= C ->
  exists M,
    _calculate_angular_distance cos_lat sin_lat cos_lon sin_lon cosangdist N
    = Ok M /\
    dims R C M /\
    (forall i j, j <= i -> i < N ->
       mget M i j = Ok (cos_angle cos_lat sin_lat cos_lon sin_lon i j) /\
       mget M j i = Ok (cos_angle cos_lat sin_lat cos_lon sin_lon i j)) /\
    (forall a b, N <= a \/ N <= b -> mget M a b = mget cosangdist a b).
Proof. apply angular_distance_block. Qed.

Lemma calculate_angular_distance_spec_witness :
  let cos_lat := [1; 0; 3 # 5]%Q in
  let sin_lat := [0; 1; 4 # 5]%Q in
  let cos_lon := [1; 1; 0]%Q in
  let sin_lon := [0; 0; 1]%Q in
  exists M,
    _calculate_angular_distance cos_lat sin_lat cos_lon sin_lon (zeros 3) 3
    = Ok M /\
    dims 3 3 M /\
    (forall i j, j <= i -> i < 3 ->
       mget M i j = Ok (cos_angle cos_lat sin_lat cos_lon sin_lon i j) /\
       mget M j i = Ok (cos_angle cos_lat sin_lat cos_lon sin_lon i j)) /\
    (forall a b, 3 <= a \/ 3 <= b -> mget M a b = mget (zeros 3) a b).
Proof.
  intros cos_lat sin_lat cos_lon sin_lon.
  apply (calculate_angular_distance_spec cos_lat sin_lat cos_lon sin_lon
           (zeros 3) 3 3 3); try (simpl; lia).
  split; [reflexivity | repeat constructor].
Defined.

(** The matrix that [_calculate_angular_distance] produces is symmetric on
    the block it fills and every entry of the block lies between -1 and 1,
    whatever numbers the four vectors hold. *)
Theorem calculate_angular_distance_symmetric_bounded
  (cos_lat sin_lat cos_lon sin_lon : list Q) (cosangdist : matrix Q)
  (R C N : nat) :
  N <= length cos_lat -> N <= length sin_lat ->
  N <= length cos_lon -> N <= length sin_lon ->
  dims R C cosangdist -> N <= R -> N <= C ->
  exists M,
    _calculate_angular_distance cos_lat sin_lat cos_lon sin_lon cosangdist N
    = Ok M /\
    forall i j, i < N -> j < N ->
      exists v, mget M i j = Ok v /\ mget M j i = Ok v /\
                (-1 <= v)%Q /\ (v <= 1)%Q.
Proof.
  intros H1 H2 H3 H4 Hd HR HC.
  destruct (angular_distance_block cos_lat sin_lat cos_lon sin_lon
              cosangdist R C N H1 H2 H3 H4 Hd HR HC) as (M & HM & _ & Hset & _).
  exists M. split; [done|]. intros i j Hi Hj.
  destruct (decide (j <= i)) as [Hji|Hij].
  - destruct (Hset i j Hji Hi) as [Ha Hb]. eexists. split; [exact Ha|].
    split; [exact Hb|]. apply clamp_cosine_range.
  - destruct (Hset j i ltac:(lia) Hj) as [Ha Hb]. eexists. split; [exact Hb|].
    split; [exact Ha|]. apply clamp_cosine_range.
Qed.

Lemma calculate_angular_distance_symmetric_bounded_witness :
  let cos_lat := [1; 0; 2]%Q in
  let sin_lat := [0; 1; 2]%Q in
  let cos_lon := [1; 1; 0]%Q in
  let sin_lon := [0; 0; 1]%Q in
  exists M,
    _calculate_angular_distance cos_lat sin_lat cos_lon sin_lon (zeros 3) 3
    = Ok M /\
    forall i j, i < 3 -> j < 3 ->
      exists v, mget M i j = Ok v /\ mget M j i = Ok v /\
                (-1 <= v)%Q /\ (v <= 1)%Q.
Proof.
  intros cos_lat sin_lat cos_lon sin_lon.
  apply (calculate_angular_distance_symmetric_bounded cos_lat sin_lat cos_lon
           sin_lon (zeros 3) 3 3 3); try (simpl; lia).
  split; [reflexivity | repeat constructor].
Defined.

(** The sum of the squared coordinate differences of the nodes [i] and
    [j]. *)
Definition euclidean_square (x : matrix Q) (N_dim i j : nat) : Q :=
  sumQ_range 0 N_dim (fun k => (potential x k i - potential x k j) ^ 2)%Q.

Lemma squared_distance_spec (x : matrix Q) (N_dim C i j : nat) :
  dims N_dim C x -> i < C -> j < C ->
  exists q, squared_distance x N_dim i j = Ok q /\
            (q == euclidean_square x N_dim i j)%Q.
Proof.
  intros Hd Hi Hj. unfold squared_distance, euclidean_square.
  destruct (for_range_sumQ 0 N_dim
    (fun k expr =>
       xki <- mget x k i ;;
       xkj <- mget x k j ;;
       Ok (expr + (xki - xkj) ^ 2)%Q)
    (fun k => (potential x k i - potential x k j) ^ 2)%Q ltac:(lia))
    with (x := 0%Q) as (q & Hq & Heq).
  - intros k e Hk.
    destruct (mget_dims N_dim C x k i Hd ltac:(lia) Hi) as [a Ha].
    destruct (mget_dims N_dim C x k j Hd ltac:(lia) Hj) as [b Hb].
    unfold potential. rewrite Ha, Hb. cbn [bind].
    eexists. split; [done | reflexivity].
  - exists q. split; [done|]. by rewrite Heq, Qplus_0_l.
Qed.

Lemma euclidean_square_diagonal (x : matrix Q) (N_dim i : nat) :
  (euclidean_square x N_dim i i == 0)%Q.
Proof.
  apply sumQ_range_zero. intros k _. simpl. ring.
Qed.

(** [_calculate_euclidean_distance] fills the leading
    [N_nodes x N_nodes] block of [distance] symmetrically: when [x] has
    [N_dim] rows with a column for every node and the buffer has at least
    [N_nodes] rows and columns, the kernel returns; for [j <= i] the
    entries [(i, j)] and [(j, i)] both hold the root, taken by the floating
    point unit, of one and the same number, which equals the sum over the
    dimensions of the squared coordinate differences (and so equals 0 on
    the diagonal); entries outside the block are untouched. *)
Theorem calculate_euclidean_distance_spec (sqrt : Q -> Q) (x distance : matrix Q)
  (N_dim N_nodes Cx R C : nat) :
  dims N_dim Cx x -> N_nodes <= Cx ->
  dims R C distance -> N_nodes <= R -> N_nodes <= C ->
  exists M,
    _calculate_euclidean_distance sqrt x distance N_dim N_nodes = Ok M /\
    dims R C M /\
    (forall i j, j <= i -> i < N_nodes ->
       exists q, (q == euclidean_square x N_dim i j)%Q /\
                 (i = j -> (q == 0)%Q) /\
                 mget M i j = Ok (sqrt q) /\ mget M j i = Ok (sqrt q)) /\
    (forall a b, N_nodes <= a \/ N_nodes <= b -> mget M a b = mget distance a b).
Proof.
  intros Hx HCx Hd HR HC. unfold _calculate_euclidean_distance.
  destruct (symmetric_fill R C N_nodes
    (fun i j distance =>
       expr <- squared_distance x N_dim i j ;;
       let d := sqrt expr in
       distance <- mset distance i j d ;;
       mset distance j i d)
    (fun i j => sqrt match squared_distance x N_dim i j with
                     | Ok q => q
                     | Raise _ => 0%Q
                     end)
    distance Hd HR HC) as (M & HM & HdM & Hset & Hframe).
  - intros i j M Hji Hi.
    destruct (squared_distance_spec x N_dim Cx i j Hx) as (q & -> & _);
      [lia | lia | done].
  - exists M. split; [done|]. split; [done|]. split; [|done].
    intros i j Hji Hi.
    destruct (squared_distance_spec x N_dim Cx i j Hx) as (q & Hq & Heq);
      [lia | lia |].
    destruct (Hset i j Hji Hi) as [Ha Hb]. rewrite Hq in Ha, Hb.
    exists q. split; [done|]. split; [|done].
    intros <-. rewrite Heq. apply euclidean_square_diagonal.
Qed.

Lemma calculate_euclidean_distance_spec_witness :
  let sqrt := fun q : Q => q in
  let x := [[0; 3; 1]; [0; 4; 1]]%Q in
  exists M,
    _calculate_euclidean_distance sqrt x (zeros 3) 2 3 = Ok M /\
    dims 3 3 M /\
    (forall i j, j <= i -> i < 3 ->
       exists q, (q == euclidean_square x 2 i j)%Q /\
                 (i = j -> (q == 0)%Q) /\
                 mget M i j = Ok (sqrt q) /\ mget M j i = Ok (sqrt q)) /\
    (forall a b, 3 <= a \/ 3 <= b -> mget M a b = mget (zeros 3) a b).
Proof.
  intros sqrt x.
  apply (calculate_euclidean_distance_spec sqrt x (zeros 3) 2 3 3 3 3);
    try lia; (split; [reflexivity | repeat constructor]).
Defined.

(** ** network: the node-weighted random-walk betweenness *)

Lemma mget_entry_dims (r c : nat) (A : matrix Z) (i j : nat) :
  dims r c A -> i < r -> j < c -> mget A i j = Ok (entry A i j).
Proof.
  intros Hd Hi Hj. destruct (mget_dims r c A i j Hd Hi Hj) as [v Hv].
  unfold entry. by rewrite Hv.
Qed.

Lemma mget_potential_dims (r c : nat) (V : matrix Q) (i j : nat) :
  dims r c V -> i < r -> j < c -> mget V i j = Ok (potential V i j).
Proof.
  intros Hd Hi Hj. destruct (mget_dims r c V i j Hd Hi Hj) as [v Hv].
  unfold potential. by rewrite Hv.
Qed.

(** The weighted double sum over the pairs [(s, t)], [t < s], that the
    mask row [i_rel] admits, for the edge [(i, j)]. *)
Definition nsi_pair_sum (V : matrix Q) (w : list Q)
  (this_not_adj_or_equal : matrix Z) (N i_rel i j : nat) : Q :=
  sumQ_range 0 N (fun s =>
    if linked this_not_adj_or_equal i_rel s then
      component w s * sumQ_range 0 s (fun t =>
        if linked this_not_adj_or_equal i_rel t
        then component w t * newman_term V i j s t else 0)
    else 0)%Q.

(** The entry of the result of [_mpi_nsi_newman_betweenness] for the
    node [i]. *)
Definition nsi_newman_betweenness_of (this_A : matrix Z) (V : matrix Q)
  (w : list Q) (this_not_adj_or_equal : matrix Z) (N start_i i : nat) : Q :=
  sumQ_range 0 N (fun j =>
    if linked this_A (i - start_i) j
    then component w j
         * nsi_pair_sum V w this_not_adj_or_equal N (i - start_i) i j
    else 0)%Q.

Section NsiNewman.

Variables (this_A : matrix Z) (V : matrix Q) (N : nat) (w : list Q).
Variables (this_not_adj_or_equal : matrix Z) (start_i end_i : nat).
Hypothesis range_ordered : start_i <= end_i.
Hypothesis range_in_V : end_i <= N.
Hypothesis this_A_dims : dims (end_i - start_i) N this_A.
Hypothesis V_dims : dims N N V.
Hypothesis w_length : N <= length w.
Hypothesis mask_dims : dims (end_i - start_i) N this_not_adj_or_equal.

Lemma nsi_newman_sum_j_spec (i_rel j : nat) :
  i_rel < end_i - start_i -> j < N ->
  exists q,
    nsi_newman_sum_j V w this_not_adj_or_equal N i_rel (i_rel + start_i) j
    = Ok q /\
    (q == nsi_pair_sum V w this_not_adj_or_equal N i_rel (i_rel + start_i) j)%Q.
Proof.
  intros Hi Hj. unfold nsi_newman_sum_j, nsi_pair_sum.
  set (i_abs := i_rel + start_i).
  destruct (for_range_sumQ 0 N
    (fun s sum_j =>
      ms <- mget this_not_adj_or_equal i_rel s ;;
      if truthy ms then
        vis <- mget V i_abs s ;;
        vjs <- mget V j s ;;
        let Vis_minus_Vjs := (vis - vjs)%Q in
        sum_s <- for_range 0 s (fun t sum_s =>
          mt <- mget this_not_adj_or_equal i_rel t ;;
          if truthy mt then
            wt <- aget w t ;;
            vit <- mget V i_abs t ;;
            vjt <- mget V j t ;;
            Ok (sum_s + wt * Qabs (Vis_minus_Vjs - vit + vjt))%Q
          else Ok sum_s) 0%Q ;;
        ws <- aget w s ;;
        Ok (sum_j + ws * sum_s)%Q
      else Ok sum_j)
    (fun s =>
       if linked this_not_adj_or_equal i_rel s then
         component w s * sumQ_range 0 s (fun t =>
           if linked this_not_adj_or_equal i_rel t
           then component w t * newman_term V i_abs j s t else 0)
       else 0)%Q ltac:(lia)) with (x := 0%Q) as (q & Hq & Heq).
  - intros s x Hs.
    rewrite (mget_entry_dims _ _ _ _ _ mask_dims) by lia. cbn [bind].
    unfold linked at 1.
    destruct (truthy (entry this_not_adj_or_equal i_rel s));
      [|exists x; split; [done | ring]].
    rewrite !(mget_potential_dims _ _ _ _ _ V_dims) by (unfold i_abs; lia).
    cbn [bind]. cbv zeta.
    destruct (for_range_sumQ 0 s
      (fun t sum_s =>
        mt <- mget this_not_adj_or_equal i_rel t ;;
        if truthy mt then
          wt <- aget w t ;;
          vit <- mget V i_abs t ;;
          vjt <- mget V j t ;;
          Ok (sum_s + wt * Qabs (potential V i_abs s - potential V j s
                                 - vit + vjt))%Q
        else Ok sum_s)
      (fun t => if linked this_not_adj_or_equal i_rel t
                then component w t * newman_term V i_abs j s t else 0)%Q
      ltac:(lia)) with (x := 0%Q) as (r & -> & Hr).
    + intros t y Ht.
      rewrite (mget_entry_dims _ _ _ _ _ mask_dims) by lia. cbn [bind].
      unfold linked.
      destruct (truthy (entry this_not_adj_or_equal i_rel t));
        [|exists y; split; [done | ring]].
      rewrite aget_component by lia. cbn [bind].
      rewrite !(mget_potential_dims _ _ _ _ _ V_dims) by (unfold i_abs; lia).
      cbn [bind]. eexists. split; [done | reflexivity].
    + cbn [bind]. rewrite aget_component by lia. cbn [bind].
      eexists. split; [done|]. rewrite Hr. ring.
  - exists q. split; [done|]. by rewrite Heq, Qplus_0_l.
Qed.

Lemma nsi_newman_row_spec (i_rel : nat) (tb : list Q) :
  i_rel < end_i - start_i -> i_rel < length tb ->
  forall x, exists y,
    for_range 0 N (fun j this_betweenness =>
      a <- mget this_A i_rel j ;;
      if truthy a then
        sum_j <- nsi_newman_sum_j V w this_not_adj_or_equal N i_rel
                   (i_rel + start_i) j ;;
        old <- aget this_betweenness i_rel ;;
        wj <- aget w j ;;
        aset this_betweenness i_rel (old + wj * sum_j)%Q
      else Ok this_betweenness) (<[i_rel := x]> tb)
    = Ok (<[i_rel := y]> tb) /\
    (y == x + nsi_newman_betweenness_of this_A V w this_not_adj_or_equal N
              start_i (i_rel + start_i))%Q.
Proof.
  intros Hi Hlen. unfold nsi_newman_betweenness_of.
  replace (i_rel + start_i - start_i) with i_rel by lia.
  apply (for_range_add_cell i_rel 0 N); [lia | done |].
  intros j x Hj.
  rewrite (mget_entry_dims _ _ _ _ _ this_A_dims) by lia. cbn [bind].
  unfold linked.
  destruct (truthy (entry this_A i_rel j)); [|exists x; split; [done | ring]].
  destruct (nsi_newman_sum_j_spec i_rel j) as (q & -> & Hq); [lia | lia |].
  cbn [bind]. unfold aget at 1. rewrite list_lookup_insert_eq by done.
  cbn [bind]. rewrite aget_component by lia. cbn [bind].
  rewrite aset_lt by (by rewrite length_insert).
  rewrite list_insert_insert_eq. eexists. split; [done|]. by rewrite Hq.
Qed.

Lemma mpi_nsi_newman_betweenness_correct :
  exists tb,
    _mpi_nsi_newman_betweenness this_A V N w this_not_adj_or_equal
      start_i end_i = Ok (tb, start_i, end_i) /\
    length tb = end_i - start_i /\
    forall i, start_i <= i < end_i ->
      exists q, tb !! (i - start_i) = Some q /\
        (q == nsi_newman_betweenness_of this_A V w this_not_adj_or_equal N
                start_i i)%Q.
Proof.
  unfold _mpi_nsi_newman_betweenness.
  rewrite (proj2 (Nat.ltb_ge end_i start_i)) by lia. cbv zeta.
  destruct (for_range_total
    (fun i_rel tb =>
       length tb = end_i - start_i /\
       (forall i', i' < i_rel ->
          exists q, tb !! i' = Some q /\
            (q == nsi_newman_betweenness_of this_A V w this_not_adj_or_equal
                    N start_i (i' + start_i))%Q) /\
       (forall i', i_rel <= i' < end_i - start_i -> tb !! i' = Some 0%Q))
    0 (end_i - start_i)
    (fun i_rel this_betweenness =>
      for_range 0 N (fun j this_betweenness =>
        a <- mget this_A i_rel j ;;
        if truthy a then
          sum_j <- nsi_newman_sum_j V w this_not_adj_or_equal N i_rel
                     (i_rel + start_i) j ;;
          old <- aget this_betweenness i_rel ;;
          wj <- aget w j ;;
          aset this_betweenness i_rel (old + wj * sum_j)%Q
        else Ok this_betweenness) this_betweenness)
    (replicate (end_i - start_i) 0%Q))
    as (tb & Hrun & Hlen & Hdone & _); [lia | | |].
  - rewrite length_replicate. split; [done|]. split; [intros; lia|].
    intros i' Hi'. apply lookup_replicate_2. lia.
  - intros i_rel tb Hi (Hlen & Hdone & Hrest).
    destruct (nsi_newman_row_spec i_rel tb ltac:(lia) ltac:(lia) 0%Q)
      as (y & Hy & Heq).
    rewrite (list_insert_id tb i_rel 0%Q) in Hy by (apply Hrest; lia).
    eexists. split; [exact Hy|]. rewrite length_insert.
    split; [done|]. split.
    + intros i' Hi'. destruct (decide (i' = i_rel)) as [->|Hne].
      * exists y. split; [apply list_lookup_insert_eq; lia|].
        by rewrite Heq, Qplus_0_l.
      * rewrite list_lookup_insert_ne by done. apply Hdone. lia.
    + intros i' Hi'. rewrite list_lookup_insert_ne by lia. apply Hrest. lia.
  - rewrite Hrun. cbn [bind]. exists tb. split; [done|]. split; [done|].
    intros i Hi. destruct (Hdone (i - start_i)) as (q & Hq & Heq); [lia|].
    exists q. split; [done|].
    by replace (i - start_i + start_i) with i in Heq by lia.
Qed.

End NsiNewman.

(** [_mpi_nsi_newman_betweenness(this_A, V, N, w, this_not_adj_or_equal,
    start_i, end_i)] returns a vector of length [end_i - start_i] together
    with [start_i] and [end_i]; its entry for the node [i] is the sum, over
    the [j] with [this_A[i - start_i, j]] non-zero, of [w[j]] times the sum
    over the pairs [t < s] admitted by row [i - start_i] of the mask of
    [w[s] * w[t] * |V[i,s] - V[j,s] - V[i,t] + V[j,t]|]. *)
Theorem mpi_nsi_newman_betweenness_spec (this_A : matrix Z) (V : matrix Q)
  (N : nat) (w : list Q) (this_not_adj_or_equal : matrix Z)
  (start_i end_i : nat) :
  start_i <= end_i -> end_i <= N ->
  dims (end_i - start_i) N this_A -> dims N N V -> N <= length w ->
  dims (end_i - start_i) N this_not_adj_or_equal ->
  exists this_betweenness,
    _mpi_nsi_newman_betweenness this_A V N w this_not_adj_or_equal
      start_i end_i = Ok (this_betweenness, start_i, end_i) /\
    length this_betweenness = end_i - start_i /\
    forall i, start_i <= i < end_i ->
      exists q, this_betweenness !! (i - start_i) = Some q /\
        (q == nsi_newman_betweenness_of this_A V w this_not_adj_or_equal N
                start_i i)%Q.
Proof.
  intros H1 H2 H3 H4 H5 H6.
  exact (mpi_nsi_newman_betweenness_correct this_A V N w
           this_not_adj_or_equal start_i end_i H1 H2 H3 H4 H5 H6).
Qed.

(** A path on five nodes with the weights 1 to 5; the mask admits, for
    every node, the nodes that are neither the node itself nor linked to
    it, and every entry of the result depends on the weights. *)
Lemma mpi_nsi_newman_betweenness_spec_witness :
  let this_A := [[0; 1; 0; 0; 0]; [1; 0; 1; 0; 0]; [0; 1; 0; 1; 0];
                 [0; 0; 1; 0; 1]; [0; 0; 0; 1; 0]]%Z in
  let V := [[1; 1 # 2; 1 # 3; 1 # 4; 1 # 5];
            [1 # 2; 1; 1 # 2; 1 # 3; 1 # 4];
            [1 # 3; 1 # 2; 1; 1 # 2; 1 # 3];
            [1 # 4; 1 # 3; 1 # 2; 1; 1 # 2];
            [1 # 5; 1 # 4; 1 # 3; 1 # 2; 1]]%Q in
  let w := [1; 2; 3; 4; 5]%Q in
  let mask := [[0; 0; 1; 1; 1]; [0; 0; 0; 1; 1]; [1; 0; 0; 0; 1];
               [1; 1; 0; 0; 0]; [1; 1; 1; 0; 0]]%Z in
  exists this_betweenness,
    _mpi_nsi_newman_betweenness this_A V 5 w mask 0 5
    = Ok (this_betweenness, 0, 5) /\
    map Qred this_betweenness = [41 # 6; 17 # 3; 15 # 2; 5 # 6; 11 # 3]%Q /\
    length this_betweenness = 5 - 0 /\
    forall i, 0 <= i < 5 ->
      exists q, this_betweenness !! (i - 0) = Some q /\
        (q == nsi_newman_betweenness_of this_A V w mask 5 0 i)%Q.
Proof.
  intros this_A V w mask.
  destruct (mpi_nsi_newman_betweenness_spec this_A V 5 w mask 0 5)
    as (tb & Hrun & Hlen & Hval);
    try (simpl; lia); try (split; [reflexivity | repeat constructor]).
  exists tb. split; [done|]. split; [|done].
  vm_compute in Hrun. injection Hrun as <-. vm_compute. reflexivity.
Defined.

(** With unit weights and a mask that excludes exactly the node [i]
    itself, the node-weighted sum is the sum of [_mpi_newman_betweenness]. *)
Lemma nsi_newman_betweenness_of_unit (this_A : matrix Z) (V : matrix Q)
  (w : list Q) (this_not_adj_or_equal : matrix Z) (N start_i end_i i : nat) :
  binary this_A ->
  (forall a, a < N -> w !! a = Some 1%Q) ->
  (forall i_rel s, i_rel < end_i - start_i -> s < N ->
     linked this_not_adj_or_equal i_rel s = negb (s =? i_rel + start_i)) ->
  start_i <= i < end_i ->
  (nsi_newman_betweenness_of this_A V w this_not_adj_or_equal N start_i i
   == newman_betweenness_of this_A V N start_i i)%Q.
Proof.
  intros Hbin Hw Hmask Hi.
  unfold nsi_newman_betweenness_of, newman_betweenness_of.
  assert (forall a, a < N -> component w a = 1%Q) as Hunit.
  { intros a Ha. unfold component. by rewrite (Hw a Ha). }
  assert (forall s, s < N ->
            linked this_not_adj_or_equal (i - start_i) s = negb (s =? i))
    as Hm.
  { intros s Hs. rewrite (Hmask (i - start_i) s) by lia.
    by replace (i - start_i + start_i) with i by lia. }
  apply sumQ_range_ext. intros j Hj.
  unfold linked at 1. rewrite (this_A_truthy this_A Hbin).
  destruct (is_edge this_A (i - start_i) j); [|reflexivity].
  rewrite (Hunit j) by lia. rewrite Qmult_1_l. unfold nsi_pair_sum.
  apply sumQ_range_ext. intros s Hs. rewrite (Hm s) by lia.
  rewrite (Hunit s) by lia.
  destruct (s =? i) eqn:Hsi; cbn [negb].
  - symmetry. apply sumQ_range_zero. intros t _. by rewrite andb_false_r.
  - rewrite Qmult_1_l. rewrite <- (sumQ_range_below s N) by lia.
    apply sumQ_range_ext. intros t Ht. rewrite (Hm t), (Hunit t) by lia.
    rewrite andb_true_r.
    destruct (t <? s), (t =? i); cbn [negb andb]; try reflexivity.
    apply Qmult_1_l.
Qed.

(** The node-weighted kernel generalises the plain one: with every weight
    equal to 1 and a mask whose row for the node [i] excludes [i] and
    nothing else, [_mpi_nsi_newman_betweenness] and
    [_mpi_newman_betweenness] return vectors with equal entries. *)
Theorem mpi_nsi_newman_betweenness_unit_weights (this_A : matrix Z)
  (V : matrix Q) (N : nat) (w : list Q) (this_not_adj_or_equal : matrix Z)
  (start_i end_i : nat) :
  start_i <= end_i -> end_i <= N ->
  dims (end_i - start_i) N this_A -> binary this_A -> dims N N V ->
  length w = N -> (forall a, a < N -> w !! a = Some 1%Q) ->
  dims (end_i - start_i) N this_not_adj_or_equal ->
  (forall i_rel s, i_rel < end_i - start_i -> s < N ->
     linked this_not_adj_or_equal i_rel s = negb (s =? i_rel + start_i)) ->
  exists nsi plain mem,
    _mpi_nsi_newman_betweenness this_A V N w this_not_adj_or_equal
      start_i end_i = Ok (nsi, start_i, end_i) /\
    _mpi_newman_betweenness this_A V N start_i end_i
    = Ok (mem, (plain, start_i, end_i)) /\
    length nsi = length plain /\
    forall i_rel, i_rel < end_i - start_i ->
      exists q q', nsi !! i_rel = Some q /\ plain !! i_rel = Some q' /\
                   (q == q')%Q.
Proof.
  intros H1 H2 HA Hbin HV Hlen Hw Hmd Hmask.
  destruct (mpi_nsi_newman_betweenness_correct this_A V N w
              this_not_adj_or_equal start_i end_i H1 H2 HA HV ltac:(lia) Hmd)
    as (nsi & Hnsi & Hl1 & Hv1).
  destruct (mpi_newman_betweenness_correct this_A V N start_i end_i
              H1 H2 HA Hbin HV) as (plain & Hplain & Hl2 & Hv2).
  exists nsi, plain, (NewmanMem this_A V plain).
  split; [done|]. split; [done|]. split; [lia|].
  intros i_rel Hi.
  destruct (Hv1 (i_rel + start_i)) as (q & Hq & Heq); [lia|].
  destruct (Hv2 (i_rel + start_i)) as (q' & Hq' & Heq'); [lia|].
  replace (i_rel + start_i - start_i) with i_rel in Hq, Hq' by lia.
  exists q, q'. split; [done|]. split; [done|].
  rewrite Heq, Heq'.
  apply (nsi_newman_betweenness_of_unit this_A V w this_not_adj_or_equal N
           start_i end_i); [done | done | done | lia].
Qed.

Lemma mpi_nsi_newman_betweenness_unit_weights_witness :
  let this_A := [[0; 1; 0]; [1; 0; 1]; [0; 1; 0]]%Z in
  let V := [[1; 0; 0]; [0; 1 # 2; 0]; [0; 0; 1]]%Q in
  let w := [1; 1; 1]%Q in
  let mask := [[0; 1; 1]; [1; 0; 1]; [1; 1; 0]]%Z in
  exists nsi plain mem,
    _mpi_nsi_newman_betweenness this_A V 3 w mask 0 3 = Ok (nsi, 0, 3) /\
    _mpi_newman_betweenness this_A V 3 0 3 = Ok (mem, (plain, 0, 3)) /\
    length nsi = length plain /\
    forall i_rel, i_rel < 3 - 0 ->
      exists q q', nsi !! i_rel = Some q /\ plain !! i_rel = Some q' /\
                   (q == q')%Q.
Proof.
  intros this_A V w mask.
  apply mpi_nsi_newman_betweenness_unit_weights.
  - lia.
  - lia.
  - split; [reflexivity | repeat constructor].
  - intros i j v. do 4 (try destruct i as [|i]); do 4 (try destruct j as [|j]);
      intros [= <-] || discriminate; auto.
  - split; [reflexivity | repeat constructor].
  - reflexivity.
  - intros a Ha. do 3 (try destruct a as [|a]); try lia; reflexivity.
  - split; [reflexivity | repeat constructor].
  - intros i_rel s Hi Hs. do 3 (try destruct i_rel as [|i_rel]); try lia;
      do 3 (try destruct s as [|s]); try lia; reflexivity.
Defined.

(** ** network: local cliquishness of order 5 *)

(** The number of ordered quadruples [(j, k, l, m)] of neighbours of [i]
    that are pairwise linked.  On a matrix with zero diagonal linked nodes
    are distinct, so these are quadruples of pairwise distinct nodes: with
    [i] they form a clique of five nodes. *)
Definition clique_quadruples (N : nat) (A : matrix Z) (i : nat) : Z :=
  sum_range 0 N (fun j => sum_range 0 N (fun k => sum_range 0 N (fun l =>
    sum_range 0 N (fun m =>
      indicator (is_edge A i j && is_edge A i k && is_edge A i l
                 && is_edge A i m
                 && is_edge A j k && is_edge A j l && is_edge A k l
                 && is_edge A j m && is_edge A k m && is_edge A l m))))).

(** The count of the quadruples over the exact normaliser. *)
Definition cliquishness_5 (N : nat) (A : matrix Z) (degree_i : Z) (i : nat) : Q :=
  if (4 <=? degree_i)%Z then
    (inject_Z (clique_quadruples N A i)
     / inject_Z (degree_i * (degree_i - 1) * (degree_i - 2) * (degree_i - 3)))%Q
  else 0%Q.

(** Entry [i] of the result of [_local_cliquishness_5thorder]: the count
    of the quadruples over the normaliser as [NODE_t] holds it. *)
Definition cliquishness_5_node (N : nat) (A : matrix Z) (degree_i : Z)
  (i : nat) : Q :=
  if (4 <=? degree_i)%Z then
    (inject_Z (clique_quadruples N A i)
     / inject_Z (wrap NODE_bits (degree_i * (degree_i - 1) * (degree_i - 2)
                                 * (degree_i - 3))))%Q
  else 0%Q.

Lemma normaliser_5_wrap (d : Z) :
  node_mul (node_mul (node_mul d (d - 1)) (d - 2)) (d - 3)
  = wrap NODE_bits (d * (d - 1) * (d - 2) * (d - 3)).
Proof. unfold node_mul at 3. by rewrite !node_mul_wrap. Qed.

(** Up to the degree 216 the normaliser of order 5 fits [NODE_t];
    [217 * 216 * 215 * 214] does not. *)
Lemma normaliser_5_fits (d : Z) :
  (4 <= d <= 216)%Z ->
  wrap NODE_bits (d * (d - 1) * (d - 2) * (d - 3))
  = (d * (d - 1) * (d - 2) * (d - 3))%Z /\
  (0 < d * (d - 1) * (d - 2) * (d - 3))%Z.
Proof.
  intros Hd.
  assert (0 < d * (d - 1) <= 216 * 215)%Z as H2.
  { split; [apply Z.mul_pos_pos; lia|].
    apply Z.mul_le_mono_nonneg; lia. }
  assert (0 < d * (d - 1) * (d - 2) <= 216 * 215 * 214)%Z as H3.
  { split; [apply Z.mul_pos_pos; lia|].
    apply Z.mul_le_mono_nonneg; lia. }
  assert (0 < d * (d - 1) * (d - 2) * (d - 3) <= 216 * 215 * 214 * 213)%Z
    as H4.
  { split; [apply Z.mul_pos_pos; lia|].
    apply Z.mul_le_mono_nonneg; lia. }
  split; [|lia]. apply wrap_in_range. lia.
Qed.

Lemma cliquishness_5_fits (N : nat) (A : matrix Z) (d : Z) (i : nat) :
  (d <= 216)%Z -> cliquishness_5_node N A d i = cliquishness_5 N A d i.
Proof.
  intros Hd. unfold cliquishness_5_node, cliquishness_5.
  destruct (4 <=? d)%Z eqn:Hge; [|done]. apply Z.leb_le in Hge.
  by rewrite (proj1 (normaliser_5_fits d ltac:(lia))).
Qed.

Section Cliquishness5.

Variables (N : nat) (A : matrix Z).
Hypothesis A_adjacency : adjacency N A.
Variable i : nat.
Hypothesis i_lt : i < N.

Let nbrs := neighbors_of N A i.
Let cnt := length nbrs.
Let nb (x : nat) : nat := default 0 (nbrs !! x).

(** The counter after the four loops over the positions of the neighbour
    list. *)
Definition quadruples_by_position : Z :=
  sum_range 0 cnt (fun x => sum_range 0 cnt (fun y =>
    if is_edge A (nb x) (nb y) then
      sum_range 0 cnt (fun z =>
        if is_edge A (nb x) (nb z) && is_edge A (nb y) (nb z) then
          sum_range 0 cnt (fun u =>
            indicator (is_edge A (nb x) (nb u) && is_edge A (nb y) (nb u)
                       && is_edge A (nb z) (nb u)))
        else 0%Z)
    else 0%Z)).

Lemma count_neighbor_cliques_eval (buf : list nat) :
  take cnt buf = nbrs ->
  count_neighbor_cliques A buf (Z.of_nat cnt) = Ok quadruples_by_position.
Proof.
  intros Htake. unfold count_neighbor_cliques, quadruples_by_position.
  rewrite Nat2Z.id.
  assert (forall x, x < cnt -> aget buf x = Ok (nb x)) as Hget.
  { intros x Hx. unfold aget, nb. rewrite <- Htake.
    rewrite lookup_take_lt by done.
    destruct (lookup_lt_is_Some_2 buf x) as [v ->]; [|done].
    apply (f_equal length) in Htake. rewrite length_take in Htake.
    fold cnt in Htake. lia. }
  assert (forall x, x < cnt -> nb x < N) as Hlt
    by (intros x Hx; by apply neighbors_of_lt).
  assert (forall a b, a < cnt -> b < cnt ->
            mget A (nb a) (nb b) = Ok (entry A (nb a) (nb b))) as Hent
    by (intros a b Ha Hb; apply (entry_Ok N A A_adjacency); by apply Hlt).
  rewrite (for_range_sum1 0 cnt _ (fun x => sum_range 0 cnt (fun y =>
    if is_edge A (nb x) (nb y) then
      sum_range 0 cnt (fun z =>
        if is_edge A (nb x) (nb z) && is_edge A (nb y) (nb z) then
          sum_range 0 cnt (fun u =>
            indicator (is_edge A (nb x) (nb u) && is_edge A (nb y) (nb u)
                       && is_edge A (nb z) (nb u)))
        else 0%Z)
    else 0%Z))); [done | lia |].
  intros x c Hx. rewrite Hget by lia. cbn [bind].
  apply (for_range_sum1 0 cnt _ (fun y =>
    if is_edge A (nb x) (nb y) then
      sum_range 0 cnt (fun z =>
        if is_edge A (nb x) (nb z) && is_edge A (nb y) (nb z) then
          sum_range 0 cnt (fun u =>
            indicator (is_edge A (nb x) (nb u) && is_edge A (nb y) (nb u)
                       && is_edge A (nb z) (nb u)))
        else 0%Z)
    else 0%Z)); [lia|].
  intros y c' Hy. rewrite Hget by lia. cbn [bind].
  rewrite Hent by lia. cbn [bind]. fold (is_edge A (nb x) (nb y)).
  destruct (is_edge A (nb x) (nb y)); [|by rewrite Z.add_0_r].
  apply (for_range_sum1 0 cnt _ (fun z =>
    if is_edge A (nb x) (nb z) && is_edge A (nb y) (nb z) then
      sum_range 0 cnt (fun u =>
        indicator (is_edge A (nb x) (nb u) && is_edge A (nb y) (nb u)
                   && is_edge A (nb z) (nb u)))
    else 0%Z)); [lia|].
  intros z c'' Hz. rewrite Hget by lia. cbn [bind]. unfold and_then.
  rewrite Hent by lia. cbn [bind]. fold (is_edge A (nb x) (nb z)).
  destruct (is_edge A (nb x) (nb z)); cbn [bind andb];
    [|by rewrite Z.add_0_r].
  rewrite Hent by lia. cbn [bind]. fold (is_edge A (nb y) (nb z)).
  destruct (is_edge A (nb y) (nb z)); [|by rewrite Z.add_0_r].
  apply (for_range_sum1 0 cnt _ (fun u =>
    indicator (is_edge A (nb x) (nb u) && is_edge A (nb y) (nb u)
               && is_edge A (nb z) (nb u)))); [lia|].
  intros u c3 Hu. rewrite Hget by lia. cbn [bind].
  rewrite Hent by lia. cbn [bind]. fold (is_edge A (nb x) (nb u)).
  destruct (is_edge A (nb x) (nb u)); cbn [bind andb];
    [|by rewrite Z.add_0_r].
  rewrite Hent by lia. cbn [bind]. fold (is_edge A (nb y) (nb u)).
  destruct (is_edge A (nb y) (nb u)); cbn [bind andb];
    [|by rewrite Z.add_0_r].
  rewrite Hent by lia. cbn [bind]. fold (is_edge A (nb z) (nb u)).
  by destruct (is_edge A (nb z) (nb u)); rewrite ?Z.add_0_r.
Qed.

End Cliquishness5.

Section QuadruplesByPosition.

Variables (N : nat) (A : matrix Z) (i : nat).

Local Abbreviation cnt := (length (neighbors_of N A i)).
Local Abbreviation nb x := (default 0 (neighbors_of N A i !! x)).

(** The count over positions of the neighbour list is the count over
    quadruples of neighbours. *)
Lemma quadruples_by_position_spec :
  quadruples_by_position N A i = clique_quadruples N A i.
Proof.
  unfold quadruples_by_position, clique_quadruples.
  pose proof (sum_range_filter N (is_edge A i)) as Hf. simpl in Hf.
  fold (neighbors_of N A i) in Hf.
  rewrite (Hf (fun j => sum_range 0 cnt (fun y =>
    if is_edge A j (nb y) then
      sum_range 0 cnt (fun z =>
        if is_edge A j (nb z) && is_edge A (nb y) (nb z) then
          sum_range 0 cnt (fun u =>
            indicator (is_edge A j (nb u) && is_edge A (nb y) (nb u)
                       && is_edge A (nb z) (nb u)))
        else 0%Z)
    else 0%Z))).
  apply sum_range_ext. intros j _.
  rewrite (Hf (fun k =>
    if is_edge A j k then
      sum_range 0 cnt (fun z =>
        if is_edge A j (nb z) && is_edge A k (nb z) then
          sum_range 0 cnt (fun u =>
            indicator (is_edge A j (nb u) && is_edge A k (nb u)
                       && is_edge A (nb z) (nb u)))
        else 0%Z)
    else 0%Z)).
  rewrite sum_range_if. apply sum_range_ext. intros k _.
  rewrite (Hf (fun l =>
    if is_edge A j l && is_edge A k l then
      sum_range 0 cnt (fun u =>
        indicator (is_edge A j (nb u) && is_edge A k (nb u)
                   && is_edge A l (nb u)))
    else 0%Z)).
  rewrite !sum_range_if. apply sum_range_ext. intros l _.
  rewrite (Hf (fun m =>
    indicator (is_edge A j m && is_edge A k m && is_edge A l m))).
  rewrite !sum_range_if. apply sum_range_ext. intros m _.
  destruct (is_edge A i j), (is_edge A i k), (is_edge A i l), (is_edge A i m);
    cbn [andb]; try done;
    destruct (is_edge A j k); cbn [andb]; try done;
    destruct (is_edge A j l); cbn [andb]; try done;
    destruct (is_edge A k l); cbn [andb]; try done.
Qed.

End QuadruplesByPosition.

Lemma local_cliquishness_5thorder_correct (N : nat) (A : matrix Z)
  (degree : list Z) :
  adjacency N A -> length degree = N ->
  (forall i d, degree !! i = Some d -> d = row_sum A i) ->
  (forall i d, degree !! i = Some d -> (4 <= d)%Z ->
     wrap NODE_bits (d * (d - 1) * (d - 2) * (d - 3)) <> 0%Z) ->
  exists lc,
    _local_cliquishness_5thorder N A degree = Ok lc /\
    length lc = N /\
    forall i d, degree !! i = Some d ->
      lc !! i = Some (cliquishness_5_node N A d i).
Proof.
  intros Hadj Hlen Hdeg Hnz. unfold _local_cliquishness_5thorder.
  destruct (for_range_total
    (fun i (s : list nat * list Q) =>
       length s.1 = N /\ length s.2 = N /\
       forall i' d, degree !! i' = Some d ->
         s.2 !! i' = Some (if i' <? i then cliquishness_5_node N A d i'
                           else 0%Q))
    0 N
    (fun i '(neighbors, local_cliquishness) =>
      degree_i <- aget degree i ;;
      if (5 - 1 <=? degree_i)%Z then
        '(neighbors, _) <- collect_neighbors N A i neighbors ;;
        counter <- count_neighbor_cliques A neighbors degree_i ;;
        c <- divide (inject_Z counter)
               (inject_Z (node_mul (node_mul (node_mul degree_i (degree_i - 1))
                                             (degree_i - 2))
                                   (degree_i - 3))) ;;
        local_cliquishness <- aset local_cliquishness i c ;;
        Ok (neighbors, local_cliquishness)
      else Ok (neighbors, local_cliquishness))
    (replicate N 0, replicate N 0%Q))
    as ([buf lc] & Hrun & _ & Hlc & Hval); [lia | | |].
  - cbn [fst snd]. rewrite !length_replicate. repeat split.
    intros i' d Hd. apply lookup_replicate_2.
    rewrite <- Hlen. by eapply lookup_lt_Some.
  - intros i [buf lc] Hi (Hbuf & Hlc & Hval). cbn [fst snd] in *.
    destruct (aget_lt degree i) as (d & -> & Hd); [lia|]. cbn [bind].
    change (5 - 1)%Z with 4%Z.
    destruct (4 <=? d)%Z eqn:Hge.
    + destruct (collect_neighbors_spec N A Hadj i buf)
        as (buf' & -> & Hbuf' & Htake); [lia | done |].
      cbn [bind]. apply Z.leb_le in Hge.
      rewrite normaliser_5_wrap.
      pose proof (Hnz i d Hd Hge) as Hnz_d.
      set (norm := wrap NODE_bits (d * (d - 1) * (d - 2) * (d - 3))) in *.
      rewrite (Hdeg i d Hd), (row_sum_neighbors N A Hadj i) by lia.
      rewrite (count_neighbor_cliques_eval N A Hadj i ltac:(lia) buf' Htake).
      cbn [bind]. rewrite (quadruples_by_position_spec N A i).
      unfold divide.
      destruct (Qeq_bool (inject_Z norm) 0) eqn:Hz.
      { apply Qeq_bool_iff in Hz. unfold Qeq in Hz. simpl in Hz. lia. }
      cbn [bind]. rewrite aset_lt by lia. cbn [bind].
      eexists. split; [done|]. cbn [fst snd].
      rewrite length_insert. repeat split; try done.
      intros i' d' Hd'. destruct (decide (i' = i)) as [->|Hne].
      * rewrite list_lookup_insert_eq by lia.
        assert (d' = d) as -> by congruence.
        rewrite (proj2 (Nat.ltb_lt i (S i))) by lia.
        unfold cliquishness_5_node. by rewrite (proj2 (Z.leb_le 4 d) Hge).
      * rewrite list_lookup_insert_ne by done. rewrite (Hval i' d' Hd').
        destruct (i' <? i) eqn:H1; destruct (i' <? S i) eqn:H2; try done.
        -- apply Nat.ltb_lt in H1. apply Nat.ltb_ge in H2. lia.
        -- apply Nat.ltb_ge in H1. apply Nat.ltb_lt in H2. lia.
    + eexists. split; [done|]. cbn [fst snd]. repeat split; try done.
      intros i' d' Hd'. rewrite (Hval i' d' Hd').
      destruct (decide (i' = i)) as [->|Hne].
      * assert (d' = d) as -> by congruence.
        rewrite (proj2 (Nat.ltb_ge i i)) by lia.
        rewrite (proj2 (Nat.ltb_lt i (S i))) by lia.
        unfold cliquishness_5_node. by rewrite Hge.
      * destruct (i' <? i) eqn:H1; destruct (i' <? S i) eqn:H2; try done.
        -- apply Nat.ltb_lt in H1. apply Nat.ltb_ge in H2. lia.
        -- apply Nat.ltb_ge in H1. apply Nat.ltb_lt in H2. lia.
  - cbn [fst snd] in *. cbv zeta. rewrite Hrun. cbn [bind].
    exists lc. split; [done|]. split; [done|].
    intros i d Hd. rewrite (Hval i d Hd).
    rewrite (proj2 (Nat.ltb_lt i N)); [done|].
    rewrite <- Hlen. by eapply lookup_lt_Some.
Qed.

(** On an adjacency matrix on fewer than [2 ^ 31] nodes with its degree
    sequence, [_local_cliquishness_5thorder] returns, for every node [i]
    with [degree[i] >= 4], the number of ordered quadruples of pairwise
    linked neighbours of [i] divided by the value that [NODE_t] holds for
    [degree_i * (degree_i - 1) * (degree_i - 2) * (degree_i - 3)], which up
    to the degree 216 is the product itself, and 0 for every node with
    [degree[i] < 4]; it never divides by zero. *)
Theorem local_cliquishness_5thorder_spec (N : nat) (A : matrix Z)
  (degree : list Z) :
  adjacency N A -> (Z.of_nat N <= 2147483647)%Z -> length degree = N ->
  (forall i d, degree !! i = Some d -> d = row_sum A i) ->
  exists lc,
    _local_cliquishness_5thorder N A degree = Ok lc /\
    length lc = N /\
    forall i d, degree !! i = Some d ->
      ((4 <= d)%Z ->
       lc !! i = Some (inject_Z (clique_quadruples N A i)
                       / inject_Z (wrap NODE_bits
                                     (d * (d - 1) * (d - 2) * (d - 3))))%Q) /\
      ((4 <= d <= 216)%Z ->
       lc !! i = Some (inject_Z (clique_quadruples N A i)
                       / inject_Z (d * (d - 1) * (d - 2) * (d - 3)))%Q) /\
      ((d < 4)%Z -> lc !! i = Some 0%Q).
Proof.
  intros Hadj HN Hlen Hdeg.
  pose proof (degree_le_nodes N A degree Hadj Hlen Hdeg) as Hle.
  destruct (local_cliquishness_5thorder_correct N A degree Hadj Hlen Hdeg)
    as (lc & Hrun & Hl & Hval).
  { intros i d Hd Hge. rewrite <- normaliser_5_wrap.
    apply normaliser_5_nonzero. specialize (Hle i d Hd). lia. }
  exists lc. split; [done|]. split; [done|]. intros i d Hd.
  specialize (Hval i d Hd). split; [|split].
  - intros Hge. unfold cliquishness_5_node in Hval.
    by rewrite (proj2 (Z.leb_le 4 d) Hge) in Hval.
  - intros [Hge Hfit]. rewrite cliquishness_5_fits in Hval by done.
    unfold cliquishness_5 in Hval.
    by rewrite (proj2 (Z.leb_le 4 d) Hge) in Hval.
  - intros Hlt. unfold cliquishness_5_node in Hval.
    by rewrite (proj2 (Z.leb_gt 4 d) Hlt) in Hval.
Qed.

(** On the complete graph on five nodes every node has four neighbours
    that form a clique, and every entry of the result is [24 / 24]. *)
Lemma local_cliquishness_5thorder_spec_witness :
  exists lc,
    _local_cliquishness_5thorder 5 K5 [4; 4; 4; 4; 4]%Z = Ok lc /\
    lc = [24 / 24; 24 / 24; 24 / 24; 24 / 24; 24 / 24]%Q /\
    length lc = 5 /\
    forall i d, [4; 4; 4; 4; 4]%Z !! i = Some d ->
      lc !! i = Some (inject_Z (clique_quadruples 5 K5 i)
                      / inject_Z (d * (d - 1) * (d - 2) * (d - 3)))%Q.
Proof.
  destruct (local_cliquishness_5thorder_spec 5 K5 [4; 4; 4; 4; 4]%Z)
    as (lc & Hrun & Hlen & Hspec).
  - apply K5_adjacency.
  - done.
  - reflexivity.
  - intros i d Hd. do 5 (try destruct i as [|i]); try discriminate;
      injection Hd as <-; reflexivity.
  - exists lc. split; [done|]. split.
    { vm_compute in Hrun. by injection Hrun as <-. }
    split; [done|]. intros i d Hd.
    destruct (Hspec i d Hd) as (_ & Hfit & _). apply Hfit.
    clear -Hd.
    assert (d = 4%Z) as ->; [|lia].
    do 5 (try destruct i as [|i]); try discriminate; by injection Hd.
Defined.

(** ** network: the range of the local cliquishness *)

Section CliquishnessRange.

Variables (N : nat) (A : matrix Z) (i : nat).
Hypothesis A_adjacency : adjacency N A.

Local Abbreviation cnt := (length (neighbors_of N A i)).
Local Abbreviation nb x := (default 0 (neighbors_of N A i !! x)).

(** Linked neighbours sit at different positions of the neighbour list. *)
Lemma linked_positions (x y : nat) :
  is_edge A (nb x) (nb y) = true -> x <> y.
Proof.
  intros He ->. apply (is_edge_irrefl N A A_adjacency) in He.
  by rewrite Nat.eqb_refl in He.
Qed.

Lemma triples_by_position_range :
  (0 <= triples_by_position N A i
   <= Z.of_nat cnt * (Z.of_nat cnt - 1) * (Z.of_nat cnt - 2))%Z.
Proof.
  unfold triples_by_position. split.
  - apply sum_range_nonneg. intros x _. apply sum_range_nonneg. intros y _.
    destruct (is_edge A _ _); [|lia]. apply sum_range_nonneg. intros z _.
    unfold indicator. destruct (_ && _); lia.
  - transitivity (sum_range 0 cnt (fun x =>
      (Z.of_nat cnt - 1) * (Z.of_nat cnt - 2)))%Z;
      [|rewrite sum_range_const; lia].
    apply sum_range_le. intros x Hx.
    transitivity (sum_range 0 cnt (fun y =>
      if negb (y =? x) then (Z.of_nat cnt - 2)%Z else 0%Z)).
    2:{ rewrite sum_range_guard, count_others_1 by lia. lia. }
    apply sum_range_le. intros y Hy.
    destruct (is_edge A (nb x) (nb y)) eqn:Hxy.
    2:{ destruct (y =? x) eqn:E; cbn [negb]; [lia|].
        apply Nat.eqb_neq in E. lia. }
    apply linked_positions in Hxy.
    rewrite (proj2 (Nat.eqb_neq y x)) by lia. cbn [negb].
    rewrite <- (count_others_2 cnt x y) by lia.
    apply sum_range_le. intros z Hz.
    destruct (is_edge A (nb y) (nb z)) eqn:Hyz;
      [|unfold indicator; simpl; destruct (_ && _); lia].
    destruct (is_edge A (nb z) (nb x)) eqn:Hzx;
      [|unfold indicator; simpl; destruct (_ && _); lia].
    apply linked_positions in Hyz, Hzx.
    rewrite (proj2 (Nat.eqb_neq z x)), (proj2 (Nat.eqb_neq z y)) by lia.
    done.
Qed.

Lemma quadruples_by_position_range :
  (0 <= quadruples_by_position N A i
   <= Z.of_nat cnt * (Z.of_nat cnt - 1) * (Z.of_nat cnt - 2)
      * (Z.of_nat cnt - 3))%Z.
Proof.
  unfold quadruples_by_position. split.
  - apply sum_range_nonneg. intros x _. apply sum_range_nonneg. intros y _.
    destruct (is_edge A _ _); [|lia]. apply sum_range_nonneg. intros z _.
    destruct (_ && _); [|lia]. apply sum_range_nonneg. intros u _.
    unfold indicator. destruct (_ && _); lia.
  - transitivity (sum_range 0 cnt (fun x =>
      (Z.of_nat cnt - 1) * ((Z.of_nat cnt - 2) * (Z.of_nat cnt - 3))))%Z;
      [|rewrite sum_range_const; apply Z.eq_le_incl; ring].
    apply sum_range_le. intros x Hx.
    transitivity (sum_range 0 cnt (fun y =>
      if negb (y =? x)
      then ((Z.of_nat cnt - 2) * (Z.of_nat cnt - 3))%Z else 0%Z)).
    2:{ rewrite sum_range_guard, count_others_1 by lia.
        apply Z.eq_le_incl. ring. }
    apply sum_range_le. intros y Hy.
    destruct (is_edge A (nb x) (nb y)) eqn:Hxy.
    2:{ destruct (y =? x) eqn:E; cbn [negb]; [lia|].
        apply Nat.eqb_neq in E.
        destruct (decide (cnt = 2)) as [E2|E2];
          [rewrite E2; lia | apply Z.mul_nonneg_nonneg; lia]. }
    apply linked_positions in Hxy.
    rewrite (proj2 (Nat.eqb_neq y x)) by lia. cbn [negb].
    transitivity (sum_range 0 cnt (fun z =>
      if negb (z =? x) && negb (z =? y)
      then (Z.of_nat cnt - 3)%Z else 0%Z)).
    2:{ rewrite sum_range_guard, (count_others_2 cnt x y) by lia.
        apply Z.eq_le_incl. ring. }
    apply sum_range_le. intros z Hz.
    assert (0 <= (if negb (Nat.eqb z x) && negb (Nat.eqb z y)
                  then Z.of_nat cnt - 3 else 0))%Z as Hnn.
    { destruct (z =? x) eqn:E1; cbn [negb andb]; [lia|].
      destruct (z =? y) eqn:E2; cbn [negb]; [lia|].
      apply Nat.eqb_neq in E1, E2. lia. }
    destruct (is_edge A (nb x) (nb z)) eqn:Hxz; cbn [andb]; [|done].
    destruct (is_edge A (nb y) (nb z)) eqn:Hyz; [|done].
    apply linked_positions in Hxz, Hyz.
    rewrite (proj2 (Nat.eqb_neq z x)), (proj2 (Nat.eqb_neq z y)) by lia.
    cbn [negb andb].
    rewrite <- (count_others_3 cnt x y z) by lia.
    apply sum_range_le. intros u Hu.
    destruct (is_edge A (nb x) (nb u)) eqn:Hxu;
      [|cbn [andb indicator]; apply indicator_nonneg].
    destruct (is_edge A (nb y) (nb u)) eqn:Hyu;
      [|cbn [andb indicator]; apply indicator_nonneg].
    destruct (is_edge A (nb z) (nb u)) eqn:Hzu;
      [|cbn [andb indicator]; apply indicator_nonneg].
    apply linked_positions in Hxu, Hyu, Hzu.
    rewrite (proj2 (Nat.eqb_neq u x)), (proj2 (Nat.eqb_neq u y)),
      (proj2 (Nat.eqb_neq u z)) by lia.
    done.
Qed.

End CliquishnessRange.

(** On an adjacency matrix with its degree sequence and no degree above
    1291, every entry of the result of [_local_cliquishness_4thorder] lies
    between 0 and 1: the normaliser
    [degree_i * (degree_i - 1) * (degree_i - 2)] then fits [NODE_t], and it
    is the number of triples of distinct neighbours, among which the
    triples of linked neighbours are counted. *)
Theorem local_cliquishness_4thorder_range (N : nat) (A : matrix Z)
  (degree : list Z) :
  adjacency N A -> length degree = N ->
  (forall i d, degree !! i = Some d -> d = row_sum A i) ->
  (forall i d, degree !! i = Some d -> (d <= 1291)%Z) ->
  exists lc,
    _local_cliquishness_4thorder N A degree = Ok lc /\
    forall i v, lc !! i = Some v -> (0 <= v)%Q /\ (v <= 1)%Q.
Proof.
  intros Hadj Hlen Hdeg Hsmall.
  destruct (local_cliquishness_4thorder_correct N A degree Hadj Hlen Hdeg)
    as (lc & Hrun & Hl & Hval).
  { intros i d Hd Hge.
    destruct (normaliser_4_fits d) as [-> Hpos]; [|lia].
    specialize (Hsmall i d Hd). lia. }
  exists lc. split; [done|]. intros i v Hv.
  assert (i < N) as Hi by (rewrite <- Hl; by eapply lookup_lt_Some).
  destruct (lookup_lt_is_Some_2 degree i) as [d Hd]; [lia|].
  rewrite (Hval i d Hd), cliquishness_4_fits in Hv by (by eapply Hsmall).
  injection Hv as <-.
  unfold cliquishness_4. destruct (3 <=? d)%Z eqn:Hge; [|done].
  apply Z.leb_le in Hge.
  pose proof (triples_by_position_range N A i Hadj) as [H0 H1].
  rewrite (triples_by_position_spec N A i Hadj) in H0, H1.
  rewrite <- (row_sum_neighbors N A Hadj i Hi), <- (Hdeg i d Hd) in H1.
  apply Qdiv_unit_interval.
  - rewrite <- (Zle_Qle 0). lia.
  - by rewrite <- Zle_Qle.
  - rewrite <- (Zlt_Qlt 0). nia.
Qed.

Lemma local_cliquishness_4thorder_range_witness :
  exists lc,
    _local_cliquishness_4thorder 5 K5 [4; 4; 4; 4; 4]%Z = Ok lc /\
    forall i v, lc !! i = Some v -> (0 <= v)%Q /\ (v <= 1)%Q.
Proof.
  apply local_cliquishness_4thorder_range.
  - apply K5_adjacency.
  - reflexivity.
  - intros i d Hd. do 5 (try destruct i as [|i]); try discriminate;
      injection Hd as <-; reflexivity.
  - intros i d Hd. do 5 (try destruct i as [|i]); try discriminate;
      injection Hd as <-; lia.
Defined.

(** The same for [_local_cliquishness_5thorder] with no degree above 216:
    every entry of its result lies between 0 and 1. *)
Theorem local_cliquishness_5thorder_range (N : nat) (A : matrix Z)
  (degree : list Z) :
  adjacency N A -> length degree = N ->
  (forall i d, degree !! i = Some d -> d = row_sum A i) ->
  (forall i d, degree !! i = Some d -> (d <= 216)%Z) ->
  exists lc,
    _local_cliquishness_5thorder N A degree = Ok lc /\
    forall i v, lc !! i = Some v -> (0 <= v)%Q /\ (v <= 1)%Q.
Proof.
  intros Hadj Hlen Hdeg Hsmall.
  destruct (local_cliquishness_5thorder_correct N A degree Hadj Hlen Hdeg)
    as (lc & Hrun & Hl & Hval).
  { intros i d Hd Hge.
    destruct (normaliser_5_fits d) as [-> Hpos]; [|lia].
    specialize (Hsmall i d Hd). lia. }
  exists lc. split; [done|]. intros i v Hv.
  assert (i < N) as Hi by (rewrite <- Hl; by eapply lookup_lt_Some).
  destruct (lookup_lt_is_Some_2 degree i) as [d Hd]; [lia|].
  rewrite (Hval i d Hd), cliquishness_5_fits in Hv by (by eapply Hsmall).
  injection Hv as <-.
  unfold cliquishness_5. destruct (4 <=? d)%Z eqn:Hge; [|done].
  apply Z.leb_le in Hge.
  pose proof (quadruples_by_position_range N A i Hadj) as [H0 H1].
  rewrite (quadruples_by_position_spec N A i) in H0, H1.
  rewrite <- (row_sum_neighbors N A Hadj i Hi), <- (Hdeg i d Hd) in H1.
  apply Qdiv_unit_interval.
  - rewrite <- (Zle_Qle 0). lia.
  - by rewrite <- Zle_Qle.
  - rewrite <- (Zlt_Qlt 0).
    repeat apply Z.mul_pos_pos; lia.
Qed.

Lemma local_cliquishness_5thorder_range_witness :
  exists lc,
    _local_cliquishness_5thorder 5 K5 [4; 4; 4; 4; 4]%Z = Ok lc /\
    forall i v, lc !! i = Some v -> (0 <= v)%Q /\ (v <= 1)%Q.
Proof.
  apply local_cliquishness_5thorder_range.
  - apply K5_adjacency.
  - reflexivity.
  - intros i d Hd. do 5 (try destruct i as [|i]); try discriminate;
      injection Hd as <-; reflexivity.
  - intros i d Hd. do 5 (try destruct i as [|i]); try discriminate;
      injection Hd as <-; lia.
Defined.

(** ** network: the whole of [_nsi_betweenness] *)

(** A pass over a neighbour writes to the queue at its end only. *)
Lemma relax_neighbor_prefix (w : list Q) (offsets flat_neighbors : list nat)
  (i next_d x : nat) (st st' : bfs_state) :
  relax_neighbor w offsets flat_neighbors i next_d x st = Ok st' ->
  take (queue_len st) (queue st') = take (queue_len st) (queue st) /\
  queue_len st <= queue_len st'.
Proof.
  unfold relax_neighbor. intros H.
  apply bind_Ok in H as (l & _ & H). apply bind_Ok in H as (dl & _ & H).
  destruct (next_d <=? dl); [|by injection H as <-].
  do 8 (apply bind_Ok in H as (? & _ & H)).
  destruct (next_d <? dl); [|injection H as <-; cbn; split; [done | lia]].
  apply bind_Ok in H as (dist & _ & H).
  apply bind_Ok in H as (q & [_ ->]%aset_Ok & [= <-]). cbn.
  split; [by rewrite take_insert_ge | lia].
Qed.

Section ForwardInvariant.

Variables (N : nat) (w : list Q) (k : list Z) (j : nat).
Variables (offsets flat_neighbors : list nat).

(** A property of the state of the search that may refer to the
    positions of [flat_neighbors] passed so far. *)
Variable P : list nat -> bfs_state -> Prop.

Hypothesis P_relax :
  forall slots qi i next_d x st st',
    visit_inv N k j offsets flat_neighbors qi i next_d st ->
    x ∈ block k offsets i ->
    P slots st ->
    relax_neighbor w offsets flat_neighbors i next_d x st = Ok st' ->
    P (slots ++ [x]) st'.

Lemma visit_preserves (slots : list nat) (qi : nat) (st st' : bfs_state) :
  state_inv N k j offsets flat_neighbors st -> qi < queue_len st ->
  state_span st (state_depth st qi + 1) ->
  P slots st ->
  visit w k offsets flat_neighbors qi st = Ok st' ->
  P (slots ++ block k offsets (node_at (queue st) qi)) st' /\
  take (queue_len st) (queue st') = take (queue_len st) (queue st).
Proof.
  intros Hinv Hqi Hspan HP. unfold visit.
  intros (i & Hi%aget_Ok & H)%bind_Ok.
  apply bind_Ok in H as (di & Hdi%aget_Ok & H).
  apply bind_Ok in H as (oi & Hoi%aget_Ok & H).
  apply bind_Ok in H as (ki & Hki%aget_Ok & H).
  assert (node_at (queue st) qi = i) as Hnode
    by (unfold node_at; by rewrite Hi).
  assert (state_depth st qi = di) as Hdepth.
  { unfold state_depth, depth, dist_of. by rewrite Hnode, Hdi. }
  rewrite Hdepth in *. rewrite Hnode.
  assert (reachable k j offsets flat_neighbors i) as Hreach.
  { destruct Hinv as (_ & Hql & Hle & _ & Hrange & _).
    apply Hrange. rewrite <- Hnode. apply node_at_queued; lia. }
  assert (block k offsets i = seq oi (Z.to_nat ki)) as Hblock
    by (unfold block; by rewrite Hoi, Hki).
  pose proof (for_range_partial
    (fun x s =>
       visit_inv N k j offsets flat_neighbors qi i (di + 1) s /\
       P (slots ++ seq oi (x - oi)) s /\
       take (queue_len st) (queue s) = take (queue_len st) (queue st) /\
       queue_len st <= queue_len s)
    oi (oi + Z.to_nat ki)
    (relax_neighbor w offsets flat_neighbors i (di + 1)) st st') as Hloop.
  destruct Hloop as (_ & HP' & Hprefix & _); [lia | | | done |].
  - rewrite Nat.sub_diag. simpl. rewrite app_nil_r.
    split; [|split; [exact HP | split; [done | lia]]].
    unfold visit_inv. rewrite Hdepth. split; [exact Hinv|].
    split; [exact Hspan|]. by split.
  - intros x s s' Hx (Hvisit & HPs & Hprefix & Hlen) Hrun.
    destruct (relax_neighbor_inv N w k j offsets flat_neighbors qi i (di + 1)
                x s s' Hvisit Hreach) as [Hvisit' Hlen'];
      [by exists oi, ki | done |].
    destruct (relax_neighbor_prefix _ _ _ _ _ _ _ _ Hrun) as [Hpre _].
    split; [done|]. split; [|split; [|lia]].
    + replace (S x - oi) with (S (x - oi)) by lia.
      rewrite seq_S, app_assoc. replace (oi + (x - oi)) with x by lia.
      apply (P_relax _ qi i (di + 1) x s s'); [done | | done | done].
      rewrite Hblock. apply elem_of_seq. lia.
    + rewrite <- Hprefix.
      assert (forall q : list nat,
                take (queue_len st) q
                = take (queue_len st) (take (queue_len s) q)) as Htt.
      { intros q. rewrite take_take. f_equal. lia. }
      by rewrite (Htt (queue s')), Hpre, <- Htt.
  - split; [|done]. rewrite Hblock.
    by replace (oi + Z.to_nat ki - oi) with (Z.to_nat ki) in HP' by lia.
Qed.

Lemma forward_loop_preserves (fuel qi : nat) (st st' : bfs_state) :
  state_inv N k j offsets flat_neighbors st -> qi <= queue_len st ->
  (qi < queue_len st -> state_span st (state_depth st qi + 1)) ->
  P (take qi (queue st) ≫= block k offsets) st ->
  forward_loop w k offsets flat_neighbors fuel qi st = Ok st' ->
  P (take (queue_len st') (queue st') ≫= block k offsets) st'.
Proof.
  revert qi st. induction fuel as [|fuel IH]; intros qi st Hinv Hqi Hspan HP;
    simpl.
  - destruct (qi <? queue_len st) eqn:Hlt; [discriminate|].
    intros [= <-]. apply Nat.ltb_ge in Hlt.
    by replace (queue_len st) with qi by lia.
  - destruct (qi <? queue_len st) eqn:Hlt.
    2:{ intros [= <-]. apply Nat.ltb_ge in Hlt.
        by replace (queue_len st) with qi by lia. }
    apply Nat.ltb_lt in Hlt.
    intros (st1 & Hvisit & Hrest)%bind_Ok.
    destruct (visit_keeps_inv N w k j offsets flat_neighbors qi st st1
                Hinv Hlt (Hspan Hlt) Hvisit)
      as (Hinv1 & Hspan1 & Hlen1 & Hdepth1).
    destruct (visit_preserves _ qi st st1 Hinv Hlt (Hspan Hlt) HP Hvisit)
      as [HP1 Hprefix].
    pose proof Hinv as (_ & Hql & Hle & _).
    destruct (node_at_queued (queue st) (queue_len st) qi) as [Hi _];
      [done | lia |].
    apply (IH (S qi) st1); [done | lia | | | done].
    + intros Hnext q Hq. specialize (Hspan1 q Hq).
      destruct Hinv1 as (_ & _ & _ & _ & _ & _ & Hsorted & _).
      specialize (Hsorted qi (S qi) ltac:(lia) Hnext).
      unfold state_depth in *. lia.
    + assert (queue st1 !! qi = Some (node_at (queue st) qi)) as Hqi1.
      { rewrite <- (lookup_take_lt (queue st1) (queue_len st)) by lia.
        rewrite Hprefix. by rewrite lookup_take_lt by lia. }
      rewrite (take_S_r _ _ _ Hqi1), bind_app.
      replace (take qi (queue st1)) with (take qi (queue st)).
      * replace ([node_at (queue st) qi] ≫= block k offsets)
          with (block k offsets (node_at (queue st) qi)); [done|].
        simpl. by rewrite app_nil_r.
      * replace (take qi (queue st))
          with (take qi (take (queue_len st) (queue st)))
          by (rewrite take_take; f_equal; lia).
        rewrite <- Hprefix. rewrite take_take. f_equal. lia.
Qed.

(** What holds of the initial state for no position passed and is kept by
    every pass over a neighbour holds, when the forward phase returns, for
    the positions of the neighbours of all queued nodes. *)
Lemma nsi_betweenness_forward_preserves (is_source : list Z)
  (betweenness excess : list Q) (flat_pred : list nat) (st : bfs_state) :
  (forall st0, forward_init N w j is_source betweenness excess flat_pred = Ok st0 ->
     P [] st0) ->
  nsi_betweenness_forward N w k j offsets flat_neighbors is_source
    betweenness excess flat_pred = Ok st ->
  P (take (queue_len st) (queue st) ≫= block k offsets) st.
Proof.
  intros Hinit. unfold nsi_betweenness_forward.
  intros (st0 & Hst0 & Hloop)%bind_Ok.
  destruct (forward_init_inv N w k j offsets flat_neighbors is_source
              betweenness excess flat_pred st0 Hst0) as (Hinv & Hlen & Hspan).
  apply (forward_loop_preserves N 0 st0 st); [done | lia | done | | done].
  simpl. by apply Hinit.
Qed.

End ForwardInvariant.

Lemma elem_of_take_mono {T : Type} (l l' : list T) (n n' : nat) (x : T) :
  take n l' = take n l -> n <= n' -> x ∈ take n l -> x ∈ take n' l'.
Proof.
  intros Heq Hle Hx. rewrite <- Heq in Hx.
  apply elem_of_take in Hx as (p & Hp & Hlt). apply elem_of_take.
  exists p. split; [done | lia].
Qed.

Section SearchIsComplete.

Variables (N : nat) (w : list Q) (k : list Z) (j : nat).
Variables (offsets flat_neighbors : list nat).

(** The source is queued, and so is every node listed at one of the
    positions [slots] of [flat_neighbors]. *)
Definition closed_inv (slots : list nat) (st : bfs_state) : Prop :=
  j ∈ take (queue_len st) (queue st) /\
  forall idx l, idx ∈ slots -> flat_neighbors !! idx = Some l ->
    l ∈ take (queue_len st) (queue st).

Lemma closed_inv_relax (slots : list nat) (qi i next_d x : nat)
  (st st' : bfs_state) :
  visit_inv N k j offsets flat_neighbors qi i next_d st ->
  x ∈ block k offsets i ->
  closed_inv slots st ->
  relax_neighbor w offsets flat_neighbors i next_d x st = Ok st' ->
  closed_inv (slots ++ [x]) st'.
Proof.
  intros (Hinv & Hspan & Hqi & Hnode & Hnext) _ [Hj Hclosed] Hrun.
  destruct (relax_neighbor_prefix _ _ _ _ _ _ _ _ Hrun) as [Hpre Hlen].
  assert (forall v, v ∈ take (queue_len st) (queue st) ->
            v ∈ take (queue_len st') (queue st')) as Hmono
    by (intros v; by apply elem_of_take_mono).
  split; [by apply Hmono|].
  intros idx l [Hidx | ->%list_elem_of_singleton]%elem_of_app Hl;
    [by apply Hmono, (Hclosed idx)|].
  destruct Hinv as (Hdl & Hql & Hle & _ & _ & Hundisc & _ & Hpos).
  specialize (Hpos qi Hqi). unfold state_depth in Hnext.
  assert (forall dl, distances_to_j st !! l = Some dl -> dl <> 2 * N ->
            l ∈ take (queue_len st) (queue st)) as Hknown.
  { intros dl Hdl' Hne.
    destruct (decide (l ∈ take (queue_len st) (queue st))) as [|Hnot];
      [done|].
    rewrite (Hundisc l) in Hdl'; [congruence | | done].
    rewrite <- Hdl. by eapply lookup_lt_Some. }
  revert Hrun. unfold relax_neighbor. rewrite (proj2 (aget_Ok _ _ _) Hl).
  cbn [bind]. intros (dl & Hdl'%aget_Ok & H)%bind_Ok.
  destruct (next_d <=? dl) eqn:Hge.
  2:{ injection H as <-. apply Nat.leb_gt in Hge.
      apply (Hknown dl); [done | lia]. }
  apply Nat.leb_le in Hge.
  do 8 (apply bind_Ok in H as (? & _ & H)).
  destruct (next_d <? dl) eqn:Hgt.
  - apply bind_Ok in H as (dist & _ & H).
    apply bind_Ok in H as (q & [Hroom ->]%aset_Ok & [= <-]). cbn.
    rewrite take_snoc_insert by done. apply elem_of_app. right.
    by apply list_elem_of_singleton.
  - injection H as <-. cbn. apply Nat.ltb_ge in Hgt.
    apply (Hknown dl); [done | lia].
Qed.

Lemma closed_inv_init (is_source : list Z) (betweenness excess : list Q)
  (flat_pred : list nat) (st0 : bfs_state) :
  forward_init N w j is_source betweenness excess flat_pred = Ok st0 ->
  closed_inv [] st0.
Proof.
  unfold forward_init. intros ([b e] & _ & H)%bind_Ok.
  apply bind_Ok in H as (dist & _ & H).
  apply bind_Ok in H as (q & [H0 ->]%aset_Ok & H).
  apply bind_Ok in H as (wj & _ & H).
  apply bind_Ok in H as (mult & _ & [= <-]).
  split; cbn.
  - apply elem_of_take. exists 0. split; [|lia].
    by apply list_lookup_insert_eq.
  - intros idx l Hidx. by apply elem_of_nil in Hidx.
Qed.

Lemma forward_search_complete (is_source : list Z) (betweenness excess : list Q)
  (flat_pred : list nat) (st : bfs_state) (v : nat) :
  nsi_betweenness_forward N w k j offsets flat_neighbors is_source
    betweenness excess flat_pred = Ok st ->
  reachable k j offsets flat_neighbors v ->
  v ∈ take (queue_len st) (queue st).
Proof.
  intros Hrun.
  destruct (nsi_betweenness_forward_preserves N w k j offsets flat_neighbors
              closed_inv closed_inv_relax is_source betweenness excess
              flat_pred st (closed_inv_init _ _ _ _) Hrun) as [Hj Hclosed].
  induction 1 as [|i l Hi IH (oi & ki & idx & Hoi & Hki & Hidx & Hl)];
    [done|].
  apply (Hclosed idx l); [|done].
  apply list_elem_of_bind. exists i. split; [|done].
  unfold block. rewrite Hoi, Hki. simpl. apply elem_of_seq. lia.
Qed.

End SearchIsComplete.

(** The search of the forward phase of [_nsi_betweenness] is complete:
    when the phase returns, the nodes in the queue are exactly the nodes
    that can be reached from [j] through the flattened neighbour lists, and
    every one of them has a distance below [N]. *)
Theorem nsi_betweenness_forward_reaches_all (N : nat) (w : list Q) (k : list Z)
  (j : nat) (offsets flat_neighbors : list nat) (is_source : list Z)
  (betweenness excess : list Q) (flat_pred : list nat) (st : bfs_state) :
  nsi_betweenness_forward N w k j offsets flat_neighbors is_source
    betweenness excess flat_pred = Ok st ->
  forall v,
    (reachable k j offsets flat_neighbors v
     <-> v ∈ take (queue_len st) (queue st)) /\
    (reachable k j offsets flat_neighbors v ->
     exists d, distances_to_j st !! v = Some d /\ d < N).
Proof.
  intros Hrun v.
  pose proof (nsi_betweenness_forward_inv N w k j offsets flat_neighbors
                is_source betweenness excess flat_pred st Hrun)
    as (Hdl & Hql & Hle & Hnd & Hrange & Hundisc & Hsorted & Hpos).
  pose proof (forward_search_complete N w k j offsets flat_neighbors
                is_source betweenness excess flat_pred st v Hrun) as Hall.
  split; [split; [done | by apply Hrange]|].
  intros Hreach. specialize (Hall Hreach).
  apply queued_position in Hall as (p & Hp & Hqp).
  destruct (Hrange v) as [Hv _].
  { apply elem_of_take. exists p. by split. }
  destruct (lookup_lt_is_Some_2 (distances_to_j st) v) as [d Hd]; [lia|].
  exists d. split; [done|]. specialize (Hpos p Hp).
  unfold depth, node_at, dist_of in Hpos. rewrite Hqp in Hpos. simpl in Hpos.
  rewrite Hd in Hpos. simpl in Hpos. lia.
Qed.

Lemma nsi_betweenness_forward_reaches_all_witness :
  let w := [1; 1; 1; 1]%Q in
  let k := [1; 2; 1; 0]%Z in
  let offsets := [0; 1; 3; 4] in
  let flat_neighbors := [1; 0; 2; 1] in
  let is_source := [1; 1; 1; 1]%Z in
  exists st,
    nsi_betweenness_forward 4 w k 0 offsets flat_neighbors is_source
      w w [0; 0; 0; 0] = Ok st /\
    take (queue_len st) (queue st) = [0; 1; 2] /\
    (reachable k 0 offsets flat_neighbors 2
     <-> 2 ∈ take (queue_len st) (queue st)) /\
    (reachable k 0 offsets flat_neighbors 2 ->
     exists d, distances_to_j st !! 2 = Some d /\ d < 4).
Proof.
  intros w k offsets flat_neighbors is_source.
  eexists. split; [reflexivity|]. split; [reflexivity|].
  apply (nsi_betweenness_forward_reaches_all 4 w k 0 offsets flat_neighbors
           is_source w w [0; 0; 0; 0]).
  reflexivity.
Defined.

(** What a pass over the neighbour at position [x] does when it returns:
    nothing, or it registers [i] as a predecessor of the neighbour [l],
    adds to the multiplicity of [l] and, for a new node, appends it to the
    queue. *)
Lemma relax_neighbor_cases (w : list Q) (offsets flat_neighbors : list nat)
  (i next_d x : nat) (st st' : bfs_state) :
  relax_neighbor w offsets flat_neighbors i next_d x st = Ok st' ->
  st' = st \/
  exists l ol np ml wl mi,
    flat_neighbors !! x = Some l /\
    offsets !! l = Some ol /\ n_predecessors st !! l = Some np /\
    ol + np < length (flat_predecessors st) /\
    multiplicity_to_j st !! l = Some ml /\ w !! l = Some wl /\
    multiplicity_to_j st !! i = Some mi /\
    n_predecessors st' = <[l := np + 1]> (n_predecessors st) /\
    flat_predecessors st' = <[ol + np := i]> (flat_predecessors st) /\
    multiplicity_to_j st' = <[l := (ml + wl * mi)%Q]> (multiplicity_to_j st) /\
    betweenness_to_j st' = betweenness_to_j st /\
    excess_to_j st' = excess_to_j st /\
    ((queue st' = queue st /\ queue_len st' = queue_len st) \/
     (queue st' = <[queue_len st := l]> (queue st) /\
      queue_len st' = queue_len st + 1 /\
      queue_len st < length (queue st))).
Proof.
  unfold relax_neighbor. intros H.
  apply bind_Ok in H as (l & Hl%aget_Ok & H).
  apply bind_Ok in H as (dl & _ & H).
  destruct (next_d <=? dl); [|left; by injection H as <-].
  right.
  apply bind_Ok in H as (ol & Hol%aget_Ok & H).
  apply bind_Ok in H as (np & Hnp%aget_Ok & H).
  apply bind_Ok in H as (n_pred & [_ ->]%aset_Ok & H).
  apply bind_Ok in H as (flat_pred & [Hfi ->]%aset_Ok & H).
  apply bind_Ok in H as (ml & Hml%aget_Ok & H).
  apply bind_Ok in H as (wl & Hwl%aget_Ok & H).
  apply bind_Ok in H as (mi & Hmi%aget_Ok & H).
  apply bind_Ok in H as (mult & [_ ->]%aset_Ok & H).
  exists l, ol, np, ml, wl, mi.
  destruct (next_d <? dl).
  - apply bind_Ok in H as (dist & _ & H).
    apply bind_Ok in H as (q & [Hroom ->]%aset_Ok & [= <-]). cbn.
    repeat (split; [done|]). right. done.
  - injection H as <-. cbn. repeat (split; [done|]). left. done.
Qed.

Section WholeKernel.

Variables (N : nat) (w : list Q) (k : list Z) (j : nat).
Variables (offsets flat_neighbors : list nat).

(** What the backward phase relies on: the buffers the forward phase
    leaves alone, the source at the head of the queue, and predecessor
    lists that hold queued nodes. *)
Definition pred_inv (b0 e0 : list Q) (st : bfs_state) : Prop :=
  length (n_predecessors st) = N /\ length (multiplicity_to_j st) = N /\
  betweenness_to_j st = b0 /\ excess_to_j st = e0 /\
  queue st !! 0 = Some j /\ 1 <= queue_len st /\
  forall l ol c c',
    offsets !! l = Some ol -> n_predecessors st !! l = Some c -> c' < c ->
    exists i, flat_predecessors st !! (ol + c') = Some i /\
              i ∈ take (queue_len st) (queue st).

Lemma pred_inv_relax (b0 e0 : list Q) (slots : list nat) (qi i next_d x : nat)
  (st st' : bfs_state) :
  visit_inv N k j offsets flat_neighbors qi i next_d st ->
  x ∈ block k offsets i ->
  pred_inv b0 e0 st ->
  relax_neighbor w offsets flat_neighbors i next_d x st = Ok st' ->
  pred_inv b0 e0 st'.
Proof.
  intros (Hinv & _ & Hqi & Hnode & _) _
    (Hnp & Hmult & Hb & He & Hhead & Hlen1 & Hpreds) Hrun.
  destruct (relax_neighbor_prefix _ _ _ _ _ _ _ _ Hrun) as [Hpre Hlen].
  assert (forall v, v ∈ take (queue_len st) (queue st) ->
            v ∈ take (queue_len st') (queue st')) as Hmono
    by (intros v; by apply elem_of_take_mono).
  assert (i ∈ take (queue_len st) (queue st)) as Hi.
  { destruct Hinv as (_ & Hql & Hle & _). rewrite <- Hnode.
    apply node_at_queued; lia. }
  apply relax_neighbor_cases in Hrun
    as [-> | (l & ol & np & ml & wl & mi & Hl & Hol & Hnpl & Hfi & _ & _ & _ &
              Hnp' & Hfp' & Hmult' & Hb' & He' & Hq)];
    [done|].
  unfold pred_inv. rewrite Hnp', Hfp', Hmult', Hb', He', !length_insert.
  repeat (split; [done|]).
  split; [|split; [lia|]].
  - destruct Hq as [[-> _] | (-> & _ & _)]; [done|].
    by rewrite list_lookup_insert_ne by lia.
  - intros l' ol' c c' Hol' Hc Hc'.
    destruct (decide (ol' + c' = ol + np)) as [Heq|Hne].
    + rewrite Heq. exists i. split; [|by apply Hmono].
      by apply list_lookup_insert_eq.
    + rewrite list_lookup_insert_ne by done.
      destruct (decide (l' = l)) as [->|Hl'].
      * rewrite list_lookup_insert_eq in Hc by (by eapply lookup_lt_Some).
        injection Hc as <-. assert (ol' = ol) as -> by congruence.
        destruct (Hpreds l ol np c' Hol Hnpl ltac:(lia)) as (i0 & ? & ?).
        exists i0. split; [done | by apply Hmono].
      * rewrite list_lookup_insert_ne in Hc by done.
        destruct (Hpreds l' ol' c c' Hol' Hc Hc') as (i0 & ? & ?).
        exists i0. split; [done | by apply Hmono].
Qed.

(** The values that the initialisation stores for every node. *)
Lemma forward_init_values (is_source : list Z) (betweenness excess : list Q)
  (flat_pred : list nat) (st0 : bfs_state) :
  forward_init N w j is_source betweenness excess flat_pred = Ok st0 ->
  pred_inv (betweenness_to_j st0) (excess_to_j st0) st0 /\
  forall l s x, l < N -> is_source !! l = Some s -> w !! l = Some x ->
    betweenness_to_j st0 !! l = Some (inject_Z s * x)%Q /\
    excess_to_j st0 !! l = Some (inject_Z s * x)%Q.
Proof.
  unfold forward_init. intros ([b e] & Hloop & H)%bind_Ok.
  apply bind_Ok in H as (dist & _ & H).
  apply bind_Ok in H as (q & [H0 ->]%aset_Ok & H).
  apply bind_Ok in H as (wj & _ & H).
  apply bind_Ok in H as (mult & [_ ->]%aset_Ok & [= <-]).
  split.
  - unfold pred_inv. cbn. rewrite length_insert, !length_replicate.
    repeat (split; [done|]). split; [by apply list_lookup_insert_eq|].
    split; [lia|]. intros l ol c c' _ [-> _]%lookup_replicate. lia.
  - cbn. revert Hloop.
    apply (for_range_partial
      (fun i (s : list Q * list Q) =>
         forall l s0 x, l < i -> is_source !! l = Some s0 -> w !! l = Some x ->
           s.1 !! l = Some (inject_Z s0 * x)%Q /\
           s.2 !! l = Some (inject_Z s0 * x)%Q)); [lia | intros; lia |].
    intros i [b1 e1] s' _ Hdone Hbody.
    apply bind_Ok in Hbody as (src & Hsrc%aget_Ok & Hbody).
    apply bind_Ok in Hbody as (wl & Hwl%aget_Ok & Hbody).
    apply bind_Ok in Hbody as (e2 & [He ->]%aset_Ok & Hbody).
    apply bind_Ok in Hbody as (b2 & [Hb ->]%aset_Ok & [= <-]).
    intros l s0 x Hl Hs0 Hx. cbn [fst snd] in *.
    destruct (decide (l = i)) as [->|Hne].
    + rewrite !list_lookup_insert_eq by done.
      assert (s0 = src) as -> by congruence.
      assert (x = wl) as -> by congruence. done.
    + rewrite !list_lookup_insert_ne by done. apply Hdone; [lia | done | done].
Qed.

(** The forward phase, when it returns, leaves the initial values in
    [betweenness_to_j] and [excess_to_j]. *)
Lemma forward_phase_facts (is_source : list Z) (betweenness excess : list Q)
  (flat_pred : list nat) (st : bfs_state) :
  nsi_betweenness_forward N w k j offsets flat_neighbors is_source
    betweenness excess flat_pred = Ok st ->
  state_inv N k j offsets flat_neighbors st /\
  pred_inv (betweenness_to_j st) (excess_to_j st) st /\
  forall l s x, l < N -> is_source !! l = Some s -> w !! l = Some x ->
    betweenness_to_j st !! l = Some (inject_Z s * x)%Q /\
    excess_to_j st !! l = Some (inject_Z s * x)%Q.
Proof.
  intros Hrun.
  pose proof (nsi_betweenness_forward_inv N w k j offsets flat_neighbors
                is_source betweenness excess flat_pred st Hrun) as Hinv.
  pose proof Hrun as Hrun'. unfold nsi_betweenness_forward in Hrun'.
  apply bind_Ok in Hrun' as (st0 & Hst0 & _).
  destruct (forward_init_values is_source betweenness excess flat_pred st0 Hst0)
    as [Hpred0 Hvalues].
  pose proof (nsi_betweenness_forward_preserves N w k j offsets flat_neighbors
                (fun _ => pred_inv (betweenness_to_j st0) (excess_to_j st0))
                (pred_inv_relax _ _) is_source betweenness excess flat_pred st)
    as Hpred.
  destruct Hpred as (H1 & H2 & Hb & He & H5); [|done|].
  { intros st0' Hst0'. by replace st0' with st0 by congruence. }
  split; [done|]. rewrite Hb, He. split; [|done].
  unfold pred_inv. by rewrite Hb, He.
Qed.

(** The buffers that only the forward phase writes. *)
Definition same_search (st s : bfs_state) : Prop :=
  distances_to_j s = distances_to_j st /\
  n_predecessors s = n_predecessors st /\
  queue s = queue st /\ queue_len s = queue_len st /\
  multiplicity_to_j s = multiplicity_to_j st /\
  flat_predecessors s = flat_predecessors st.

(** The backward phase after [n] of its passes. *)
Definition backward_inv (st : bfs_state) (n : nat) (s : bfs_state) : Prop :=
  same_search st s /\
  (forall l, l <> j -> excess_to_j s !! l = excess_to_j st !! l) /\
  (forall l, ~ reachable k j offsets flat_neighbors l ->
     betweenness_to_j s !! l = betweenness_to_j st !! l) /\
  (n = queue_len st ->
   betweenness_to_j s !! j = Some 0%Q /\ excess_to_j s !! j = Some 0%Q).

Lemma rev_seq_lookup (n p x : nat) :
  rev (seq 0 n) !! p = Some x -> p < n /\ x = n - S p.
Proof.
  rewrite rev_alt. change (rev_append (seq 0 n) []) with (reverse (seq 0 n)).
  intros [Hx Hp]%reverse_lookup_Some. rewrite length_seq in Hx, Hp.
  apply lookup_seq in Hx. lia.
Qed.

Lemma backward_visit_inv (st : bfs_state) (n x : nat) (s s' : bfs_state) :
  state_inv N k j offsets flat_neighbors st ->
  pred_inv (betweenness_to_j st) (excess_to_j st) st ->
  n < queue_len st -> x = queue_len st - S n ->
  backward_inv st n s ->
  backward_visit w j offsets x s = Ok s' ->
  backward_inv st (S n) s'.
Proof.
  intros Hinv (_ & _ & _ & _ & Hhead & Hlen1 & Hpreds) Hn Hx
    ((Hd & Hnp & Hq & Hql & Hm & Hfp) & Hexc & Hbet & _).
  unfold backward_visit. rewrite Hq, Hnp, Hm, Hfp.
  intros (l & Hl%aget_Ok & H)%bind_Ok.
  destruct (l =? j) eqn:Hlj.
  - apply Nat.eqb_eq in Hlj as ->.
    apply bind_Ok in H as (b' & [Hjb ->]%aset_Ok & H).
    apply bind_Ok in H as (e' & [Hje ->]%aset_Ok & [= <-]).
    unfold backward_inv, same_search. cbn. rewrite Hd, Hql.
    split; [done|]. split; [|split].
    + intros l Hne. rewrite list_lookup_insert_ne by done. by apply Hexc.
    + intros l Hunreach. rewrite list_lookup_insert_ne; [by apply Hbet|].
      intros <-. apply Hunreach. constructor.
    + intros _. by rewrite !list_lookup_insert_eq.
  - apply Nat.eqb_neq in Hlj.
    apply bind_Ok in H as (wl & _ & H). apply bind_Ok in H as (ml & _ & H).
    apply bind_Ok in H as (base_factor & _ & H).
    apply bind_Ok in H as (ol & Hol%aget_Ok & H).
    apply bind_Ok in H as (np & Hnpl%aget_Ok & H).
    apply bind_Ok in H as (b' & Hloop & [= <-]).
    unfold backward_inv, same_search. cbn. rewrite Hd, Hql.
    split; [done|]. split; [done|]. split.
    + revert Hloop.
      apply (for_range_partial
        (fun _ b => forall l', ~ reachable k j offsets flat_neighbors l' ->
           b !! l' = betweenness_to_j st !! l')); [lia | done |].
      intros fi b1 b2 Hfi Hb1 Hbody.
      apply bind_Ok in Hbody as (i & Hi%aget_Ok & Hbody).
      apply bind_Ok in Hbody as (bi & _ & Hbody).
      apply bind_Ok in Hbody as (bl & _ & Hbody).
      apply bind_Ok in Hbody as (mi & _ & [_ ->]%aset_Ok).
      destruct (Hpreds l ol np (fi - ol) Hol Hnpl ltac:(lia))
        as (i0 & Hi0 & Hqueued).
      replace (ol + (fi - ol)) with fi in Hi0 by lia.
      assert (i0 = i) as -> by congruence.
      destruct Hinv as (_ & _ & _ & _ & Hrange & _).
      destruct (Hrange i Hqueued) as [_ Hreach].
      intros l' Hunreach. rewrite list_lookup_insert_ne; [by apply Hb1|].
      intros <-. done.
    + intros Hlast. assert (x = 0) as -> by lia.
      rewrite Hhead in Hl. congruence.
Qed.

Lemma backward_phase_facts (st st' : bfs_state) :
  state_inv N k j offsets flat_neighbors st ->
  pred_inv (betweenness_to_j st) (excess_to_j st) st ->
  for_each (rev (seq 0 (queue_len st))) (backward_visit w j offsets) st = Ok st' ->
  backward_inv st (queue_len st) st'.
Proof.
  intros Hinv Hpred Hrun.
  pose proof (for_each_partial (backward_inv st) (rev (seq 0 (queue_len st)))
                (backward_visit w j offsets) st st') as Hloop.
  rewrite length_rev, length_seq in Hloop. apply Hloop; [| |done].
  - split; [done|]. split; [done|]. split; [done|].
    intros Hz. destruct Hpred as (_ & _ & _ & _ & _ & Hlen & _). lia.
  - intros n x s s' [Hn Hx]%rev_seq_lookup Hs Hbody.
    by apply (backward_visit_inv st n x s s').
Qed.

End WholeKernel.

(** When [_nsi_betweenness] returns, the target [j] has betweenness and
    excess 0; every other node [l] has the excess [is_source[l] * w[l]] it
    was given at the start; a node that cannot be reached from [j] has
    kept the betweenness [is_source[l] * w[l]] as well, paths to [j]
    contribute nothing to it; and the distances and the queue are those of
    the forward phase. *)
Theorem nsi_betweenness_target_and_unreached (N : nat) (w : list Q)
  (k : list Z) (j : nat) (offsets flat_neighbors : list nat)
  (is_source : list Z) (betweenness excess : list Q) (flat_pred : list nat)
  (st : bfs_state) :
  _nsi_betweenness N w k j offsets flat_neighbors is_source
    betweenness excess flat_pred = Ok st ->
  betweenness_to_j st !! j = Some 0%Q /\
  excess_to_j st !! j = Some 0%Q /\
  (forall l s x, l < N -> l <> j ->
     is_source !! l = Some s -> w !! l = Some x ->
     excess_to_j st !! l = Some (inject_Z s * x)%Q) /\
  (forall l s x, l < N -> ~ reachable k j offsets flat_neighbors l ->
     is_source !! l = Some s -> w !! l = Some x ->
     betweenness_to_j st !! l = Some (inject_Z s * x)%Q) /\
  exists stf,
    nsi_betweenness_forward N w k j offsets flat_neighbors is_source
      betweenness excess flat_pred = Ok stf /\
    distances_to_j st = distances_to_j stf /\
    queue st = queue stf /\ queue_len st = queue_len stf.
Proof.
  unfold _nsi_betweenness. intros (stf & Hfwd & Hbwd)%bind_Ok.
  destruct (forward_phase_facts N w k j offsets flat_neighbors is_source
              betweenness excess flat_pred stf Hfwd) as (Hinv & Hpred & Hvalues).
  destruct (backward_phase_facts N w k j offsets flat_neighbors stf st
              Hinv Hpred Hbwd)
    as ((Hd & _ & Hq & Hql & _) & Hexc & Hbet & Hlast).
  destruct (Hlast eq_refl) as [Hbj Hej].
  split; [done|]. split; [done|]. split; [|split].
  - intros l s x Hl Hne Hs Hx. rewrite (Hexc l Hne).
    by apply (Hvalues l s x).
  - intros l s x Hl Hunreach Hs Hx. rewrite (Hbet l Hunreach).
    by apply (Hvalues l s x).
  - exists stf. done.
Qed.

Lemma nsi_betweenness_target_and_unreached_witness :
  let w := [1; 2; 1; 3]%Q in
  let k := [1; 2; 1; 0]%Z in
  let offsets := [0; 1; 3; 4] in
  let flat_neighbors := [1; 0; 2; 1] in
  let is_source := [1; 1; 1; 1]%Z in
  exists st,
    _nsi_betweenness 4 w k 0 offsets flat_neighbors is_source
      w w [0; 0; 0; 0] = Ok st /\
    betweenness_to_j st !! 0 = Some 0%Q /\
    excess_to_j st !! 0 = Some 0%Q /\
    excess_to_j st !! 3 = Some (inject_Z 1 * 3)%Q.
Proof.
  intros w k offsets flat_neighbors is_source.
  eexists. split; [vm_compute; reflexivity|].
  match goal with
  | |- betweenness_to_j ?st !! _ = _ /\ _ =>
      destruct (nsi_betweenness_target_and_unreached 4 w k 0 offsets
                  flat_neighbors is_source w w [0; 0; 0; 0] st)
        as (Hb & He & Hexc & _); [vm_compute; reflexivity|]
  end.
  split; [exact Hb|]. split; [exact He|].
  apply (Hexc 3 1%Z 3%Q); [lia | lia | reflexivity | reflexivity].
Defined.

(** ** network: splitting the row range of the random-walk betweenness *)

Lemma dims_take {T : Type} (r c n : nat) (A : matrix T) :
  dims r c A -> n <= r -> dims n c (take n A).
Proof.
  intros [Hlen Hrows] Hn. split; [rewrite length_take; lia|].
  by apply Forall_take.
Qed.

Lemma dims_drop {T : Type} (r c n : nat) (A : matrix T) :
  dims r c A -> dims (r - n) c (drop n A).
Proof.
  intros [Hlen Hrows]. split; [rewrite length_drop; lia|].
  by apply Forall_drop.
Qed.

Lemma mget_take {T : Type} (A : matrix T) (n i j : nat) :
  i < n -> mget (take n A) i j = mget A i j.
Proof. intros Hi. unfold mget, aget. by rewrite lookup_take_lt. Qed.

Lemma mget_drop {T : Type} (A : matrix T) (n i j : nat) :
  mget (drop n A) i j = mget A (n + i) j.
Proof. unfold mget, aget. by rewrite lookup_drop. Qed.

(** The work can be split between jobs: calling [_mpi_newman_betweenness]
    for the row range from [start_i] to [mid_i] on the first rows of
    [this_A] and for the range from [mid_i] to [end_i] on the remaining
    rows, and putting the two vectors one after the other, gives the
    entries of the vector of the call for the whole range. *)
Theorem mpi_newman_betweenness_batches (this_A : matrix Z) (V : matrix Q)
  (N start_i mid_i end_i : nat) :
  start_i <= mid_i -> mid_i <= end_i -> end_i <= N ->
  dims (end_i - start_i) N this_A -> binary this_A -> dims N N V ->
  exists whole part1 part2 mem mem1 mem2,
    _mpi_newman_betweenness this_A V N start_i end_i
    = Ok (mem, (whole, start_i, end_i)) /\
    _mpi_newman_betweenness (take (mid_i - start_i) this_A) V N start_i mid_i
    = Ok (mem1, (part1, start_i, mid_i)) /\
    _mpi_newman_betweenness (drop (mid_i - start_i) this_A) V N mid_i end_i
    = Ok (mem2, (part2, mid_i, end_i)) /\
    length whole = length (part1 ++ part2) /\
    forall i_rel, i_rel < end_i - start_i ->
      exists q q', whole !! i_rel = Some q /\
                   (part1 ++ part2) !! i_rel = Some q' /\ (q == q')%Q.
Proof.
  intros H1 H2 H3 HA Hbin HV.
  set (n := mid_i - start_i).
  assert (binary (take n this_A)) as Hbin1.
  { intros i j v Hv. destruct (decide (i < n)) as [Hi|Hi].
    - rewrite mget_take in Hv by done. by apply (Hbin i j).
    - apply mget_Ok in Hv as (row & Hrow & _).
      apply lookup_take_Some in Hrow as [_ ?]. lia. }
  assert (binary (drop n this_A)) as Hbin2.
  { intros i j v Hv. rewrite mget_drop in Hv. by apply (Hbin (n + i) j). }
  destruct (mpi_newman_betweenness_correct this_A V N start_i end_i
              ltac:(lia) H3 HA Hbin HV) as (whole & Hwhole & Hl & Hv).
  destruct (mpi_newman_betweenness_correct (take n this_A) V N start_i mid_i
              H1 ltac:(lia)) as (part1 & Hpart1 & Hl1 & Hv1); [|done..|].
  { apply (dims_take (end_i - start_i)); [done | lia]. }
  destruct (mpi_newman_betweenness_correct (drop n this_A) V N mid_i end_i
              H2 H3) as (part2 & Hpart2 & Hl2 & Hv2); [|done..|].
  { replace (end_i - mid_i) with (end_i - start_i - n) by lia.
    by apply dims_drop. }
  eexists whole, part1, part2, _, _, _.
  split; [exact Hwhole|]. split; [exact Hpart1|]. split; [exact Hpart2|].
  split; [rewrite length_app; lia|].
  intros i_rel Hi.
  destruct (Hv (i_rel + start_i)) as (q & Hq & Heq); [lia|].
  replace (i_rel + start_i - start_i) with i_rel in Hq by lia.
  exists q. destruct (decide (i_rel < n)) as [Hlo|Hhi].
  - destruct (Hv1 (i_rel + start_i)) as (q' & Hq' & Heq'); [lia|].
    replace (i_rel + start_i - start_i) with i_rel in Hq' by lia.
    exists q'. split; [done|]. split; [by rewrite lookup_app_l by lia|].
    rewrite Heq, Heq'. unfold newman_betweenness_of.
    apply sumQ_range_ext. intros j0 _.
    replace (i_rel + start_i - start_i) with i_rel by lia.
    unfold is_edge, entry. by rewrite mget_take.
  - destruct (Hv2 (i_rel + start_i)) as (q' & Hq' & Heq'); [lia|].
    exists q'. split; [done|]. split.
    + rewrite lookup_app_r by lia. rewrite <- Hq'. f_equal. lia.
    + rewrite Heq, Heq'. unfold newman_betweenness_of.
      apply sumQ_range_ext. intros j0 _.
      unfold is_edge, entry. rewrite mget_drop.
      by replace (n + (i_rel + start_i - mid_i))
        with (i_rel + start_i - start_i) by lia.
Qed.

Lemma mpi_newman_betweenness_batches_witness :
  let this_A := [[0; 1; 0]; [1; 0; 1]; [0; 1; 0]]%Z in
  let V := [[1; 0; 0]; [0; 1 # 2; 0]; [0; 0; 1]]%Q in
  exists whole part1 part2 mem mem1 mem2,
    _mpi_newman_betweenness this_A V 3 0 3 = Ok (mem, (whole, 0, 3)) /\
    _mpi_newman_betweenness (take (1 - 0) this_A) V 3 0 1
    = Ok (mem1, (part1, 0, 1)) /\
    _mpi_newman_betweenness (drop (1 - 0) this_A) V 3 1 3
    = Ok (mem2, (part2, 1, 3)) /\
    length whole = length (part1 ++ part2) /\
    forall i_rel, i_rel < 3 - 0 ->
      exists q q', whole !! i_rel = Some q /\
                   (part1 ++ part2) !! i_rel = Some q' /\ (q == q')%Q.
Proof.
  intros this_A V. apply mpi_newman_betweenness_batches.
  - lia.
  - lia.
  - lia.
  - split; [reflexivity | repeat constructor].
  - intros i j v. do 4 (try destruct i as [|i]); do 4 (try destruct j as [|j]);
      intros [= <-] || discriminate; auto.
  - split; [reflexivity | repeat constructor].
Defined.

(** ** network: the distances of the forward phase are shortest *)

Lemma relax_neighbor_distances (w : list Q) (offsets flat_neighbors : list nat)
  (i next_d x : nat) (st st' : bfs_state) :
  relax_neighbor w offsets flat_neighbors i next_d x st = Ok st' ->
  exists l dl,
    flat_neighbors !! x = Some l /\ distances_to_j st !! l = Some dl /\
    ((dl <= next_d /\ distances_to_j st' = distances_to_j st /\
      queue st' = queue st /\ queue_len st' = queue_len st) \/
     (next_d < dl /\
      distances_to_j st' = <[l := next_d]> (distances_to_j st) /\
      queue st' = <[queue_len st := l]> (queue st) /\
      queue_len st' = queue_len st + 1 /\
      queue_len st < length (queue st))).
Proof.
  unfold relax_neighbor. intros H.
  apply bind_Ok in H as (l & Hl%aget_Ok & H).
  apply bind_Ok in H as (dl & Hdl%aget_Ok & H).
  exists l, dl. split; [done|]. split; [done|].
  destruct (next_d <=? dl) eqn:Hge.
  2:{ injection H as <-. apply Nat.leb_gt in Hge. left.
      split; [lia | done]. }
  apply Nat.leb_le in Hge.
  do 8 (apply bind_Ok in H as (? & _ & H)).
  destruct (next_d <? dl) eqn:Hgt.
  - apply Nat.ltb_lt in Hgt.
    apply bind_Ok in H as (dist & [_ ->]%aset_Ok & H).
    apply bind_Ok in H as (q & [Hroom ->]%aset_Ok & [= <-]). cbn.
    right. done.
  - apply Nat.ltb_ge in Hgt. injection H as <-. cbn. left.
    split; [lia | done].
Qed.

Section ShortestDistances.

Variables (N : nat) (w : list Q) (k : list Z) (j : nat).
Variables (offsets flat_neighbors : list nat).

Hypothesis k_length : length k = N.
Hypothesis offsets_length : length offsets = N.

(** There is a walk of [n] steps from the source [j] to a node. *)
Inductive walk : nat -> nat -> Prop :=
| walk_source : walk 0 j
| walk_step (n i l : nat) :
    walk n i -> csr_edge k offsets flat_neighbors i l -> walk (S n) l.

(** The distances recorded so far: the source has distance 0, a queued
    node has a walk of the length recorded for it, and along every
    neighbour position passed the distance grows by at most 1. *)
Definition dist_inv (slots : list nat) (st : bfs_state) : Prop :=
  closed_inv j flat_neighbors slots st /\
  dist_of (distances_to_j st) j = 0 /\
  (forall v, v ∈ take (queue_len st) (queue st) ->
     walk (dist_of (distances_to_j st) v) v) /\
  forall idx l, idx ∈ slots -> flat_neighbors !! idx = Some l ->
    exists i, i ∈ take (queue_len st) (queue st) /\
      idx ∈ block k offsets i /\
      dist_of (distances_to_j st) l <= dist_of (distances_to_j st) i + 1.

Lemma dist_inv_relax (slots : list nat) (qi i next_d x : nat)
  (st st' : bfs_state) :
  visit_inv N k j offsets flat_neighbors qi i next_d st ->
  x ∈ block k offsets i ->
  dist_inv slots st ->
  relax_neighbor w offsets flat_neighbors i next_d x st = Ok st' ->
  dist_inv (slots ++ [x]) st'.
Proof.
  intros Hvisit Hx (Hclosed & Hj0 & Hsound & Hedges) Hrun.
  pose proof (closed_inv_relax N w k j offsets flat_neighbors slots qi i
                next_d x st st' Hvisit Hx Hclosed Hrun) as Hclosed'.
  destruct Hvisit as (Hinv & Hspan & Hqi & Hnode & Hnext).
  pose proof Hinv as (Hdl & Hql & Hle & _ & Hrange & _).
  assert (i ∈ take (queue_len st) (queue st)) as Hi.
  { rewrite <- Hnode. apply node_at_queued; lia. }
  assert (next_d = dist_of (distances_to_j st) i + 1) as Hnext'.
  { rewrite Hnext. unfold state_depth, depth. by rewrite Hnode. }
  destruct (relax_neighbor_prefix _ _ _ _ _ _ _ _ Hrun) as [Hpre Hlen].
  assert (forall v, v ∈ take (queue_len st) (queue st) ->
            v ∈ take (queue_len st') (queue st')) as Hmono
    by (intros v; by apply elem_of_take_mono).
  apply relax_neighbor_distances in Hrun
    as (l & dl & Hl & Hdl_l &
        [(Hle_d & Hd' & Hq' & Hql') | (Hlt_d & Hd' & Hq' & Hql' & Hroom)]).
  - (* the distances are as before *)
    split; [done|]. rewrite Hd', Hq', Hql'. split; [done|]. split; [done|].
    intros idx l0 [Hidx | ->%list_elem_of_singleton]%elem_of_app Hl0;
      [by apply Hedges|].
    exists i. split; [done|]. split; [done|].
    assert (l0 = l) as -> by congruence.
    unfold dist_of at 1. rewrite Hdl_l. simpl. lia.
  - (* [l] is new and gets the distance [next_d] *)
    assert (l ∉ take (queue_len st) (queue st)) as Hfresh.
    { intros (p & Hp & Hqp)%queued_position.
      specialize (Hspan p Hp). unfold depth, node_at, dist_of in Hspan.
      rewrite Hqp in Hspan. simpl in Hspan. rewrite Hdl_l in Hspan.
      simpl in Hspan. lia. }
    assert (forall v, v ∈ take (queue_len st) (queue st) ->
              dist_of (distances_to_j st') v = dist_of (distances_to_j st) v)
      as Hsame.
    { intros v Hv. rewrite Hd'. unfold dist_of.
      rewrite list_lookup_insert_ne; [done|]. by intros <-. }
    assert (dist_of (distances_to_j st') l = next_d) as Hnew.
    { rewrite Hd'. unfold dist_of.
      rewrite list_lookup_insert_eq by (by eapply lookup_lt_Some). done. }
    assert (csr_edge k offsets flat_neighbors i l) as Hedge.
    { destruct (Hrange i Hi) as [Hi_lt _].
      destruct (lookup_lt_is_Some_2 offsets i) as [oi Hoi]; [lia|].
      destruct (lookup_lt_is_Some_2 k i) as [ki Hki]; [lia|].
      unfold block in Hx. rewrite Hoi, Hki in Hx. simpl in Hx.
      apply elem_of_seq in Hx. exists oi, ki, x. done. }
    split; [done|]. split; [|split].
    + rewrite Hsame; [done|]. by destruct Hclosed.
    + intros v Hv. rewrite Hq', Hql', take_snoc_insert in Hv by done.
      apply elem_of_app in Hv as [Hv | ->%list_elem_of_singleton].
      * rewrite Hsame by done. by apply Hsound.
      * rewrite Hnew, Hnext', Nat.add_1_r.
        apply (walk_step _ i l); [by apply Hsound | done].
    + intros idx l0 [Hidx | ->%list_elem_of_singleton]%elem_of_app Hl0.
      * destruct (Hedges idx l0 Hidx Hl0) as (i0 & Hi0 & Hblock & Hd0).
        exists i0. split; [by apply Hmono|]. split; [done|].
        destruct Hclosed as [_ Hclosed].
        rewrite !Hsame; [done | done | by apply (Hclosed idx)].
      * exists i. split; [by apply Hmono|]. split; [done|].
        assert (l0 = l) as -> by congruence.
        rewrite Hnew, Hsame by done. lia.
Qed.

Lemma dist_inv_init (is_source : list Z) (betweenness excess : list Q)
  (flat_pred : list nat) (st0 : bfs_state) :
  forward_init N w j is_source betweenness excess flat_pred = Ok st0 ->
  dist_inv [] st0.
Proof.
  intros Hinit.
  pose proof (closed_inv_init N w j flat_neighbors is_source betweenness
                excess flat_pred st0 Hinit) as Hclosed.
  split; [done|]. revert Hinit. unfold forward_init.
  intros ([b e] & _ & H)%bind_Ok.
  apply bind_Ok in H as (dist & [Hj ->]%aset_Ok & H).
  apply bind_Ok in H as (q & [H0 ->]%aset_Ok & H).
  apply bind_Ok in H as (wj & _ & H).
  apply bind_Ok in H as (mult & _ & [= <-]).
  cbn [distances_to_j queue queue_len].
  rewrite length_replicate in Hj.
  assert (forall m, dist_of (<[j:=0]> (replicate N m)) j = 0) as Hj0.
  { intros m. unfold dist_of.
    by rewrite list_lookup_insert_eq by (by rewrite length_replicate). }
  split; [done|]. split.
  - rewrite length_replicate in H0.
    assert (take 1 (<[0:=j]> (replicate N 0)) = [j]) as ->.
    { destruct N as [|n]; [lia|]. done. }
    intros v ->%list_elem_of_singleton. rewrite Hj0. constructor.
  - intros idx l Hidx. by apply elem_of_nil in Hidx.
Qed.

Lemma forward_distances_shortest (is_source : list Z)
  (betweenness excess : list Q) (flat_pred : list nat) (st : bfs_state) :
  (forall i i' idx, i < N -> i' < N ->
     idx ∈ block k offsets i -> idx ∈ block k offsets i' -> i = i') ->
  nsi_betweenness_forward N w k j offsets flat_neighbors is_source
    betweenness excess flat_pred = Ok st ->
  (forall v, v ∈ take (queue_len st) (queue st) ->
     walk (dist_of (distances_to_j st) v) v) /\
  (forall n v, walk n v ->
     v ∈ take (queue_len st) (queue st) /\
     dist_of (distances_to_j st) v <= n).
Proof.
  intros Hdisj Hrun.
  pose proof (nsi_betweenness_forward_inv N w k j offsets flat_neighbors
                is_source betweenness excess flat_pred st Hrun)
    as (_ & _ & _ & _ & Hrange & _).
  destruct (nsi_betweenness_forward_preserves N w k j offsets flat_neighbors
              dist_inv dist_inv_relax is_source betweenness excess
              flat_pred st (dist_inv_init _ _ _ _) Hrun)
    as ([Hj Hclosed] & Hj0 & Hsound & Hedges).
  split; [done|].
  induction 1 as [|n i l Hwalk [Hi IH] (oi & ki & idx & Hoi & Hki & Hidx & Hl)].
  - split; [done | lia].
  - assert (idx ∈ block k offsets i) as Hblock.
    { unfold block. rewrite Hoi, Hki. simpl. apply elem_of_seq. lia. }
    assert (idx ∈ take (queue_len st) (queue st) ≫= block k offsets) as Hslot.
    { apply list_elem_of_bind. by exists i. }
    split; [by apply (Hclosed idx)|].
    destruct (Hedges idx l Hslot Hl) as (i0 & Hi0 & Hblock0 & Hd).
    assert (i0 = i) as ->.
    { apply (Hdisj i0 i idx); [by apply Hrange | by apply Hrange | done..]. }
    lia.
Qed.

End ShortestDistances.

(** The forward phase of [_nsi_betweenness] records shortest distances:
    when it returns on a neighbour structure whose blocks do not overlap,
    the distance of every queued node [v] is the length of a walk from [j]
    to [v] along the neighbour lists, and no walk from [j] to [v] is
    shorter. *)
Theorem nsi_betweenness_forward_distances (N : nat) (w : list Q) (k : list Z)
  (j : nat) (offsets flat_neighbors : list nat) (is_source : list Z)
  (betweenness excess : list Q) (flat_pred : list nat) (st : bfs_state) :
  length k = N -> length offsets = N ->
  (forall i i' idx, i < N -> i' < N ->
     idx ∈ block k offsets i -> idx ∈ block k offsets i' -> i = i') ->
  nsi_betweenness_forward N w k j offsets flat_neighbors is_source
    betweenness excess flat_pred = Ok st ->
  forall v d, v ∈ take (queue_len st) (queue st) ->
    distances_to_j st !! v = Some d ->
    walk k j offsets flat_neighbors d v /\
    forall n, walk k j offsets flat_neighbors n v -> d <= n.
Proof.
  intros Hk Hoff Hdisj Hrun v d Hv Hd.
  destruct (forward_distances_shortest N w k j offsets flat_neighbors Hk Hoff
              is_source betweenness excess flat_pred st Hdisj Hrun)
    as [Hsound Hmin].
  assert (dist_of (distances_to_j st) v = d) as <-
    by (unfold dist_of; by rewrite Hd).
  split; [by apply Hsound|]. intros n Hn. by apply (Hmin n v).
Qed.

Lemma nsi_betweenness_forward_distances_witness :
  let w := [1; 1; 1; 1]%Q in
  let k := [1; 2; 1; 0]%Z in
  let offsets := [0; 1; 3; 4] in
  let flat_neighbors := [1; 0; 2; 1] in
  let is_source := [1; 1; 1; 1]%Z in
  exists st,
    nsi_betweenness_forward 4 w k 0 offsets flat_neighbors is_source
      w w [0; 0; 0; 0] = Ok st /\
    distances_to_j st !! 2 = Some 2 /\
    walk k 0 offsets flat_neighbors 2 2 /\
    forall n, walk k 0 offsets flat_neighbors n 2 -> 2 <= n.
Proof.
  intros w k offsets flat_neighbors is_source.
  eexists. split; [vm_compute; reflexivity|].
  match goal with
  | |- distances_to_j ?st !! _ = _ /\ _ =>
      split; [vm_compute; reflexivity|];
      apply (nsi_betweenness_forward_distances 4 w k 0 offsets flat_neighbors
               is_source w w [0; 0; 0; 0] st eq_refl eq_refl)
  end.
  - intros i i' idx Hi Hi' Hidx Hidx'.
    do 4 (try destruct i as [|i]); try lia;
      do 4 (try destruct i' as [|i']); try lia; try reflexivity;
      vm_compute in Hidx; vm_compute in Hidx';
      list_cases Hidx; list_cases Hidx'.
  - vm_compute; reflexivity.
  - apply list_elem_of_lookup. exists 2. vm_compute; reflexivity.
  - vm_compute; reflexivity.
Defined.

(** ** network: a weight of zero on a node the search reaches *)



Section ZeroWeight.

Variables (N : nat) (w : list Q) (k : list Z) (j : nat).
Variables (offsets flat_neighbors : list nat).




Lemma forward_init_lengths (is_source : list Z) (betweenness excess : list Q)
  (flat_pred : list nat) (st0 : bfs_state) :
  forward_init N w j is_source betweenness excess flat_pred = Ok st0 ->
  length (betweenness_to_j st0) = length betweenness /\
  length (excess_to_j st0) = length excess.
Proof.
  unfold forward_init. intros ([b e] & Hloop & H)%bind_Ok.
  apply bind_Ok in H as (dist & _ & H).
  apply bind_Ok in H as (q & _ & H).
  apply bind_Ok in H as (wj & _ & H).
  apply bind_Ok in H as (mult & _ & [= <-]).
  cbn [betweenness_to_j excess_to_j].
  revert Hloop.
  apply (for_range_partial
    (fun _ (s : list Q * list Q) =>
       length s.1 = length betweenness /\ length s.2 = length excess));
    [lia | done |].
  intros i [b1 e1] s' _ [Hb1 He1] Hbody.
  apply bind_Ok in Hbody as (src & _ & Hbody).
  apply bind_Ok in Hbody as (wl & _ & Hbody).
  apply bind_Ok in Hbody as (e2 & [_ ->]%aset_Ok & Hbody).
  apply bind_Ok in Hbody as (b2 & [_ ->]%aset_Ok & [= <-]).
  cbn [fst snd] in *. by rewrite !length_insert.
Qed.

(** One pass of the backward loop either goes through or divides by a
    multiplicity of zero; it does the latter at a node other than [j]
    whose multiplicity is zero. *)
Lemma backward_visit_cases (st s : bfs_state) (n x : nat) :
  state_inv N k j offsets flat_neighbors st ->
  pred_inv N j offsets (betweenness_to_j st) (excess_to_j st) st ->
  length w = N -> length offsets = N ->
  n < queue_len st -> x = queue_len st - S n ->
  same_search st s ->
  length (betweenness_to_j s) = N -> length (excess_to_j s) = N ->
  ((exists s',
      backward_visit w j offsets x s = Ok s' /\
      same_search st s' /\
      length (betweenness_to_j s') = N /\ length (excess_to_j s') = N) \/
   backward_visit w j offsets x s = Raise ZeroDivisionError) /\
  (forall m, node_at (queue st) x <> j ->
     multiplicity_to_j st !! node_at (queue st) x = Some m -> (m == 0)%Q ->
     backward_visit w j offsets x s = Raise ZeroDivisionError).
Proof.
  intros Hinv (Hnpl & Hml & _ & _ & _ & _ & Hpreds) Hw Hoff Hn Hx
    (Hd & Hnp & Hq & Hql & Hm & Hfp) Hb He.
  pose proof Hinv as (Hdl & Hqlen & Hle & _ & Hrange & _).
  destruct (node_at_queued (queue st) (queue_len st) x) as [Hl Hl_in];
    [lia | lia |].
  set (l := node_at (queue st) x) in *.
  destruct (Hrange l Hl_in) as [Hl_lt _].
  unfold backward_visit. rewrite Hq, Hnp, Hm, Hfp.
  rewrite (proj2 (aget_Ok _ _ _) Hl). cbn [bind].
  destruct (l =? j) eqn:Hlj.
  - apply Nat.eqb_eq in Hlj. rewrite !aset_lt by lia. cbn [bind].
    split; [|done]. left.
    eexists. split; [done|]. unfold same_search. cbn.
    rewrite !length_insert. by rewrite Hd, Hql.
  - destruct (aget_lt w l) as (wl & -> & _); [lia|].
    destruct (aget_lt (multiplicity_to_j st) l) as (ml & -> & Hml_l); [lia|].
    cbn [bind]. unfold divide.
    destruct (Qeq_bool ml 0) eqn:Hz; cbn [bind];
      [split; [by right | done]|].
    split.
    2:{ intros m _ Hm' Hm0. assert (m = ml) as -> by congruence.
        apply Qeq_bool_iff in Hm0. congruence. }
    left.
    destruct (aget_lt offsets l) as (ol & -> & Hol); [lia|].
    destruct (aget_lt (n_predecessors st) l) as (np & -> & Hnp_l); [lia|].
    cbn [bind].
    destruct (for_range_total (fun _ b => length b = N) ol (ol + np)
      (fun fi betweenness =>
         i <- aget (flat_predecessors st) fi ;;
         bi <- aget betweenness i ;;
         bl <- aget betweenness l ;;
         mi <- aget (multiplicity_to_j st) i ;;
         aset betweenness i (bi + bl * (wl / ml) * mi)%Q)
      (betweenness_to_j s)) as (b' & -> & Hb'); [lia | done | |].
    + intros fi b Hfi Hlen.
      destruct (Hpreds l ol np (fi - ol) Hol Hnp_l ltac:(lia))
        as (i & Hi & Hqueued).
      replace (ol + (fi - ol)) with fi in Hi by lia.
      destruct (Hrange i Hqueued) as [Hi_lt _].
      rewrite (proj2 (aget_Ok _ _ _) Hi). cbn [bind].
      destruct (aget_lt b i) as (bi & -> & _); [lia|].
      destruct (aget_lt b l) as (bl & -> & _); [lia|].
      destruct (aget_lt (multiplicity_to_j st) i) as (mi & -> & _); [lia|].
      cbn [bind]. rewrite aset_lt by lia. eexists. split; [done|].
      by rewrite length_insert.
    + cbn [bind]. eexists. split; [done|]. unfold same_search. cbn.
      by rewrite Hd, Hql.
Qed.


End ZeroWeight.



(** ** network: the buffer accesses of the whole kernel *)

(** A loop whose body, while the invariant holds, either keeps it or
    raises [e], returns with the invariant or raises [e]. *)
Lemma for_each_returns_or_raises {St I : Type} (Inv : nat -> St -> Prop)
  (e : exn) (xs : list I) (body : I -> St -> result St) (s : St) :
  Inv 0 s ->
  (forall n x s, xs !! n = Some x -> Inv n s ->
     (exists s', body x s = Ok s' /\ Inv (S n) s') \/ body x s = Raise e) ->
  (exists s', for_each xs body s = Ok s' /\ Inv (length xs) s') \/
  for_each xs body s = Raise e.
Proof.
  revert Inv s. induction xs as [|x xs IH]; intros Inv s H0 Hstep.
  - left. by exists s.
  - simpl. destruct (Hstep 0 x s eq_refl H0) as [(s1 & -> & H1) | ->];
      [|by right].
    simpl. apply (IH (fun n => Inv (S n))); [done|].
    intros n y s2 Hy. apply (Hstep (S n)). done.
Qed.

(** On a well-formed neighbour structure with buffers of the right sizes
    [_nsi_betweenness] reads and writes inside its buffers, whatever the
    weights are: it returns, or else a multiplicity that the backward loop
    divides by is zero and it raises [ZeroDivisionError]. *)
Theorem nsi_betweenness_stays_in_bounds (N : nat) (w : list Q) (k : list Z)
  (j : nat) (offsets flat_neighbors : list nat) (is_source : list Z)
  (betweenness excess : list Q) (flat_pred : list nat) :
  neighbor_structure N k offsets flat_neighbors ->
  buffers_sized N w k j offsets is_source betweenness excess flat_pred ->
  (exists st,
     _nsi_betweenness N w k j offsets flat_neighbors is_source
       betweenness excess flat_pred = Ok st) \/
  _nsi_betweenness N w k j offsets flat_neighbors is_source
    betweenness excess flat_pred = Raise ZeroDivisionError.
Proof.
  intros Hstruct Hbuf.
  destruct (nsi_betweenness_forward_total N w k j offsets flat_neighbors
              is_source (length flat_pred) Hstruct) with
    (betweenness := betweenness) (excess := excess) (flat_pred := flat_pred)
    as (stf & Hfwd); try done.
  { by destruct Hbuf as (_ & ? & _). }
  { by destruct Hbuf as (_ & _ & _ & _ & _ & ?). }
  unfold _nsi_betweenness. rewrite Hfwd. cbn [bind].
  destruct (forward_phase_facts N w k j offsets flat_neighbors is_source
              betweenness excess flat_pred stf Hfwd) as (Hinv & Hpred & _).
  pose proof Hfwd as Hfwd'. unfold nsi_betweenness_forward in Hfwd'.
  apply bind_Ok in Hfwd' as (st0 & Hst0 & _).
  destruct (forward_init_lengths N w j is_source betweenness excess flat_pred
              st0 Hst0) as [Hb0 He0].
  pose proof (nsi_betweenness_forward_preserves N w k j offsets flat_neighbors
                (fun _ => pred_inv N j offsets (betweenness_to_j st0)
                            (excess_to_j st0))
                (pred_inv_relax N w k j offsets flat_neighbors _ _)
                is_source betweenness excess flat_pred stf) as Hkeep.
  destruct Hkeep as (_ & _ & Hb & He & _); [|done|].
  { intros st0' Hst0'. replace st0' with st0 by congruence.
    by destruct (forward_init_values N w j offsets is_source betweenness
                   excess flat_pred st0 Hst0). }
  destruct Hstruct as (_ & Hoff & _).
  destruct Hbuf as (_ & Hw & _ & Hbl & Hel & _).
  destruct (for_each_returns_or_raises
    (fun _ s => same_search stf s /\
                length (betweenness_to_j s) = N /\
                length (excess_to_j s) = N)
    ZeroDivisionError (rev (seq 0 (queue_len stf)))
    (backward_visit w j offsets) stf) as [(st & Hst & _) | Hraise].
  - split; [done|]. by rewrite Hb, Hb0, He, He0.
  - intros n x s [Hn Hx]%rev_seq_lookup (Hsame & Hbs & Hes).
    by apply (backward_visit_cases N w k j offsets flat_neighbors stf s n x).
  - left. by exists st.
  - by right.
Qed.

(** A run that returns and a run that divides by the multiplicity of a
    node of weight zero. *)
Lemma nsi_betweenness_stays_in_bounds_witness :
  let k := [1; 2; 1; 0]%Z in
  let offsets := [0; 1; 3; 4] in
  let flat_neighbors := [1; 0; 2; 1] in
  let is_source := [1; 1; 1; 1]%Z in
  let w := [1; 2; 1; 3]%Q in
  let w0 := [1; 2; 0; 3]%Q in
  ((exists st,
      _nsi_betweenness 4 w k 0 offsets flat_neighbors is_source
        w w [0; 0; 0; 0] = Ok st) \/
   _nsi_betweenness 4 w k 0 offsets flat_neighbors is_source
     w w [0; 0; 0; 0] = Raise ZeroDivisionError) /\
  (exists st,
     _nsi_betweenness 4 w k 0 offsets flat_neighbors is_source
       w w [0; 0; 0; 0] = Ok st) /\
  _nsi_betweenness 4 w0 k 0 offsets flat_neighbors is_source
    w0 w0 [0; 0; 0; 0] = Raise ZeroDivisionError.
Proof.
  intros k offsets flat_neighbors is_source w w0.
  split; [|split; [eexists; vm_compute; reflexivity | vm_compute; reflexivity]].
  apply nsi_betweenness_stays_in_bounds.
  - split; [reflexivity|]. split; [reflexivity|]. split; [|split].
    + intros i idx Hi Hidx.
      do 4 (try destruct i as [|i]); try lia; vm_compute in Hidx;
        list_cases Hidx; eexists; (split; [reflexivity | lia]).
    + intros i i' idx Hi Hi' Hidx Hidx'.
      do 4 (try destruct i as [|i]); try lia;
        do 4 (try destruct i' as [|i']); try lia; try reflexivity;
        vm_compute in Hidx; vm_compute in Hidx';
        list_cases Hidx; list_cases Hidx'.
    + intros l Hl. do 4 (try destruct l as [|l]); try lia; vm_compute; lia.
  - split; [lia|]. do 4 (split; [reflexivity|]).
    intros l Hl. do 4 (try destruct l as [|l]); try lia; vm_compute; lia.
Defined.
